(** * csvquery: index files, bloom filter, CSV scanner and query planner

    A shallow embedding of the Go sources of csvquery
    ([pkg/csvquery/...] and [go/internal/...]) and the properties of the
    specification that are checked against it.

    Conventions.
    - A Go [[]byte] or [string] is a [list byte]; a [[64]byte] key is a
      [list byte] of length 64 (see [wf_record]).
    - Go [int]/[int64] values that are lengths or file positions are [Z]
      or [nat]; conversions between signed and unsigned 64-bit integers
      and the hash arithmetic have their wrap-around written out.
    - In-memory writers never fail, so the [error] results of [io.Writer]
      calls are not modelled; read errors are.
    - Libraries outside the repository (LZ4, encoding/json, slices.SortFunc)
      are interfaces ([Class]) with a law of the library that the code
      relies on; a concrete instance of each is given and used wherever a
      closed term is evaluated. Of unicode/utf8 the decoding of one
      sequence is written out. *)

From Stdlib Require Import ZArith Lia Bool.
From Stdlib Require Import Strings.Byte DecimalString.
From stdpp Require Import base option list sorting gmap strings.

Local Open Scope Z_scope.

(** ** Bytes *)

Module Bytes.

#[global] Instance byte_eq_dec : EqDecision byte := Byte.byte_eq_dec.

#[global] Instance byte_countable : Countable byte :=
  inj_countable Byte.to_N Byte.of_N Byte.of_to_N.

#[global] Instance byte_inhabited : Inhabited byte := populate "000"%byte.

Definition byte_to_Z (b : byte) : Z := Z.of_N (Byte.to_N b).

(** Go's [byte(v)] conversion of an integer: the low 8 bits. *)
Definition byte_of_Z (z : Z) : byte :=
  default "000"%byte (Byte.of_N (Z.to_N (z mod 256))).

(** A Go string or byte-slice literal. *)
Definition bs (s : string) : list byte := String.list_byte_of_string s.

Definition QUOTE : byte := "034"%byte.
Definition COMMA : byte := ","%byte.
Definition NL : byte := "010"%byte.
Definition CR : byte := "013"%byte.
Definition NUL : byte := "000"%byte.

(** [bytes.Compare], which is also the order of Go strings. *)
Fixpoint bytesCompare (a b : list byte) : Z :=
  match a, b with
  | [], [] => 0
  | [], _ :: _ => -1
  | _ :: _, [] => 1
  | x :: a', y :: b' =>
      if byte_to_Z x <? byte_to_Z y then -1
      else if byte_to_Z y <? byte_to_Z x then 1
      else bytesCompare a' b'
  end.

(** [s <= t] and [s > t] on Go strings. *)
Definition strLe (s t : list byte) : bool := bytesCompare s t <=? 0.
Definition strGt (s t : list byte) : bool := 0 <? bytesCompare s t.

(** [bytes.TrimRight(b, "\x00")]. *)
Fixpoint trimRightNul (l : list byte) : list byte :=
  match l with
  | [] => []
  | b :: l' =>
      match trimRightNul l' with
      | [] => if decide (b = NUL) then [] else [b]
      | t => b :: t
      end
  end.

(** [binary.BigEndian.PutUint64] on a value already converted to [uint64],
    generalised to [n] bytes. *)
Fixpoint be_encode (n : nat) (v : Z) : list byte :=
  match n with
  | O => []
  | S n' => be_encode n' (v / 256) ++ [byte_of_Z v]
  end.

(** [binary.BigEndian.Uint64]. *)
Definition be_decode (b : list byte) : Z :=
  fold_left (fun acc x => acc * 256 + byte_to_Z x) b 0.

Definition uint64 (v : Z) : Z := v mod 2 ^ 64.
Definition int64 (v : Z) : Z :=
  let u := v mod 2 ^ 64 in if u <? 2 ^ 63 then u else u - 2 ^ 64.

Definition PutUint64 (v : Z) : list byte := be_encode 8 v.
Definition Uint64 (b : list byte) : Z := be_decode b.

Definition is_int64 (v : Z) : Prop := - 2 ^ 63 <= v < 2 ^ 63.

End Bytes.
Export Bytes.

(** ** Results of fallible code *)

(** [Err]: the Go function returns a non-nil [error]; [Panic]: a run-time
    panic (index out of range, negative length); [OutOfFuel]: the model's
    loop bound was too small (shown not to happen where a result is
    claimed). *)
Inductive result (A : Type) : Type :=
  | Ok (a : A)
  | Err
  | Panic
  | OutOfFuel.
Arguments Ok {A} a.
Arguments Err {A}.
Arguments Panic {A}.
Arguments OutOfFuel {A}.

#[global] Instance result_bind : MBind result := λ A B k m,
  match m with
  | Ok a => k a
  | Err => Err
  | Panic => Panic
  | OutOfFuel => OutOfFuel
  end.

#[global] Instance result_ret : MRet result := λ A a, Ok a.

(** ** package types *)

Module types.

Definition KeySize : nat := 64.
Definition RecordSize : nat := 64 + 8 + 8.

Record IndexRecord : Type := mkIndexRecord {
  Key : list byte;   (* [64]byte *)
  Offset : Z;        (* int64 *)
  Line : Z           (* int64 *)
}.

#[global] Instance IndexRecord_eq_dec : EqDecision IndexRecord.
Proof. solve_decision. Defined.

#[global] Instance IndexRecord_inhabited : Inhabited IndexRecord :=
  populate (mkIndexRecord (replicate 64 NUL) 0 0).

(** The values the Go type [IndexRecord] can hold. *)
Definition wf_record (r : IndexRecord) : Prop :=
  length (Key r) = KeySize ∧ is_int64 (Offset r) ∧ is_int64 (Line r).

End types.
Export types.

(** ** package storage: the 80-byte record codec *)

Module storage.

(** An [io.Reader] over decoded bytes; [Broken] is a stream whose reads
    fail (an LZ4 frame that does not decode). *)
Inductive Reader : Type :=
  | Stream (rest : list byte)
  | Broken.

#[global] Instance Reader_inhabited : Inhabited Reader := populate Broken.

Inductive ReadResult : Type :=
  | ReadOk (rec : IndexRecord) (r : Reader)
  | ReadEOF              (* io.EOF: no byte was read *)
  | ReadErr.             (* io.ErrUnexpectedEOF or a decoding error *)

(** The bytes [WriteRecord] puts in [buf[0:80]]. *)
Definition encodeRecord (rec : IndexRecord) : list byte :=
  Key rec ++ PutUint64 (uint64 (Offset rec)) ++ PutUint64 (uint64 (Line rec)).

Definition decodeRecord (buf : list byte) : IndexRecord :=
  {| Key := take 64 buf;
     Offset := int64 (Uint64 (take 8 (drop 64 buf)));
     Line := int64 (Uint64 (take 8 (drop 72 buf))) |}.

(** [ReadRecord]: [io.ReadFull] of 80 bytes, then decode. *)
Definition ReadRecord (reader : Reader) : ReadResult :=
  match reader with
  | Broken => ReadErr
  | Stream r =>
      if decide (length r = 0%nat) then ReadEOF
      else if decide (length r < RecordSize)%nat then ReadErr
      else ReadOk (decodeRecord (take RecordSize r)) (Stream (drop RecordSize r))
  end.

(** [WriteBatchRecords]: the bytes handed to [w.Write] (none for an empty
    batch). *)
Definition WriteBatchRecords (recs : list IndexRecord) : list byte :=
  mjoin (encodeRecord <$> recs).

(** [ReadBatchRecords]: [io.ReadFull] of [count * 80] bytes, then
    [count] records cut out of them; the records, and the reader after the
    call. [make] panics on a negative size, and so does the slicing in the
    loop when [count * 80] has wrapped around. A read of no byte succeeds
    on every reader. *)
Definition ReadBatchRecords (reader : Reader) (count : Z)
  : result (list IndexRecord * Reader) :=
  let totalBytes := int64 (count * Z.of_nat RecordSize) in
  if totalBytes <? 0 then Panic
  else
    let n := Z.to_nat totalBytes in
    match (if bool_decide (n = 0)%nat then Some ([], reader)
           else match reader with
                | Broken => None
                | Stream r =>
                    if decide (length r < n)%nat then None
                    else Some (take n r, Stream (drop n r))
                end) with
    | None => Err
    | Some (buf, reader') =>
        if (count <? 0) || negb (count * Z.of_nat RecordSize =? totalBytes) then Panic
        else
          Ok ((λ i, decodeRecord (take RecordSize (drop (i * RecordSize) buf)))
                <$> seq 0 (Z.to_nat count),
              reader')
    end.

End storage.
Export storage.

(** ** unicode/utf8: well-formed byte sequences *)

Module utf8.

(** [lo <= b && b <= hi]. *)
Definition between (lo hi : Z) (b : byte) : bool :=
  (lo <=? byte_to_Z b) && (byte_to_Z b <=? hi).

(** The table [first]: for a leading byte above ASCII, the size of the
    sequence and the accept range of its second byte; [None] for the bytes
    that begin no sequence (0x80-0xC1 and 0xF5-0xFF). *)
Definition first (p0 : byte) : option (nat * Z * Z) :=
  let z := byte_to_Z p0 in
  if (0xC2 <=? z) && (z <=? 0xDF) then Some (2%nat, 0x80, 0xBF)
  else if z =? 0xE0 then Some (3%nat, 0xA0, 0xBF)
  else if z =? 0xED then Some (3%nat, 0x80, 0x9F)
  else if (0xE1 <=? z) && (z <=? 0xEF) then Some (3%nat, 0x80, 0xBF)
  else if z =? 0xF0 then Some (4%nat, 0x90, 0xBF)
  else if (0xF1 <=? z) && (z <=? 0xF3) then Some (4%nat, 0x80, 0xBF)
  else if z =? 0xF4 then Some (4%nat, 0x80, 0x8F)
  else None.

(** [utf8.DecodeRune] (and [DecodeRuneInString]), as far as its callers
    here look at it: the size of the sequence at the head of [p] when it is
    well formed; [None] when the function returns [(RuneError, 1)], or
    [(RuneError, 0)] on the empty input. *)
Definition DecodeRune (p : list byte) : option nat :=
  match p with
  | [] => None
  | p0 :: p1 =>
      if byte_to_Z p0 <? 0x80 then Some 1%nat
      else
        match first p0 with
        | None => None
        | Some (sz, lo, hi) =>
            match p1 with
            | [] => None
            | b1 :: p2 =>
                if negb (between lo hi b1) then None
                else if bool_decide (sz ≤ 2)%nat then Some 2%nat
                else
                  match p2 with
                  | [] => None
                  | b2 :: p3 =>
                      if negb (between 0x80 0xBF b2) then None
                      else if bool_decide (sz ≤ 3)%nat then Some 3%nat
                      else
                        match p3 with
                        | [] => None
                        | b3 :: _ =>
                            if negb (between 0x80 0xBF b3) then None else Some 4%nat
                        end
                  end
            end
        end
  end.

(** The loop of [utf8.Valid]; [pending] bytes of a sequence that was
    found well formed are still to be passed. *)
Fixpoint validFrom (pending : nat) (p : list byte) : bool :=
  match p with
  | [] => true
  | _ :: p' =>
      match pending with
      | S n => validFrom n p'
      | O =>
          match DecodeRune p with
          | Some (S n) => validFrom n p'
          | _ => false
          end
      end
  end.

(** [utf8.Valid]. *)
Definition Valid (p : list byte) : bool := validFrom 0 p.

(** U+FFFD in UTF-8. *)
Definition RuneError : list byte := ["239"; "191"; "189"]%byte.

End utf8.

(** ** package index: block writer and block reader ([.cidx] files) *)

Module index.

Definition MagicCIDX : list byte := bs "CIDX".
Definition BlockTargetSize : Z := 64 * 1024.

Record BlockMeta : Type := mkBlockMeta {
  StartKey : list byte;   (* string *)
  Offset : Z;
  Length : Z;
  RecordCount : Z;
  IsDistinct : bool
}.

Record SparseIndex : Type := mkSparseIndex {
  Blocks : list BlockMeta
}.

#[global] Instance BlockMeta_inhabited : Inhabited BlockMeta :=
  populate (mkBlockMeta [] 0 0 0 false).

(** github.com/pierrec/lz4: a frame written by [lz4.Writer] and closed is
    read back by [lz4.Reader] as the bytes that were written. *)
Class Lz4 : Type := {
  lz4_compress : list byte → list byte;
  lz4_decompress : list byte → option (list byte);
  lz4_roundtrip : ∀ b, lz4_decompress (lz4_compress b) = Some b
}.

(** A Go string written by [json.Marshal] and read back by
    [json.Unmarshal]. The encoder copies the well-formed UTF-8 sequences
    (escaped or not) and writes the escape of U+FFFD for every byte at which
    [utf8.DecodeRuneInString] returns [(RuneError, 1)]; the decoder reads
    that escape as U+FFFD. [pending] bytes of a well-formed sequence are
    still to be copied. *)
Fixpoint jsonString (pending : nat) (s : list byte) : list byte :=
  match s with
  | [] => []
  | b :: s' =>
      match pending with
      | S n => b :: jsonString n s'
      | O =>
          match utf8.DecodeRune s with
          | Some (S n) => b :: jsonString n s'
          | _ => utf8.RuneError ++ jsonString 0 s'
          end
      end
  end.

(** A directory entry read back: the numbers and the flag are kept, the
    start key is the string that JSON gives back. *)
Definition jsonMeta (m : BlockMeta) : BlockMeta :=
  {| StartKey := jsonString 0 (StartKey m);
     Offset := Offset m;
     Length := Length m;
     RecordCount := RecordCount m;
     IsDistinct := IsDistinct m |}.

(** encoding/json on the directory: [json.Unmarshal] of what
    [json.Marshal] produced gives the directory back, except that a start
    key that is not valid UTF-8 comes back with U+FFFD in the place of
    every offending byte. *)
Class Json : Type := {
  json_marshal : SparseIndex → list byte;
  json_unmarshal : list byte → option SparseIndex;
  json_roundtrip : ∀ d,
    json_unmarshal (json_marshal d) = Some (mkSparseIndex (jsonMeta <$> Blocks d))
}.

(** [lz4.NewReader(bytes.NewReader(b))]. *)
Definition lz4_NewReader `{Lz4} (b : list byte) : Reader :=
  match lz4_decompress b with
  | Some raw => Stream raw
  | None => Broken
  end.

Record BlockWriter : Type := mkBlockWriter {
  w : list byte;                  (* what the underlying writer received *)
  buffer : list IndexRecord;
  currentSize : Z;
  sparseIndex : SparseIndex;
  offset : Z
}.

Definition NewBlockWriter (out : list byte) : BlockWriter :=
  let n := Z.of_nat (length MagicCIDX) in
  {| w := out ++ MagicCIDX;
     buffer := [];
     currentSize := 0;
     sparseIndex := mkSparseIndex [];
     offset := n |}.

Definition FlushBlock `{Lz4} (bw : BlockWriter) : BlockWriter :=
  match buffer bw with
  | [] => bw
  | first :: rest =>
      let rawBuf := WriteBatchRecords (buffer bw) in
      let compressedBytes := lz4_compress rawBuf in
      let keyStr := trimRightNul (Key first) in
      let isDistinct := forallb (λ r, bool_decide (Key first = Key r)) rest in
      let meta :=
        {| StartKey := keyStr;
           Offset := offset bw;
           Length := Z.of_nat (length compressedBytes);
           RecordCount := Z.of_nat (length (buffer bw));
           IsDistinct := isDistinct |} in
      {| w := w bw ++ compressedBytes;
         buffer := [];
         currentSize := 0;
         sparseIndex := mkSparseIndex (Blocks (sparseIndex bw) ++ [meta]);
         offset := offset bw + Z.of_nat (length compressedBytes) |}
  end.

Definition WriteRecord `{Lz4} (bw : BlockWriter) (rec : IndexRecord) : BlockWriter :=
  let bw1 :=
    {| w := w bw;
       buffer := buffer bw ++ [rec];
       currentSize := currentSize bw + Z.of_nat (length (Key rec)) + 16;
       sparseIndex := sparseIndex bw;
       offset := offset bw |} in
  if BlockTargetSize <=? currentSize bw1 then FlushBlock bw1 else bw1.

Definition Close `{Lz4} `{Json} (bw : BlockWriter) : BlockWriter :=
  let bw1 := FlushBlock bw in
  let footerBytes := json_marshal (sparseIndex bw1) in
  let n := Z.of_nat (length footerBytes) in
  {| w := w bw1 ++ footerBytes ++ PutUint64 (uint64 n);
     buffer := buffer bw1;
     currentSize := currentSize bw1;
     sparseIndex := sparseIndex bw1;
     offset := offset bw1 |}.

Record BlockReader : Type := mkBlockReader {
  r : list byte;        (* the file behind the io.ReadSeeker *)
  Footer : SparseIndex
}.

(** [Seek] to [pos], then [io.ReadFull] of [n] bytes. A seek past the end
    of the file succeeds, as the operating system lets it; the largest
    offset of the file system, beyond which a seek fails, is not modelled
    (every position is taken to lie below it). *)
Definition readFullAt (file : list byte) (pos : Z) (n : Z) : result (list byte) :=
  if pos <? 0 then Err                      (* Seek to a negative position *)
  else if n <? 0 then Panic                 (* make / reslice with a negative length *)
  else
    let got := take (Z.to_nat n) (drop (Z.to_nat pos) file) in
    if decide (length got = Z.to_nat n) then Ok got else Err.

Definition NewBlockReader `{Json} (file : list byte) : result BlockReader :=
  let size := Z.of_nat (length file) in
  lenBytes ← readFullAt file (size - 8) 8;
  let footerLen := int64 (Uint64 lenBytes) in
  footerBytes ← readFullAt file (size - (8 + footerLen)) footerLen;
  match json_unmarshal footerBytes with
  | Some footer => Ok {| r := file; Footer := footer |}
  | None => Err
  end.

(** The loop of [ReadBlock]: records until [io.EOF]. *)
Fixpoint readRecords (fuel : nat) (lr : Reader) (recBuf : list IndexRecord)
  : result (list IndexRecord) :=
  match fuel with
  | O => OutOfFuel
  | S fuel' =>
      match ReadRecord lr with
      | ReadEOF => Ok recBuf
      | ReadErr => Err
      | ReadOk rec lr' => readRecords fuel' lr' (recBuf ++ [rec])
      end
  end.

(** Every successful [ReadRecord] consumes 80 bytes, so the loop runs at
    most once per byte left in the stream, plus the final [io.EOF]. *)
Definition reader_fuel (lr : Reader) : nat :=
  match lr with
  | Stream raw => S (length raw)
  | Broken => 1
  end.

Definition ReadBlock `{Lz4} (br : BlockReader) (meta : BlockMeta)
  : result (list IndexRecord) :=
  compBuf ← readFullAt (r br) (Offset meta) (Length meta);
  let lr := lz4_NewReader compBuf in
  readRecords (reader_fuel lr) lr [].

(** *** Bloom filter *)

(** hash/crc32: [crc32.ChecksumIEEE] returns a [uint32]. *)
Class Crc32 : Type := {
  ChecksumIEEE : list byte → Z;
  ChecksumIEEE_range : ∀ b, 0 <= ChecksumIEEE b < 2 ^ 32
}.

(** The two [float64] expressions of [NewBloomFilter] are not interpreted:
    [bloom_m n fpRate] stands for
    [-float64(n) * ln(fpRate) / 0.4804] (after the defaults for [n] and
    [fpRate]) and [bloom_k m n] for [float64(m) / float64(n) * 0.693],
    both converted to [int]. *)
Class Float64Ops : Type := {
  float64 : Type;
  bloom_m : Z → float64 → Z;
  bloom_k : Z → Z → Z
}.

Record BloomFilter : Type := mkBloomFilter {
  bits : list byte;
  size : Z;
  hashCount : Z;
  count : Z
}.

Definition NewBloomFilter `{Float64Ops} (n : Z) (fpRate : float64)
  : result BloomFilter :=
  let n := if n <? 1 then 1 else n in
  let m := int64 (bloom_m n fpRate) in
  let m := if m <? 1024 then 1024 else m in
  let m := int64 (Z.quot (int64 (m + 7)) 8 * 8) in
  let k := int64 (bloom_k m n) in
  let k := if k <? 1 then 1 else k in
  let k := if 10 <? k then 10 else k in
  if Z.quot m 8 <? 0 then Panic          (* make([]byte, m/8) *)
  else Ok {| bits := replicate (Z.to_nat (Z.quot m 8)) NUL;
             size := m;
             hashCount := k;
             count := 0 |}.

(** The loop of [appendReversed]: swap [dst[i]] and [dst[j]] while [i < j]. *)
Fixpoint reverseLoop (fuel : nat) (dst : list byte) (i j : nat) : list byte :=
  match fuel with
  | O => dst
  | S fuel' =>
      if decide (i < j)%nat then
        match dst !! i, dst !! j with
        | Some x, Some y => reverseLoop fuel' (<[i:=y]> (<[j:=x]> dst)) (i + 1) (j - 1)
        | _, _ => dst
        end
      else dst
  end.

Definition appendReversed (dst s : list byte) : list byte :=
  let start := length dst in
  let dst := dst ++ s in
  reverseLoop (length s) dst start (length dst - 1).

(** [h1] and [h2] of [Add] and [MightContain]. *)
Definition bloomHashes `{Crc32} (key : list byte) : Z * Z :=
  let h1 := ChecksumIEEE key in
  let reversed := appendReversed [] key ++ bs "salt" in
  let h2 := ChecksumIEEE reversed in
  (h1, h2).

(** [pos] for the [i]-th hash. *)
Definition bloomPos (bf : BloomFilter) (h1 h2 i : Z) : result Z :=
  let combined := int64 (h1 + int64 (i * h2)) in
  let combined := if combined <? 0 then int64 (- combined) else combined in
  if size bf =? 0 then Panic else Ok (Z.rem combined (size bf)).

(** [bf.bits[byteIdx] |= (1 << bitIdx)]. *)
Definition setBit (bits : list byte) (pos : Z) : result (list byte) :=
  let byteIdx := Z.quot pos 8 in
  let bitIdx := Z.rem pos 8 in
  if (byteIdx <? 0) || (bitIdx <? 0) then Panic
  else match bits !! Z.to_nat byteIdx with
       | Some b =>
           Ok (<[Z.to_nat byteIdx := byte_of_Z (Z.lor (byte_to_Z b) (Z.shiftl 1 bitIdx))]> bits)
       | None => Panic
       end.

(** [(bf.bits[byteIdx] & (1 << bitIdx)) == 0]. *)
Definition bitIsZero (bits : list byte) (pos : Z) : result bool :=
  let byteIdx := Z.quot pos 8 in
  let bitIdx := Z.rem pos 8 in
  if (byteIdx <? 0) || (bitIdx <? 0) then Panic
  else match bits !! Z.to_nat byteIdx with
       | Some b => Ok (Z.land (byte_to_Z b) (byte_to_Z (byte_of_Z (Z.shiftl 1 bitIdx))) =? 0)
       | None => Panic
       end.

(** [for i := 0; i < bf.hashCount; i++] of [Add], entered at [i] with
    [todo] iterations left. *)
Fixpoint addLoop (todo : nat) (bf : BloomFilter) (h1 h2 i : Z) (bits : list byte)
  : result (list byte) :=
  match todo with
  | O => Ok bits
  | S todo' =>
      pos ← bloomPos bf h1 h2 i;
      bits' ← setBit bits pos;
      addLoop todo' bf h1 h2 (i + 1) bits'
  end.

Definition Add `{Crc32} (bf : BloomFilter) (key : list byte) : result BloomFilter :=
  let '(h1, h2) := bloomHashes key in
  bits' ← addLoop (Z.to_nat (hashCount bf)) bf h1 h2 0 (bits bf);
  Ok {| bits := bits'; size := size bf; hashCount := hashCount bf;
        count := int64 (count bf + 1) |}.

Fixpoint mightContainLoop (todo : nat) (bf : BloomFilter) (h1 h2 i : Z) : result bool :=
  match todo with
  | O => Ok true
  | S todo' =>
      pos ← bloomPos bf h1 h2 i;
      z ← bitIsZero (bits bf) pos;
      if (z : bool) then Ok false else mightContainLoop todo' bf h1 h2 (i + 1)
  end.

Definition MightContain `{Crc32} (bf : BloomFilter) (key : list byte) : result bool :=
  let '(h1, h2) := bloomHashes key in
  mightContainLoop (Z.to_nat (hashCount bf)) bf h1 h2 0.

Definition Serialize (bf : BloomFilter) : list byte :=
  let header := PutUint64 (uint64 (size bf)) ++ PutUint64 (uint64 (hashCount bf))
                ++ PutUint64 (uint64 (count bf)) in
  header ++ bits bf.

Definition DeserializeBloom (data : list byte) : option BloomFilter :=
  if decide (length data < 24)%nat then None
  else
    let size := int64 (Uint64 (take 8 data)) in
    let hashCount := int64 (Uint64 (take 8 (drop 8 data))) in
    let count := int64 (Uint64 (take 8 (drop 16 data))) in
    Some {| bits := drop 24 data; size := size; hashCount := hashCount; count := count |}.

(** [LoadBloomFilterMmap] on the contents of the bloom file (the mapping is
    the file's bytes). *)
Definition LoadBloomFilterMmap (file : list byte) : result BloomFilter :=
  match DeserializeBloom file with
  | Some bloom => Ok bloom
  | None => Err
  end.

(** *** External sorter *)

(** The comparator that [flushChunk] passes to [slices.SortFunc]. *)
Definition recordCmp (a b : IndexRecord) : Z :=
  let cmp := bytesCompare (Key a) (Key b) in
  if negb (cmp =? 0) then cmp
  else if types.Offset a <? types.Offset b then -1
  else if types.Offset b <? types.Offset a then 1
  else 0.

(** [slices.SortFunc] with that comparator: the slice is permuted so that
    no element compares greater than a later one. The sort is not stable. *)
Class SortFunc : Type := {
  sortRecords : list IndexRecord → list IndexRecord;
  sortRecords_perm : ∀ l, sortRecords l ≡ₚ l;
  sortRecords_sorted : ∀ l, StronglySorted (λ a b, recordCmp a b <= 0) (sortRecords l)
}.

Record Sorter : Type := mkSorter {
  chunkSize : Z;
  chunkFiles : list (list byte);   (* contents of chunk_0.tmp, chunk_1.tmp, ... *)
  totalRecords : Z;
  bytesWritten : Z;
  memBuffer : list IndexRecord;
  chunkDistincts : list Z;
  bloom : option BloomFilter
}.

Definition NewSorter (memoryLimit : Z) (bloom : option BloomFilter) : Sorter :=
  let chunkSize := Z.quot memoryLimit 100 in
  let chunkSize := if chunkSize <? 1000 then 1000 else chunkSize in
  {| chunkSize := chunkSize; chunkFiles := []; totalRecords := 0;
     bytesWritten := 0; memBuffer := []; chunkDistincts := []; bloom := bloom |}.

(** The distinct-key count of a sorted chunk ([for i, rec := range]). *)
Fixpoint countDistinct (recs : list IndexRecord) (first : bool)
    (lastKey : list byte) (distinctCount : Z) : Z :=
  match recs with
  | [] => distinctCount
  | rec :: recs' =>
      if first || negb (bool_decide (Key rec = lastKey))
      then countDistinct recs' false (Key rec) (distinctCount + 1)
      else countDistinct recs' false lastKey distinctCount
  end.

Definition flushChunk `{Lz4} `{SortFunc} (s : Sorter) : Sorter :=
  match memBuffer s with
  | [] => s
  | _ :: _ =>
      let sorted := sortRecords (memBuffer s) in
      let distinctCount := countDistinct sorted true (replicate 64 NUL) 0 in
      let chunk := lz4_compress (WriteBatchRecords sorted) in
      {| chunkSize := chunkSize s;
         chunkFiles := chunkFiles s ++ [chunk];
         totalRecords := totalRecords s;
         bytesWritten := bytesWritten s + Z.of_nat (length sorted) * Z.of_nat RecordSize;
         memBuffer := [];
         chunkDistincts := chunkDistincts s ++ [distinctCount];
         bloom := bloom s |}
  end.

Definition SorterAdd `{Lz4} `{SortFunc} (s : Sorter) (record : IndexRecord) : Sorter :=
  let s1 :=
    {| chunkSize := chunkSize s; chunkFiles := chunkFiles s;
       totalRecords := totalRecords s + 1; bytesWritten := bytesWritten s;
       memBuffer := memBuffer s ++ [record];
       chunkDistincts := chunkDistincts s; bloom := bloom s |} in
  if chunkSize s1 <=? Z.of_nat (length (memBuffer s1)) then flushChunk s1 else s1.

Record mergeItem : Type := mkMergeItem {
  record : IndexRecord;
  source : nat
}.

#[global] Instance mergeItem_inhabited : Inhabited mergeItem :=
  populate (mkMergeItem inhabitant 0).

(** [manualHeap]: a binary min-heap in a slice. *)
Abbreviation manualHeap := (list mergeItem).

Definition Less (m other : mergeItem) : bool :=
  let cmp := bytesCompare (Key (record m)) (Key (record other)) in
  if negb (cmp =? 0) then cmp <? 0
  else types.Offset (record m) <? types.Offset (record other).

(** [h[i], h[j] = h[j], h[i]]; the callers keep [i] and [j] in range. *)
Definition Swap (h : manualHeap) (i j : nat) : manualHeap :=
  <[i := h !!! j]> (<[j := h !!! i]> h).

(** The loop of [up], entered at [j]. *)
Fixpoint upLoop (fuel : nat) (h : manualHeap) (j : nat) : manualHeap :=
  match fuel with
  | O => h
  | S fuel' =>
      let i := ((j - 1) / 2)%nat in
      if bool_decide (i = j) || negb (Less (h !!! j) (h !!! i)) then h
      else upLoop fuel' (Swap h i j) i
  end.

(** [j] decreases at every iteration that does not break. *)
Definition up (h : manualHeap) (j : nat) : manualHeap := upLoop (S j) h j.

(** The loop of [down], entered at [i]. *)
Fixpoint downLoop (fuel : nat) (h : manualHeap) (i n : nat) : manualHeap :=
  match fuel with
  | O => h
  | S fuel' =>
      let j1 := (2 * i + 1)%nat in
      if bool_decide (n ≤ j1)%nat then h
      else
        let j2 := (j1 + 1)%nat in
        let j := if bool_decide (j2 < n)%nat && Less (h !!! j2) (h !!! j1)
                 then j2 else j1 in
        if negb (Less (h !!! j) (h !!! i)) then h
        else downLoop fuel' (Swap h j i) j n
  end.

(** [i] increases at every iteration that does not break, and the loop
    breaks once [2*i+1 >= n]. *)
Definition down (h : manualHeap) (i0 n : nat) : manualHeap := downLoop n h i0 n.

Definition Push (h : manualHeap) (x : mergeItem) : manualHeap :=
  let h := h ++ [x] in
  up h (length h - 1).

Definition Pop (h : manualHeap) : mergeItem * manualHeap :=
  let old := h in
  let n := length old in
  let x := old !!! 0%nat in
  let old := <[0%nat := old !!! (n - 1)%nat]> old in
  let h := take (n - 1) old in
  (x, down h 0 (n - 1)).

(** The first loop of [kWayMerge]: the first record of every chunk. *)
Fixpoint initHeap (i : nat) (todo : nat) (readers : list Reader) (h : manualHeap)
  : manualHeap * list Reader :=
  match todo with
  | O => (h, readers)
  | S todo' =>
      match ReadRecord (readers !!! i) with
      | ReadOk rec lr' =>
          initHeap (S i) todo' (<[i := lr']> readers) (h ++ [mkMergeItem rec i])
      | _ => initHeap (S i) todo' readers h
      end
  end.

(** [for i := n/2 - 1; i >= 0; i--  { h.down(i, n) }]. *)
Definition heapify (h : manualHeap) : manualHeap :=
  let n := length h in
  foldl (λ h i, down h i n) h (reverse (seq 0 (n / 2))).

Record mergeState : Type := mkMergeState {
  mHeap : manualHeap;
  mReaders : list Reader;
  mWriter : BlockWriter;
  mDistinctCount : Z;
  mLastKey : list byte;
  mFirstRecord : bool;
  mBloom : option BloomFilter;
  mMergedRecords : Z
}.

(** One iteration of [for len(h) > 0]. *)
Definition mergeStep `{Lz4} `{Crc32} (st : mergeState) : result mergeState :=
  let '(item, h) := Pop (mHeap st) in
  let rec := record item in
  let isNew := mFirstRecord st || negb (bool_decide (Key rec = mLastKey st)) in
  bloom' ← (if isNew then
              match mBloom st with
              | Some bf => bf' ← Add bf (trimRightNul (Key rec)); Ok (Some bf')
              | None => Ok None
              end
            else Ok (mBloom st));
  let writer := WriteRecord (mWriter st) rec in
  let '(h, readers) :=
    match ReadRecord (mReaders st !!! source item) with
    | ReadOk nextRec lr' =>
        (Push h (mkMergeItem nextRec (source item)),
         <[source item := lr']> (mReaders st))
    | _ => (h, mReaders st)
    end in
  Ok {| mHeap := h; mReaders := readers; mWriter := writer;
        mDistinctCount := if isNew then mDistinctCount st + 1 else mDistinctCount st;
        mLastKey := if isNew then Key rec else mLastKey st;
        mFirstRecord := if isNew then false else mFirstRecord st;
        mBloom := bloom';
        mMergedRecords := mMergedRecords st + 1 |}.

Fixpoint mergeLoop `{Lz4} `{Crc32} (fuel : nat) (st : mergeState) : result mergeState :=
  match mHeap st with
  | [] => Ok st
  | _ :: _ =>
      match fuel with
      | O => OutOfFuel
      | S fuel' => st' ← mergeStep st; mergeLoop fuel' st'
      end
  end.

(** [kWayMerge] returns the distinct count; the model also returns the
    output file and the bloom filter it has fed. Every iteration of the
    merge loop consumes one record of 80 bytes. *)
Definition kWayMerge `{Lz4} `{Json} `{Crc32} (s : Sorter)
  : result (Z * list byte * option BloomFilter) :=
  let k := length (chunkFiles s) in
  let readers := lz4_NewReader <$> chunkFiles s in
  let writer := NewBlockWriter [] in
  let '(h, readers) := initHeap 0 k readers [] in
  let h := heapify h in
  let fuel := foldr (λ lr acc, reader_fuel lr + acc)%nat (length h) readers in
  st ← mergeLoop fuel
         {| mHeap := h; mReaders := readers; mWriter := writer;
            mDistinctCount := 0; mLastKey := replicate 64 NUL;
            mFirstRecord := true; mBloom := bloom s; mMergedRecords := 0 |};
  let writer := Close (mWriter st) in
  Ok (mDistinctCount st, w writer, mBloom st).

(** [Finalize]: the distinct count, with the output file as written and
    the bloom filter. With no chunk the output file is created empty. *)
Definition Finalize `{Lz4} `{Json} `{Crc32} `{SortFunc} (s : Sorter)
  : result (Z * list byte * option BloomFilter) :=
  let s := flushChunk s in
  match chunkFiles s with
  | [] => Ok (0, [], bloom s)
  | _ :: _ => kWayMerge s
  end.

(** *** Disk index: search over the sparse directory *)

Record DiskIndex : Type := mkDiskIndex {
  reader : BlockReader;
  idxBloom : option BloomFilter      (* the field [bloom] of [DiskIndex] *)
}.

(** [OpenDiskIndex] on the contents of the index file and of the bloom file
    beside it, when there is one. A bloom file that does not load is
    ignored. *)
Definition OpenDiskIndex `{Json} (file : list byte) (bloomFile : option (list byte))
  : result DiskIndex :=
  br ← NewBlockReader file;
  let bloom :=
    match bloomFile with
    | Some data =>
        match LoadBloomFilterMmap data with
        | Ok b => Some b
        | _ => None
        end
    | None => None
    end in
  Ok {| reader := br; idxBloom := bloom |}.

Definition ApproximateCount (idx : DiskIndex) : Z :=
  foldl (λ total block, int64 (total + RecordCount block)) 0
    (Blocks (Footer (reader idx))).

(** The binary search of [findStartBlock]: [for left <= right]. The
    interval shrinks at every iteration. *)
Fixpoint searchLoop (fuel : nat) (blocks : list BlockMeta) (key : list byte)
    (left right result : Z) : Z :=
  match fuel with
  | O => result
  | S fuel' =>
      if left <=? right then
        let mid := Z.quot (left + right) 2 in
        if strLe (StartKey (blocks !!! Z.to_nat mid)) key
        then searchLoop fuel' blocks key (mid + 1) right mid
        else searchLoop fuel' blocks key left (mid - 1) result
      else result
  end.

(** [for result > 0 && blocks[result-1].StartKey == key { result-- }]. *)
Fixpoint backUp (blocks : list BlockMeta) (key : list byte) (result : nat) : nat :=
  match result with
  | O => O
  | S result' =>
      if bool_decide (StartKey (blocks !!! result') = key)
      then backUp blocks key result'
      else result
  end.

(** [findStartBlock] on the directory; also the body of
    [QueryEngine.findStartBlock]. *)
Definition findStartBlockIn (blocks : list BlockMeta) (key : list byte) : Z :=
  let result :=
    searchLoop (S (length blocks)) blocks key 0 (Z.of_nat (length blocks) - 1) (-1) in
  if result =? -1 then -1
  else
    let targetKey := StartKey (blocks !!! Z.to_nat result) in
    if bool_decide (targetKey = key)
    then Z.of_nat (backUp blocks key (Z.to_nat result))
    else result.

Definition findStartBlock (idx : DiskIndex) (key : list byte) : Z :=
  findStartBlockIn (Blocks (Footer (reader idx))) key.

(** [for keyLen > 0 && key[keyLen-1] == 0 { keyLen-- }]. *)
Fixpoint trimmedLen (key : list byte) (keyLen : nat) : nat :=
  match keyLen with
  | O => O
  | S k => if bool_decide (key !!! k = NUL) then trimmedLen key k else keyLen
  end.

Definition compareRecordKey (key : list byte) (searchKey : list byte) : Z :=
  let keyLen := trimmedLen key 64 in
  bytesCompare (take keyLen key) searchKey.

Record diskIterator : Type := mkDiskIterator {
  idx : DiskIndex;
  searchKey : list byte;
  scanMode : bool;
  currentBlock : nat;
  records : list IndexRecord;
  recordIndex : nat;
  totalBlocks : nat;
  currentRecord : IndexRecord;
  err : bool;             (* [it.err != nil] *)
  itDone : bool           (* the field [done] *)
}.

Inductive Iterator : Type :=
  | EmptyIterator
  | DiskIterator (it : diskIterator).

Definition Search `{Crc32} (idx : DiskIndex) (key : list byte) : result Iterator :=
  present ← match idxBloom idx with
            | Some bloom => MightContain bloom key
            | None => Ok true
            end;
  if negb present then Ok EmptyIterator
  else
    let startBlockIdx := findStartBlock idx key in
    if startBlockIdx =? -1 then Ok EmptyIterator
    else Ok (DiskIterator
               {| idx := idx; searchKey := key; scanMode := false;
                  currentBlock := Z.to_nat startBlockIdx; records := [];
                  recordIndex := 0; totalBlocks := length (Blocks (Footer (reader idx)));
                  currentRecord := inhabitant; err := false; itDone := false |}).

Definition Scan (idx : DiskIndex) : Iterator :=
  DiskIterator
    {| idx := idx; searchKey := []; scanMode := true; currentBlock := 0;
       records := []; recordIndex := 0;
       totalBlocks := length (Blocks (Footer (reader idx)));
       currentRecord := inhabitant; err := false; itDone := false |}.

Definition setDone (it : diskIterator) : diskIterator :=
  {| idx := idx it; searchKey := searchKey it; scanMode := scanMode it;
     currentBlock := currentBlock it; records := records it;
     recordIndex := recordIndex it; totalBlocks := totalBlocks it;
     currentRecord := currentRecord it; err := err it; itDone := true |}.

(** The [for] loop of [Next]. Every iteration reads a block or takes a
    record; [fuel] bounds their number. *)
Fixpoint nextLoop `{Lz4} (fuel : nat) (it : diskIterator) : result (bool * diskIterator) :=
  match fuel with
  | O => OutOfFuel
  | S fuel' =>
      let load : result (option diskIterator) :=
        if bool_decide (length (records it) ≤ recordIndex it)%nat then
          if bool_decide (totalBlocks it ≤ currentBlock it)%nat then Ok None
          else
            match Blocks (Footer (reader (idx it))) !! currentBlock it with
            | None => Panic
            | Some blockMeta =>
                if negb (scanMode it) && strGt (StartKey blockMeta) (searchKey it)
                then Ok None
                else
                  match ReadBlock (reader (idx it)) blockMeta with
                  | Ok recs =>
                      Ok (Some {| idx := idx it; searchKey := searchKey it;
                                  scanMode := scanMode it;
                                  currentBlock := S (currentBlock it);
                                  records := recs; recordIndex := 0;
                                  totalBlocks := totalBlocks it;
                                  currentRecord := currentRecord it;
                                  err := false; itDone := false |})
                  | Err =>
                      Ok (Some {| idx := idx it; searchKey := searchKey it;
                                  scanMode := scanMode it;
                                  currentBlock := currentBlock it;
                                  records := records it; recordIndex := recordIndex it;
                                  totalBlocks := totalBlocks it;
                                  currentRecord := currentRecord it;
                                  err := true; itDone := false |})
                  | Panic => Panic
                  | OutOfFuel => OutOfFuel
                  end
            end
        else Ok (Some it) in
      o ← load;
      match o with
      | None => Ok (false, setDone it)
      | Some it1 =>
          if err it1 then Ok (false, it1)
          else
            match records it1 !! recordIndex it1 with
            | None => nextLoop fuel' it1
            | Some rec =>
                let it2 :=
                  {| idx := idx it1; searchKey := searchKey it1; scanMode := scanMode it1;
                     currentBlock := currentBlock it1; records := records it1;
                     recordIndex := S (recordIndex it1); totalBlocks := totalBlocks it1;
                     currentRecord := currentRecord it1; err := false; itDone := false |} in
                let yield :=
                  {| idx := idx it2; searchKey := searchKey it2; scanMode := scanMode it2;
                     currentBlock := currentBlock it2; records := records it2;
                     recordIndex := recordIndex it2; totalBlocks := totalBlocks it2;
                     currentRecord := rec; err := false; itDone := false |} in
                if scanMode it2 then Ok (true, yield)
                else
                  let cmp := compareRecordKey (Key rec) (searchKey it2) in
                  if cmp <? 0 then nextLoop fuel' it2
                  else if cmp =? 0 then Ok (true, yield)
                  else Ok (false, setDone it2)
            end
      end
  end.

Definition Next `{Lz4} (fuel : nat) (it : diskIterator) : result (bool * diskIterator) :=
  if itDone it || err it then Ok (false, it) else nextLoop fuel it.

Definition Record_ (it : diskIterator) : IndexRecord := currentRecord it.

(** [for iter.Next() { rec := iter.Record(); ... }]: the records an
    iterator yields, in order. *)
Fixpoint iterate `{Lz4} (fuel : nat) (it : diskIterator) (acc : list IndexRecord)
  : result (list IndexRecord) :=
  match fuel with
  | O => OutOfFuel
  | S fuel' =>
      '(more, it') ← Next fuel it;
      if (more : bool) then iterate fuel' it' (acc ++ [Record_ it'])
      else if err it' then Err else Ok acc
  end.

End index.

(** ** package simd: the byte classifier (scalar version) *)

Module simd.

(** [bitmap[wordIdx] |= 1 << bitPos] for byte position [i]. *)
Definition markBit (bitmap : list Z) (i : nat) : list Z :=
  let wordIdx := (i / 64)%nat in
  let bitPos := (i mod 64)%nat in
  <[wordIdx := Z.lor (bitmap !!! wordIdx) (Z.shiftl 1 (Z.of_nat bitPos))]> bitmap.

(** [for i, b := range input] of [ScanWithSeparator], entered at index [i]. *)
Fixpoint scanFrom (input : list byte) (sep : byte) (i : nat)
    (quotes seps newlines : list Z) : list Z * list Z * list Z :=
  match input with
  | [] => (quotes, seps, newlines)
  | b :: input' =>
      if bool_decide (b = QUOTE) then scanFrom input' sep (S i) (markBit quotes i) seps newlines
      else if bool_decide (b = sep) then scanFrom input' sep (S i) quotes (markBit seps i) newlines
      else if bool_decide (b = NL) then scanFrom input' sep (S i) quotes seps (markBit newlines i)
      else scanFrom input' sep (S i) quotes seps newlines
  end.

Definition ScanWithSeparator (input : list byte) (sep : byte)
    (quotes seps newlines : list Z) : list Z * list Z * list Z :=
  scanFrom input sep 0 quotes seps newlines.

(** [Scan] is the same loop with the comma as separator. *)
Definition Scan (input : list byte) (quotes commas newlines : list Z)
  : list Z * list Z * list Z :=
  ScanWithSeparator input COMMA quotes commas newlines.

End simd.

(** ** package parser: the chunked CSV scanner *)

Module parser.

(** [bytes.IndexByte]. *)
Fixpoint IndexByte (b : list byte) (c : byte) : option nat :=
  match b with
  | [] => None
  | x :: b' => if bool_decide (x = c) then Some O else S <$> IndexByte b' c
  end.

(** [b[lo:hi]]. *)
Definition slice (b : list byte) (lo hi : nat) : list byte :=
  take (hi - lo) (drop lo b).

(** [math/bits.TrailingZeros64]. *)
Fixpoint ctz (p : positive) : nat :=
  match p with
  | xO p' => S (ctz p')
  | _ => O
  end.

Definition TrailingZeros64 (x : Z) : nat :=
  match x with
  | Zpos p => ctz p
  | _ => 64
  end.

(** One call of the handler:
    [handler(workerID, keys, offset, line)]. *)
Record Row : Type := mkRow {
  workerID : nat;
  keys : list (list byte);
  offset : Z;
  line : Z
}.

(** The three bitmaps of a chunk. *)
Definition classify (chunkData : list byte) (sep : byte) : list Z * list Z * list Z :=
  let bitmapLen := ((length chunkData + 63) / 64)%nat in
  let quotesBitmap := replicate bitmapLen 0 in
  let sepsBitmap := replicate bitmapLen 0 in
  let newlinesBitmap := replicate bitmapLen 0 in
  if bool_decide (sep = COMMA)
  then simd.Scan chunkData quotesBitmap sepsBitmap newlinesBitmap
  else simd.ScanWithSeparator chunkData sep quotesBitmap sepsBitmap newlinesBitmap.

(** [(bitmap[wordIdx] & (1 << bitPos)) != 0]. *)
Definition bitAt (bitmap : list Z) (bitmapPos : nat) : bool :=
  let wordIdx := (bitmapPos / 64)%nat in
  let bitPos := (bitmapPos mod 64)%nat in
  negb (Z.land (bitmap !!! wordIdx) (Z.shiftl 1 (Z.of_nat bitPos)) =? 0).

(** [if len(valBytes) >= 2 && valBytes[0] == '"' && valBytes[len-1] == '"'
     { valBytes = valBytes[1 : len-1] }]. *)
Definition stripQuotes (valBytes : list byte) : list byte :=
  if bool_decide (2 ≤ length valBytes)%nat
     && bool_decide (valBytes !! 0%nat = Some QUOTE)
     && bool_decide (valBytes !! (length valBytes - 1)%nat = Some QUOTE)
  then slice valBytes 1 (length valBytes - 1)
  else valBytes.

(** The state of the field loop of [parseLineSimd]. A row value is [None]
    while it is [nil]. *)
Record fieldState : Type := mkFieldState {
  colIdx : nat;
  fieldStart : nat;
  inQuoteF : bool;
  currentRowValues : list (option (list byte))
}.

(** [for i := 0; i < lineLen && colIdx <= maxCol; i++], entered at [i]
    with [fuel] bytes left. *)
Fixpoint fieldLoop (fuel : nat) (line : list byte) (lineStartInChunk : nat)
    (quotesBitmap sepsBitmap : list Z) (i : nat) (st : fieldState) : fieldState :=
  match fuel with
  | O => st
  | S fuel' =>
      if bool_decide (i < length line)%nat
         && bool_decide (colIdx st < length (currentRowValues st))%nat
      then
        let bitmapPos := (lineStartInChunk + i)%nat in
        if bool_decide (length quotesBitmap ≤ bitmapPos / 64)%nat then st
        else
          let isQuote := bitAt quotesBitmap bitmapPos in
          let isSep := bitAt sepsBitmap bitmapPos in
          if isQuote then
            fieldLoop fuel' line lineStartInChunk quotesBitmap sepsBitmap (S i)
              (mkFieldState (colIdx st) (fieldStart st) (negb (inQuoteF st))
                 (currentRowValues st))
          else if isSep && negb (inQuoteF st) then
            let valBytes := stripQuotes (slice line (fieldStart st) i) in
            fieldLoop fuel' line lineStartInChunk quotesBitmap sepsBitmap (S i)
              (mkFieldState (S (colIdx st)) (S i) (inQuoteF st)
                 (<[colIdx st := Some valBytes]> (currentRowValues st)))
          else
            fieldLoop fuel' line lineStartInChunk quotesBitmap sepsBitmap (S i) st
      else st
  end.

(** The row values that [parseLineSimd] materialises for a line;
    [nCols] is [maxCol + 1]. *)
Definition rowValues (line : list byte) (lineStartInChunk : nat)
    (quotesBitmap sepsBitmap : list Z) (nCols : nat) : list (option (list byte)) :=
  let st := fieldLoop (length line) line lineStartInChunk quotesBitmap sepsBitmap 0
              (mkFieldState 0 0 false (replicate nCols None)) in
  if bool_decide (colIdx st < length (currentRowValues st))%nat
     && bool_decide (fieldStart st ≤ length line)%nat
  then <[colIdx st := Some (stripQuotes (drop (fieldStart st) line))]> (currentRowValues st)
  else currentRowValues st.

(** The key of one index definition. *)
Definition keyOf (currentRowValues : list (option (list byte))) (indices : list nat)
  : list byte :=
  match indices with
  | [idx] =>
      match currentRowValues !! idx with
      | Some (Some v) => v
      | _ => []
      end
  | _ =>
      bs "[" ++
      mjoin (imap (λ j idx,
               (if bool_decide (0 < j)%nat then bs "," else []) ++
               [QUOTE] ++
               match currentRowValues !! idx with
               | Some (Some v) => v
               | _ => []
               end ++ [QUOTE]) indices) ++
      bs "]"
  end.

(** [maxCol + 1]: one more than the largest column index of the index
    definitions. *)
Definition numCols (indexDefs : list (list nat)) : nat :=
  foldl (λ n indices, foldl (λ n idx, Nat.max n (S idx)) n indices) 0%nat indexDefs.

(** [parseLineSimd]: the handler calls it makes, none for an empty line
    and one otherwise. *)
Definition parseLineSimd (line : list byte) (offset : Z) (workerID : nat)
    (indexDefs : list (list nat)) (lineStartInChunk : nat)
    (quotesBitmap sepsBitmap : list Z) (lineNum : Z) : list Row :=
  if bool_decide (length line = 0)%nat then []
  else
    let vals := rowValues line lineStartInChunk quotesBitmap sepsBitmap
                  (numCols indexDefs) in
    [{| workerID := workerID; keys := keyOf vals <$> indexDefs;
        offset := offset; line := lineNum |}].

(** [findSafeRecordBoundary]: the loop over the newlines after [hint]. *)
Fixpoint boundaryLoop (fuel : nat) (data : list byte) (currentNL : nat) : nat :=
  match fuel with
  | O => length data
  | S fuel' =>
      if bool_decide (length data ≤ currentNL + 1)%nat then length data
      else
        match IndexByte (drop (currentNL + 1) data) NL with
        | None => (currentNL + 1)%nat
        | Some nextNL =>
            let nextPos := (currentNL + 1 + nextNL)%nat in
            let quotes :=
              length (filter (λ b, b = QUOTE) (slice data (currentNL + 1) nextPos)) in
            if bool_decide (quotes mod 2 = 0)%nat then (currentNL + 1)%nat
            else boundaryLoop fuel' data nextPos
        end
  end.

(** [currentNL] advances to a later newline at every iteration. *)
Definition findSafeRecordBoundary (data : list byte) (hint : nat) : nat :=
  let pos := hint in
  if bool_decide (length data ≤ pos)%nat then length data
  else
    match IndexByte (drop pos data) NL with
    | None => length data
    | Some nextNL => boundaryLoop (length data) data (pos + nextNL)
    end.

(** The state of the main loop of [processChunk]; [emitted] are the
    handler calls made so far. *)
Record chunkState : Type := mkChunkState {
  lineStart : nat;
  inQuote : bool;
  currentLine : Z;
  emitted : list Row
}.

(** The text of a row: [chunkData[lineStart:lineEnd]] without one final
    carriage return. *)
Definition lineBytes (chunkData : list byte) (lineStart lineEnd : nat) : list byte :=
  let lineBytes := slice chunkData lineStart lineEnd in
  if bool_decide (0 < length lineBytes)%nat
     && bool_decide (lineBytes !! (length lineBytes - 1)%nat = Some CR)
  then take (length lineBytes - 1) lineBytes
  else lineBytes.

(** A record ends at [lineEnd]: call the handler unless the line is empty. *)
Definition emitLine (chunkData : list byte) (start : nat) (workerID : nat)
    (indexDefs : list (list nat)) (quotesBitmap sepsBitmap : list Z)
    (lineEnd : nat) (st : chunkState) : chunkState :=
  let lb := lineBytes chunkData (lineStart st) lineEnd in
  if bool_decide (0 < length lb)%nat then
    {| lineStart := lineStart st; inQuote := inQuote st;
       currentLine := currentLine st + 1;
       emitted := emitted st ++
         parseLineSimd lb (Z.of_nat (start + lineStart st)) workerID indexDefs
           (lineStart st) quotesBitmap sepsBitmap (currentLine st) |}
  else st.

(** [for combined != 0]: the set bits of one word, lowest first. A word
    has at most 64 of them. *)
Fixpoint bitLoop (fuel : nat) (chunkData : list byte) (start workerID : nat)
    (indexDefs : list (list nat)) (quotesBitmap sepsBitmap : list Z)
    (wordIdx : nat) (quoteMask newlineMask combined : Z) (st : chunkState)
  : chunkState :=
  match fuel with
  | O => st
  | S fuel' =>
      if combined =? 0 then st
      else
        let tz := TrailingZeros64 combined in
        let bitMask := Z.shiftl 1 (Z.of_nat tz) in
        let combined := Z.ldiff combined bitMask in
        let bytePos := (wordIdx * 64 + tz)%nat in
        if bool_decide (length chunkData ≤ bytePos)%nat then st
        else
          let isQuote := negb (Z.land quoteMask bitMask =? 0) in
          let isNewline := negb (Z.land newlineMask bitMask =? 0) in
          if isQuote then
            bitLoop fuel' chunkData start workerID indexDefs quotesBitmap sepsBitmap
              wordIdx quoteMask newlineMask combined
              {| lineStart := lineStart st; inQuote := negb (inQuote st);
                 currentLine := currentLine st; emitted := emitted st |}
          else if isNewline && negb (inQuote st) then
            let st1 := emitLine chunkData start workerID indexDefs quotesBitmap
                         sepsBitmap bytePos st in
            bitLoop fuel' chunkData start workerID indexDefs quotesBitmap sepsBitmap
              wordIdx quoteMask newlineMask combined
              {| lineStart := S bytePos; inQuote := inQuote st1;
                 currentLine := currentLine st1; emitted := emitted st1 |}
          else
            bitLoop fuel' chunkData start workerID indexDefs quotesBitmap sepsBitmap
              wordIdx quoteMask newlineMask combined st
  end.

(** [for wordIdx := 0; wordIdx < bitmapLen; wordIdx++], entered at
    [wordIdx] with [todo] words left. *)
Fixpoint wordLoop (todo : nat) (chunkData : list byte) (start workerID : nat)
    (indexDefs : list (list nat)) (quotesBitmap sepsBitmap newlinesBitmap : list Z)
    (wordIdx : nat) (st : chunkState) : chunkState :=
  match todo with
  | O => st
  | S todo' =>
      let quoteMask := quotesBitmap !!! wordIdx in
      let newlineMask := newlinesBitmap !!! wordIdx in
      let st :=
        if (quoteMask =? 0) && (newlineMask =? 0) && negb (inQuote st) then st
        else bitLoop 64 chunkData start workerID indexDefs quotesBitmap sepsBitmap
               wordIdx quoteMask newlineMask (Z.lor quoteMask newlineMask) st in
      wordLoop todo' chunkData start workerID indexDefs quotesBitmap sepsBitmap
        newlinesBitmap (S wordIdx) st
  end.

(** The scanner: the mapped file, the separator and the worker count. *)
Record SIMDParser : Type := mkSIMDParser {
  data : list byte;
  separator : byte;
  workers : nat
}.

(** [processChunk]: the handler calls of one worker, in order. The
    progress counters [rowsScanned] and [scanBytes] are not modelled. *)
Definition processChunk (p : SIMDParser) (start end_ : nat) (workerID : nat)
    (startLine : Z) (indexDefs : list (list nat)) : list Row :=
  if bool_decide (length (data p) ≤ start)%nat then []
  else
    let end_ := if bool_decide (length (data p) < end_)%nat then length (data p) else end_ in
    if bool_decide (end_ ≤ start)%nat then []
    else
      let chunkData := slice (data p) start end_ in
      let chunkLen := length chunkData in
      let '(quotesBitmap, sepsBitmap, newlinesBitmap) := classify chunkData (separator p) in
      let bitmapLen := ((chunkLen + 63) / 64)%nat in
      let st := wordLoop bitmapLen chunkData start workerID indexDefs quotesBitmap
                  sepsBitmap newlinesBitmap 0
                  {| lineStart := 0; inQuote := false; currentLine := startLine;
                     emitted := [] |} in
      let st :=
        if bool_decide (lineStart st < chunkLen)%nat && negb (inQuote st)
        then emitLine chunkData start workerID indexDefs quotesBitmap sepsBitmap
               chunkLen st
        else st in
      emitted st.

(** The inner and outer loops of [countChunkLines]. *)
Fixpoint countBitLoop (fuel : nat) (quoteMask newlineMask combined : Z)
    (inQuote : bool) (count : Z) : bool * Z :=
  match fuel with
  | O => (inQuote, count)
  | S fuel' =>
      if combined =? 0 then (inQuote, count)
      else
        let tz := TrailingZeros64 combined in
        let bitMask := Z.shiftl 1 (Z.of_nat tz) in
        let combined := Z.ldiff combined bitMask in
        let isQuote := negb (Z.land quoteMask bitMask =? 0) in
        let isNewline := negb (Z.land newlineMask bitMask =? 0) in
        if isQuote then countBitLoop fuel' quoteMask newlineMask combined (negb inQuote) count
        else if isNewline && negb inQuote
        then countBitLoop fuel' quoteMask newlineMask combined inQuote (count + 1)
        else countBitLoop fuel' quoteMask newlineMask combined inQuote count
  end.

Fixpoint countWordLoop (todo : nat) (quotesBitmap newlinesBitmap : list Z)
    (wordIdx : nat) (inQuote : bool) (count : Z) : bool * Z :=
  match todo with
  | O => (inQuote, count)
  | S todo' =>
      let quoteMask := quotesBitmap !!! wordIdx in
      let newlineMask := newlinesBitmap !!! wordIdx in
      let '(inQuote, count) :=
        if (quoteMask =? 0) && (newlineMask =? 0) && negb inQuote then (inQuote, count)
        else countBitLoop 64 quoteMask newlineMask (Z.lor quoteMask newlineMask)
               inQuote count in
      countWordLoop todo' quotesBitmap newlinesBitmap (S wordIdx) inQuote count
  end.

Definition countChunkLines (p : SIMDParser) (start end_ : nat) : Z :=
  if bool_decide (length (data p) ≤ start)%nat || bool_decide (end_ ≤ start)%nat then 0
  else
    let chunkData := slice (data p) start end_ in
    let chunkLen := length chunkData in
    if bool_decide (chunkLen = 0)%nat then 0
    else
      let '(quotesBitmap, sepsBitmap, newlinesBitmap) := classify chunkData (separator p) in
      let bitmapLen := ((chunkLen + 63) / 64)%nat in
      let '(inQuote, count) := countWordLoop bitmapLen quotesBitmap newlinesBitmap 0 false 0 in
      if negb (bool_decide (chunkData !! (chunkLen - 1)%nat = Some NL)) && negb inQuote
      then count + 1 else count.

(** [boundaries[i]]. *)
Definition boundary (p : SIMDParser) (startIdx : nat) (i : nat) : nat :=
  let dataSize := length (data p) in
  let chunkSize := ((dataSize - startIdx) / workers p)%nat in
  if bool_decide (i = 0)%nat then startIdx
  else if bool_decide (workers p ≤ i)%nat then dataSize
  else
    let hint := (startIdx + i * chunkSize)%nat in
    if bool_decide (hint < dataSize)%nat then findSafeRecordBoundary (data p) hint
    else dataSize.

(** [chunkLines[i]] of the pre-pass. *)
Definition chunkLines (p : SIMDParser) (startIdx : nat) (i : nat) : Z :=
  let start := boundary p startIdx i in
  let end_ := boundary p startIdx (S i) in
  if bool_decide (end_ ≤ start)%nat then 0 else countChunkLines p start end_.

(** [startLines[i]]: 2 plus the lines of the chunks before. *)
Definition startLineOf (p : SIMDParser) (startIdx : nat) (i : nat) : Z :=
  foldl (λ currentLine j, currentLine + chunkLines p startIdx j) 2 (seq 0 i).

(** The handler calls of worker [i]: none when its chunk is empty. *)
Definition workerRows (p : SIMDParser) (startIdx : nat) (indexDefs : list (list nat))
    (i : nat) : list Row :=
  let start := boundary p startIdx i in
  let end_ := boundary p startIdx (S i) in
  if bool_decide (end_ ≤ start)%nat then []
  else processChunk p start end_ i (startLineOf p startIdx i) indexDefs.

(** [Scan]: the handler calls of all workers, worker after worker (the
    workers run concurrently; each worker's calls are in this order). *)
Definition Scan (p : SIMDParser) (indexDefs : list (list nat)) : list Row :=
  match IndexByte (data p) NL with
  | None => []
  | Some nl =>
      let startIdx := S nl in
      if bool_decide (length (data p) ≤ startIdx)%nat then []
      else mjoin (workerRows p startIdx indexDefs <$> seq 0 (workers p))
  end.

End parser.

(** ** The functions of Go's strings, bytes and path/filepath that the code
    uses *)

Module strings.

Definition lowerByte (b : byte) : byte :=
  let z := byte_to_Z b in
  if (65 <=? z) && (z <=? 90) then byte_of_Z (z + 32) else b.

(** Whether every byte of [s] is below [utf8.RuneSelf]; on such strings
    [ToLower], [EqualFold] and [TrimSpace] take the path given here. *)
Definition isASCII (s : list byte) : bool := forallb (λ b, byte_to_Z b <? 128) s.

(** [strings.ToLower] on ASCII strings: the letters A-Z are lowered. The
    case mapping of the runes above ASCII is not modelled (their bytes are
    left as they are); what is proved of this function supposes ASCII
    input wherever the difference matters. *)
Definition ToLower (s : list byte) : list byte := lowerByte <$> s.

(** [strings.EqualFold] on ASCII strings. *)
Definition EqualFold (s t : list byte) : bool := bool_decide (ToLower s = ToLower t).

Fixpoint Join (elems : list (list byte)) (sep : list byte) : list byte :=
  match elems with
  | [] => []
  | [x] => x
  | x :: rest => x ++ sep ++ Join rest sep
  end.

Definition HasPrefix (s prefix : list byte) : bool :=
  bool_decide (length prefix ≤ length s)%nat && bool_decide (take (length prefix) s = prefix).

Definition HasSuffix (s suffix : list byte) : bool :=
  bool_decide (length suffix ≤ length s)%nat
  && bool_decide (drop (length s - length suffix) s = suffix).

Definition TrimSuffix (s suffix : list byte) : list byte :=
  if HasSuffix s suffix then take (length s - length suffix) s else s.

Fixpoint Contains (s substr : list byte) : bool :=
  HasPrefix s substr ||
  match s with
  | [] => false
  | _ :: s' => Contains s' substr
  end.

(** [strings.ReplaceAll(s, old, new)] for one-byte [old] and [new]. *)
Definition ReplaceAll (s : list byte) (old new : byte) : list byte :=
  (λ b, if bool_decide (b = old) then new else b) <$> s.

(** The white space of [strings.TrimSpace] and [bytes.TrimSpace] within
    ASCII. On input with a byte above ASCII the functions also remove the
    other white space of Unicode (U+0085, U+00A0 and others), which is not
    modelled. *)
Definition isSpace (b : byte) : bool :=
  bool_decide (b ∈ ["009"; "010"; "011"; "012"; "013"; " "]%byte).

Fixpoint trimLeft (s : list byte) : list byte :=
  match s with
  | b :: s' => if isSpace b then trimLeft s' else s
  | [] => []
  end.

Definition TrimSpace (s : list byte) : list byte :=
  reverse (trimLeft (reverse (trimLeft s))).

(** [bytes.Split(s, []byte{sep})]; [cur] is the piece read so far. *)
Fixpoint splitFrom (s : list byte) (sep : byte) (cur : list byte) : list (list byte) :=
  match s with
  | [] => [cur]
  | b :: s' =>
      if bool_decide (b = sep) then cur :: splitFrom s' sep []
      else splitFrom s' sep (cur ++ [b])
  end.

Definition Split (s : list byte) (sep : byte) : list (list byte) := splitFrom s sep [].

(** [bytes.Count(s, []byte{c})]. *)
Definition Count (s : list byte) (c : byte) : Z :=
  Z.of_nat (length (filter (λ b, b = c) s)).

(** The order [s <= t] of Go strings, as a relation. *)
Definition StrLe (s t : list byte) : Prop := strLe s t = true.

#[global] Instance StrLe_dec s t : Decision (StrLe s t).
Proof. unfold StrLe. apply _. Defined.

(** [sort.Strings]. *)
Definition sortStrings (l : list (list byte)) : list (list byte) := merge_sort StrLe l.

Definition SLASH : byte := "/"%byte.
Definition DOT : byte := "."%byte.

Fixpoint dropSlashes (s : list byte) : list byte :=
  match s with
  | b :: s' => if bool_decide (b = SLASH) then dropSlashes s' else s
  | [] => []
  end.

Fixpoint untilSlash (s : list byte) : list byte :=
  match s with
  | b :: s' => if bool_decide (b = SLASH) then [] else b :: untilSlash s'
  | [] => []
  end.

(** [filepath.Base], with [/] as the separator: the last element of the
    path, trailing slashes removed. *)
Definition Base (path : list byte) : list byte :=
  match path with
  | [] => [DOT]
  | _ :: _ =>
      match dropSlashes (reverse path) with
      | [] => [SLASH]
      | stripped => reverse (untilSlash stripped)
      end
  end.

(** [filepath.Ext]: [for i := len(path) - 1; i >= 0 && path[i] != '/'; i--],
    on the reversed path; [acc] is [path[i+1:]]. *)
Fixpoint extLoop (rev : list byte) (acc : list byte) : list byte :=
  match rev with
  | [] => []
  | b :: rev' =>
      if bool_decide (b = SLASH) then []
      else if bool_decide (b = DOT) then b :: acc
      else extLoop rev' (b :: acc)
  end.

Definition Ext (path : list byte) : list byte := extLoop (reverse path) [].

End strings.

(** ** The index build (IndexManager, in package index) *)

Module manager.
Import index parser strings.

(** [readHeaders]: the header names, from the first line of the file. *)
Definition readHeaders (data : list byte) (sep : byte) : result (list (list byte)) :=
  match IndexByte data NL with
  | None => Err                         (* "empty or invalid csv" *)
  | Some idx =>
      let line := take idx data in
      let line := if bool_decide (0 < length line)%nat
                     && bool_decide (line !! (length line - 1)%nat = Some CR)
                  then take (length line - 1) line else line in
      let line := if bool_decide (3 ≤ length line)%nat
                     && bool_decide (take 3 line = ["239"; "187"; "191"]%byte)
                  then drop 3 line else line in
      Ok ((λ part, stripQuotes (TrimSpace part)) <$> Split line sep)
  end.

(** [headerMap]: lower-case name to column; a later column of the same
    name replaces an earlier one. *)
Definition headerMapOf (headers : list (list byte)) : gmap (list byte) nat :=
  foldl (λ m ih, <[ToLower ih.2 := ih.1]> m) ∅ (imap (λ i h, (i, h)) headers).

Definition GetColumnIndex (headerMap : gmap (list byte) nat) (name : list byte)
  : option nat :=
  headerMap !! ToLower (TrimSpace name).

(** [copy(keyBytes[:], key)] into a zeroed [[64]byte]. *)
Definition copyKey (key : list byte) : list byte :=
  take 64 key ++ replicate (64 - length key) NUL.

Section build.
Context `{Lz4} `{Json} `{Crc32} `{SortFunc} `{Float64Ops}.

Record IndexerConfig : Type := mkIndexerConfig {
  InputFile : list byte;
  colDefs : list (list (list byte));   (* Columns, as parseColumns decodes it *)
  Separator : byte;
  Workers : nat;
  MemoryMB : Z;
  BloomFPRate : option float64         (* the rate, when it is above 0 *)
}.

(** The records that the scan handler makes of the rows of worker [w] for
    index [i], in the order of the calls. *)
Definition workerRecords (rows : list Row) (numWorkers : nat) (i : nat) (w : nat)
  : list IndexRecord :=
  (λ r, {| Key := copyKey (default [] (keys r !! i));
           types.Offset := offset r; Line := line r |})
    <$> filter (λ r, workerID r = w ∧ (workerID r < numWorkers)%nat) rows.

Definition batchSize : nat := 1000.

(** The records of index [i] in an order in which they can reach its
    sorter: every worker sends a batch whenever it holds [batchSize]
    records, and what is left is sent after the scan, worker by worker.
    (Workers run concurrently; other interleavings of the full batches are
    possible.) *)
Definition arrivals (rows : list Row) (numWorkers : nat) (i : nat) : list IndexRecord :=
  let perWorker := workerRecords rows numWorkers i <$> seq 0 numWorkers in
  let full recs := (length recs / batchSize * batchSize)%nat in
  mjoin ((λ recs, take (full recs) recs) <$> perWorker) ++
  mjoin ((λ recs, drop (full recs) recs) <$> perWorker).

(** [runSorterNode]: the index file and, with a bloom filter, the bloom
    file, under their names in OutputDir. *)
Definition runSorterNode (config : IndexerConfig) (name : list byte) (recs : list IndexRecord)
  : result (list (list byte * list byte)) :=
  let csvName := TrimSuffix (Base (InputFile config)) (Ext (InputFile config)) in
  let indexPath := csvName ++ bs "_" ++ name ++ bs ".cidx" in
  let bloomPath := indexPath ++ bs ".bloom" in
  let totalMemBytes := MemoryMB config * 1024 * 1024 in
  let numIndexes := Z.of_nat (length (colDefs config)) in
  let memoryPerIndex := Z.quot totalMemBytes numIndexes in
  let memoryPerIndex := if memoryPerIndex <? 10 * 1024 * 1024 then 10 * 1024 * 1024
                        else memoryPerIndex in
  bloom ← match BloomFPRate config with
          | Some rate => b ← NewBloomFilter 10000000 rate; Ok (Some b)
          | None => Ok None
          end;
  let sorter := foldl SorterAdd (NewSorter memoryPerIndex bloom) recs in
  '(_, file, bloom') ← Finalize sorter;
  Ok ((indexPath, file) ::
      match bloom' with
      | Some b => [(bloomPath, Serialize b)]
      | None => []
      end).

(** [IndexManager.Run] on the contents [data] of the input file: the files
    written to OutputDir (without the metadata file). *)
Definition Run (config : IndexerConfig) (data : list byte) (numCPU : nat)
  : result (gmap (list byte) (list byte)) :=
  if bool_decide (colDefs config = []) then Err
  else
    headers ← readHeaders data (Separator config);
    let headerMap := headerMapOf headers in
    let workers := if bool_decide (0 < Workers config)%nat then Workers config
                   else numCPU in
    if negb (forallb (forallb (λ col, bool_decide (is_Some (GetColumnIndex headerMap col))))
               (colDefs config))
    then Err                               (* "column not found" *)
    else
      let colIndices :=
        (λ cols : list (list byte),
           (λ col, default 0%nat (GetColumnIndex headerMap col)) <$> cols)
          <$> colDefs config in
      let rows := parser.Scan {| data := data; separator := Separator config;
                          workers := workers |} colIndices in
      foldl (λ (acc : result (gmap (list byte) (list byte)))
               (icols : nat * list (list byte)),
               files ← acc;
               let colName := ToLower (Join icols.2 (bs "_")) in
               written ← runSorterNode config colName (arrivals rows workers icols.1);
               Ok (foldl (λ fs nf, <[nf.1 := nf.2]> fs) files written))
            (Ok ∅) (imap (λ i cols, (i, cols)) (colDefs config)).

End build.

End manager.

(** ** package query (go/internal/query): conditions, overrides and the
    query engine *)

Module query.
Import index parser strings.

(** *** Conditions (filter.go) *)

(** A [Value] is a JSON string or [nil]; other JSON values are not
    modelled. *)
#[warnings="-register-all"]
Inductive Condition : Type :=
  mkCondition (Operator Column : list byte) (Value : option (list byte))
    (Children : list Condition) (resolvedTarget : list byte).

Definition Operator (c : Condition) : list byte :=
  match c with mkCondition op _ _ _ _ => op end.
Definition Column (c : Condition) : list byte :=
  match c with mkCondition _ col _ _ _ => col end.
Definition Value (c : Condition) : option (list byte) :=
  match c with mkCondition _ _ v _ _ => v end.
Definition Children (c : Condition) : list Condition :=
  match c with mkCondition _ _ _ ch _ => ch end.
Definition resolvedTarget (c : Condition) : list byte :=
  match c with mkCondition _ _ _ _ t => t end.

Definition OpEq : list byte := bs "=".
Definition OpNeq : list byte := bs "!=".
Definition OpGt : list byte := bs ">".
Definition OpLt : list byte := bs "<".
Definition OpGte : list byte := bs ">=".
Definition OpLte : list byte := bs "<=".
Definition OpLike : list byte := bs "LIKE".
Definition OpIsNull : list byte := bs "IS NULL".
Definition OpIsNotNull : list byte := bs "IS NOT NULL".

(** [fmt.Sprintf("%v", v)]. *)
Definition sprintv (v : option (list byte)) : list byte :=
  match v with
  | Some s => s
  | None => bs "<nil>"
  end.

Fixpoint resolveTargets (c : Condition) : Condition :=
  match c with
  | mkCondition op col v children target =>
      mkCondition op col v (resolveTargets <$> children)
        (match v with Some _ => sprintv v | None => target end)
  end.

Fixpoint Evaluate (c : Condition) (row : gmap (list byte) (list byte)) : bool :=
  match c with
  | mkCondition op col _ children target =>
      if bool_decide (op = bs "AND") then forallb (λ child, Evaluate child row) children
      else if bool_decide (op = bs "OR") then existsb (λ child, Evaluate child row) children
      else
        let isNull :=
          match row !! col with
          | None => true
          | Some val => bool_decide (val = []) || bool_decide (val = bs "NULL")
          end in
        if bool_decide (op = OpIsNull) then isNull
        else if bool_decide (op = OpIsNotNull) then negb isNull
        else
          match row !! col with
          | None => false
          | Some val =>
              if bool_decide (op = OpEq) then bool_decide (val = target)
              else if bool_decide (op = OpNeq) then negb (bool_decide (val = target))
              else if bool_decide (op = OpGt) then strGt val target
              else if bool_decide (op = OpLt) then strGt target val
              else if bool_decide (op = OpGte) then strLe target val
              else if bool_decide (op = OpLte) then strLe val target
              else if bool_decide (op = OpLike)
                   then Contains (ToLower val) (ToLower target)
              else false
          end
  end.

(** The equality conditions an index can answer: a map from column to
    value. *)
Definition ExtractIndexConditions (c : Condition) : gmap (list byte) (list byte) :=
  if bool_decide (Operator c = bs "AND") then
    foldl (λ res child,
             if bool_decide (Operator child = OpEq)
             then <[Column child := sprintv (Value child)]> res
             else res) ∅ (Children c)
  else if bool_decide (Operator c = OpEq) then {[Column c := sprintv (Value c)]}
  else ∅.

(** The branch [if !hasOp] of [ParseCondition]: the condition for a JSON
    object without an "operator" member. [simpleMap] is the decoded object
    (string values), its entries in the order in which Go iterates over the
    map. *)
Definition parseSimpleMap (simpleMap : list (list byte * list byte)) : Condition :=
  resolveTargets
    (mkCondition (bs "AND") [] None
       ((λ kv, mkCondition OpEq (ToLower kv.1) (Some (sprintv (Some kv.2))) [] [])
          <$> simpleMap) []).

(** *** Columns of a row *)

(** [for i := 0; i < len(line); i++] of [extractCols], entered at [i]
    with [todo = line[i:]]. *)
Fixpoint extractLoop (line : list byte) (sep : byte) (maxCol : Z) (i : nat)
    (todo : list byte) (start : nat) (inQuote : bool) (cols : list (list byte))
  : list (list byte) :=
  match todo with
  | [] => cols ++ [stripQuotes (drop start line)]
  | b :: todo' =>
      let inQuote := if bool_decide (b = QUOTE) then negb inQuote else inQuote in
      if bool_decide (b = sep) && negb inQuote then
        let cols := cols ++ [stripQuotes (slice line start i)] in
        if bool_decide (maxCol < Z.of_nat (length cols)) then cols
        else extractLoop line sep maxCol (S i) todo' (S i) inQuote cols
      else extractLoop line sep maxCol (S i) todo' start inQuote cols
  end.

(** [extractCols(line, sep, maxCol, buf)]; the result does not depend on
    the recycled buffer [buf]. *)
Definition extractCols (line : list byte) (sep : byte) (maxCol : Z) : list (list byte) :=
  extractLoop line sep maxCol 0 line 0 false [].

(** *** Row overrides (the sidecar [<csv>_updates.json]) *)

Record UpdateManager : Type := mkUpdateManager {
  Overrides : gmap (list byte) (gmap (list byte) (list byte))
}.

(** The sidecar file as [LoadUpdates] finds it. [Malformed] is a non-empty
    file on which [json.Unmarshal] returns an error; [Parsed rows] one that
    it decodes, leaving [rows] in [Overrides]. *)
Inductive Sidecar : Type :=
  | Absent                 (* os.Stat fails *)
  | Unreadable             (* os.ReadFile fails *)
  | EmptyFile
  | Malformed
  | Parsed (rows : gmap (list byte) (gmap (list byte) (list byte))).

Definition LoadUpdates (sidecar : Sidecar) : result UpdateManager :=
  match sidecar with
  | Absent => Ok {| Overrides := ∅ |}
  | Unreadable => Err
  | EmptyFile => Ok {| Overrides := ∅ |}
  | Malformed => Err
  | Parsed rows => Ok {| Overrides := rows |}
  end.

(** *** The engine and what it reads *)

Record QueryConfig : Type := mkQueryConfig {
  CsvPath : list byte;
  IndexDir : list byte;
  GroupBy : list byte;
  AggCol : list byte;
  AggFunc : list byte;
  CountOnly : bool;
  Limit : Z;
  Offset : Z;
  Explain : bool
}.

(** The files and the machine that a query sees. *)
Record Env : Type := mkEnv {
  csvFile : option (list byte);               (* the file at CsvPath, if it opens *)
  sidecar : Sidecar;                          (* CsvPath + "_updates.json" *)
  indexFiles : gmap (list byte) (list byte);  (* the files of IndexDir, by name *)
  getHeaderMap : result (gmap (list byte) nat * list (list byte));
                                              (* what getHeaderMap returns *)
  numCPU : nat                                (* runtime.NumCPU() *)
}.

Record QueryEngine : Type := mkQueryEngine {
  config : QueryConfig;
  Updates : option UpdateManager
}.

Definition NewQueryEngine (config : QueryConfig) (env : Env) : QueryEngine :=
  {| config := config;
     Updates :=
       if bool_decide (CsvPath config ≠ []) then
         match LoadUpdates (sidecar env) with
         | Ok um => Some um
         | _ => None
         end
       else None |}.

(** [q.Updates != nil && len(q.Updates.Overrides) > 0]. *)
Definition hasOverrides (updates : option UpdateManager) : bool :=
  match updates with
  | Some um => bool_decide (Overrides um ≠ ∅)
  | None => false
  end.

(** *** Choice of the index *)

Record Plan : Type := mkPlan {
  strategy : list byte;
  planIndex : list byte;                       (* plan["index"] *)
  covered_columns : option (list (list byte))
}.

(** [strings.TrimSuffix(filepath.Base(csvPath), filepath.Ext(csvPath))]. *)
Definition csvNameOf (csvPath : list byte) : list byte :=
  TrimSuffix (Base csvPath) (Ext csvPath).

(** The search key of a column prefix: the value itself for one column,
    the bracketed list of the quoted values for several. *)
Definition searchKeyOf (conds : gmap (list byte) (list byte))
    (currentCols : list (list byte)) : list byte :=
  match currentCols with
  | [col] => default [] (conds !! col)
  | _ =>
      bs "[" ++
      mjoin (imap (λ k col,
               (if bool_decide (0 < k)%nat then bs "," else []) ++
               [QUOTE] ++ default [] (conds !! col) ++ [QUOTE]) currentCols) ++
      bs "]"
  end.

(** [for i := len(cols); i >= 1; i--]: the longest prefix of the sorted
    columns with an index file. The file is named within IndexDir. *)
Fixpoint prefixLoop (files : gmap (list byte) (list byte)) (csvName : list byte)
    (conds : gmap (list byte) (list byte)) (cols : list (list byte)) (i : nat)
  : option (list byte * list byte * bool * Plan) :=
  match i with
  | O => None
  | S i' =>
      let currentCols := take i cols in
      let indexName := Join currentCols (bs "_") in
      let searchKey := searchKeyOf conds currentCols in
      let indexPath := csvName ++ bs "_" ++ indexName ++ bs ".cidx" in
      if bool_decide (is_Some (files !! indexPath)) then
        Some (indexPath, searchKey, true,
              {| strategy := bs "Index Scan"; planIndex := indexName;
                 covered_columns := Some currentCols |})
      else prefixLoop files csvName conds cols i'
  end.

(** [sort.Strings] of the keys of a map. *)
Definition sortedKeys (conds : gmap (list byte) (list byte)) : list (list byte) :=
  sortStrings (elements (dom conds)).

(** [findBestIndex]; [None] is the error "no index found". *)
Definition findBestIndex (csvPath groupBy : list byte)
    (files : gmap (list byte) (list byte)) (where_ : option Condition)
  : option (list byte * list byte * bool * Plan) :=
  let csvName := csvNameOf csvPath in
  let byCondition :=
    match where_ with
    | Some c =>
        let conds := ExtractIndexConditions c in
        let cols := sortedKeys conds in
        prefixLoop files csvName conds cols (length cols)
    | None => None
    end in
  match byCondition with
  | Some found => Some found
  | None =>
      if bool_decide (groupBy ≠ []) then
        let groupName := ReplaceAll groupBy COMMA "_"%byte in
        let indexPath := csvName ++ bs "_" ++ groupName ++ bs ".cidx" in
        if bool_decide (is_Some (files !! indexPath)) then
          Some (indexPath, [], false,
                {| strategy := bs "GroupBy Index Scan"; planIndex := groupName;
                   covered_columns := None |})
        else None
      else None
  end.

(** Step 4 of the planner: the condition is dropped when every equality
    column is covered by the index. *)
Definition dropCovered (plan : Plan) (where_ : option Condition) : option Condition :=
  match where_, covered_columns plan with
  | Some c, Some ((_ :: _) as covered) =>
      let conds := ExtractIndexConditions c in
      if forallb (λ k, existsb (λ c, EqualFold c k) covered) (elements (dom conds))
      then None else where_
  | _, _ => where_
  end.

(** *** [Run] *)

(** How [Run] ends: with an error, with output of its own, or with the
    call of one of the [run...] methods. *)
Inductive Outcome : Type :=
  | ReturnError (msg : list byte)
  | Panics
  | CallCountAll                                   (* return q.runCountAll() *)
  | CallFullScan (where_ : option Condition)       (* return q.runFullScan(where) *)
  | PrintPlan (plan : Plan)                        (* Explain *)
  | PrintNoMatch                                   (* "0" if CountOnly, else nothing *)
  | CallAggregation (br : BlockReader) (searchKey : list byte) (hasSearchKey : bool)
      (startBlockIdx endBlockIdx : Z) (indexName : list byte) (where_ : option Condition)
  | CallStandardOutput (br : BlockReader) (searchKey : list byte) (hasSearchKey : bool)
      (startBlockIdx endBlockIdx : Z) (where_ : option Condition).

(** The bloom filter beside the index rules the key out. A bloom file that
    does not load is ignored. *)
Definition bloomRejects `{Crc32} (files : gmap (list byte) (list byte))
    (indexPath searchKey : list byte) : result bool :=
  match files !! (indexPath ++ bs ".bloom") with
  | Some data =>
      match LoadBloomFilterMmap data with
      | Ok bloom => present ← MightContain bloom searchKey; Ok (negb present)
      | _ => Ok false
      end
  | None => Ok false
  end.

Definition Run `{Json} `{Crc32} (q : QueryEngine) (env : Env) (where_ : option Condition)
  : Outcome :=
  let cfg := config q in
  if bool_decide (CsvPath cfg = []) then ReturnError (bs "csv path required")
  else if bool_decide (where_ = None) && bool_decide (GroupBy cfg = []) && negb (CountOnly cfg)
  then ReturnError (bs "no WHERE conditions or GROUP BY specified")
  else if CountOnly cfg && bool_decide (where_ = None) && bool_decide (GroupBy cfg = [])
  then CallCountAll
  else if hasOverrides (Updates q) then CallFullScan where_
  else
    match findBestIndex (CsvPath cfg) (GroupBy cfg) (indexFiles env) where_ with
    | None => CallFullScan where_
    | Some (indexPath, searchKey, hasSearchKey, plan) =>
        let where_ := dropCovered plan where_ in
        if Explain cfg then PrintPlan plan
        else
          match indexFiles env !! indexPath with
          | None => ReturnError (bs "failed to open index")
          | Some indexFile =>
              match NewBlockReader indexFile with
              | Ok br =>
                  match (if hasSearchKey
                         then bloomRejects (indexFiles env) indexPath searchKey
                         else Ok false) with
                  | Ok true => PrintNoMatch
                  | Ok false =>
                      let startBlockIdx :=
                        if hasSearchKey then findStartBlockIn (Blocks (Footer br)) searchKey
                        else 0 in
                      let endBlockIdx := Z.of_nat (length (Blocks (Footer br))) - 1 in
                      if hasSearchKey && (startBlockIdx =? -1) then PrintNoMatch
                      else if bool_decide (GroupBy cfg ≠ [])
                      then CallAggregation br searchKey hasSearchKey startBlockIdx
                             endBlockIdx (planIndex plan) where_
                      else CallStandardOutput br searchKey hasSearchKey startBlockIdx
                             endBlockIdx where_
                  | _ => Panics
                  end
              | Err => ReturnError (bs "failed to init block reader")
              | _ => Panics
              end
          end
    end.

(** *** Output *)

(** A line written to the engine's writer: a count, or the position
    [offset,line] of a row. *)
Inductive OutLine : Type :=
  | OutCount (n : Z)
  | OutRow (offset line : Z).

(** *** Counting all rows *)

(** The pattern characters of [filepath.Match] (on a system other than
    Windows). *)
Definition hasMeta (path : list byte) : bool :=
  existsb (λ b, bool_decide (b ∈ ["042"; "063"; "091"; "092"]%byte)) path.

(** A name that is taken literally in a pattern and is one element of a
    path: no pattern character and no separator. *)
Definition literalName (name : list byte) : bool :=
  negb (hasMeta name) && negb (bool_decide (SLASH ∈ name)).

(** [filepath.Glob(IndexDir/csvBase_*.cidx)] for a directory without
    pattern characters and a base name that is a [literalName]: the names
    of the directory that begin with [csvBase_] and end with [.cidx],
    sorted. (With a pattern character in [csvBase] the library matches it
    as a pattern; that is not modelled.) *)
Definition Glob (files : gmap (list byte) (list byte)) (csvBase : list byte)
  : list (list byte) :=
  sortStrings
    (filter (λ name, HasPrefix name (csvBase ++ bs "_") = true
                     ∧ HasSuffix name (bs ".cidx") = true
                     ∧ (length csvBase + 1 + 5 ≤ length name)%nat)
            (elements (dom files))).

(** [for _, block := range br.Footer.Blocks], with [total += ...] on
    [int64]. *)
Fixpoint sumRecordCounts (blocks : list BlockMeta) (total : Z) : option Z :=
  match blocks with
  | [] => Some total
  | block :: blocks' =>
      if RecordCount block =? 0 then None
      else sumRecordCounts blocks' (int64 (total + RecordCount block))
  end.

(** [tryCountFromIndex]; [Ok None] is the result [(0, false)]. A panic of
    [NewBlockReader] is not recovered. *)
Definition tryCountFromIndex `{Json} (q : QueryEngine) (env : Env) : result (option Z) :=
  if bool_decide (IndexDir (config q) = []) then Ok None
  else
    let csvBase := Base (CsvPath (config q)) in
    let csvBase := TrimSuffix csvBase (Ext csvBase) in
    match Glob (indexFiles env) csvBase with
    | [] => Ok None
    | first :: _ =>
        match indexFiles env !! first with
        | None => Ok None
        | Some f =>
            match NewBlockReader f with
            | Ok br => Ok (sumRecordCounts (Blocks (Footer br)) 0)
            | Err => Ok None
            | Panic => Panic
            | OutOfFuel => OutOfFuel
            end
        end
    end.

(** The newline count of worker [i] in [runCountAllViaCsv]. *)
Definition countChunk (data : list byte) (workers : nat) (i : nat) : Z :=
  let chunkSize := (length data / workers)%nat in
  let start := (i * chunkSize)%nat in
  let end_ := if bool_decide (i = workers - 1)%nat then length data
              else (start + chunkSize)%nat in
  Count (slice data start end_) NL.

Definition runCountAllViaCsv (env : Env) : result (list OutLine) :=
  match csvFile env with
  | None => Err
  | Some data =>
      if bool_decide (length data = 0)%nat then Ok [OutCount 0]
      else
        let workers := if bool_decide (16 < numCPU env)%nat then 16%nat else numCPU env in
        if bool_decide (workers = 0)%nat then Panic
        else
          let totalCount :=
            foldl (λ total i, total + countChunk data workers i) 0 (seq 0 workers) in
          let totalCount :=
            if negb (bool_decide (data !! (length data - 1)%nat = Some NL))
            then totalCount + 1 else totalCount in
          let totalCount := if 0 <? totalCount then totalCount - 1 else totalCount in
          Ok [OutCount totalCount]
  end.

Definition runCountAll `{Json} (q : QueryEngine) (env : Env) : result (list OutLine) :=
  found ← tryCountFromIndex q env;
  match found with
  | Some count => Ok [OutCount count]
  | None => runCountAllViaCsv env
  end.

(** *** Output through the index *)

Record outState : Type := mkOutState {
  count : Z;
  skipped : Z;
  limitReached : bool;
  written : list OutLine
}.

(** The row of the CSV at [rec.Offset], without its line end. *)
Definition rowAt (csvData : list byte) (offset : Z) : result (list byte) :=
  if (offset <? 0) || (Z.of_nat (length csvData) <? offset) then Panic
  else
    let rest := drop (Z.to_nat offset) csvData in
    let rowEnd := default (length rest) (IndexByte rest NL) in
    Ok (TrimSuffix (take rowEnd rest) [CR]).

(** [rowMap] for the columns [cols]. *)
Definition rowMapOf (headers : gmap (list byte) nat) (cols : list (list byte))
  : gmap (list byte) (list byte) :=
  map_fold (λ k v rowMap, <[ToLower k := default [] (cols !! v)]> rowMap) ∅ headers.

(** [maxCol] of the header map. *)
Definition maxColOf (headers : gmap (list byte) nat) : Z :=
  map_fold (λ _ idx maxCol, if maxCol <? Z.of_nat idx then Z.of_nat idx else maxCol)
    (-1) headers.

(** Whether the record's row passes the condition; the CSV is read when
    there is a condition or positions are to be printed. *)
Definition rowPasses (q : QueryEngine) (env : Env) (headers : gmap (list byte) nat)
    (virtualDefaults : list (list byte)) (where_ : option Condition)
    (rec : IndexRecord) : result bool :=
  if bool_decide (is_Some where_) || negb (CountOnly (config q)) then
    match csvFile env with
    | None => Err
    | Some csvData =>
        row ← rowAt csvData (types.Offset rec);
        match where_ with
        | None => Ok true
        | Some c =>
            let cols := extractCols row COMMA (maxColOf headers) ++ virtualDefaults in
            Ok (Evaluate c (rowMapOf headers cols))
        end
    end
  else Ok true.

(** [for index := range records]. *)
Fixpoint recordLoop (q : QueryEngine) (env : Env) (headers : gmap (list byte) nat)
    (virtualDefaults : list (list byte)) (searchKey : list byte) (hasSearchKey : bool)
    (where_ : option Condition) (records : list IndexRecord) (st : outState)
  : result outState :=
  match records with
  | [] => Ok st
  | rec :: records' =>
      let continue st :=
        recordLoop q env headers virtualDefaults searchKey hasSearchKey where_
          records' st in
      let cmp := compareRecordKey (Key rec) searchKey in
      if hasSearchKey && (cmp <? 0) then continue st
      else if hasSearchKey && (0 <? cmp) then
        Ok {| count := count st; skipped := skipped st; limitReached := true;
              written := written st |}
      else
        passes ← rowPasses q env headers virtualDefaults where_ rec;
        if negb passes then continue st
        else if skipped st <? Offset (config q) then
          continue {| count := count st; skipped := skipped st + 1;
                      limitReached := limitReached st; written := written st |}
        else
          let st :=
            {| count := count st + 1; skipped := skipped st;
               limitReached := limitReached st;
               written := written st ++
                 (if CountOnly (config q) then []
                  else [OutRow (types.Offset rec) (Line rec)]) |} in
          if (0 <? Limit (config q)) && (Limit (config q) <=? count st) then
            Ok {| count := count st; skipped := skipped st; limitReached := true;
                  written := written st |}
          else continue st
  end.

(** [for i := startBlockIdx; i <= endBlockIdx; i++], with [todo]
    iterations left at most. *)
Fixpoint blockLoop `{Lz4} (q : QueryEngine) (env : Env) (headers : gmap (list byte) nat)
    (virtualDefaults : list (list byte)) (br : BlockReader) (searchKey : list byte)
    (hasSearchKey : bool) (where_ : option Condition) (endBlockIdx : Z)
    (todo : nat) (i : Z) (st : outState) : result outState :=
  match todo with
  | O => Ok st
  | S todo' =>
      if endBlockIdx <? i then Ok st
      else if limitReached st then Ok st
      else if i <? 0 then Panic
      else
        match Blocks (Footer br) !! Z.to_nat i with
        | None => Panic
        | Some blockMeta =>
            if hasSearchKey && strGt (StartKey blockMeta) searchKey then Ok st
            else
              records ← ReadBlock br blockMeta;
              st ← recordLoop q env headers virtualDefaults searchKey hasSearchKey
                     where_ records st;
              blockLoop q env headers virtualDefaults br searchKey hasSearchKey
                where_ endBlockIdx todo' (i + 1) st
        end
  end.

Definition runStandardOutput `{Lz4} (q : QueryEngine) (env : Env) (br : BlockReader)
    (searchKey : list byte) (hasSearchKey : bool) (startBlockIdx endBlockIdx : Z)
    (where_ : option Condition) : result (list OutLine) :=
  '(headers, virtualDefaults) ← getHeaderMap env;
  st ← blockLoop q env headers virtualDefaults br searchKey hasSearchKey where_
         endBlockIdx (Z.to_nat (endBlockIdx - startBlockIdx + 1)) startBlockIdx
         {| count := 0; skipped := 0; limitReached := false; written := [] |};
  Ok (written st ++ (if CountOnly (config q) then [OutCount (count st)] else [])).

(** *** Full scan of the CSV *)

(** [fmt.Sprintf("%d", n)]. *)
Definition formatInt (n : Z) : list byte := bs (NilZero.string_of_int (Z.to_int n)).

(** [reader.ReadBytes('\n')] on what is left of the file: the bytes up to
    and including the next newline and what is left after them; without a
    newline, all the bytes (Go returns them with [io.EOF]); [None] when
    nothing is left ([io.EOF] and no byte). *)
Definition ReadBytes (rest : list byte) : option (list byte * list byte) :=
  if bool_decide (rest = []) then None
  else
    match IndexByte rest NL with
    | Some n => Some (take (S n) rest, drop (S n) rest)
    | None => Some (rest, [])
    end.

(** [for col, val := range override]: the columns with the overrides of
    the row. (The header map of [getHeaderMap] gives different positions
    to different names, so the order of the iteration does not matter.) *)
Definition applyOverride (headerMap : gmap (list byte) nat)
    (override : gmap (list byte) (list byte)) (cols : list (list byte))
  : list (list byte) :=
  map_fold (λ col val cols,
              match headerMap !! col with
              | Some idx =>
                  if bool_decide (idx < length cols)%nat then <[idx := val]> cols else cols
              | None => cols
              end) cols override.

(** The columns of line [lineNum] in a full scan. *)
Definition scanCols (q : QueryEngine) (headers : gmap (list byte) nat)
    (virtualDefaults : list (list byte)) (maxCol : Z) (lineNum : Z) (line : list byte)
  : list (list byte) :=
  let trimmed := TrimSpace line in
  let cols := extractCols trimmed COMMA maxCol ++ virtualDefaults in
  match Updates q with
  | Some um =>
      match Overrides um !! formatInt lineNum with
      | Some override => applyOverride headers override cols
      | None => cols
      end
  | None => cols
  end.

(** [rowMap] in a full scan: a column beyond the row is left out. *)
Definition scanRowMap (headers : gmap (list byte) nat) (cols : list (list byte))
  : gmap (list byte) (list byte) :=
  map_fold (λ k v rowMap,
              match cols !! v with
              | Some val => <[ToLower k := val]> rowMap
              | None => rowMap
              end) ∅ headers.

(** Whether the line is kept: [where == nil || where.Evaluate(rowMap)]. *)
Definition scanPasses (q : QueryEngine) (headers : gmap (list byte) nat)
    (virtualDefaults : list (list byte)) (where_ : option Condition) (maxCol : Z)
    (lineNum : Z) (line : list byte) : bool :=
  match where_ with
  | None => true
  | Some c =>
      Evaluate c (scanRowMap headers (scanCols q headers virtualDefaults maxCol lineNum line))
  end.

(** The [for] loop of [runFullScan]: every iteration reads at least one
    byte of [rest]; the count and the lines written. *)
Fixpoint fullScanLoop (q : QueryEngine) (headers : gmap (list byte) nat)
    (virtualDefaults : list (list byte)) (where_ : option Condition) (maxCol : Z)
    (fuel : nat) (rest : list byte) (lineNum currentOffset count skipped : Z)
    (written : list OutLine) : result (Z * list OutLine) :=
  match fuel with
  | O => OutOfFuel
  | S fuel' =>
      match ReadBytes rest with
      | None => Ok (count, written)
      | Some (line, rest') =>
          let rowOffset := currentOffset in
          let currentOffset := currentOffset + Z.of_nat (length line) in
          let lineNum := lineNum + 1 in
          let continue count skipped written :=
            fullScanLoop q headers virtualDefaults where_ maxCol fuel' rest'
              lineNum currentOffset count skipped written in
          if negb (scanPasses q headers virtualDefaults where_ maxCol lineNum line)
          then continue count skipped written
          else if skipped <? Offset (config q) then continue count (skipped + 1) written
          else
            let count := count + 1 in
            let written :=
              written ++ (if CountOnly (config q) then [] else [OutRow rowOffset lineNum]) in
            if (0 <? Limit (config q)) && (Limit (config q) <=? count)
            then Ok (count, written)
            else continue count skipped written
      end
  end.

(** [runFullScan]: the header line is read first (a file without a
    newline ends the scan with [io.EOF] as its error), then every line. *)
Definition runFullScan (q : QueryEngine) (env : Env) (where_ : option Condition)
  : result (list OutLine) :=
  match csvFile env with
  | None => Err
  | Some data =>
      '(headers, virtualDefaults) ← getHeaderMap env;
      match IndexByte data NL with
      | None => Err
      | Some n =>
          let maxCol :=
            map_fold (λ _ v maxCol, if maxCol <? Z.of_nat v then Z.of_nat v else maxCol)
              0 headers in
          '(count, written) ←
            fullScanLoop q headers virtualDefaults where_ maxCol (S (length data))
              (drop (S n) data) 1 (Z.of_nat (S n)) 0 0 [];
          Ok (written ++ (if CountOnly (config q) then [OutCount count] else []))
      end
  end.

End query.

(** ** package query (pkg/csvquery/query): the executor's planner *)

Module executor.
Import index strings query.

Record Executor : Type := mkExecutor {
  IndexDir : list byte;
  Updates : option UpdateManager
}.

(** How [ExecuteWithCondition] ends. *)
Inductive Outcome : Type :=
  | ReturnError (msg : list byte)
  | Panics
  | CallCountAll                                  (* return e.runCountAll(req, writer) *)
  | CallFullScan (where_ : option Condition)      (* return e.runFullScan(req, where, writer) *)
  | PrintPlan (plan : Plan)
  | CallAggregation (iter : Iterator) (where_ : option Condition)
  | CallStandardOutput (iter : Iterator) (hasSearchKey : bool) (searchKey : list byte)
      (where_ : option Condition).

(** [files] are the files of [e.IndexDir]. *)
Definition ExecuteWithCondition `{Json} `{Crc32} (e : Executor) (req : QueryConfig)
    (files : gmap (list byte) (list byte)) (where_ : option Condition) : Outcome :=
  if bool_decide (CsvPath req = []) then ReturnError (bs "csv path required")
  else if CountOnly req && bool_decide (where_ = None) && bool_decide (GroupBy req = [])
  then CallCountAll
  else if hasOverrides (Updates e) then CallFullScan where_
  else
    match findBestIndex (CsvPath req) (GroupBy req) files where_ with
    | None => CallFullScan where_
    | Some (indexPath, searchKey, hasSearchKey, plan) =>
        let where_ := dropCovered plan where_ in
        if Explain req then PrintPlan plan
        else
          match files !! indexPath with
          | None => ReturnError (bs "failed to open index")
          | Some indexFile =>
              match OpenDiskIndex indexFile (files !! (indexPath ++ bs ".bloom")) with
              | Ok idx =>
                  match (if hasSearchKey then Search idx searchKey else Ok (Scan idx)) with
                  | Ok iter =>
                      if bool_decide (GroupBy req ≠ [])
                      then CallAggregation iter where_
                      else CallStandardOutput iter hasSearchKey searchKey where_
                  | _ => Panics
                  end
              | Err => ReturnError (bs "failed to open index")
              | _ => Panics
              end
          end
    end.

(** [Executor.tryCountFromIndex]: the count of the first index file of the
    CSV, whatever its directory holds; [Ok None] is the result
    [(0, false)]. A panic of [OpenDiskIndex] is not recovered. *)
Definition tryCountFromIndex `{Json} (e : Executor) (req : QueryConfig)
    (files : gmap (list byte) (list byte)) : result (option Z) :=
  if bool_decide (IndexDir e = []) then Ok None
  else
    let csvBase := Base (CsvPath req) in
    let csvBase := TrimSuffix csvBase (Ext csvBase) in
    match Glob files csvBase with
    | [] => Ok None
    | first :: _ =>
        match files !! first with
        | None => Ok None
        | Some f =>
            match OpenDiskIndex f (files !! (first ++ bs ".bloom")) with
            | Ok idx => Ok (Some (ApproximateCount idx))
            | Err => Ok None
            | Panic => Panic
            | OutOfFuel => OutOfFuel
            end
        end
    end.

(** [Executor.runCountAll]; its fallback is the code of
    [QueryEngine.runCountAllViaCsv]. *)
Definition runCountAll `{Json} (e : Executor) (req : QueryConfig) (env : Env)
  : result (list OutLine) :=
  found ← tryCountFromIndex e req (indexFiles env);
  match found with
  | Some count => Ok [OutCount count]
  | None => runCountAllViaCsv env
  end.

(** [parseCSVLine], the row split of [Executor.runFullScan] and
    [Executor.runStandardOutput]: [strings.Split(line, ",")], the quotes
    left where they are. *)
Definition parseCSVLine (line : list byte) : list (list byte) := Split line COMMA.

End executor.

(** ** package server (go/internal/server): the daemon's view of the CSV *)

Module server.
Import parser strings.

Record UDSDaemon : Type := mkUDSDaemon {
  csvData : option (list byte);        (* [nil] until a CSV is loaded *)
  headers : list (list byte);
  headerMap : gmap (list byte) nat
}.

(** The daemon before [loadCSV]. *)
Definition NewUDSDaemon : UDSDaemon :=
  {| csvData := None; headers := []; headerMap := ∅ |}.

(** [loadCSV] on the file at CsvPath ([None] when it does not open). The
    separator is the comma. *)
Definition loadCSV (d : UDSDaemon) (file : option (list byte)) : result UDSDaemon :=
  match file with
  | None => Err
  | Some data =>
      match IndexByte data NL with
      | None => Err                       (* "no newline found in CSV" *)
      | Some nlIdx =>
          let headerLine := TrimSuffix (take nlIdx data) [CR] in
          let headers := Split headerLine COMMA in
          Ok {| csvData := Some data;
                headers := headers;
                headerMap :=
                  foldl (λ m ih, <[ToLower (TrimSpace ih.2) := ih.1]> m) ∅
                    (imap (λ i h, (i, h)) headers) |}
      end
  end.

(** [countRows]: the newlines of the mapped file, less one. *)
Definition countRows (d : UDSDaemon) : Z :=
  match csvData d with
  | None => 0
  | Some data => Count data NL - 1
  end.

End server.

(** * Part II: verification *)

(** ** Bytes and integers *)

Module BytesFacts.

Lemma byte_to_Z_range b : 0 <= byte_to_Z b < 256.
Proof.
  unfold byte_to_Z. pose proof (Byte.to_N_bounded b). lia.
Qed.

Lemma byte_to_of_Z z : byte_to_Z (byte_of_Z z) = z mod 256.
Proof.
  unfold byte_to_Z, byte_of_Z.
  assert (Hr : 0 <= z mod 256 < 256) by (apply Z.mod_pos_bound; lia).
  destruct (Byte.of_N (Z.to_N (z mod 256))) as [b|] eqn:E.
  - apply Byte.to_of_N in E. simpl. rewrite E. lia.
  - apply Byte.of_N_None_iff in E. lia.
Qed.

Lemma byte_of_to_Z b : byte_of_Z (byte_to_Z b) = b.
Proof.
  unfold byte_of_Z. pose proof (byte_to_Z_range b) as Hr.
  rewrite Z.mod_small by lia. unfold byte_to_Z.
  rewrite N2Z.id, Byte.of_to_N. reflexivity.
Qed.

Lemma byte_to_Z_inj a b : byte_to_Z a = byte_to_Z b → a = b.
Proof.
  intros H. rewrite <- (byte_of_to_Z a), <- (byte_of_to_Z b). by rewrite H.
Qed.

Lemma be_encode_length n v : length (be_encode n v) = n.
Proof.
  revert v. induction n as [|n IH]; intros v; simpl; [done|].
  rewrite length_app, IH. simpl. lia.
Qed.

Lemma be_decode_snoc b x : be_decode (b ++ [x]) = be_decode b * 256 + byte_to_Z x.
Proof. unfold be_decode. by rewrite fold_left_app. Qed.

Lemma be_decode_encode n v : be_decode (be_encode n v) = v mod 256 ^ Z.of_nat n.
Proof.
  revert v. induction n as [|n IH]; intros v.
  - simpl. by rewrite Z.mod_1_r.
  - cbn [be_encode]. rewrite be_decode_snoc, IH, byte_to_of_Z.
    rewrite Nat2Z.inj_succ, Z.pow_succ_r by lia.
    assert (0 < 256 ^ Z.of_nat n) by (apply Z.pow_pos_nonneg; lia).
    rewrite Z.rem_mul_r by lia. ring.
Qed.

Lemma Uint64_PutUint64 v : Uint64 (PutUint64 v) = uint64 v.
Proof.
  unfold Uint64, PutUint64. rewrite be_decode_encode. reflexivity.
Qed.

Lemma uint64_idem v : uint64 (uint64 v) = uint64 v.
Proof. unfold uint64. apply Z.mod_mod. lia. Qed.

Lemma int64_uint64 v : is_int64 v → int64 (uint64 v) = v.
Proof.
  unfold is_int64, int64, uint64. intros Hv.
  rewrite Z.mod_mod by lia.
  destruct (Z_lt_le_dec v 0) as [Hneg|Hpos].
  - replace (v mod 2 ^ 64) with (v + 2 ^ 64).
    + destruct (Z.ltb_spec (v + 2 ^ 64) (2 ^ 63)); lia.
    + apply Z.mod_unique with (q := -1); lia.
  - rewrite Z.mod_small by lia.
    destruct (Z.ltb_spec v (2 ^ 63)); lia.
Qed.

Lemma PutUint64_length v : length (PutUint64 v) = 8%nat.
Proof. apply be_encode_length. Qed.

End BytesFacts.
Export BytesFacts.

(** ** The record codec *)

Module CodecFacts.
Import index.

Lemma encodeRecord_length rec :
  wf_record rec → length (encodeRecord rec) = RecordSize.
Proof.
  intros (Hk & _ & _). unfold encodeRecord.
  rewrite !length_app, !PutUint64_length, Hk. reflexivity.
Qed.

Lemma decode_encodeRecord rec : wf_record rec → decodeRecord (encodeRecord rec) = rec.
Proof.
  intros (Hk & Ho & Hl). destruct rec as [k o l]; cbn [Key types.Offset Line] in *.
  unfold decodeRecord, encodeRecord; cbn [Key types.Offset Line]. f_equal.
  - rewrite take_app_length'; done.
  - rewrite drop_app_length' by done.
    rewrite take_app_length' by (by rewrite PutUint64_length).
    rewrite Uint64_PutUint64, uint64_idem.
    by apply int64_uint64.
  - change 72%nat with (64 + 8)%nat. rewrite <- drop_drop.
    rewrite drop_app_length' by done.
    rewrite drop_app_length' by (by rewrite PutUint64_length).
    rewrite firstn_all2 by (rewrite PutUint64_length; lia).
    rewrite Uint64_PutUint64, uint64_idem.
    by apply int64_uint64.
Qed.

Lemma ReadRecord_encode rec rest :
  wf_record rec →
  ReadRecord (Stream (encodeRecord rec ++ rest)) = ReadOk rec (Stream rest).
Proof.
  intros Hwf. pose proof (encodeRecord_length rec Hwf) as Hlen.
  unfold ReadRecord. rewrite length_app, Hlen.
  destruct (decide _) as [E|_]; [unfold RecordSize in E; lia|].
  destruct (decide _) as [E|_]; [lia|].
  rewrite take_app_length', drop_app_length' by done.
  by rewrite decode_encodeRecord.
Qed.

Lemma ReadRecord_nil : ReadRecord (Stream []) = ReadEOF.
Proof. reflexivity. Qed.

Lemma WriteBatchRecords_cons rec recs :
  WriteBatchRecords (rec :: recs) = encodeRecord rec ++ WriteBatchRecords recs.
Proof. reflexivity. Qed.

Lemma WriteBatchRecords_length recs :
  Forall wf_record recs →
  length (WriteBatchRecords recs) = (RecordSize * length recs)%nat.
Proof.
  induction 1 as [|rec recs Hwf _ IH]; [done|].
  rewrite WriteBatchRecords_cons, length_app, IH, encodeRecord_length by done.
  simpl. lia.
Qed.

Lemma readRecords_batch fuel recs acc :
  Forall wf_record recs → (length recs < fuel)%nat →
  readRecords fuel (Stream (WriteBatchRecords recs)) acc = Ok (acc ++ recs).
Proof.
  intros Hwf. revert fuel acc.
  induction Hwf as [|rec recs Hrec _ IH]; intros fuel acc Hfuel.
  - destruct fuel; [simpl in Hfuel; lia|]. simpl. by rewrite app_nil_r.
  - destruct fuel; [simpl in Hfuel; lia|].
    cbn [readRecords]. rewrite WriteBatchRecords_cons, ReadRecord_encode by done.
    rewrite IH by (simpl in Hfuel; lia). by rewrite <- app_assoc.
Qed.

Lemma readFullAt_app (pre mid post : list byte) :
  readFullAt (pre ++ mid ++ post) (Z.of_nat (length pre)) (Z.of_nat (length mid))
  = Ok mid.
Proof.
  unfold readFullAt.
  destruct (Z.ltb_spec (Z.of_nat (length pre)) 0); [lia|].
  destruct (Z.ltb_spec (Z.of_nat (length mid)) 0); [lia|].
  rewrite !Nat2Z.id, drop_app_length, take_app_length.
  by rewrite decide_True.
Qed.

End CodecFacts.
Export CodecFacts.

(** ** Block writer and block reader *)

Module BlockFacts.
Import index.

(** A codec that stores the bytes as they are: the instance at which
    closed terms are evaluated. *)
#[export] Instance stored_lz4 : Lz4 :=
  {| lz4_compress := λ b, b;
     lz4_decompress := λ b, Some b;
     lz4_roundtrip := λ b, eq_refl |}.

(** The writer's [offset] is the size of what it has written. *)
Definition bw_inv (bw : BlockWriter) : Prop :=
  offset bw = Z.of_nat (length (w bw)).

Lemma NewBlockWriter_inv : bw_inv (NewBlockWriter []).
Proof. reflexivity. Qed.

Lemma FlushBlock_inv `{Lz4} bw : bw_inv bw → bw_inv (FlushBlock bw).
Proof.
  unfold bw_inv, FlushBlock. intros Hinv.
  destruct (buffer bw); [done|]. cbn [offset w].
  rewrite length_app, Hinv. lia.
Qed.

Lemma WriteRecord_inv `{Lz4} bw rec : bw_inv bw → bw_inv (WriteRecord bw rec).
Proof.
  intros Hinv. unfold WriteRecord.
  destruct (_ <=? _); [apply FlushBlock_inv|]; exact Hinv.
Qed.

Lemma readRecords_reader_fuel `{Lz4} recs :
  Forall wf_record recs →
  let lr := lz4_NewReader (lz4_compress (WriteBatchRecords recs)) in
  readRecords (reader_fuel lr) lr [] = Ok recs.
Proof.
  intros Hwf. unfold lz4_NewReader. rewrite lz4_roundtrip. cbn [reader_fuel].
  apply (readRecords_batch _ recs []); [done|].
  rewrite WriteBatchRecords_length by done. unfold RecordSize. lia.
Qed.

(** The block that [FlushBlock] appends is read back from any file that
    extends what the writer has written. *)
Lemma ReadBlock_FlushBlock `{Lz4} bw tail footer :
  bw_inv bw → buffer bw ≠ [] → Forall wf_record (buffer bw) →
  ∃ meta,
    Blocks (sparseIndex (FlushBlock bw)) = Blocks (sparseIndex bw) ++ [meta] ∧
    RecordCount meta = Z.of_nat (length (buffer bw)) ∧
    ReadBlock {| r := w (FlushBlock bw) ++ tail; Footer := footer |} meta
      = Ok (buffer bw).
Proof.
  intros Hinv Hne Hwf. unfold FlushBlock.
  destruct (buffer bw) as [|first rest] eqn:Hbuf; [done|].
  eexists. split; [reflexivity|]. split; [reflexivity|].
  unfold ReadBlock. cbn [r w Offset Length].
  rewrite Hinv, <- app_assoc, readFullAt_app. cbn [mbind result_bind].
  by apply readRecords_reader_fuel.
Qed.

(** C3. Every batch that the block writer flushes as one block is read
    back by the block reader, from the finished file or any file that
    extends the writer's output, as the same records in the same order:
    the same count, equal 64-byte keys, equal offset and line values. *)
Theorem C3_block_roundtrip `{Lz4} (bw : BlockWriter) (tail : list byte)
    (footer : SparseIndex) :
  bw_inv bw → buffer bw ≠ [] → Forall wf_record (buffer bw) →
  ∃ meta recs,
    Blocks (sparseIndex (FlushBlock bw)) = Blocks (sparseIndex bw) ++ [meta] ∧
    ReadBlock {| r := w (FlushBlock bw) ++ tail; Footer := footer |} meta = Ok recs ∧
    length recs = length (buffer bw) ∧
    RecordCount meta = Z.of_nat (length recs) ∧
    ∀ i rec, buffer bw !! i = Some rec →
      ∃ rec', recs !! i = Some rec' ∧
        Key rec' = Key rec ∧ types.Offset rec' = types.Offset rec ∧
        Line rec' = Line rec.
Proof.
  intros Hinv Hne Hwf.
  destruct (ReadBlock_FlushBlock bw tail footer Hinv Hne Hwf)
    as (meta & Hblocks & Hcount & Hread).
  exists meta, (buffer bw). repeat split; try done.
  intros i rec Hi. by exists rec.
Qed.

Definition sample_record (k : string) (o l : Z) : IndexRecord :=
  {| Key := take 64 (bs k ++ replicate 64 NUL); types.Offset := o; Line := l |}.

Definition sample_writer : BlockWriter :=
  WriteRecord (WriteRecord (NewBlockWriter []) (sample_record "Eng" 13 2))
    (sample_record "Sales" 25 (-3)).

Lemma C3_block_roundtrip_witness :
  ∃ meta recs,
    Blocks (sparseIndex (FlushBlock sample_writer))
      = Blocks (sparseIndex sample_writer) ++ [meta] ∧
    ReadBlock {| r := w (FlushBlock sample_writer) ++ bs "footer";
                 Footer := mkSparseIndex [] |} meta = Ok recs ∧
    length recs = length (buffer sample_writer) ∧
    RecordCount meta = Z.of_nat (length recs) ∧
    ∀ i rec, buffer sample_writer !! i = Some rec →
      ∃ rec', recs !! i = Some rec' ∧
        Key rec' = Key rec ∧ types.Offset rec' = types.Offset rec ∧
        Line rec' = Line rec.
Proof.
  apply (C3_block_roundtrip sample_writer (bs "footer") (mkSparseIndex [])).
  - reflexivity.
  - discriminate.
  - repeat constructor; vm_compute; congruence.
Defined.

End BlockFacts.

(** ** Bloom filter *)

Module BloomFacts.
Import index.

(** What [NewBloomFilter] establishes and [Add] keeps. *)
Definition wf_bloom (bf : BloomFilter) : Prop :=
  0 < size bf ∧ size bf = 8 * Z.of_nat (length (bits bf)) ∧
  0 <= hashCount bf <= 10 ∧ is_int64 (size bf) ∧ is_int64 (count bf).

(** Bit [pos] of the bit array is set. *)
Definition bitSet (bits : list byte) (pos : Z) : Prop :=
  ∃ b, bits !! Z.to_nat (pos / 8) = Some b ∧
       Z.testbit (byte_to_Z b) (pos mod 8) = true.

(** The position probed for hash number [i]. *)
Definition probe (bf : BloomFilter) (h1 h2 i : Z) : Z :=
  (h1 + i * h2) mod size bf.

Lemma int64_small v : is_int64 v → int64 v = v.
Proof. intros Hv. rewrite <- (int64_uint64 v Hv) at 2. unfold int64, uint64.
  by rewrite Z.mod_mod by lia. Qed.

Lemma int64_range v : is_int64 (int64 v).
Proof.
  unfold is_int64, int64.
  pose proof (Z.mod_pos_bound v (2 ^ 64) ltac:(lia)).
  destruct (Z.ltb_spec (v mod 2 ^ 64) (2 ^ 63)); lia.
Qed.

Lemma bloomPos_ok bf h1 h2 i :
  wf_bloom bf → 0 <= h1 < 2 ^ 32 → 0 <= h2 < 2 ^ 32 → 0 <= i < 10 →
  bloomPos bf h1 h2 i = Ok (probe bf h1 h2 i) ∧ 0 <= probe bf h1 h2 i < size bf.
Proof.
  intros (Hsz & _ & _ & _ & _) H1 H2 Hi. unfold bloomPos, probe.
  assert (Hprod : 0 <= i * h2 < 10 * 2 ^ 32) by nia.
  rewrite (int64_small (i * h2)) by (unfold is_int64; lia).
  rewrite (int64_small (h1 + i * h2)) by (unfold is_int64; lia).
  destruct (Z.ltb_spec (h1 + i * h2) 0); [lia|].
  destruct (Z.eqb_spec (size bf) 0); [lia|].
  rewrite Z.rem_mod_nonneg by lia.
  split; [done|]. apply Z.mod_pos_bound; lia.
Qed.

Lemma shiftl_1_byte k : 0 <= k < 8 → byte_to_Z (byte_of_Z (Z.shiftl 1 k)) = 2 ^ k.
Proof.
  intros Hk. rewrite byte_to_of_Z, Z.shiftl_1_l.
  apply Z.mod_small. split; [apply Z.pow_nonneg; lia|].
  change 256 with (2 ^ 8). apply Z.pow_lt_mono_r; lia.
Qed.

Lemma testbit_lor_byte b k j :
  0 <= k < 8 → 0 <= j < 8 →
  Z.testbit (byte_to_Z (byte_of_Z (Z.lor (byte_to_Z b) (Z.shiftl 1 k)))) j
  = Z.testbit (byte_to_Z b) j || bool_decide (j = k).
Proof.
  intros Hk Hj. rewrite byte_to_of_Z. change 256 with (2 ^ 8).
  rewrite Z.mod_pow2_bits_low by lia.
  rewrite Z.lor_spec, Z.shiftl_1_l, Z.pow2_bits_eqb by lia.
  f_equal. destruct (Z.eqb_spec k j); case_bool_decide; lia || done.
Qed.

Lemma pos_split pos : 0 <= pos → Z.quot pos 8 = pos / 8 ∧ Z.rem pos 8 = pos mod 8
  ∧ 0 <= pos / 8 ∧ 0 <= pos mod 8 < 8.
Proof.
  intros Hp. rewrite Z.quot_div_nonneg, Z.rem_mod_nonneg by lia.
  repeat split; try lia.
  - apply Z.div_pos; lia.
  - apply Z.mod_pos_bound; lia.
  - apply Z.mod_pos_bound; lia.
Qed.

Lemma setBit_ok bits pos :
  0 <= pos < 8 * Z.of_nat (length bits) →
  ∃ bits', setBit bits pos = Ok bits' ∧ length bits' = length bits ∧
    bitSet bits' pos ∧ ∀ q, bitSet bits q → bitSet bits' q.
Proof.
  intros Hpos. destruct (pos_split pos ltac:(lia)) as (Hq & Hr & Hq0 & Hr0).
  unfold setBit. rewrite Hq, Hr.
  destruct (Z.ltb_spec (pos / 8) 0); [lia|].
  destruct (Z.ltb_spec (pos mod 8) 0); [lia|]. cbn [orb].
  assert (Hlt : (Z.to_nat (pos / 8) < length bits)%nat).
  { assert (pos / 8 < Z.of_nat (length bits)) by (apply Z.div_lt_upper_bound; lia).
    lia. }
  destruct (lookup_lt_is_Some_2 bits _ Hlt) as [b Hb]. rewrite Hb.
  eexists. split; [reflexivity|]. split; [by rewrite length_insert|]. split.
  - eexists. split; [by apply list_lookup_insert_eq|].
    rewrite testbit_lor_byte by lia. rewrite bool_decide_true by done.
    by rewrite orb_true_r.
  - intros q (b' & Hb' & Hbit).
    destruct (decide (Z.to_nat (q / 8) = Z.to_nat (pos / 8))) as [E|E].
    + rewrite E in Hb'. assert (b' = b) by congruence. subst b'.
      eexists. split; [rewrite E; by apply list_lookup_insert_eq|].
      assert (0 <= q mod 8 < 8) by (apply Z.mod_pos_bound; lia).
      rewrite testbit_lor_byte by lia. by rewrite Hbit.
    + exists b'. split; [|done]. by rewrite list_lookup_insert_ne.
Qed.

Lemma bitIsZero_set bits pos :
  0 <= pos → bitSet bits pos → bitIsZero bits pos = Ok false.
Proof.
  intros Hpos (b & Hb & Hbit).
  destruct (pos_split pos Hpos) as (Hq & Hr & Hq0 & Hr0).
  unfold bitIsZero. rewrite Hq, Hr.
  destruct (Z.ltb_spec (pos / 8) 0); [lia|].
  destruct (Z.ltb_spec (pos mod 8) 0); [lia|]. cbn [orb].
  rewrite Hb, shiftl_1_byte by lia. f_equal.
  apply Z.eqb_neq. intros Hz.
  assert (Ht : Z.testbit (Z.land (byte_to_Z b) (2 ^ (pos mod 8))) (pos mod 8) = true).
  { rewrite Z.land_spec, Hbit, Z.pow2_bits_true by lia. done. }
  rewrite Hz, Z.bits_0 in Ht. discriminate.
Qed.

Lemma addLoop_ok bf h1 h2 todo i bits0 :
  wf_bloom bf → 0 <= h1 < 2 ^ 32 → 0 <= h2 < 2 ^ 32 →
  0 <= i → i + Z.of_nat todo <= 10 → length bits0 = length (bits bf) →
  ∃ bits', addLoop todo bf h1 h2 i bits0 = Ok bits' ∧
    length bits' = length bits0 ∧
    (∀ q, bitSet bits0 q → bitSet bits' q) ∧
    ∀ j, i <= j < i + Z.of_nat todo → bitSet bits' (probe bf h1 h2 j).
Proof.
  intros Hwf H1 H2. revert i bits0.
  induction todo as [|todo IH]; intros i bits0 Hi Hle Hlen.
  - exists bits0. repeat split; try done. intros j Hj. lia.
  - cbn [addLoop].
    destruct (bloomPos_ok bf h1 h2 i Hwf H1 H2 ltac:(lia)) as [-> Hrange].
    cbn [mbind result_bind].
    destruct (setBit_ok bits0 (probe bf h1 h2 i)) as (bits1 & -> & Hlen1 & Hset & Hmono).
    { destruct Hwf as (_ & Hsz & _). rewrite Hlen. lia. }
    cbn [mbind result_bind].
    destruct (IH (i + 1) bits1 ltac:(lia) ltac:(lia) ltac:(congruence))
      as (bits' & -> & Hlen' & Hmono' & Hall).
    exists bits'. split; [done|]. split; [congruence|]. split; [by auto|].
    intros j Hj. destruct (decide (j = i)) as [->|Hne]; [by auto|].
    apply Hall. lia.
Qed.

Lemma mightContainLoop_ok bf h1 h2 todo i :
  wf_bloom bf → 0 <= h1 < 2 ^ 32 → 0 <= h2 < 2 ^ 32 →
  0 <= i → i + Z.of_nat todo <= 10 →
  (∀ j, i <= j < i + Z.of_nat todo → bitSet (bits bf) (probe bf h1 h2 j)) →
  mightContainLoop todo bf h1 h2 i = Ok true.
Proof.
  intros Hwf H1 H2. revert i.
  induction todo as [|todo IH]; intros i Hi Hle Hall; [done|].
  cbn [mightContainLoop].
  destruct (bloomPos_ok bf h1 h2 i Hwf H1 H2 ltac:(lia)) as [-> Hrange].
  cbn [mbind result_bind].
  rewrite bitIsZero_set by (try apply Hall; lia).
  cbn [mbind result_bind]. apply IH; [lia|lia|].
  intros j Hj. apply Hall. lia.
Qed.

(** Every bit probed for [key] is set. *)
Definition holds `{Crc32} (bf : BloomFilter) (key : list byte) : Prop :=
  ∀ j, 0 <= j < hashCount bf →
    bitSet (bits bf) (probe bf (bloomHashes key).1 (bloomHashes key).2 j).

Lemma bloomHashes_range `{Crc32} key :
  0 <= (bloomHashes key).1 < 2 ^ 32 ∧ 0 <= (bloomHashes key).2 < 2 ^ 32.
Proof. unfold bloomHashes. cbn [fst snd]. split; apply ChecksumIEEE_range. Qed.

Lemma Add_ok `{Crc32} bf key :
  wf_bloom bf →
  ∃ bf', Add bf key = Ok bf' ∧ wf_bloom bf' ∧ holds bf' key ∧
    ∀ key', holds bf key' → holds bf' key'.
Proof.
  intros Hwf. pose proof Hwf as (Hsz & Hlen & Hk & Hsize & Hcnt).
  destruct (bloomHashes_range key) as [H1 H2].
  unfold Add, holds. destruct (bloomHashes key) as [h1 h2] eqn:Hh. cbn [fst snd] in *.
  destruct (addLoop_ok bf h1 h2 (Z.to_nat (hashCount bf)) 0 (bits bf) Hwf H1 H2)
    as (bits' & -> & Hlen' & Hmono & Hall); [lia|lia|done|].
  cbn [mbind result_bind]. eexists. split; [reflexivity|].
  cbn [bits size hashCount count]. split; [|split].
  - unfold wf_bloom. cbn [bits size hashCount count].
    rewrite Hlen'. repeat split; try lia; try apply Hsize. all: apply int64_range.
  - intros j Hj. unfold probe in *. cbn [size]. apply Hall. lia.
  - intros key' Hheld j Hj. unfold probe in *. cbn [size]. apply Hmono. by apply Hheld.
Qed.

Lemma MightContain_holds `{Crc32} bf key :
  wf_bloom bf → holds bf key → MightContain bf key = Ok true.
Proof.
  intros Hwf Hheld. pose proof Hwf as (Hsz & Hlen & Hk & _).
  destruct (bloomHashes_range key) as [H1 H2].
  unfold MightContain. unfold holds in Hheld.
  destruct (bloomHashes key) as [h1 h2]. cbn [fst snd] in *.
  apply mightContainLoop_ok; try done; try lia.
  intros j Hj. apply Hheld. lia.
Qed.

(** [Add] for each key in turn, as the merge does during a build. *)
Fixpoint AddAll `{Crc32} (bf : BloomFilter) (keys : list (list byte))
  : result BloomFilter :=
  match keys with
  | [] => Ok bf
  | key :: keys' => bf' ← Add bf key; AddAll bf' keys'
  end.

Lemma AddAll_ok `{Crc32} keys : ∀ bf,
  wf_bloom bf →
  ∃ bf', AddAll bf keys = Ok bf' ∧ wf_bloom bf' ∧
    (∀ key, holds bf key → holds bf' key) ∧
    ∀ key, key ∈ keys → holds bf' key.
Proof.
  induction keys as [|key keys IH]; intros bf Hwf.
  - exists bf. split; [done|]. split; [done|]. split; [done|].
    intros key Hin. by apply elem_of_nil in Hin.
  - destruct (Add_ok bf key Hwf) as (bf1 & Hadd & Hwf1 & Hkey & Hmono1).
    destruct (IH bf1 Hwf1) as (bf' & Hall & Hwf' & Hmono & Hin).
    exists bf'. cbn [AddAll]. rewrite Hadd. cbn [mbind result_bind].
    split; [done|]. split; [done|]. split; [by auto|].
    intros key' [->|Hin']%elem_of_cons; by auto.
Qed.

Lemma Deserialize_Serialize bf :
  is_int64 (size bf) → is_int64 (hashCount bf) → is_int64 (count bf) →
  DeserializeBloom (Serialize bf) = Some bf.
Proof.
  intros Hs Hk Hc. destruct bf as [b s k c]; cbn [bits size hashCount count] in *.
  unfold DeserializeBloom, Serialize; cbn [bits size hashCount count].
  rewrite !length_app, !PutUint64_length.
  destruct (decide _) as [E|_]; [lia|]. f_equal.
  rewrite <- !app_assoc.
  set (l := _ ++ _ ++ _ ++ b).
  replace (drop 24 l) with (drop 8 (drop 8 (drop 8 l))) by (by rewrite !drop_drop).
  replace (drop 16 l) with (drop 8 (drop 8 l)) by (by rewrite !drop_drop).
  unfold l.
  repeat first [ rewrite drop_app_length' by (by rewrite PutUint64_length)
               | rewrite take_app_length' by (by rewrite PutUint64_length) ].
  rewrite !Uint64_PutUint64, !uint64_idem, !int64_uint64 by done.
  reflexivity.
Qed.

Lemma NewBloomFilter_wf `{Float64Ops} n fpRate bf :
  NewBloomFilter n fpRate = Ok bf → wf_bloom bf.
Proof.
  unfold NewBloomFilter.
  set (m0 := int64 (bloom_m _ fpRate)).
  set (m1 := if m0 <? 1024 then 1024 else m0).
  set (m := int64 (Z.quot (int64 (m1 + 7)) 8 * 8)).
  set (k0 := int64 (bloom_k m _)).
  set (k1 := if k0 <? 1 then 1 else k0).
  set (k := if 10 <? k1 then 10 else k1).
  assert (Hm0 : is_int64 m0) by apply int64_range.
  assert (Hm1 : 1024 <= m1 < 2 ^ 63).
  { unfold m1, is_int64 in *. destruct (Z.ltb_spec m0 1024); lia. }
  assert (Hk : 0 <= k <= 10).
  { unfold k. destruct (Z.ltb_spec 10 k1); [lia|].
    unfold k1 in *. destruct (Z.ltb_spec k0 1); lia. }
  assert (Hm : is_int64 m) by apply int64_range.
  destruct (Z.ltb_spec (Z.quot m 8) 0) as [Hneg|Hpos]; [discriminate|].
  intros [= <-]. unfold wf_bloom. cbn [bits size hashCount count].
  rewrite length_replicate, Z2Nat.id by done.
  assert (Hcases : (m1 + 7 < 2 ^ 63 ∧ int64 (m1 + 7) = m1 + 7) ∨
                   (2 ^ 63 <= m1 + 7 ∧ int64 (m1 + 7) = m1 + 7 - 2 ^ 64)).
  { unfold int64. rewrite Z.mod_small by lia.
    destruct (Z.ltb_spec (m1 + 7) (2 ^ 63)); lia. }
  assert (Hy : m = Z.quot (int64 (m1 + 7)) 8 * 8).
  { unfold m. apply int64_small. unfold is_int64.
    destruct Hcases as [[Hs ->]|[Hb ->]]; Z.quot_rem_to_equations; lia. }
  clearbody m k. unfold is_int64 in *.
  destruct Hcases as [[Hs Ha]|[Hb Ha]]; rewrite Ha in Hy;
    Z.quot_rem_to_equations; lia.
Qed.

(** CRC-32 (IEEE polynomial, reflected), bit by bit: the instance at which
    closed terms are evaluated. *)
Fixpoint crcShift (n : nat) (c : Z) : Z :=
  match n with
  | O => c
  | S n' =>
      crcShift n' (if Z.testbit c 0 then Z.lxor (Z.shiftr c 1) 0xEDB88320
                   else Z.shiftr c 1)
  end.

Definition crcUpdate (c : Z) (b : byte) : Z :=
  crcShift 8 (Z.lxor c (byte_to_Z b)).

Definition crc32_ieee (data : list byte) : Z :=
  Z.lxor (fold_left crcUpdate data 0xFFFFFFFF) 0xFFFFFFFF mod 2 ^ 32.

Example crc32_ieee_check : crc32_ieee (bs "123456789") = 0xCBF43926.
Proof. vm_compute. reflexivity. Qed.

#[export] Instance crc32_reference : Crc32.
Proof.
  refine {| ChecksumIEEE := crc32_ieee |}.
  intros b. unfold crc32_ieee. apply Z.mod_pos_bound. lia.
Defined.

(** Sizing with the rational values of the constants, for [fpRate = 0.01]. *)
#[export] Instance sizing_reference : Float64Ops :=
  {| float64 := unit;
     bloom_m := λ n _, n * 4605 * 10 / 4804;
     bloom_k := λ m n, m * 693 / (n * 1000) |}.

(** C4. A filter created by [NewBloomFilter] has no false negatives:
    after the keys of a build have been added, [MightContain] is true for
    each of them, on the filter in memory, on the filter deserialized from
    its 24-byte-header serialization, and on the filter loaded from the
    mapped bloom file. *)
Theorem C4_bloom_no_false_negatives {crc : Crc32} {fl : Float64Ops}
    (n : Z) (fpRate : float64) (bf : BloomFilter)
    (keys : list (list byte)) (k : list byte) :
  NewBloomFilter n fpRate = Ok bf → k ∈ keys →
  ∃ bf', AddAll bf keys = Ok bf' ∧
    MightContain bf' k = Ok true ∧
    (∃ bf2, DeserializeBloom (Serialize bf') = Some bf2 ∧
            MightContain bf2 k = Ok true) ∧
    (∃ bf3, LoadBloomFilterMmap (Serialize bf') = Ok bf3 ∧
            MightContain bf3 k = Ok true).
Proof.
  intros Hnew Hin. apply NewBloomFilter_wf in Hnew.
  destruct (AddAll_ok keys bf Hnew) as (bf' & Hall & Hwf & _ & Hheld).
  assert (Hm : MightContain bf' k = Ok true) by (apply MightContain_holds; auto).
  assert (Hrt : DeserializeBloom (Serialize bf') = Some bf').
  { destruct Hwf as (_ & _ & Hk & Hs & Hc).
    apply Deserialize_Serialize; try done. unfold is_int64. lia. }
  exists bf'. split; [done|]. split; [done|]. split.
  - by exists bf'.
  - exists bf'. unfold LoadBloomFilterMmap. by rewrite Hrt.
Qed.

Definition sample_bloom : BloomFilter :=
  {| bits := replicate 128 NUL; size := 1024; hashCount := 7; count := 0 |}.

Lemma C4_bloom_no_false_negatives_witness :
  ∃ bf', AddAll sample_bloom [bs "Eng"; bs "Sales"] = Ok bf' ∧
    MightContain bf' (bs "Sales") = Ok true ∧
    (∃ bf2, DeserializeBloom (Serialize bf') = Some bf2 ∧
            MightContain bf2 (bs "Sales") = Ok true) ∧
    (∃ bf3, LoadBloomFilterMmap (Serialize bf') = Ok bf3 ∧
            MightContain bf3 (bs "Sales") = Ok true).
Proof.
  apply (C4_bloom_no_false_negatives (crc := crc32_reference)
           (fl := sizing_reference) 100 tt sample_bloom
           [bs "Eng"; bs "Sales"] (bs "Sales")).
  - vm_compute. reflexivity.
  - apply elem_of_cons; right; apply elem_of_cons; by left.
Defined.

End BloomFacts.

(** ** The order of keys and records *)

Module OrderFacts.
Import index.

Lemma bytesCompare_range a b : -1 <= bytesCompare a b <= 1.
Proof.
  revert b. induction a as [|x a IH]; intros [|y b]; simpl; try lia.
  repeat case_match; try lia. apply IH.
Qed.

Lemma bytesCompare_refl a : bytesCompare a a = 0.
Proof.
  induction a as [|x a IH]; simpl; [done|].
  rewrite Z.ltb_irrefl. exact IH.
Qed.

Lemma bytesCompare_eq a b : bytesCompare a b = 0 → a = b.
Proof.
  revert b. induction a as [|x a IH]; intros [|y b]; simpl; try done.
  destruct (Z.ltb_spec (byte_to_Z x) (byte_to_Z y)); [done|].
  destruct (Z.ltb_spec (byte_to_Z y) (byte_to_Z x)); [done|].
  intros Hc. f_equal; [apply byte_to_Z_inj; lia|by apply IH].
Qed.

Lemma bytesCompare_antisym a b : bytesCompare b a = - bytesCompare a b.
Proof.
  revert b. induction a as [|x a IH]; intros [|y b]; simpl; try done.
  destruct (Z.ltb_spec (byte_to_Z x) (byte_to_Z y));
    destruct (Z.ltb_spec (byte_to_Z y) (byte_to_Z x)); try lia. apply IH.
Qed.

Lemma bytesCompare_trans a b c :
  bytesCompare a b <= 0 → bytesCompare b c <= 0 → bytesCompare a c <= 0.
Proof.
  revert b c. induction a as [|x a IH]; intros [|y b] [|z c]; simpl; try lia.
  destruct (Z.ltb_spec (byte_to_Z x) (byte_to_Z y));
    destruct (Z.ltb_spec (byte_to_Z y) (byte_to_Z x));
    destruct (Z.ltb_spec (byte_to_Z y) (byte_to_Z z));
    destruct (Z.ltb_spec (byte_to_Z z) (byte_to_Z y));
    destruct (Z.ltb_spec (byte_to_Z x) (byte_to_Z z));
    destruct (Z.ltb_spec (byte_to_Z z) (byte_to_Z x)); try lia.
  apply IH.
Qed.

(** [a] is before or equal to [b] in the order of the index. *)
Definition recLe (a b : IndexRecord) : Prop := recordCmp a b <= 0.

Lemma bytesCompare_lt_trans a b c :
  bytesCompare a b < 0 → bytesCompare b c < 0 → bytesCompare a c < 0.
Proof.
  intros Hab Hbc.
  pose proof (bytesCompare_trans a b c ltac:(lia) ltac:(lia)) as Hle.
  destruct (Z.eq_dec (bytesCompare a c) 0) as [E|E]; [|lia].
  apply bytesCompare_eq in E. subst c.
  pose proof (bytesCompare_antisym a b). lia.
Qed.

Lemma bytesCompare_trichotomy a b :
  bytesCompare a b < 0 ∨ a = b ∨ bytesCompare b a < 0.
Proof.
  destruct (Z.compare_spec (bytesCompare a b) 0) as [E|E|E].
  - right; left. by apply bytesCompare_eq.
  - by left.
  - right; right. rewrite bytesCompare_antisym. lia.
Qed.

Lemma recordCmp_le a b :
  recordCmp a b <= 0 ↔
  bytesCompare (Key a) (Key b) < 0 ∨ (Key a = Key b ∧ types.Offset a <= types.Offset b).
Proof.
  unfold recordCmp.
  destruct (Z.eqb_spec (bytesCompare (Key a) (Key b)) 0) as [E|E]; cbn [negb].
  - pose proof (bytesCompare_eq _ _ E) as Hk. split.
    + intros Hc. right. split; [done|].
      destruct (Z.ltb_spec (types.Offset a) (types.Offset b)); [lia|].
      destruct (Z.ltb_spec (types.Offset b) (types.Offset a)); lia.
    + intros [Hlt|[_ Ho]]; [lia|].
      destruct (Z.ltb_spec (types.Offset a) (types.Offset b)); [lia|].
      destruct (Z.ltb_spec (types.Offset b) (types.Offset a)); lia.
  - split; [lia|]. intros [?|[Hk ?]]; [lia|].
    rewrite Hk, bytesCompare_refl in E. done.
Qed.

Lemma recordCmp_lt a b :
  recordCmp a b < 0 ↔
  bytesCompare (Key a) (Key b) < 0 ∨ (Key a = Key b ∧ types.Offset a < types.Offset b).
Proof.
  unfold recordCmp.
  destruct (Z.eqb_spec (bytesCompare (Key a) (Key b)) 0) as [E|E]; cbn [negb].
  - pose proof (bytesCompare_eq _ _ E) as Hk. split.
    + intros Hc. right. split; [done|].
      destruct (Z.ltb_spec (types.Offset a) (types.Offset b)); [lia|].
      destruct (Z.ltb_spec (types.Offset b) (types.Offset a)); lia.
    + intros [Hlt|[_ Ho]]; [lia|].
      destruct (Z.ltb_spec (types.Offset a) (types.Offset b)); [lia|].
      destruct (Z.ltb_spec (types.Offset b) (types.Offset a)); lia.
  - split; [lia|]. intros [?|[Hk ?]]; [lia|].
    rewrite Hk, bytesCompare_refl in E. done.
Qed.

Lemma recLe_refl a : recLe a a.
Proof. apply recordCmp_le. right. split; [done|lia]. Qed.

Lemma recLe_total a b : recLe a b ∨ recLe b a.
Proof.
  unfold recLe. rewrite !recordCmp_le.
  destruct (bytesCompare_trichotomy (Key a) (Key b)) as [H|[H|H]]; [by auto| |by auto].
  destruct (Z_le_gt_dec (types.Offset a) (types.Offset b)); [left|right]; right;
    split; (done || lia).
Qed.

Lemma recLe_trans a b c : recLe a b → recLe b c → recLe a c.
Proof.
  unfold recLe. intros [H1|[E1 O1]]%recordCmp_le [H2|[E2 O2]]%recordCmp_le;
    apply recordCmp_le.
  - left. by eapply bytesCompare_lt_trans.
  - left. by rewrite <- E2.
  - left. by rewrite E1.
  - right. split; [congruence|lia].
Qed.

Lemma recLt_not_ge a b : recordCmp a b < 0 → recLe b a → False.
Proof.
  unfold recLe. intros [H1|[E1 O1]]%recordCmp_lt [H2|[E2 O2]]%recordCmp_le.
  - pose proof (bytesCompare_antisym (Key a) (Key b)). lia.
  - rewrite E2, bytesCompare_refl in H1. lia.
  - rewrite E1, bytesCompare_refl in H2. lia.
  - lia.
Qed.

#[export] Instance recLe_preorder : PreOrder recLe.
Proof. split; [exact recLe_refl|exact recLe_trans]. Qed.

Lemma Less_spec m o : Less m o = true ↔ recordCmp (record m) (record o) < 0.
Proof.
  unfold Less, recordCmp.
  destruct (Z.eqb_spec (bytesCompare (Key (record m)) (Key (record o))) 0) as [E|E];
    cbn [negb].
  - destruct (Z.ltb_spec (types.Offset (record m)) (types.Offset (record o)));
      [done|]. destruct (Z.ltb_spec (types.Offset (record o)) (types.Offset (record m)));
      split; (lia || discriminate).
  - destruct (Z.ltb_spec (bytesCompare (Key (record m)) (Key (record o))) 0);
      split; (lia || discriminate || done).
Qed.

(** [x] may stand above [y] in the heap: [y] is not less than [x]. *)
Definition itemLe (x y : mergeItem) : Prop := recLe (record x) (record y).

Lemma Less_false m o : Less o m = false ↔ itemLe m o.
Proof.
  unfold itemLe. rewrite <- not_true_iff_false, Less_spec. split.
  - intros Hn. destruct (recLe_total (record m) (record o)) as [H|H]; [done|].
    unfold recLe in *. destruct (Z.eq_dec (recordCmp (record o) (record m)) 0) as [E|E];
      [|lia].
    apply recordCmp_le. assert (Hle : recordCmp (record o) (record m) <= 0) by lia.
    apply recordCmp_le in Hle as [Hlt|[Hk Ho]].
    + exfalso. apply Hn. apply recordCmp_lt. by left.
    + right. split; [done|].
      destruct (Z_le_gt_dec (types.Offset (record m)) (types.Offset (record o))); [done|].
      exfalso. apply Hn. apply recordCmp_lt. right. split; [done|lia].
  - intros Hle Hlt. by eapply recLt_not_ge.
Qed.

Lemma Less_true m o : Less o m = true → itemLe o m.
Proof. rewrite Less_spec. unfold itemLe, recLe. lia. Qed.

#[export] Instance itemLe_preorder : PreOrder itemLe.
Proof.
  split; [intros x; apply recLe_refl|intros x y z; apply recLe_trans].
Qed.

End OrderFacts.
Export OrderFacts.

(** ** The binary heap of the merge *)

Module HeapFacts.
Import index.

Definition child (p c : nat) : Prop := c = (2 * p + 1)%nat ∨ c = (2 * p + 2)%nat.

(** The element at [p] is not above a smaller child. *)
Definition okAt (h : manualHeap) (p : nat) : Prop :=
  ∀ c, child p c → (c < length h)%nat → itemLe (h !!! p) (h !!! c).

Definition is_heap (h : manualHeap) : Prop := ∀ p, okAt h p.

Lemma child_parent p c : child p c → p = ((c - 1) / 2)%nat ∧ (p < c)%nat.
Proof.
  intros [->| ->]; (split; [|lia]).
  - replace (2 * p + 1 - 1)%nat with (p * 2)%nat by lia.
    by rewrite Nat.div_mul by lia.
  - replace (2 * p + 2 - 1)%nat with (1 + p * 2)%nat by lia.
    rewrite Nat.div_add by lia. done.
Qed.

Lemma Swap_length h i j : length (Swap h i j) = length h.
Proof. unfold Swap. by rewrite !length_insert. Qed.

Lemma Swap_lookup_total h i j k :
  (i < length h)%nat → (j < length h)%nat →
  Swap h i j !!! k =
    if decide (k = i) then h !!! j else if decide (k = j) then h !!! i else h !!! k.
Proof.
  intros Hi Hj. unfold Swap.
  rewrite list_lookup_total_insert, length_insert.
  destruct (decide (k = i)) as [->|Hki].
  - rewrite decide_True; done.
  - rewrite decide_False by (intros [? ?]; done).
    rewrite list_lookup_total_insert.
    destruct (decide (k = j)) as [->|Hkj].
    + rewrite decide_True; done.
    + rewrite decide_False by (intros [? ?]; done). done.
Qed.

Lemma Swap_lookup h i j k :
  (i < length h)%nat → (j < length h)%nat →
  Swap h i j !! k =
    if decide (k = i) then h !! j else if decide (k = j) then h !! i else h !! k.
Proof.
  intros Hi Hj. unfold Swap.
  rewrite list_lookup_insert, length_insert.
  destruct (decide (k = i)) as [->|Hki].
  - rewrite decide_True by done. by rewrite list_lookup_lookup_total_lt.
  - rewrite decide_False by (intros [? ?]; done).
    rewrite list_lookup_insert.
    destruct (decide (k = j)) as [->|Hkj].
    + rewrite decide_True by done. by rewrite list_lookup_lookup_total_lt.
    + rewrite decide_False by (intros [? ?]; done). done.
Qed.

Lemma Swap_perm h i j :
  (i < length h)%nat → (j < length h)%nat → Swap h i j ≡ₚ h.
Proof.
  intros Hi Hj. apply Permutation_inj. split; [apply Swap_length|].
  exists (λ k, if decide (k = i) then j else if decide (k = j) then i else k).
  split.
  - intros a b. repeat case_decide; lia.
  - intros k. rewrite Swap_lookup by done. by repeat case_decide; subst.
Qed.

Lemma root_minimal h k :
  is_heap h → (k < length h)%nat → itemLe (h !!! 0%nat) (h !!! k).
Proof.
  intros Hh. induction k as [k IH] using lt_wf_ind. intros Hk.
  destruct (decide (k = 0)%nat) as [->|Hk0]; [reflexivity|].
  set (p := ((k - 1) / 2)%nat).
  assert (Hc : child p k).
  { unfold child, p. destruct (Nat.Even_or_Odd k) as [[m ->]|[m ->]].
    - right. destruct m; [lia|].
      replace (2 * S m - 1)%nat with (1 + m * 2)%nat by lia.
      rewrite Nat.div_add by lia. simpl. lia.
    - left. replace (2 * m + 1 - 1)%nat with (m * 2)%nat by lia.
      rewrite Nat.div_mul by lia. lia. }
  destruct (child_parent _ _ Hc) as [_ Hlt].
  transitivity (h !!! p); [apply IH; lia|]. by apply Hh.
Qed.

(** Sifting down at [i]: every position from [lo] on is in order except
    [i], and the parent of [i] (when it is at or after [lo]) is not above
    the children of [i]. *)
Lemma downLoop_correct fuel : ∀ h i n lo,
  length h = n → (n - i ≤ fuel)%nat → (lo ≤ i)%nat →
  (∀ p, (lo ≤ p)%nat → p ≠ i → okAt h p) →
  ((0 < i)%nat → (lo ≤ (i - 1) / 2)%nat → ∀ c, child i c → (c < n)%nat →
     itemLe (h !!! ((i - 1) / 2)%nat) (h !!! c)) →
  downLoop fuel h i n ≡ₚ h ∧
  (∀ p, (lo ≤ p)%nat → okAt (downLoop fuel h i n) p) ∧
  length (downLoop fuel h i n) = n.
Proof.
  induction fuel as [|fuel IH]; intros h i n lo Hlen Hfuel Hlo HA HB.
  - cbn [downLoop]. split; [done|]. split; [|done].
    intros p Hp. destruct (decide (p = i)) as [->|Hne]; [|by apply HA].
    intros c [-> | ->] Hc; lia.
  - cbn [downLoop]. case_bool_decide as Hj1.
    { split; [done|]. split; [|done].
      intros p Hp. destruct (decide (p = i)) as [->|Hne]; [|by apply HA].
      intros c [-> | ->] Hc; lia. }
    set (j1 := (2 * i + 1)%nat) in *. set (j2 := (j1 + 1)%nat).
    set (j := if bool_decide (j2 < n)%nat && Less (h !!! j2) (h !!! j1) then j2 else j1).
    assert (Hj : child i j ∧ (j < n)%nat ∧
                 ∀ c, child i c → (c < n)%nat → itemLe (h !!! j) (h !!! c)).
    { unfold j. case_bool_decide as Hj2; cbn [andb].
      - destruct (Less (h !!! j2) (h !!! j1)) eqn:HL.
        + split; [right; unfold j2, j1; lia|]. split; [done|].
          intros c [-> | ->] Hc.
          * by apply Less_true.
          * replace (2 * i + 2)%nat with j2 by (unfold j2, j1; lia). reflexivity.
        + split; [by left|]. split; [lia|].
          intros c [-> | ->] Hc; [reflexivity|].
          replace (2 * i + 2)%nat with j2 by (unfold j2, j1; lia).
          by apply Less_false.
      - split; [by left|]. split; [lia|].
        intros c [-> | ->] Hc; [reflexivity|]. unfold j2, j1 in Hj2. lia. }
    destruct Hj as (Hchild & Hjn & Hmin). clearbody j.
    destruct (child_parent _ _ Hchild) as [Hpar Hij].
    destruct (Less (h !!! j) (h !!! i)) eqn:HL; cbn [negb].
    2:{ split; [done|]. split; [|done].
        intros p Hp. destruct (decide (p = i)) as [->|Hne]; [|by apply HA].
        intros c Hc Hcn. rewrite Hlen in Hcn.
        transitivity (h !!! j); [by apply Less_false|by apply Hmin]. }
    apply Less_true in HL.
    assert (Hin : (i < length h)%nat) by lia.
    assert (Hjl : (j < length h)%nat) by lia.
    destruct (IH (Swap h j i) j n lo) as (Hperm & Hok & Hlen').
    + by rewrite Swap_length.
    + lia.
    + lia.
    + intros p Hp Hpj c Hc Hcn. rewrite Swap_length in Hcn.
      destruct (child_parent _ _ Hc) as [Hpc Hlt].
      rewrite !Swap_lookup_total by done.
      destruct (decide (p = j)) as [|_]; [done|].
      destruct (decide (p = i)) as [->|Hpi].
      * (* the children of [i] *)
        destruct (decide (c = j)) as [->|Hcj]; [done|].
        destruct (decide (c = i)) as [->|_]; [lia|].
        apply Hmin; [done|lia].
      * destruct (decide (c = j)) as [->|Hcj]; [lia|].
        destruct (decide (c = i)) as [->|Hci].
        -- (* [p] is the parent of [i] *)
           subst p. apply HB; [lia|done|done|done].
        -- apply HA; [done|done|done|lia].
    + intros _ _ c Hc Hcn.
      destruct (child_parent _ _ Hc) as [_ Hlt].
      rewrite <- Hpar. rewrite !Swap_lookup_total by done.
      destruct (decide (i = j)) as [|_]; [lia|].
      rewrite decide_True by done.
      destruct (decide (c = j)) as [|_]; [lia|].
      destruct (decide (c = i)) as [|_]; [lia|].
      apply HA; [lia|lia|done|lia].
    + split; [by rewrite Hperm, Swap_perm|]. split; done.
Qed.

Lemma down_correct h i :
  (∀ p, (i < p)%nat → okAt h p) →
  down h i (length h) ≡ₚ h ∧
  (∀ p, (i ≤ p)%nat → okAt (down h i (length h)) p) ∧
  length (down h i (length h)) = length h.
Proof.
  intros HA. apply downLoop_correct; try done; try lia.
  - intros p Hp Hne. apply HA. lia.
  - intros Hi Hpar.
    assert ((i - 1) / 2 ≤ i - 1)%nat by (apply Nat.Div0.div_le_upper_bound; lia).
    lia.
Qed.

(** Sifting up at [j]: every parent-child pair is in order except the one
    that ends at [j], and the parent of [j] is not above the children of
    [j]. *)
Lemma upLoop_correct fuel : ∀ h j,
  (j < length h)%nat → (j < fuel)%nat →
  (∀ p c, child p c → (c < length h)%nat → c ≠ j → itemLe (h !!! p) (h !!! c)) →
  ((0 < j)%nat → ∀ c, child j c → (c < length h)%nat →
     itemLe (h !!! ((j - 1) / 2)%nat) (h !!! c)) →
  upLoop fuel h j ≡ₚ h ∧ is_heap (upLoop fuel h j).
Proof.
  induction fuel as [|fuel IH]; intros h j Hj Hfuel HA HB; [lia|].
  cbn [upLoop]. set (i := ((j - 1) / 2)%nat) in *.
  assert (Hij : (i ≤ j - 1)%nat) by (apply Nat.Div0.div_le_upper_bound; lia).
  case_bool_decide as Heq; cbn [orb].
  { split; [done|]. intros p c Hc Hcn.
    destruct (child_parent _ _ Hc). apply HA; [done|done|lia]. }
  assert (Hj0 : (0 < j)%nat) by lia.
  assert (Hchild : child i j).
  { unfold child, i. destruct (Nat.Even_or_Odd j) as [[m ->]|[m ->]].
    - right. destruct m; [lia|].
      replace (2 * S m - 1)%nat with (1 + m * 2)%nat by lia.
      rewrite Nat.div_add by lia. simpl. lia.
    - left. replace (2 * m + 1 - 1)%nat with (m * 2)%nat by lia.
      rewrite Nat.div_mul by lia. lia. }
  destruct (Less (h !!! j) (h !!! i)) eqn:HL; cbn [negb].
  2:{ split; [done|]. intros p c Hc Hcn.
      destruct (decide (c = j)) as [->|Hne]; [|by apply HA].
      destruct (child_parent _ _ Hc) as [-> _]. by apply Less_false. }
  apply Less_true in HL.
  assert (Hil : (i < length h)%nat) by lia.
  destruct (IH (Swap h i j) i) as (Hperm & Hheap).
  - by rewrite Swap_length.
  - lia.
  - intros p c Hc Hcn Hci. rewrite Swap_length in Hcn.
    destruct (child_parent _ _ Hc) as [Hpc Hlt].
    rewrite !Swap_lookup_total by done.
    destruct (decide (c = i)) as [|_]; [done|].
    destruct (decide (p = i)) as [->|Hpi].
    + destruct (decide (c = j)) as [->|Hcj]; [done|].
      transitivity (h !!! i); [done|]. by apply HA.
    + destruct (decide (p = j)) as [->|Hpj].
      * destruct (decide (c = j)) as [->|Hcj]; [lia|]. by apply HB.
      * destruct (decide (c = j)) as [->|Hcj]; [|by apply HA].
        destruct (child_parent _ _ Hchild). lia.
  - intros Hi0 c Hc Hcn. rewrite Swap_length in Hcn.
    destruct (child_parent _ _ Hc) as [Hpc Hlt].
    assert (Hpp : child ((i - 1) / 2)%nat i).
    { unfold child. destruct (Nat.Even_or_Odd i) as [[m ->]|[m ->]].
      - right. destruct m; [lia|].
        replace (2 * S m - 1)%nat with (1 + m * 2)%nat by lia.
        rewrite Nat.div_add by lia. simpl. lia.
      - left. replace (2 * m + 1 - 1)%nat with (m * 2)%nat by lia.
        rewrite Nat.div_mul by lia. lia. }
    destruct (child_parent _ _ Hpp) as [_ Hppi].
    rewrite !Swap_lookup_total by done.
    destruct (decide ((i - 1) / 2 = i)%nat) as [|_]; [lia|].
    destruct (decide ((i - 1) / 2 = j)%nat) as [|_]; [lia|].
    destruct (decide (c = i)) as [|_]; [lia|].
    assert (Hpi : itemLe (h !!! ((i - 1) / 2)%nat) (h !!! i)) by (apply HA; [done|lia|lia]).
    destruct (decide (c = j)) as [->|Hcj]; [done|].
    transitivity (h !!! i); [done|]. by apply HA.
  - split; [by rewrite Hperm, Swap_perm|done].
Qed.

Lemma Push_correct h x :
  is_heap h → Push h x ≡ₚ x :: h ∧ is_heap (Push h x).
Proof.
  intros Hheap. unfold Push, up.
  rewrite length_app. cbn [length].
  replace (length h + 1 - 1)%nat with (length h) by lia.
  destruct (upLoop_correct (S (length h)) (h ++ [x]) (length h)) as [Hperm Hh].
  - rewrite length_app. simpl. lia.
  - lia.
  - intros p c Hc Hcn Hne. rewrite length_app in Hcn. simpl in Hcn.
    destruct (child_parent _ _ Hc) as [_ Hlt].
    rewrite !lookup_total_app_l by lia. apply Hheap; [done|lia].
  - intros _ c Hc Hcn. rewrite length_app in Hcn. simpl in Hcn.
    destruct (child_parent _ _ Hc). lia.
  - split; [|done]. rewrite Hperm. by rewrite <- Permutation_cons_append.
Qed.

Lemma Pop_correct h x h' :
  is_heap h → h ≠ [] → Pop h = (x, h') →
  h ≡ₚ x :: h' ∧ is_heap h' ∧ (∀ y, y ∈ h → itemLe x y).
Proof.
  intros Hheap Hne. unfold Pop. intros [= <- <-].
  destruct h as [|x0 t]; [done|]. cbn [length].
  replace (S (length t) - 1)%nat with (length t) by lia.
  set (h0 := take (length t) (<[0%nat := (x0 :: t) !!! length t]> (x0 :: t))).
  assert (Hlen0 : length h0 = length t).
  { unfold h0. rewrite length_take, length_insert. simpl. lia. }
  assert (Hlook : ∀ k, (0 < k < length t)%nat → h0 !!! k = (x0 :: t) !!! k).
  { intros k Hk. unfold h0. rewrite !list_lookup_total_alt.
    rewrite lookup_take_lt by lia. by rewrite list_lookup_insert_ne by lia. }
  assert (Hperm0 : x0 :: t ≡ₚ x0 :: h0).
  { unfold h0. destruct t as [|y t'] using rev_ind; [done|].
    rewrite length_app. cbn [length].
    replace (length t' + 1)%nat with (S (length t')) by lia.
    cbn [insert list_insert take].
    change (x0 :: t' ++ [y]) with ((x0 :: t') ++ [y]).
    rewrite lookup_total_app_r by (simpl; lia).
    replace (S (length t') - length (x0 :: t'))%nat with 0%nat by (simpl; lia).
    cbn [lookup_total list_lookup_total].
    rewrite take_app_length. simpl.
    by rewrite <- Permutation_cons_append. }
  destruct (down_correct h0 0) as (Hperm & Hok & Hlen).
  { intros p Hp c Hc Hcn. destruct (child_parent _ _ Hc) as [_ Hlt].
    rewrite !Hlook by lia. apply Hheap; [done|simpl; lia]. }
  rewrite Hlen0 in *.
  split; [by rewrite Hperm|]. split.
  - intros p. apply Hok. lia.
  - intros y [k Hk]%list_elem_of_lookup.
    pose proof (lookup_lt_Some _ _ _ Hk) as Hkl.
    apply list_lookup_total_correct in Hk as <-.
    exact (root_minimal (x0 :: t) k Hheap Hkl).
Qed.

Lemma heapify_correct h : heapify h ≡ₚ h ∧ is_heap (heapify h).
Proof.
  unfold heapify. set (n := length h).
  assert (Hgen : ∀ m h0, length h0 = n →
            (∀ p, (m ≤ p)%nat → okAt h0 p) →
            foldl (λ h' i, down h' i n) h0 (reverse (seq 0 m)) ≡ₚ h0 ∧
            is_heap (foldl (λ h' i, down h' i n) h0 (reverse (seq 0 m)))).
  { induction m as [|m IH]; intros h0 Hlen0 Hok.
    - split; [done|]. intros p. apply Hok. lia.
    - rewrite seq_S, reverse_snoc. cbn [foldl plus].
      destruct (down_correct h0 m) as (Hperm & Hok' & Hlen').
      { intros p Hp. apply Hok. lia. }
      rewrite Hlen0 in *.
      destruct (IH (down h0 m n)) as [Hperm2 Hheap2]; [done|done|].
      split; [by rewrite Hperm2|done]. }
  apply Hgen; [done|].
  intros p Hp c Hc Hcn. fold n in Hcn.
  assert (n < 2 * (n / 2) + 2)%nat.
  { pose proof (Nat.div_mod_eq n 2).
    pose proof (Nat.mod_upper_bound n 2). lia. }
  destruct Hc as [-> | ->]; lia.
Qed.

End HeapFacts.

(** ** Writing and reading a whole index file *)

Module IndexFileFacts.
Import index BlockFacts.

(** Reading the blocks of a directory in order. *)
Fixpoint readBlocks `{Lz4} (br : BlockReader) (metas : list BlockMeta)
  : result (list (list IndexRecord)) :=
  match metas with
  | [] => Ok []
  | meta :: metas' =>
      recs ← ReadBlock br meta;
      rest ← readBlocks br metas';
      Ok (recs :: rest)
  end.

(** What an index file decodes to: the records of its directory blocks in
    order (the sequence [DiskIndex.Scan] iterates over). *)
Definition decodeIndex `{Lz4} `{Json} (file : list byte)
  : result (list (list IndexRecord)) :=
  br ← NewBlockReader file;
  readBlocks br (Blocks (Footer br)).

(** Directory entry [meta] describes the batch [b], stored in [file]. *)
Definition block_ok `{Lz4} (file : list byte) (meta : BlockMeta)
    (b : list IndexRecord) : Prop :=
  (∃ first rest, b = first :: rest ∧ StartKey meta = trimRightNul (Key first)) ∧
  RecordCount meta = Z.of_nat (length b) ∧
  ∀ tail footer, ReadBlock {| r := file ++ tail; Footer := footer |} meta = Ok b.

(** The writer has received the records [out]: some are in flushed blocks,
    the last ones in the buffer. *)
Definition bw_repr `{Lz4} (bw : BlockWriter) (out : list IndexRecord) : Prop :=
  bw_inv bw ∧ Forall wf_record (buffer bw) ∧
  ∃ batches, out = concat batches ++ buffer bw ∧
    Forall2 (block_ok (w bw)) (Blocks (sparseIndex bw)) batches.

Lemma block_ok_extend `{Lz4} file more meta b :
  block_ok file meta b → block_ok (file ++ more) meta b.
Proof.
  intros (Hk & Hc & Hr). split; [done|]. split; [done|].
  intros tail footer. rewrite <- app_assoc. apply Hr.
Qed.

Lemma NewBlockWriter_repr `{Lz4} : bw_repr (NewBlockWriter []) [].
Proof.
  split; [apply NewBlockWriter_inv|]. split; [constructor|].
  exists []. split; [done|]. constructor.
Qed.

Lemma FlushBlock_repr `{Lz4} bw out :
  bw_repr bw out → bw_repr (FlushBlock bw) out ∧ buffer (FlushBlock bw) = [].
Proof.
  intros (Hinv & Hwf & batches & Hout & Hblocks).
  destruct (buffer bw) as [|first rest] eqn:Hbuf.
  { unfold FlushBlock. rewrite Hbuf. split; [|done].
    split; [done|]. split; [by rewrite Hbuf|]. exists batches. by rewrite Hbuf. }
  destruct (ReadBlock_FlushBlock bw) with (tail := @nil byte) (footer := mkSparseIndex [])
    as (meta & Hmeta & Hcount & _); [done|by rewrite Hbuf|by rewrite Hbuf|].
  assert (Hread : ∀ tail footer,
            ReadBlock {| r := w (FlushBlock bw) ++ tail; Footer := footer |} meta
            = Ok (buffer bw)).
  { intros tail footer.
    destruct (ReadBlock_FlushBlock bw tail footer) as (meta' & Hmeta' & _ & Hr);
      [done|by rewrite Hbuf|by rewrite Hbuf|].
    rewrite Hmeta in Hmeta'. apply app_inj_tail in Hmeta' as [_ <-]. done. }
  assert (Hstart : StartKey meta = trimRightNul (Key first)).
  { unfold FlushBlock in Hmeta. rewrite Hbuf in Hmeta. cbn [sparseIndex Blocks] in Hmeta.
    apply app_inj_tail in Hmeta as [_ <-]. done. }
  assert (Hw : ∃ more, w (FlushBlock bw) = w bw ++ more).
  { unfold FlushBlock. rewrite Hbuf. cbn [w]. by eexists. }
  destruct Hw as [more Hw].
  assert (Hb : buffer (FlushBlock bw) = []).
  { unfold FlushBlock. by rewrite Hbuf. }
  split; [|done]. split; [by apply FlushBlock_inv|].
  split; [by rewrite Hb|].
  exists (batches ++ [first :: rest]). split.
  - rewrite Hb, app_nil_r, concat_app. simpl. by rewrite app_nil_r.
  - rewrite Hmeta. apply Forall2_app.
    + rewrite Hw. eapply Forall2_impl; [exact Hblocks|].
      intros m b. apply block_ok_extend.
    + constructor; [|constructor]. split; [by eauto|].
      rewrite <- Hbuf. split; [done|]. exact Hread.
Qed.

Lemma WriteRecord_repr `{Lz4} bw out rec :
  bw_repr bw out → wf_record rec → bw_repr (WriteRecord bw rec) (out ++ [rec]).
Proof.
  intros (Hinv & Hwf & batches & Hout & Hblocks) Hrec. unfold WriteRecord.
  set (bw1 := mkBlockWriter _ _ _ _ _).
  assert (H1 : bw_repr bw1 (out ++ [rec])).
  { split; [exact Hinv|]. split.
    - unfold bw1. cbn [buffer]. apply Forall_app. split; [done|]. by constructor.
    - exists batches. unfold bw1. cbn [buffer w sparseIndex].
      split; [by rewrite Hout, app_assoc|done]. }
  destruct (_ <=? _); [by apply FlushBlock_repr|done].
Qed.

Lemma readBlocks_ok `{Lz4} file tail footer metas batches :
  Forall2 (block_ok file) metas batches →
  readBlocks {| r := file ++ tail; Footer := footer |} metas = Ok batches.
Proof.
  induction 1 as [|meta b metas batches (_ & _ & Hr) _ IH]; [done|].
  cbn [readBlocks]. rewrite Hr. cbn [mbind result_bind]. rewrite IH. done.
Qed.

Lemma readFullAt_eq (pre mid post : list byte) pos n :
  pos = Z.of_nat (length pre) → n = Z.of_nat (length mid) →
  readFullAt (pre ++ mid ++ post) pos n = Ok mid.
Proof. intros -> ->. apply readFullAt_app. Qed.

(** The footer and its 8-byte length are found at the end of the file. *)
Lemma NewBlockReader_layout `{Json} (body footer : list byte) d :
  json_unmarshal footer = Some d →
  Z.of_nat (length footer) < 2 ^ 63 →
  NewBlockReader (body ++ footer ++ PutUint64 (uint64 (Z.of_nat (length footer))))
  = Ok {| r := body ++ footer ++ PutUint64 (uint64 (Z.of_nat (length footer)));
          Footer := d |}.
Proof.
  intros Hd Hsize. set (n := Z.of_nat (length footer)).
  set (file := body ++ footer ++ PutUint64 (uint64 n)).
  assert (Hn : is_int64 n) by (unfold is_int64, n; lia).
  assert (Hlen : Z.of_nat (length file) = Z.of_nat (length body) + n + 8).
  { unfold file, n. rewrite !length_app, PutUint64_length. lia. }
  assert (E1 : readFullAt file (Z.of_nat (length file) - 8) 8 = Ok (PutUint64 (uint64 n))).
  { rewrite Hlen. unfold file.
    replace (body ++ footer ++ PutUint64 (uint64 n))
      with ((body ++ footer) ++ PutUint64 (uint64 n) ++ [])
      by (by rewrite app_nil_r, <- app_assoc).
    apply readFullAt_eq; rewrite ?length_app, ?PutUint64_length; unfold n; lia. }
  assert (E2 : readFullAt file (Z.of_nat (length file) - (8 + n)) n = Ok footer).
  { rewrite Hlen. unfold file. apply readFullAt_eq; unfold n; lia. }
  unfold NewBlockReader. fold file. rewrite E1. cbn [mbind result_bind].
  rewrite Uint64_PutUint64, uint64_idem, int64_uint64 by done.
  rewrite E2. cbn [mbind result_bind]. by rewrite Hd.
Qed.

(** A string that is valid UTF-8 goes through JSON unchanged. *)
Lemma jsonString_valid (s : list byte) : ∀ pending,
  utf8.validFrom pending s = true → jsonString pending s = s.
Proof.
  induction s as [|b s IH]; intros pending Hv; [done|].
  cbn [utf8.validFrom jsonString] in *.
  destruct pending as [|n]; [|by rewrite IH].
  destruct (utf8.DecodeRune (b :: s)) as [[|n]|]; [done| |done].
  by rewrite IH.
Qed.

Lemma jsonMeta_valid (m : BlockMeta) :
  utf8.Valid (StartKey m) = true → jsonMeta m = m.
Proof.
  intros Hv. destruct m as [k o l c d]. unfold jsonMeta. cbn in *.
  by rewrite (jsonString_valid k 0%nat Hv).
Qed.

(** Directory entry [meta] counts the batch [b] and tells where it is
    stored in [file]; nothing is said of its start key. *)
Definition block_stored `{Lz4} (file : list byte) (meta : BlockMeta)
    (b : list IndexRecord) : Prop :=
  b ≠ [] ∧
  RecordCount meta = Z.of_nat (length b) ∧
  ∀ tail footer, ReadBlock {| r := file ++ tail; Footer := footer |} meta = Ok b.

Lemma block_ok_stored `{Lz4} file meta b :
  block_ok file meta b → block_stored file (jsonMeta meta) b.
Proof.
  intros ((first & rest & -> & _) & Hc & Hr). split; [done|]. split; [done|].
  intros tail footer. apply (Hr tail footer).
Qed.

Lemma readBlocks_stored `{Lz4} file tail footer metas batches :
  Forall2 (block_stored file) metas batches →
  readBlocks {| r := file ++ tail; Footer := footer |} metas = Ok batches.
Proof.
  induction 1 as [|meta b metas batches (_ & _ & Hr) _ IH]; [done|].
  cbn [readBlocks]. rewrite Hr. cbn [mbind result_bind]. rewrite IH. done.
Qed.

(** After [Close], the file is read back as the records that were written,
    provided it is shorter than 2^63 bytes; the directory is the one that
    the writer held, its start keys as JSON gives them back. *)
Lemma Close_decode `{Lz4} `{Json} bw out :
  bw_repr bw out → Z.of_nat (length (w (Close bw))) < 2 ^ 63 →
  ∃ br batches,
    NewBlockReader (w (Close bw)) = Ok br ∧
    Blocks (Footer br) = jsonMeta <$> Blocks (sparseIndex (FlushBlock bw)) ∧
    readBlocks br (Blocks (Footer br)) = Ok batches ∧
    concat batches = out ∧
    Forall2 (block_ok (w (FlushBlock bw))) (Blocks (sparseIndex (FlushBlock bw))) batches ∧
    Forall2 (block_stored (w (FlushBlock bw))) (Blocks (Footer br)) batches.
Proof.
  intros Hrepr Hsize.
  destruct (FlushBlock_repr bw out Hrepr) as [(Hinv & Hwf & batches & Hout & Hblocks) Hbuf].
  unfold Close in *. set (bw1 := FlushBlock bw) in *. cbn [w] in *.
  set (footer := json_marshal (sparseIndex bw1)) in *.
  rewrite !length_app, PutUint64_length in Hsize.
  rewrite (NewBlockReader_layout (w bw1) footer
             (mkSparseIndex (jsonMeta <$> Blocks (sparseIndex bw1))));
    [|apply json_roundtrip|lia].
  assert (Hstored : Forall2 (block_stored (w bw1))
                      (jsonMeta <$> Blocks (sparseIndex bw1)) batches).
  { apply Forall2_fmap_l. eapply Forall2_impl; [exact Hblocks|].
    intros m b. apply block_ok_stored. }
  eexists _, batches. split; [reflexivity|]. cbn [Footer Blocks].
  split; [done|]. split; [by apply readBlocks_stored|].
  split; [by rewrite Hout, Hbuf, app_nil_r|]. done.
Qed.

(** The start keys of the directory are first keys of batches. *)
Lemma directory_valid `{Lz4} file metas batches :
  Forall2 (block_ok file) metas batches →
  Forall (λ rec, utf8.Valid (trimRightNul (Key rec)) = true) (concat batches) →
  Forall (λ m, jsonMeta m = m) metas.
Proof.
  induction 1 as [|meta b metas batches ((first & rest & -> & Hk) & _) _ IH];
    intros Hv; [constructor|].
  cbn [concat] in Hv. apply Forall_app in Hv as [Hb Hv].
  constructor; [|by apply IH].
  apply jsonMeta_valid. rewrite Hk. by apply Forall_cons in Hb as [? _].
Qed.

(** When the keys are valid UTF-8, the directory read back is the one that
    was written. *)
Lemma Close_decode_valid `{Lz4} `{Json} bw out :
  bw_repr bw out → Z.of_nat (length (w (Close bw))) < 2 ^ 63 →
  Forall (λ rec, utf8.Valid (trimRightNul (Key rec)) = true) out →
  ∃ br batches,
    NewBlockReader (w (Close bw)) = Ok br ∧
    Footer br = sparseIndex (FlushBlock bw) ∧
    readBlocks br (Blocks (Footer br)) = Ok batches ∧
    concat batches = out ∧
    Forall2 (block_ok (w (FlushBlock bw))) (Blocks (Footer br)) batches.
Proof.
  intros Hrepr Hsize Hvalid.
  destruct (Close_decode bw out Hrepr Hsize)
    as (br & batches & Hnew & Hfooter & Hread & Hconcat & Hblocks & _).
  assert (Hsame : Blocks (Footer br) = Blocks (sparseIndex (FlushBlock bw))).
  { rewrite Hfooter. rewrite <- (list_fmap_id (Blocks (sparseIndex (FlushBlock bw)))) at 2.
    apply Forall_fmap_ext_1.
    eapply directory_valid; [exact Hblocks|]. by rewrite Hconcat. }
  exists br, batches. split; [done|]. split.
  { destruct (Footer br) as [blocks], (sparseIndex (FlushBlock bw)) as [blocks'].
    cbn in Hsame. by rewrite Hsame. }
  split; [done|]. split; [done|]. by rewrite Hsame.
Qed.

End IndexFileFacts.

(** ** The external sorter: spill chunks and k-way merge *)

Module SorterFacts.
Import index BlockFacts BloomFacts HeapFacts IndexFileFacts.

Abbreviation sorted := (StronglySorted recLe).

(** The stream of a chunk whose records [rest] are still to be read. *)
Definition reader_of (rest : list IndexRecord) : Reader :=
  Stream (WriteBatchRecords rest).

(** The chunk file that [flushChunk] writes for the sorted records [c]. *)
Definition chunk_file `{Lz4} (c : list IndexRecord) : list byte :=
  lz4_compress (WriteBatchRecords c).

Lemma ReadRecord_reader_cons rec rest :
  wf_record rec → ReadRecord (reader_of (rec :: rest)) = ReadOk rec (reader_of rest).
Proof. intros Hwf. unfold reader_of. rewrite WriteBatchRecords_cons. by apply ReadRecord_encode. Qed.

Lemma ReadRecord_reader_nil : ReadRecord (reader_of []) = ReadEOF.
Proof. reflexivity. Qed.

Lemma lz4_NewReader_chunk `{Lz4} c : lz4_NewReader (chunk_file c) = reader_of c.
Proof. unfold lz4_NewReader, chunk_file. by rewrite lz4_roundtrip. Qed.

Lemma concat_insert_cons {A} (rests : list (list A)) i (x : A) rest :
  rests !! i = Some (x :: rest) →
  x :: concat (<[i := rest]> rests) ≡ₚ concat rests.
Proof.
  intros Hi.
  rewrite <- (take_drop_middle rests i (x :: rest) Hi) at 2.
  rewrite insert_take_drop by (by eapply lookup_lt_Some).
  rewrite !concat_app. cbn [concat].
  by rewrite Permutation_middle.
Qed.

Lemma trimRightNul_mono a b :
  bytesCompare a b <= 0 → bytesCompare (trimRightNul a) (trimRightNul b) <= 0.
Proof.
  revert b. induction a as [|x a IH]; intros [|y b]; cbn [bytesCompare trimRightNul].
  - lia.
  - intros _. pose proof (bytesCompare_range [] (match trimRightNul b with
      | [] => if decide (y = NUL) then [] else [y] | t => y :: t end)).
    destruct (trimRightNul b); [destruct (decide _)|]; simpl; lia.
  - lia.
  - destruct (Z.ltb_spec (byte_to_Z x) (byte_to_Z y)) as [Hlt|Hge].
    + intros _.
      assert (Hy : y ≠ NUL).
      { intros ->. pose proof (byte_to_Z_range x). change (byte_to_Z NUL) with 0 in Hlt. lia. }
      assert (Hb : ∃ t, match trimRightNul b with
                        | [] => if decide (y = NUL) then [] else [y]
                        | t => y :: t end = y :: t).
      { destruct (trimRightNul b); [rewrite decide_False by done|]; by eexists. }
      destruct Hb as [t ->].
      destruct (trimRightNul a); [destruct (decide _)|]; cbn [bytesCompare]; try lia.
      all: destruct (Z.ltb_spec (byte_to_Z x) (byte_to_Z y)); lia.
    + destruct (Z.ltb_spec (byte_to_Z y) (byte_to_Z x)) as [Hgt|Hle]; [lia|].
      assert (x = y) by (apply byte_to_Z_inj; lia). subst y.
      intros Hab. specialize (IH b Hab).
      destruct (trimRightNul a) as [|a0 ta] eqn:Ea;
        destruct (trimRightNul b) as [|b0 tb] eqn:Eb.
      * destruct (decide _); cbn [bytesCompare]; rewrite ?Z.ltb_irrefl; lia.
      * destruct (decide _); cbn [bytesCompare]; rewrite ?Z.ltb_irrefl; lia.
      * cbn [bytesCompare] in IH. lia.
      * cbn [bytesCompare]. rewrite Z.ltb_irrefl. exact IH.
Qed.

(** What the sorter holds after the records [added] have been given to it:
    sorted chunks on disk and an unsorted tail in memory. *)
Definition sorter_inv `{Lz4} (s : Sorter) (added : list IndexRecord) : Prop :=
  Forall wf_record (memBuffer s) ∧
  ∃ chunks, chunkFiles s = chunk_file <$> chunks ∧
    Forall (λ c, c ≠ [] ∧ sorted c ∧ Forall wf_record c) chunks ∧
    concat chunks ++ memBuffer s ≡ₚ added.

Lemma NewSorter_inv `{Lz4} memoryLimit bloom0 : sorter_inv (NewSorter memoryLimit bloom0) [].
Proof.
  split; [constructor|]. exists []. split; [done|]. split; [constructor|done].
Qed.

Lemma flushChunk_inv `{Lz4} `{SortFunc} s added :
  sorter_inv s added →
  sorter_inv (flushChunk s) added ∧ memBuffer (flushChunk s) = [] ∧
  bloom (flushChunk s) = bloom s.
Proof.
  intros (Hwf & chunks & Hfiles & Hchunks & Hperm). unfold flushChunk.
  destruct (memBuffer s) as [|r0 buf] eqn:Hbuf.
  { split; [|done]. split; [by rewrite Hbuf|]. exists chunks. by rewrite Hbuf. }
  cbn [memBuffer bloom]. split; [|done]. split; [constructor|].
  exists (chunks ++ [sortRecords (r0 :: buf)]). cbn [chunkFiles memBuffer].
  pose proof (sortRecords_perm (r0 :: buf)) as Hp.
  split; [by rewrite fmap_app, Hfiles|]. split.
  - apply Forall_app. split; [done|]. constructor; [|constructor].
    split; [|split].
    + intros E. rewrite E in Hp. by apply Permutation_nil_l in Hp.
    + apply sortRecords_sorted.
    + by rewrite Hp.
  - rewrite app_nil_r, concat_app. cbn [concat]. rewrite app_nil_r.
    by rewrite Hp.
Qed.

Lemma SorterAdd_inv `{Lz4} `{SortFunc} s added rec :
  sorter_inv s added → wf_record rec →
  sorter_inv (SorterAdd s rec) (added ++ [rec]) ∧ bloom (SorterAdd s rec) = bloom s.
Proof.
  intros (Hwf & chunks & Hfiles & Hchunks & Hperm) Hrec. unfold SorterAdd.
  set (s1 := mkSorter _ _ _ _ _ _ _).
  assert (H1 : sorter_inv s1 (added ++ [rec])).
  { split; [apply Forall_app; split; [done|by constructor]|].
    exists chunks. unfold s1. cbn [chunkFiles memBuffer].
    split; [done|]. split; [done|]. by rewrite app_assoc, Hperm. }
  destruct (_ <=? _); [|done].
  destruct (flushChunk_inv s1 _ H1) as (? & _ & ?). done.
Qed.

Lemma foldl_SorterAdd_inv `{Lz4} `{SortFunc} recs : ∀ s added,
  sorter_inv s added → Forall wf_record recs →
  sorter_inv (foldl SorterAdd s recs) (added ++ recs) ∧
  bloom (foldl SorterAdd s recs) = bloom s.
Proof.
  induction recs as [|rec recs IH]; intros s added Hinv Hwf.
  - by rewrite app_nil_r.
  - apply Forall_cons in Hwf as [Hrec Hwf]. cbn [foldl].
    destruct (SorterAdd_inv s added rec Hinv Hrec) as [H1 Hb].
    destruct (IH _ _ H1 Hwf) as [H2 Hb2].
    replace (added ++ rec :: recs) with ((added ++ [rec]) ++ recs)
      by (by rewrite <- app_assoc).
    split; [done|congruence].
Qed.

(** The state of the merge: [rests] are the records still unread in each
    chunk, [out] the records already given to the block writer. *)
Record merge_inv `{Lz4} (all : list IndexRecord) (st : mergeState)
    (rests : list (list IndexRecord)) (out : list IndexRecord) : Prop := {
  mi_readers : mReaders st = reader_of <$> rests;
  mi_heap : is_heap (mHeap st);
  mi_wf_heap : Forall (λ it, wf_record (record it)) (mHeap st);
  mi_wf_rests : Forall (Forall wf_record) rests;
  mi_heads : ∀ it, it ∈ mHeap st →
    ∃ rest, rests !! source it = Some rest ∧ Forall (recLe (record it)) rest;
  mi_cover : ∀ i rest, rests !! i = Some rest → rest ≠ [] →
    ∃ it, it ∈ mHeap st ∧ source it = i;
  mi_sorted_rests : Forall sorted rests;
  mi_out_sorted : sorted out;
  mi_out_le : ∀ a it, a ∈ out → it ∈ mHeap st → recLe a (record it);
  mi_perm : out ++ (record <$> mHeap st) ++ concat rests ≡ₚ all;
  mi_writer : bw_repr (mWriter st) out;
  mi_bloom : from_option wf_bloom True (mBloom st)
}.

(** Records that the merge has still to write. *)
Definition merge_left (st : mergeState) (rests : list (list IndexRecord)) : nat :=
  (length (mHeap st) + length (concat rests))%nat.

Lemma bloom_step `{Crc32} (isNew : bool) (b : option BloomFilter) key :
  from_option wf_bloom True b →
  ∃ b', (if isNew then
           match b with
           | Some bf => bf' ← Add bf key; Ok (Some bf')
           | None => Ok None
           end
         else Ok b) = Ok b' ∧ from_option wf_bloom True b'.
Proof.
  intros Hwf. destruct isNew; [|by exists b].
  destruct b as [bf|]; [|by exists None].
  destruct (Add_ok bf key Hwf) as (bf' & -> & Hwf' & _).
  by exists (Some bf').
Qed.

Lemma mergeStep_inv `{Lz4} `{Crc32} all st rests out :
  merge_inv all st rests out → mHeap st ≠ [] →
  ∃ st' rests' out',
    mergeStep st = Ok st' ∧ merge_inv all st' rests' out' ∧
    (merge_left st' rests' < merge_left st rests)%nat.
Proof.
  intros [Hrd Hheap Hwfh Hwfr Hheads Hcover Hsr Hso Hole Hperm Hwr Hbl] Hne.
  unfold mergeStep. destruct (Pop (mHeap st)) as [item h] eqn:HPop.
  destruct (Pop_correct _ _ _ Hheap Hne HPop) as (Hph & Hhh & Hmin).
  assert (Hitem : item ∈ mHeap st) by (rewrite Hph; by left).
  assert (Hsub : ∀ it, it ∈ h → it ∈ mHeap st) by (intros it Hit; rewrite Hph; by right).
  assert (Hwfi : wf_record (record item)).
  { rewrite Forall_forall in Hwfh. by apply Hwfh. }
  set (isNew := mFirstRecord st || negb (bool_decide (Key (record item) = mLastKey st))).
  destruct (bloom_step isNew (mBloom st) (trimRightNul (Key (record item))) Hbl)
    as (bloom' & -> & Hbl').
  cbn [mbind result_bind].
  destruct (Hheads item Hitem) as (rest & Hrest & Hle).
  assert (Hreader : mReaders st !!! source item = reader_of rest).
  { apply list_lookup_total_correct. by rewrite Hrd, list_lookup_fmap, Hrest. }
  rewrite Hreader.
  assert (Hout' : sorted (out ++ [record item])).
  { apply StronglySorted_app. split; [|split; [done|repeat constructor]].
    intros a b Ha ->%list_elem_of_singleton. by apply Hole. }
  assert (Hole' : ∀ a it, a ∈ out ++ [record item] → it ∈ h → recLe a (record it)).
  { intros a it [Ha| ->%list_elem_of_singleton]%elem_of_app Hit.
    - apply Hole; [done|by apply Hsub].
    - apply Hmin. by apply Hsub. }
  assert (Hwr' : bw_repr (WriteRecord (mWriter st) (record item)) (out ++ [record item]))
    by (by apply WriteRecord_repr).
  assert (Hwfh' : Forall (λ it, wf_record (record it)) h).
  { rewrite Forall_forall in Hwfh |- *. intros it Hit. by apply Hwfh, Hsub. }
  assert (Hlenh : length (mHeap st) = S (length h)) by (by rewrite Hph).
  destruct rest as [|r rest'].
  - (* the chunk of the popped record is drained *)
    rewrite ReadRecord_reader_nil.
    eexists _, rests, (out ++ [record item]). split; [reflexivity|]. split.
    + constructor; cbn [mReaders mHeap mWriter mBloom]; try done.
      * intros it Hit. by apply Hheads, Hsub.
      * intros i rest0 Hi Hne0. destruct (Hcover i rest0 Hi Hne0) as (it & Hit & Hs).
        exists it. split; [|done]. rewrite Hph in Hit.
        apply elem_of_cons in Hit as [->|Hit]; [|done]. congruence.
      * rewrite <- Hperm, Hph. cbn [fmap list_fmap]. by solve_Permutation.
    + unfold merge_left. cbn [mHeap]. lia.
  - (* the next record of that chunk enters the heap *)
    assert (Hwfrest : Forall wf_record (r :: rest')).
    { rewrite Forall_forall in Hwfr. apply Hwfr. by eapply list_elem_of_lookup_2. }
    apply Forall_cons in Hwfrest as [Hwfr0 Hwfrest].
    rewrite ReadRecord_reader_cons by done.
    set (x := mkMergeItem r (source item)).
    destruct (Push_correct h x Hhh) as [Hpp Hph'].
    assert (Hsrest : sorted (r :: rest')).
    { rewrite Forall_forall in Hsr. apply Hsr. by eapply list_elem_of_lookup_2. }
    apply StronglySorted_cons in Hsrest as [Hrle Hsrest].
    apply Forall_cons in Hle as [Hir Hle].
    assert (Hilt : (source item < length rests)%nat) by (by eapply lookup_lt_Some).
    eexists _, (<[source item := rest']> rests), (out ++ [record item]).
    split; [reflexivity|]. split.
    + constructor; cbn [mReaders mHeap mWriter mBloom]; try done.
      * by rewrite Hrd, list_fmap_insert.
      * rewrite Forall_forall. intros it Hit. rewrite Hpp in Hit.
        apply elem_of_cons in Hit as [->|Hit]; [done|].
        rewrite Forall_forall in Hwfh'. by apply Hwfh'.
      * by apply Forall_insert.
      * intros it Hit. rewrite Hpp in Hit.
        apply elem_of_cons in Hit as [->|Hit].
        -- exists rest'. cbn [source record]. split; [by apply list_lookup_insert_eq|done].
        -- destruct (Hheads it (Hsub it Hit)) as (rest0 & Hr0 & Hle0).
           destruct (decide (source it = source item)) as [E|E].
           ++ exists rest'. rewrite E. split; [by apply list_lookup_insert_eq|].
              rewrite E, Hrest in Hr0. injection Hr0 as <-.
              by apply Forall_cons in Hle0 as [_ ?].
           ++ exists rest0. split; [|done]. by rewrite list_lookup_insert_ne.
      * intros i rest0 Hi Hne0.
        destruct (decide (i = source item)) as [->|E].
        -- exists x. split; [rewrite Hpp; by left|done].
        -- rewrite list_lookup_insert_ne in Hi by done.
           destruct (Hcover i rest0 Hi Hne0) as (it & Hit & Hs).
           exists it. split; [|done]. rewrite Hpp. right.
           rewrite Hph in Hit. apply elem_of_cons in Hit as [->|Hit]; [|done]. congruence.
      * by apply Forall_insert.
      * intros a it Ha Hit. rewrite Hpp in Hit.
        apply elem_of_cons in Hit as [->|Hit]; [|by apply Hole'].
        cbn [record]. apply elem_of_app in Ha as [Ha| ->%list_elem_of_singleton]; [|done].
        transitivity (record item); [by apply Hole|done].
      * rewrite <- Hperm, Hph, Hpp. cbn [fmap list_fmap record].
        rewrite <- (concat_insert_cons rests (source item) r rest' Hrest).
        by solve_Permutation.
    + unfold merge_left. cbn [mHeap].
      pose proof (Permutation_length Hpp) as Hl1.
      pose proof (Permutation_length (concat_insert_cons rests _ r rest' Hrest)) as Hl2.
      cbn [length] in *. lia.
Qed.

Lemma mergeLoop_inv `{Lz4} `{Crc32} all fuel : ∀ st rests out,
  merge_inv all st rests out → (merge_left st rests ≤ fuel)%nat →
  ∃ st' rests' out',
    mergeLoop fuel st = Ok st' ∧ mHeap st' = [] ∧ merge_inv all st' rests' out'.
Proof.
  induction fuel as [|fuel IH]; intros st rests out Hinv Hfuel.
  - destruct (mHeap st) as [|it h] eqn:Hh.
    + exists st, rests, out. cbn [mergeLoop]. by rewrite Hh.
    + unfold merge_left in Hfuel. rewrite Hh in Hfuel. simpl in Hfuel. lia.
  - cbn [mergeLoop]. destruct (mHeap st) as [|it h] eqn:Hh.
    + exists st, rests, out. done.
    + destruct (mergeStep_inv all st rests out Hinv) as (st1 & rests1 & out1 & -> & Hinv1 & Hlt).
      { by rewrite Hh. }
      cbn [mbind result_bind]. apply (IH st1 rests1 out1 Hinv1). lia.
Qed.

(** When the heap is empty every chunk is drained and [out] is the sorted
    permutation of the input. *)
Lemma merge_inv_done `{Lz4} all st rests out :
  merge_inv all st rests out → mHeap st = [] → out ≡ₚ all ∧ sorted out.
Proof.
  intros [Hrd Hheap Hwfh Hwfr Hheads Hcover Hsr Hso Hole Hperm Hwr Hbl] Hh.
  split; [|done]. rewrite <- Hperm, Hh. cbn [fmap list_fmap app].
  assert (Hnil : concat rests = []).
  { clear -Hcover Hh. rewrite Hh in Hcover.
    assert (Hall : Forall (λ rest, rest = []) rests).
    { rewrite Forall_forall. intros rest [i Hi]%list_elem_of_lookup.
      destruct rest as [|r rest']; [done|].
      destruct (Hcover i _ Hi ltac:(done)) as (it & Hit & _).
      by apply elem_of_nil in Hit. }
    clear Hcover. induction Hall as [|? ? -> _ IH]; [done|]. exact IH. }
  by rewrite Hnil, app_nil_r.
Qed.

(** The first loop of [kWayMerge] has looked at the chunks before [i]. *)
Lemma initHeap_inv todo : ∀ i rests h,
  (i + todo = length rests)%nat →
  Forall sorted rests → Forall (Forall wf_record) rests →
  Forall (λ it, wf_record (record it)) h →
  (∀ it, it ∈ h → (source it < i)%nat ∧
     ∃ rest, rests !! source it = Some rest ∧ Forall (recLe (record it)) rest) →
  (∀ idx rest, (idx < i)%nat → rests !! idx = Some rest → rest ≠ [] →
     ∃ it, it ∈ h ∧ source it = idx) →
  ∃ h' rests',
    initHeap i todo (reader_of <$> rests) h = (h', reader_of <$> rests') ∧
    Forall sorted rests' ∧ Forall (Forall wf_record) rests' ∧
    Forall (λ it, wf_record (record it)) h' ∧
    (∀ it, it ∈ h' →
       ∃ rest, rests' !! source it = Some rest ∧ Forall (recLe (record it)) rest) ∧
    (∀ idx rest, rests' !! idx = Some rest → rest ≠ [] →
       ∃ it, it ∈ h' ∧ source it = idx) ∧
    (record <$> h') ++ concat rests' ≡ₚ (record <$> h) ++ concat rests.
Proof.
  induction todo as [|todo IH]; intros i rests h Hlen Hsr Hwfr Hwfh Hheads Hcover.
  - exists h, rests. cbn [initHeap]. split; [done|]. split; [done|]. split; [done|].
    split; [done|]. split; [intros it Hit; by apply Hheads|]. split; [|done].
    intros idx rest Hidx Hne. apply (Hcover idx rest); [|done|done].
    apply lookup_lt_Some in Hidx. lia.
  - cbn [initHeap].
    assert (Hi : (i < length rests)%nat) by lia.
    destruct (lookup_lt_is_Some_2 rests i Hi) as [c Hc].
    assert (Hreader : (reader_of <$> rests) !!! i = reader_of c).
    { apply list_lookup_total_correct. by rewrite list_lookup_fmap, Hc. }
    rewrite Hreader. destruct c as [|r c'].
    + rewrite ReadRecord_reader_nil.
      destruct (IH (S i) rests h) as (h' & rests' & Hinit & Hrest); try done; try lia.
      * intros it Hit. destruct (Hheads it Hit) as [? ?]. split; [lia|done].
      * intros idx rest Hidx Hl Hne.
        destruct (decide (idx = i)) as [->|E]; [congruence|].
        apply (Hcover idx rest); [lia|done|done].
      * by exists h', rests'.
    + assert (Hwfc : Forall wf_record (r :: c')).
      { rewrite Forall_forall in Hwfr. apply Hwfr. by eapply list_elem_of_lookup_2. }
      apply Forall_cons in Hwfc as [Hwfr0 Hwfc].
      assert (Hsc : sorted (r :: c')).
      { rewrite Forall_forall in Hsr. apply Hsr. by eapply list_elem_of_lookup_2. }
      apply StronglySorted_cons in Hsc as [Hrle Hsc].
      rewrite ReadRecord_reader_cons by done.
      rewrite <- list_fmap_insert.
      destruct (IH (S i) (<[i := c']> rests) (h ++ [mkMergeItem r i]))
        as (h' & rests' & Hinit & Hsr' & Hwfr' & Hwfh' & Hheads' & Hcover' & Hperm').
      * rewrite length_insert. lia.
      * by apply Forall_insert.
      * by apply Forall_insert.
      * apply Forall_app. split; [done|]. constructor; [done|constructor].
      * intros it [Hit| ->%list_elem_of_singleton]%elem_of_app.
        -- destruct (Hheads it Hit) as [Hlt (rest & Hr & Hle)]. split; [lia|].
           exists rest. split; [|done]. rewrite list_lookup_insert_ne by lia. done.
        -- cbn [source record]. split; [lia|]. exists c'.
           split; [by apply list_lookup_insert_eq|done].
      * intros idx rest Hidx Hl Hne.
        destruct (decide (idx = i)) as [->|E].
        -- exists (mkMergeItem r i). split; [|done]. apply elem_of_app. right. by left.
        -- rewrite list_lookup_insert_ne in Hl by done.
           destruct (Hcover idx rest) as (it & Hit & Hs); [lia|done|done|].
           exists it. split; [|done]. apply elem_of_app. by left.
      * exists h', rests'. split; [done|]. repeat (split; [done|]).
        rewrite Hperm', fmap_app. cbn [fmap list_fmap record].
        rewrite <- (concat_insert_cons rests i r c' Hc).
        by solve_Permutation.
Qed.

Lemma merge_fuel_enough rests n :
  Forall (Forall wf_record) rests →
  (n + length (concat rests) ≤
   foldr (λ lr acc, reader_fuel lr + acc) n (reader_of <$> rests))%nat.
Proof.
  induction 1 as [|rest rests Hwf _ IH]; [simpl; lia|].
  cbn [fmap list_fmap foldr concat]. rewrite length_app.
  unfold reader_of at 1. cbn [reader_fuel].
  rewrite WriteBatchRecords_length by done. unfold RecordSize.
  change (list_fmap _ _ reader_of rests) with (reader_of <$> rests). lia.
Qed.

(** The start keys of a directory are in order when its records are. *)
Lemma directory_sorted `{Lz4} file metas batches :
  Forall2 (block_ok file) metas batches → sorted (concat batches) →
  StronglySorted (λ a b, strLe (StartKey a) (StartKey b) = true) metas.
Proof.
  induction 1 as [|meta b metas batches Hb Hrest IH]; intros Hs; [constructor|].
  cbn [concat] in Hs. apply StronglySorted_app in Hs as (Hcross & _ & Hs').
  constructor; [by apply IH|].
  destruct Hb as ((first & rest & -> & Hk) & _ & _).
  clear IH Hs'. induction Hrest as [|meta' b' metas batches Hb' _ IH']; [constructor|].
  destruct Hb' as ((first' & rest' & -> & Hk') & _ & _).
  constructor.
  - unfold strLe. rewrite Hk, Hk'. apply Z.leb_le, trimRightNul_mono.
    assert (Hle : recLe first first').
    { apply Hcross; [by left|]. cbn [concat]. apply elem_of_app. left. by left. }
    apply recordCmp_le in Hle as [?|[-> _]]; [lia|]. by rewrite bytesCompare_refl.
  - apply IH'. intros x1 x2 H1 H2. apply Hcross; [done|].
    cbn [concat]. apply elem_of_app. by right.
Qed.

Lemma kWayMerge_ok `{Lz4} `{Json} `{Crc32} s chunks all :
  chunkFiles s = chunk_file <$> chunks →
  Forall (λ c, c ≠ [] ∧ sorted c ∧ Forall wf_record c) chunks →
  concat chunks ≡ₚ all → from_option wf_bloom True (bloom s) →
  ∃ distinct bloom' bw out,
    kWayMerge s = Ok (distinct, w (Close bw), bloom') ∧
    bw_repr bw out ∧ out ≡ₚ all ∧ sorted out ∧
    from_option wf_bloom True bloom'.
Proof.
  intros Hfiles Hchunks Hperm Hbloom. unfold kWayMerge.
  assert (Hreaders : lz4_NewReader <$> chunkFiles s = reader_of <$> chunks).
  { rewrite Hfiles, <- list_fmap_compose. apply list_fmap_ext.
    intros i c _. apply lz4_NewReader_chunk. }
  rewrite Hreaders.
  replace (length (chunkFiles s)) with (length chunks)
    by (by rewrite Hfiles, length_fmap).
  destruct (initHeap_inv (length chunks) 0 chunks [])
    as (h & rests & -> & Hsr & Hwfr & Hwfh & Hheads & Hcover & Hp); try done.
  { eapply Forall_impl; [exact Hchunks|]. by intros c (_ & ? & _). }
  { eapply Forall_impl; [exact Hchunks|]. by intros c (_ & _ & ?). }
  { intros it Hit. by apply elem_of_nil in Hit. }
  { intros idx rest Hidx. lia. }
  destruct (heapify_correct h) as [Hhp Hhh].
  set (st0 := mkMergeState _ _ _ _ _ _ _ _).
  assert (Hinv : merge_inv all st0 rests []).
  { constructor; unfold st0; cbn [mReaders mHeap mWriter mBloom]; try done.
    - rewrite Forall_forall in Hwfh |- *. intros it Hit. apply Hwfh. by rewrite <- Hhp.
    - intros it Hit. apply Hheads. by rewrite <- Hhp.
    - intros i rest Hi Hne. destruct (Hcover i rest Hi Hne) as (it & Hit & Hs).
      exists it. by rewrite Hhp.
    - constructor.
    - intros a it Ha. by apply elem_of_nil in Ha.
    - cbn [app]. rewrite Hhp, Hp. cbn [fmap list_fmap app]. done.
    - apply NewBlockWriter_repr. }
  destruct (mergeLoop_inv all
              (foldr (λ lr acc, (reader_fuel lr + acc)%nat) (length (heapify h))
                 (reader_of <$> rests)) st0 rests [] Hinv)
    as (st' & rests' & out' & -> & Hh' & Hinv').
  { unfold merge_left, st0. cbn [mHeap]. by apply merge_fuel_enough. }
  cbn [mbind result_bind].
  destruct (merge_inv_done all st' rests' out' Hinv' Hh') as [Hpo Hso].
  exists (mDistinctCount st'), (mBloom st'), (mWriter st'), out'.
  split; [done|]. split; [apply Hinv'|]. split; [done|]. split; [done|apply Hinv'].
Qed.

(** [Finalize] after the records [recs] were added, shared by the claims
    on the sorter's output. *)
Lemma Finalize_ok `{Lz4} `{Json} `{Crc32} `{SortFunc} memoryLimit bloom0 recs :
  recs ≠ [] → Forall wf_record recs → from_option wf_bloom True bloom0 →
  ∃ distinct bloom' bw out,
    Finalize (foldl SorterAdd (NewSorter memoryLimit bloom0) recs)
      = Ok (distinct, w (Close bw), bloom') ∧
    bw_repr bw out ∧ out ≡ₚ recs ∧ sorted out.
Proof.
  intros Hne Hwf Hbloom.
  destruct (foldl_SorterAdd_inv recs (NewSorter memoryLimit bloom0) []
              (NewSorter_inv _ _) Hwf) as [Hinv Hb].
  cbn [app] in Hinv.
  destruct (flushChunk_inv _ _ Hinv) as ((_ & chunks & Hfiles & Hchunks & Hperm) & Hbuf & Hb').
  rewrite Hbuf, app_nil_r in Hperm.
  unfold Finalize.
  destruct (kWayMerge_ok _ chunks recs Hfiles Hchunks Hperm)
    as (distinct & bloom' & bw & out & Hk & Hrepr & Hpo & Hso & _).
  { rewrite Hb', Hb. done. }
  rewrite Hfiles. destruct chunks as [|c chunks].
  { exfalso. cbn [concat] in Hperm. apply Permutation_nil_l in Hperm. done. }
  cbn [fmap list_fmap].
  by exists distinct, bloom', bw, out.
Qed.

End SorterFacts.

(** ** Reference instances of the library interfaces *)

Module Reference.
Import index.

(** A self-delimiting encoding of the directory (numbers in binary, one
    byte per bit), written after the start keys have been made valid UTF-8
    as the JSON encoder makes them. It stands in for encoding/json wherever
    a closed term is evaluated: it satisfies the law of [Json] on every
    directory. *)
Fixpoint enc_pos (p : positive) : list byte :=
  match p with
  | xH => ["002"%byte]
  | xO p' => "000"%byte :: enc_pos p'
  | xI p' => "001"%byte :: enc_pos p'
  end.

Fixpoint dec_pos (l : list byte) : option (positive * list byte) :=
  match l with
  | [] => None
  | b :: l' =>
      if decide (b = "002"%byte) then Some (xH, l')
      else if decide (b = "000"%byte) then
        match dec_pos l' with Some (p, r) => Some (xO p, r) | None => None end
      else if decide (b = "001"%byte) then
        match dec_pos l' with Some (p, r) => Some (xI p, r) | None => None end
      else None
  end.

Definition enc_Z (z : Z) : list byte :=
  match z with
  | Z0 => ["000"%byte]
  | Zpos p => "001"%byte :: enc_pos p
  | Zneg p => "002"%byte :: enc_pos p
  end.

Definition dec_Z (l : list byte) : option (Z * list byte) :=
  match l with
  | [] => None
  | b :: l' =>
      if decide (b = "000"%byte) then Some (0, l')
      else if decide (b = "001"%byte) then
        match dec_pos l' with Some (p, r) => Some (Zpos p, r) | None => None end
      else if decide (b = "002"%byte) then
        match dec_pos l' with Some (p, r) => Some (Zneg p, r) | None => None end
      else None
  end.

Definition enc_meta (m : BlockMeta) : list byte :=
  enc_Z (Z.of_nat (length (StartKey m))) ++ StartKey m ++
  enc_Z (Offset m) ++ enc_Z (Length m) ++ enc_Z (RecordCount m) ++
  [if IsDistinct m then "001"%byte else "000"%byte].

Definition dec_meta (l : list byte) : option (BlockMeta * list byte) :=
  '(klen, l) ← dec_Z l;
  let key := take (Z.to_nat klen) l in
  let l := drop (Z.to_nat klen) l in
  if decide (length key = Z.to_nat klen) then
    '(off, l) ← dec_Z l;
    '(len, l) ← dec_Z l;
    '(cnt, l) ← dec_Z l;
    match l with
    | b :: l => Some (mkBlockMeta key off len cnt (bool_decide (b = "001"%byte)), l)
    | [] => None
    end
  else None.

Fixpoint dec_metas (n : nat) (l : list byte) : option (list BlockMeta) :=
  match n with
  | O => if decide (l = []) then Some [] else None
  | S n' =>
      '(m, l) ← dec_meta l;
      ms ← dec_metas n' l;
      Some (m :: ms)
  end.

Definition enc_directory (d : SparseIndex) : list byte :=
  enc_Z (Z.of_nat (length (Blocks d))) ++ mjoin (enc_meta <$> Blocks d).

Definition dec_directory (l : list byte) : option SparseIndex :=
  '(n, l) ← dec_Z l;
  ms ← dec_metas (Z.to_nat n) l;
  Some (mkSparseIndex ms).

Lemma dec_enc_pos p rest : dec_pos (enc_pos p ++ rest) = Some (p, rest).
Proof. induction p as [p IH|p IH|]; cbn; by rewrite ?IH. Qed.

Lemma dec_enc_Z z rest : dec_Z (enc_Z z ++ rest) = Some (z, rest).
Proof. destruct z; cbn; by rewrite ?dec_enc_pos. Qed.

Lemma dec_enc_meta m rest : dec_meta (enc_meta m ++ rest) = Some (m, rest).
Proof.
  destruct m as [k o l c d]. unfold dec_meta, enc_meta. cbn [StartKey Offset Length RecordCount IsDistinct].
  rewrite <- !app_assoc, dec_enc_Z. cbn [mbind option_bind]. rewrite Nat2Z.id.
  rewrite take_app_length, drop_app_length, decide_True by done.
  repeat (rewrite dec_enc_Z; cbn [mbind option_bind app]).
  by destruct d.
Qed.

Lemma dec_enc_metas ms : dec_metas (length ms) (mjoin (enc_meta <$> ms)) = Some ms.
Proof.
  induction ms as [|m ms IH]; [done|].
  change (mjoin (enc_meta <$> m :: ms)) with (enc_meta m ++ mjoin (enc_meta <$> ms)).
  cbn [length dec_metas].
  rewrite dec_enc_meta. cbn [mbind option_bind].
  by rewrite IH.
Qed.

#[export] Instance json_reference : Json.
Proof.
  refine {| json_marshal := λ d, enc_directory (mkSparseIndex (jsonMeta <$> Blocks d));
            json_unmarshal := dec_directory |}.
  intros [ms]. unfold dec_directory, enc_directory. cbn [Blocks].
  rewrite dec_enc_Z. cbn [mbind option_bind]. rewrite Nat2Z.id, dec_enc_metas. done.
Defined.

#[export] Instance recLe_dec a b : Decision (recLe a b).
Proof. unfold recLe. apply _. Defined.

#[export] Instance recLe_total_inst : Total recLe.
Proof. intros a b. apply recLe_total. Qed.

(** Merge sort by the comparator of [flushChunk]: the instance of
    [slices.SortFunc] at which closed terms are evaluated. *)
#[export] Instance sort_reference : SortFunc.
Proof.
  refine {| sortRecords := merge_sort recLe |}.
  - apply merge_sort_Permutation.
  - intros l. apply (StronglySorted_merge_sort recLe).
Defined.

End Reference.

(** ** The sorter's output file *)

Module SorterClaim.
Import index BlockFacts BloomFacts IndexFileFacts SorterFacts Reference.

(** Two keys that are not both valid UTF-8: 820 records under the single
    byte 0xC3, which fill the first block, and one record under the bytes
    0xC3 0xA9 (the letter e with an acute accent), which starts the
    second. *)
Definition raw_key_record (k : list byte) (o l : Z) : IndexRecord :=
  {| Key := take 64 (k ++ replicate 64 NUL); types.Offset := o; Line := l |}.

Definition accent_records : list IndexRecord :=
  ((λ i, raw_key_record ["195"]%byte (Z.of_nat i * 10) (Z.of_nat i + 2)) <$> seq 0 820)
  ++ [raw_key_record ["195"; "169"]%byte 8200 822].

Definition accent_file : list byte :=
  match Finalize (foldl SorterAdd (NewSorter (10 * 1024 * 1024) None) accent_records) with
  | Ok (_, file, _) => file
  | _ => []
  end.

#[local] Instance result_records_eq_dec : EqDecision (result (list (list IndexRecord))).
Proof. solve_decision. Defined.

(** C1, as stated, fails in its last part. The file written for
    [accent_records] decodes to these records, in order; but its directory
    is stored as JSON, and the start key 0xC3 of the first block, which is
    not valid UTF-8, is in the file as U+FFFD (0xEF 0xBF 0xBD), above the
    start key 0xC3 0xA9 of the second block: the directory entries are not
    in non-decreasing order of their start keys. *)
Lemma C1_start_keys_out_of_order :
  decodeIndex accent_file = Ok [take 820 accent_records; drop 820 accent_records] ∧
  (λ br, StartKey <$> Blocks (Footer br)) <$>
    (match NewBlockReader accent_file with Ok br => Some br | _ => None end)
  = Some [utf8.RuneError; ["195"; "169"]%byte] ∧
  strLe utf8.RuneError ["195"; "169"]%byte = false.
Proof.
  split; [apply (bool_decide_eq_true_1 _); vm_compute; reflexivity|].
  split; vm_compute; reflexivity.
Qed.

(** C1, amended. Whatever records are given to a sorter, in any order and
    with any memory limit (at least one record, so at least one spill
    chunk), the file that [Finalize] writes decodes, block after block in
    directory order, to a permutation of the input that is sorted by (key
    bytes, offset), and every block is sorted. The start key of a directory
    entry is the first key of its block as JSON gives it back, every byte
    that is not part of a well-formed UTF-8 sequence replaced by U+FFFD;
    when the keys are valid UTF-8 the start keys are non-decreasing.
    Reading the file back supposes that it is shorter than 2^63 bytes. *)
Theorem C1_sorter_output_sorted {lz : Lz4} {js : Json} {crc : Crc32} {srt : SortFunc}
    (memoryLimit : Z) (bloom0 : option BloomFilter) (recs : list IndexRecord) :
  recs ≠ [] → Forall wf_record recs → from_option wf_bloom True bloom0 →
  ∃ distinct file bloom',
    Finalize (foldl SorterAdd (NewSorter memoryLimit bloom0) recs)
      = Ok (distinct, file, bloom') ∧
    (Z.of_nat (length file) < 2 ^ 63 →
     ∃ br batches,
       NewBlockReader file = Ok br ∧
       decodeIndex file = Ok batches ∧
       concat batches ≡ₚ recs ∧
       StronglySorted (λ a b, recordCmp a b <= 0) (concat batches) ∧
       Forall (StronglySorted (λ a b, recordCmp a b <= 0)) batches ∧
       Forall2 (λ meta b, ∃ first rest, b = first :: rest ∧
                  StartKey meta = jsonString 0 (trimRightNul (Key first)))
         (Blocks (Footer br)) batches ∧
       (Forall (λ rec, utf8.Valid (trimRightNul (Key rec)) = true) recs →
        StronglySorted (λ a b, strLe (StartKey a) (StartKey b) = true)
          (Blocks (Footer br)))).
Proof.
  intros Hne Hwf Hbloom.
  destruct (Finalize_ok memoryLimit bloom0 recs Hne Hwf Hbloom)
    as (distinct & bloom' & bw & out & Hfin & Hrepr & Hperm & Hsorted).
  exists distinct, (w (Close bw)), bloom'. split; [done|].
  intros Hsize.
  destruct (Close_decode bw out Hrepr Hsize)
    as (br & batches & Hnew & Hfooter & Hread & Hconcat & Hblocks & _).
  exists br, batches. split; [done|]. split.
  { unfold decodeIndex. rewrite Hnew. cbn [mbind result_bind]. done. }
  rewrite Hconcat. split; [done|]. split; [done|]. split; [|split].
  - clear -Hsorted Hconcat. subst out. revert Hsorted.
    induction batches as [|b batches IH]; intros Hs; [constructor|].
    cbn [concat] in Hs. apply StronglySorted_app in Hs as (_ & Hb & Hs).
    constructor; [done|by apply IH].
  - rewrite Hfooter. apply Forall2_fmap_l.
    eapply Forall2_impl; [exact Hblocks|].
    intros meta b ((first & rest & -> & Hk) & _). exists first, rest.
    split; [done|]. cbn [jsonMeta StartKey]. by rewrite Hk.
  - intros Hvalid.
    assert (Hsame : Blocks (Footer br) = Blocks (sparseIndex (FlushBlock bw))).
    { rewrite Hfooter.
      rewrite <- (list_fmap_id (Blocks (sparseIndex (FlushBlock bw)))) at 2.
      apply Forall_fmap_ext_1. eapply directory_valid; [exact Hblocks|].
      rewrite Hconcat. by rewrite Hperm. }
    rewrite Hsame. eapply directory_sorted; [exact Hblocks|]. by rewrite Hconcat.
Qed.

Definition sample_input : list IndexRecord :=
  [sample_record "Sales" 25 3; sample_record "Eng" 36 4; sample_record "Eng" 13 2].

Lemma C1_sorter_output_sorted_witness :
  ∃ distinct file bloom',
    Finalize (foldl SorterAdd (NewSorter 0 None) sample_input)
      = Ok (distinct, file, bloom') ∧
    (Z.of_nat (length file) < 2 ^ 63 →
     ∃ br batches,
       NewBlockReader file = Ok br ∧
       decodeIndex file = Ok batches ∧
       concat batches ≡ₚ sample_input ∧
       StronglySorted (λ a b, recordCmp a b <= 0) (concat batches) ∧
       Forall (StronglySorted (λ a b, recordCmp a b <= 0)) batches ∧
       Forall2 (λ meta b, ∃ first rest, b = first :: rest ∧
                  StartKey meta = jsonString 0 (trimRightNul (Key first)))
         (Blocks (Footer br)) batches ∧
       (Forall (λ rec, utf8.Valid (trimRightNul (Key rec)) = true) sample_input →
        StronglySorted (λ a b, strLe (StartKey a) (StartKey b) = true)
          (Blocks (Footer br)))).
Proof.
  apply (C1_sorter_output_sorted (lz := stored_lz4) (js := json_reference)
           (crc := crc32_reference) (srt := sort_reference) 0 None sample_input).
  - discriminate.
  - repeat constructor; vm_compute; congruence.
  - exact I.
Defined.

(** The keys of the sample input are valid UTF-8. *)
Example sample_input_valid :
  Forall (λ rec, utf8.Valid (trimRightNul (Key rec)) = true) sample_input.
Proof. repeat constructor. Qed.

(** The sample input goes through the sorter as expected. *)
Example sample_sorted :
  match Finalize (foldl SorterAdd (NewSorter 0 None) sample_input) with
  | Ok (distinct, file, _) =>
      match decodeIndex file with
      | Ok batches => Some (distinct, types.Offset <$> concat batches)
      | _ => None
      end
  | _ => None
  end = Some (2, [13; 36; 25]).
Proof. vm_compute. reflexivity. Qed.

End SorterClaim.

(** ** Searching a key through the sparse directory *)

Module SearchClaim.
Import index BlockFacts BloomFacts IndexFileFacts SorterFacts Reference.

(** What an index lookup returns: open the index, search the key, take
    every record the iterator yields. *)
Definition yielded `{Lz4} `{Json} `{Crc32} (fuel : nat) (file : list byte)
    (key : list byte) : result (list IndexRecord) :=
  idx ← OpenDiskIndex file None;
  iter ← Search idx key;
  match iter with
  | EmptyIterator => Ok []
  | DiskIterator it => iterate fuel it []
  end.

(** The statement of the specification: in an index whose records are
    sorted, a search for a key that occurs yields every record with that
    (trimmed) key. *)
Definition search_complete `{Lz4} `{Json} `{Crc32} (fuel : nat) (file : list byte)
    (key : list byte) : Prop :=
  ∀ batches,
    decodeIndex file = Ok batches →
    StronglySorted recLe (concat batches) →
    (∃ rec, rec ∈ concat batches ∧ compareRecordKey (Key rec) key = 0) →
    ∃ found, yielded fuel file key = Ok found ∧
      ∀ rec, rec ∈ concat batches → compareRecordKey (Key rec) key = 0 → rec ∈ found.

(** One record with key [A], then 820 records with key [K]: the block
    writer closes its first block after 820 records of 80 bytes, so the
    last [K] record starts the second block. *)
Definition boundary_records : list IndexRecord :=
  sample_record "A" 9 2 ::
  ((λ i, sample_record "K" (Z.of_nat i * 10) (Z.of_nat i + 2)) <$> seq 1 820).

Definition boundary_file : list byte :=
  w (Close (foldl WriteRecord (NewBlockWriter []) boundary_records)).

#[local] Instance result_eq_dec {A} `{EqDecision A} : EqDecision (result A).
Proof. solve_decision. Defined.

Lemma boundary_decode :
  decodeIndex boundary_file = Ok [take 820 boundary_records; drop 820 boundary_records].
Proof.
  apply (bool_decide_eq_true_1 _). vm_compute. reflexivity.
Qed.

Lemma boundary_directory :
  (λ br, (λ m, (StartKey m, RecordCount m)) <$> Blocks (Footer br)) <$>
    (match NewBlockReader boundary_file with Ok br => Some br | _ => None end)
  = Some [(bs "A", 820); (bs "K", 1)].
Proof. vm_compute. reflexivity. Qed.

Lemma boundary_sorted : StronglySorted recLe boundary_records.
Proof.
  apply (Sorted_StronglySorted recLe).
  apply (bool_decide_eq_true_1 (Sorted recLe boundary_records)).
  vm_compute. reflexivity.
Qed.

Lemma boundary_yielded :
  yielded 2000 boundary_file (bs "K") = Ok [sample_record "K" 8200 822].
Proof. vm_compute. reflexivity. Qed.

(** C2 (the claim fails on the code). The index written for one [A] record
    followed by 820 [K] records is sorted and holds 820 records with key
    [K]; the search for [K] starts at the second block, whose start key
    is [K], and yields only the last of them: the 819 records at the end
    of the first block are not returned. *)
Theorem C2_search_skips_block_tail :
  ¬ search_complete 2000 boundary_file (bs "K").
Proof.
  intros Hclaim.
  destruct (Hclaim _ boundary_decode) as (found & Hfound & Hall).
  - cbn [concat]. rewrite app_nil_r, take_drop. apply boundary_sorted.
  - exists (sample_record "K" 10 3). split; [|by vm_compute].
    cbn [concat]. rewrite app_nil_r, take_drop.
    apply (list_elem_of_lookup_2 _ 1%nat). reflexivity.
  - rewrite boundary_yielded in Hfound. injection Hfound as <-.
    specialize (Hall (sample_record "K" 10 3)).
    apply list_elem_of_singleton in Hall; [discriminate| |by vm_compute].
    cbn [concat]. rewrite app_nil_r, take_drop.
    apply (list_elem_of_lookup_2 _ 1%nat). reflexivity.
Qed.

(** The count of the matching records that are missed. *)
Example boundary_missed :
  Z.of_nat (length (filter (λ rec, compareRecordKey (Key rec) (bs "K") = 0)
                      boundary_records)) = 820.
Proof. vm_compute. reflexivity. Qed.

End SearchClaim.

(** ** The scanner on a quoted newline (scenario S6) *)

Module ScannerClaim.
Import Bytes parser.

(** The CSV of scenario S6: a header, a record whose second field holds a
    newline inside quotes, and a second record. *)
Definition quoted_newline_csv : list byte :=
  bs "id,note" ++ [NL] ++
  bs "1," ++ [QUOTE] ++ bs "hello" ++ [NL] ++ bs "world" ++ [QUOTE] ++ [NL] ++
  bs "2," ++ [QUOTE] ++ bs "ok" ++ [QUOTE] ++ [NL].

(** What the handler is told about where a row is. *)
Definition position (r : Row) : Z * Z := (offset r, line r).

Definition scanS6 (W : nat) (indexDefs : list (list nat)) : list Row :=
  Scan (mkSIMDParser quoted_newline_csv COMMA W) indexDefs.

Lemma mjoin_cons {A} (x : list A) (l : list (list A)) : mjoin (x :: l) = x ++ mjoin l.
Proof. done. Qed.

Lemma mjoin_nil {A} : mjoin (@nil (list A)) = [].
Proof. done. Qed.

(** With more workers than bytes the chunk size is 0: every inner boundary
    is the first safe record start after the header. *)
Lemma boundary_many (W i : nat) :
  (24 ≤ W)%nat →
  boundary (mkSIMDParser quoted_newline_csv COMMA W) 8 i =
    if decide (i = 0)%nat then 8%nat
    else if decide (W ≤ i)%nat then 31%nat else 24%nat.
Proof.
  intros HW. unfold boundary. cbn [data workers].
  replace ((length quoted_newline_csv - 8) / W)%nat with 0%nat
    by (symmetry; apply Nat.div_small; vm_compute length; lia).
  rewrite Nat.mul_0_r, Nat.add_0_r.
  destruct (decide (i = 0)%nat) as [->|Hi].
  - by rewrite bool_decide_eq_true_2.
  - rewrite bool_decide_eq_false_2 by done.
    destruct (decide (W ≤ i)%nat).
    + by rewrite bool_decide_eq_true_2.
    + rewrite bool_decide_eq_false_2 by done. by vm_compute.
Qed.

(** The workers between the first and the last have an empty chunk. *)
Lemma middle_chunks (W : nat) (indexDefs : list (list nat)) (js : list nat) :
  (24 ≤ W)%nat →
  Forall (λ j, 1 ≤ j ∧ S j < W)%nat js →
  mjoin (workerRows (mkSIMDParser quoted_newline_csv COMMA W) 8 indexDefs <$> js) = [].
Proof.
  intros HW. induction 1 as [|j js [Hj1 Hj2] _ IH]; [done|].
  rewrite fmap_cons, mjoin_cons, IH, app_nil_r.
  unfold workerRows. cbn zeta. rewrite !boundary_many by done.
  rewrite !decide_False by lia. by rewrite bool_decide_eq_true_2.
Qed.

Lemma middle_lines (W : nat) (js : list nat) (z : Z) :
  (24 ≤ W)%nat →
  Forall (λ j, 1 ≤ j ∧ S j < W)%nat js →
  foldl (λ currentLine j,
           currentLine + chunkLines (mkSIMDParser quoted_newline_csv COMMA W) 8 j)
        z js = z.
Proof.
  intros HW H. revert z. induction H as [|j js [Hj1 Hj2] _ IH]; intros z; [done|].
  cbn [foldl]. rewrite IH. unfold chunkLines.
  rewrite !boundary_many by done.
  rewrite !decide_False by lia. rewrite bool_decide_eq_true_2 by done. lia.
Qed.

Lemma scanS6_many (W : nat) (indexDefs : list (list nat)) :
  (24 ≤ W)%nat → position <$> scanS6 W indexDefs = [(8, 2); (24, 3)].
Proof.
  intros HW. unfold scanS6, Scan. cbn [data workers].
  replace (IndexByte quoted_newline_csv NL) with (Some 7%nat) by (by vm_compute).
  cbn zeta. rewrite bool_decide_eq_false_2 by (vm_compute length; lia).
  destruct W as [|[|W]]; [lia..|].
  assert (Hmid : Forall (λ j, 1 ≤ j ∧ S j < S (S W))%nat (seq 1 W)).
  { apply Forall_forall. intros j [? ?]%elem_of_seq. lia. }
  change (seq 0 (S (S W))) with (0%nat :: seq 1 (S W)).
  rewrite seq_S, fmap_cons, fmap_app, mjoin_cons, join_app.
  rewrite middle_chunks; [|exact HW|exact Hmid].
  rewrite app_nil_l, fmap_cons, mjoin_cons, fmap_nil, mjoin_nil, app_nil_r.
  unfold workerRows. cbn zeta.
  unfold startLineOf at 2.
  change (seq 0 (1 + W)) with (0%nat :: seq 1 W).
  cbn [foldl]. rewrite middle_lines by (done || lia).
  unfold chunkLines. rewrite !boundary_many by lia.
  repeat (case_decide; try lia).
  rewrite !bool_decide_eq_false_2 by lia.
  by vm_compute.
Qed.

Lemma scanS6_few (indexDefs : list (list nat)) :
  Forall (λ W, position <$> scanS6 W indexDefs = [(8, 2); (24, 3)]) (seq 1 23).
Proof. repeat constructor; by vm_compute. Qed.

(** C5, as stated, fails: the second record of the S6 file is not given
    line 4. With one worker the handler is called with lines 2 and 3. *)
Lemma C5_second_row_is_not_line_4 :
  line <$> scanS6 1 [[0%nat]] = [2; 3] ∧ line <$> scanS6 1 [[0%nat]] ≠ [2; 4].
Proof. split; by vm_compute. Qed.

(** C5, amended. On the S6 file the scanner calls the handler exactly
    twice, whatever the number of workers and the index definitions: for the
    record at byte 8 with line 2 and for the record at byte 24 with line 3.
    Line numbers count records (unquoted newlines), so the newline inside the
    quoted field does not advance them. *)
Theorem C5_quoted_newline_lines (W : nat) (indexDefs : list (list nat)) :
  (1 ≤ W)%nat →
  position <$> scanS6 W indexDefs = [(8, 2); (24, 3)].
Proof.
  intros HW. destruct (decide (24 ≤ W)%nat) as [Hmany|Hfew].
  - by apply scanS6_many.
  - pose proof (scanS6_few indexDefs) as H.
    rewrite Forall_forall in H. apply H, elem_of_seq. lia.
Qed.

Lemma C5_quoted_newline_lines_witness :
  position <$> scanS6 4 [[0%nat]; [1%nat]] = [(8, 2); (24, 3)].
Proof. apply C5_quoted_newline_lines. lia. Defined.

End ScannerClaim.

(** ** The byte classifier and the field splitter *)

Module BitmapFacts.
Import simd parser.

Lemma land_bit (x k : Z) :
  0 ≤ k → (Z.land x (Z.shiftl 1 k) =? 0) = negb (Z.testbit x k).
Proof.
  intros Hk. destruct (Z.testbit x k) eqn:Hb; cbn [negb].
  - apply Z.eqb_neq. intros H0.
    assert (Z.testbit (Z.land x (Z.shiftl 1 k)) k = true) as Ht.
    { rewrite Z.land_spec, Hb, Z.shiftl_spec, Z.sub_diag by done. done. }
    rewrite H0, Z.bits_0 in Ht. done.
  - apply Z.eqb_eq, Z.bits_inj'. intros n Hn.
    rewrite Z.land_spec, Z.bits_0, Z.shiftl_spec by done.
    destruct (decide (n = k)) as [->|Hne]; [by rewrite Hb|].
    destruct (decide (n < k)).
    + rewrite (Z.testbit_neg_r 1) by lia. apply andb_false_r.
    + replace (Z.testbit 1 (n - k)) with false; [apply andb_false_r|].
      symmetry. apply (Z.bits_above_log2 1); [lia|]. change (Z.log2 1) with 0. lia.
Qed.

Lemma bitAt_testbit (bitmap : list Z) (pos : nat) :
  bitAt bitmap pos = Z.testbit (bitmap !!! (pos / 64)%nat) (Z.of_nat (pos mod 64)).
Proof. unfold bitAt. rewrite land_bit by lia. apply negb_involutive. Qed.

Lemma markBit_length (bitmap : list Z) (i : nat) :
  length (markBit bitmap i) = length bitmap.
Proof. unfold markBit. by rewrite length_insert. Qed.

Lemma bitAt_markBit (bitmap : list Z) (i j : nat) :
  (i / 64 < length bitmap)%nat →
  bitAt (markBit bitmap i) j = bool_decide (i = j) || bitAt bitmap j.
Proof.
  intros Hi. rewrite !bitAt_testbit. unfold markBit.
  destruct (decide (i / 64 = j / 64)%nat) as [Hw|Hw].
  - rewrite <- Hw, list_lookup_total_insert_eq by done.
    rewrite Z.lor_spec, Z.shiftl_spec by lia.
    destruct (decide (i = j)) as [->|Hne].
    + rewrite bool_decide_eq_true_2, Z.sub_diag by done. cbn. apply orb_true_r.
    + rewrite bool_decide_eq_false_2 by done. cbn [orb].
      assert (i mod 64 ≠ j mod 64)%nat.
      { intros Hm. apply Hne.
        rewrite (Nat.div_mod_eq i 64), (Nat.div_mod_eq j 64). lia. }
      replace (Z.testbit 1 (Z.of_nat (j mod 64) - Z.of_nat (i mod 64))) with false;
        [apply orb_false_r|].
      symmetry. destruct (decide (j mod 64 < i mod 64)%nat).
      * apply Z.testbit_neg_r. lia.
      * apply (Z.bits_above_log2 1); [lia|]. change (Z.log2 1) with 0. lia.
  - rewrite list_lookup_total_insert_ne by done.
    rewrite bool_decide_eq_false_2; [done|]. intros ->. done.
Qed.

(** The three tests of the classifier, in the order of its [else if]
    chain. *)
Definition isQuoteByte (b : byte) : bool := bool_decide (b = QUOTE).
Definition isSepByte (sep b : byte) : bool :=
  negb (bool_decide (b = QUOTE)) && bool_decide (b = sep).
Definition isNewlineByte (sep b : byte) : bool :=
  negb (bool_decide (b = QUOTE)) && negb (bool_decide (b = sep)) && bool_decide (b = NL).

(** [bitmap] marks the positions below [i] whose byte passes [test]. *)
Definition marks (input : list byte) (test : byte → bool) (i : nat) (bitmap : list Z)
  : Prop :=
  ∀ j, (j / 64 < length bitmap)%nat →
       bitAt bitmap j = bool_decide (j < i)%nat && from_option test false (input !! j).

Lemma marks_step_set input test i bitmap b :
  (i / 64 < length bitmap)%nat →
  input !! i = Some b → test b = true →
  marks input test i bitmap → marks input test (S i) (markBit bitmap i).
Proof.
  intros Hi Hb Ht H j. rewrite markBit_length. intros Hj.
  rewrite bitAt_markBit, H by done.
  destruct (decide (i = j)) as [<-|Hne].
  - rewrite Hb. cbn. rewrite Ht.
    rewrite (bool_decide_eq_true_2 (i = i)), (bool_decide_eq_true_2 (i < S i)%nat) by lia.
    done.
  - rewrite bool_decide_eq_false_2 by done. cbn [orb].
    f_equal. apply bool_decide_ext. lia.
Qed.

Lemma marks_step_skip input test i bitmap b :
  input !! i = Some b → test b = false →
  marks input test i bitmap → marks input test (S i) bitmap.
Proof.
  intros Hb Ht H j Hj. rewrite H by done.
  destruct (decide (i = j)) as [<-|Hne].
  - rewrite Hb. cbn. rewrite Ht. by rewrite !andb_false_r.
  - f_equal. apply bool_decide_ext. lia.
Qed.

Lemma scanFrom_spec (sep : byte) (input pre : list byte) (quotes seps newlines : list Z) :
  let input0 := pre ++ input in
  ((length input0 + 63) / 64 ≤ length quotes)%nat →
  length seps = length quotes → length newlines = length quotes →
  marks input0 isQuoteByte (length pre) quotes →
  marks input0 (isSepByte sep) (length pre) seps →
  marks input0 (isNewlineByte sep) (length pre) newlines →
  ∃ quotes' seps' newlines',
    scanFrom input sep (length pre) quotes seps newlines = (quotes', seps', newlines') ∧
    length quotes' = length quotes ∧ length seps' = length quotes ∧
    length newlines' = length quotes ∧
    marks input0 isQuoteByte (length input0) quotes' ∧
    marks input0 (isSepByte sep) (length input0) seps' ∧
    marks input0 (isNewlineByte sep) (length input0) newlines'.
Proof.
  revert pre quotes seps newlines.
  induction input as [|b input IH]; intros pre quotes seps newlines input0 HL Hs Hn Hq Hse Hne.
  - subst input0. rewrite app_nil_r in *. by eexists _, _, _.
  - assert (Hb : input0 !! length pre = Some b).
    { subst input0. by rewrite lookup_app_r, Nat.sub_diag by lia. }
    assert (Hi : (length pre / 64 < length quotes)%nat).
    { eapply Nat.lt_le_trans; [|exact HL]. subst input0.
      rewrite length_app. cbn [length].
      apply Nat.Div0.div_lt_upper_bound.
      pose proof (Nat.mod_upper_bound (length pre + S (length input) + 63) 64).
      pose proof (Nat.div_mod_eq (length pre + S (length input) + 63) 64). lia. }
    assert (Heq : input0 = (pre ++ [b]) ++ input) by (subst input0; by rewrite <- app_assoc).
    assert (Hlen : length (pre ++ [b]) = S (length pre)) by (rewrite length_app; cbn; lia).
    cbn [scanFrom].
    specialize (IH (pre ++ [b])). cbn zeta in IH. rewrite <- Heq, Hlen in IH.
    destruct (decide (b = QUOTE)) as [Hbq|Hbq].
    + rewrite bool_decide_eq_true_2 by done.
      destruct (IH (markBit quotes (length pre)) seps newlines)
        as (q' & s' & n' & -> & ? & ? & ? & ? & ? & ?);
        rewrite ?markBit_length; try done.
      * eapply marks_step_set; try done. unfold isQuoteByte. by rewrite bool_decide_eq_true_2.
      * eapply marks_step_skip; try done. unfold isSepByte.
        by rewrite (bool_decide_eq_true_2 (b = QUOTE)).
      * eapply marks_step_skip; try done. unfold isNewlineByte.
        by rewrite (bool_decide_eq_true_2 (b = QUOTE)).
      * rewrite ?markBit_length in *. by eexists _, _, _.
    + rewrite (bool_decide_eq_false_2 (b = QUOTE)) by done.
      destruct (decide (b = sep)) as [Hbs|Hbs].
      * rewrite bool_decide_eq_true_2 by done.
        destruct (IH quotes (markBit seps (length pre)) newlines)
          as (q' & s' & n' & -> & ? & ? & ? & ? & ? & ?);
          rewrite ?markBit_length; try done.
        -- eapply marks_step_skip; try done. unfold isQuoteByte.
           by rewrite bool_decide_eq_false_2.
        -- eapply marks_step_set; try done; [by rewrite Hs|]. unfold isSepByte.
           by rewrite bool_decide_eq_false_2, bool_decide_eq_true_2.
        -- eapply marks_step_skip; try done. unfold isNewlineByte.
           by rewrite bool_decide_eq_false_2, (bool_decide_eq_true_2 (b = sep)).
        -- rewrite ?markBit_length in *. by eexists _, _, _.
      * rewrite (bool_decide_eq_false_2 (b = sep)) by done.
        destruct (decide (b = NL)) as [Hbn|Hbn].
        -- rewrite bool_decide_eq_true_2 by done.
           destruct (IH quotes seps (markBit newlines (length pre)))
             as (q' & s' & n' & -> & ? & ? & ? & ? & ? & ?);
             rewrite ?markBit_length; try done.
           ++ eapply marks_step_skip; try done. unfold isQuoteByte.
              by rewrite bool_decide_eq_false_2.
           ++ eapply marks_step_skip; try done. unfold isSepByte.
              by rewrite bool_decide_eq_false_2, (bool_decide_eq_false_2 (b = sep)).
           ++ eapply marks_step_set; try done; [by rewrite Hn|]. unfold isNewlineByte.
              by rewrite (bool_decide_eq_false_2 (b = QUOTE)), (bool_decide_eq_false_2 (b = sep)),
                (bool_decide_eq_true_2 (b = NL)).
           ++ rewrite ?markBit_length in *. by eexists _, _, _.
        -- rewrite (bool_decide_eq_false_2 (b = NL)) by done.
           destruct (IH quotes seps newlines)
             as (q' & s' & n' & -> & ? & ? & ? & ? & ? & ?); try done.
           ++ eapply marks_step_skip; try done. unfold isQuoteByte.
              by rewrite bool_decide_eq_false_2.
           ++ eapply marks_step_skip; try done. unfold isSepByte.
              by rewrite bool_decide_eq_false_2, (bool_decide_eq_false_2 (b = sep)).
           ++ eapply marks_step_skip; try done. unfold isNewlineByte.
              by rewrite (bool_decide_eq_false_2 (b = QUOTE)), (bool_decide_eq_false_2 (b = sep)),
                (bool_decide_eq_false_2 (b = NL)).
           ++ rewrite ?markBit_length in *. by eexists _, _, _.
Qed.

Lemma bitAt_zeros (n j : nat) : (j / 64 < n)%nat → bitAt (replicate n 0) j = false.
Proof.
  intros Hj. rewrite bitAt_testbit.
  rewrite list_lookup_total_alt, lookup_replicate_2 by done. apply Z.bits_0.
Qed.

(** The bitmaps of a chunk mark exactly its quotes, its separators that
    are not quotes, and its newlines that are neither. *)
Lemma classify_spec (chunkData : list byte) (sep : byte) :
  ∃ quotes seps newlines,
    classify chunkData sep = (quotes, seps, newlines) ∧
    length quotes = ((length chunkData + 63) / 64)%nat ∧
    length seps = ((length chunkData + 63) / 64)%nat ∧
    length newlines = ((length chunkData + 63) / 64)%nat ∧
    marks chunkData isQuoteByte (length chunkData) quotes ∧
    marks chunkData (isSepByte sep) (length chunkData) seps ∧
    marks chunkData (isNewlineByte sep) (length chunkData) newlines.
Proof.
  assert (Hz : ∀ test n, marks chunkData test 0 (replicate n 0)).
  { intros test n j Hj. rewrite length_replicate in Hj. by rewrite bitAt_zeros. }
  destruct (scanFrom_spec sep chunkData []
              (replicate ((length chunkData + 63) / 64) 0)
              (replicate ((length chunkData + 63) / 64) 0)
              (replicate ((length chunkData + 63) / 64) 0))
    as (q & s & n & Hscan & Hq & Hs & Hn & ? & ? & ?);
    rewrite ?length_replicate; try done.
  rewrite length_replicate in Hq, Hs, Hn. cbn [length app] in *.
  exists q, s, n. split; [|done].
  unfold classify, Scan, ScanWithSeparator.
  case_bool_decide as Hsep; [subst sep|]; exact Hscan.
Qed.

End BitmapFacts.

(** ** Field values: the scanner and [extractCols] against the
    specification's splitting rule *)

Module FieldFacts.
Import simd parser strings query BitmapFacts.

(** Following the specification (section on the main pass): [in_quote]
    toggles on every quote byte, and the row is split at the separators met
    while [in_quote] is false. [cur] is the field read so far. *)
Fixpoint specFieldsFrom (sep : byte) (line : list byte) (inQuote : bool)
    (cur : list byte) : list (list byte) :=
  match line with
  | [] => [cur]
  | b :: line' =>
      if bool_decide (b = QUOTE) then specFieldsFrom sep line' (negb inQuote) (cur ++ [b])
      else if bool_decide (b = sep) && negb inQuote
           then cur :: specFieldsFrom sep line' inQuote []
           else specFieldsFrom sep line' inQuote (cur ++ [b])
  end.

(** The raw fields of a row. *)
Definition specFields (sep : byte) (line : list byte) : list (list byte) :=
  specFieldsFrom sep line false [].

(** [nCols] row values of which the first are [fields]; the others stay
    [nil]. *)
Definition fill (nCols : nat) (fields : list (list byte)) : list (option (list byte)) :=
  resize nCols None (Some <$> fields).

Lemma slice_snoc (l : list byte) (f i : nat) (b : byte) :
  (f ≤ i)%nat → l !! i = Some b → slice l f (S i) = slice l f i ++ [b].
Proof.
  intros Hf Hb. unfold slice.
  replace (S i - f)%nat with (S (i - f)) by lia.
  apply take_S_r. rewrite lookup_drop. by replace (f + (i - f))%nat with i by lia.
Qed.

Lemma slice_empty (l : list byte) (i : nat) : slice l i i = [].
Proof. unfold slice. by rewrite Nat.sub_diag. Qed.

Lemma slice_to_end (l : list byte) (f : nat) : slice l f (length l) = drop f l.
Proof. unfold slice. apply take_ge. rewrite length_drop. lia. Qed.

Lemma fill_length nCols fields : length (fill nCols fields) = nCols.
Proof. apply length_resize. Qed.

Lemma fill_full nCols done more :
  length done = nCols → fill nCols (done ++ more) = Some <$> done.
Proof.
  intros H. unfold fill. rewrite fmap_app, resize_app_le by (rewrite length_fmap; lia).
  rewrite <- H, <- (length_fmap Some done). apply resize_all.
Qed.

Lemma fill_exact nCols done :
  length done = nCols → fill nCols done = Some <$> done.
Proof. intros H. rewrite <- (app_nil_r done) at 1. by apply fill_full. Qed.

Lemma fill_insert nCols done x :
  (length done < nCols)%nat →
  <[length done := Some x]> (fill nCols done) = fill nCols (done ++ [x]).
Proof.
  intros H. unfold fill.
  rewrite !resize_ge by (rewrite length_fmap, ?length_app; cbn; lia).
  rewrite !length_fmap, length_app, fmap_app. cbn [length fmap list_fmap].
  replace (nCols - length done)%nat with (S (nCols - (length done + 1))) by lia.
  cbn [replicate].
  rewrite <- (length_fmap Some done) at 1.
  rewrite insert_app_r_alt, Nat.sub_diag by lia. cbn.
  by rewrite <- app_assoc.
Qed.

Section scanner.
Variables (sep : byte) (line : list byte) (lineStart : nat).
Variables (quotes seps : list Z) (nCols : nat).
Hypothesis Hrange : ∀ i, (i < length line)%nat → ((lineStart + i) / 64 < length quotes)%nat.
Hypothesis Hquotes : ∀ i b, line !! i = Some b →
  bitAt quotes (lineStart + i) = isQuoteByte b.
Hypothesis Hseps : ∀ i b, line !! i = Some b →
  bitAt seps (lineStart + i) = isSepByte sep b.

(** The assignment after the loop of [parseLineSimd]. *)
Definition lastField (st : fieldState) : list (option (list byte)) :=
  if bool_decide (colIdx st < length (currentRowValues st))%nat
     && bool_decide (fieldStart st ≤ length line)%nat
  then <[colIdx st := Some (stripQuotes (drop (fieldStart st) line))]> (currentRowValues st)
  else currentRowValues st.

Lemma fieldLoop_spec (fuel i f : nat) (q : bool) (done : list (list byte)) :
  (length line ≤ i + fuel)%nat → (f ≤ i ≤ length line)%nat →
  (length done ≤ nCols)%nat →
  lastField (fieldLoop fuel line lineStart quotes seps i
               (mkFieldState (length done) f q (fill nCols done))) =
  fill nCols (done ++ (stripQuotes <$> specFieldsFrom sep (drop i line) q (slice line f i))).
Proof.
  revert i f q done. induction fuel as [|fuel IH]; intros i f q done Hfuel Hi Hdone.
  - cbn [fieldLoop]. unfold lastField. cbn [colIdx fieldStart currentRowValues].
    assert (i = length line) as -> by lia.
    rewrite drop_all, slice_to_end. cbn [specFieldsFrom fmap list_fmap].
    rewrite fill_length.
    destruct (decide (length done < nCols)%nat).
    + rewrite !bool_decide_eq_true_2 by lia. cbn [andb]. by apply fill_insert.
    + rewrite (bool_decide_eq_false_2 (length done < nCols)%nat) by done. cbn [andb].
      by rewrite fill_full, fill_exact by lia.
  - cbn [fieldLoop colIdx fieldStart currentRowValues inQuoteF]. rewrite fill_length.
    destruct (decide (length done < nCols)%nat) as [Hc|Hc]; cycle 1.
    { rewrite (bool_decide_eq_false_2 (length done < nCols)%nat), andb_false_r by done.
      unfold lastField. cbn [colIdx fieldStart currentRowValues]. rewrite fill_length.
      rewrite (bool_decide_eq_false_2 (length done < nCols)%nat) by done. cbn [andb].
      by rewrite fill_full, fill_exact by lia. }
    rewrite (bool_decide_eq_true_2 (length done < nCols)%nat), andb_true_r by done.
    destruct (decide (i < length line)%nat) as [Hlt|Hge]; cycle 1.
    { rewrite bool_decide_eq_false_2 by done.
      unfold lastField. cbn [colIdx fieldStart currentRowValues]. rewrite fill_length.
      assert (i = length line) as -> by lia.
      rewrite drop_all, slice_to_end. cbn [specFieldsFrom fmap list_fmap].
      rewrite !bool_decide_eq_true_2 by lia. cbn [andb]. by apply fill_insert. }
    rewrite bool_decide_eq_true_2 by done.
    destruct (lookup_lt_is_Some_2 line i Hlt) as [b Hb].
    rewrite (bool_decide_eq_false_2 (length quotes ≤ _)%nat)
      by (specialize (Hrange i Hlt); lia).
    rewrite (Hquotes i b Hb), (Hseps i b Hb).
    rewrite (drop_S _ _ _ Hb). cbn [specFieldsFrom].
    unfold isQuoteByte, isSepByte.
    destruct (decide (b = QUOTE)) as [Hbq|Hbq].
    + rewrite !(bool_decide_eq_true_2 (b = QUOTE)) by done.
      rewrite IH by lia. by rewrite (slice_snoc _ _ _ b) by (lia || done).
    + rewrite !(bool_decide_eq_false_2 (b = QUOTE)) by done. cbn [negb andb].
      destruct (bool_decide (b = sep) && negb q) eqn:Hsplit.
      * rewrite fill_insert by done.
        replace (S (length done)) with (length (done ++ [stripQuotes (slice line f i)]))
          by (rewrite length_app; cbn; lia).
        rewrite IH by (rewrite ?length_app; cbn; lia).
        rewrite slice_empty. cbn [fmap list_fmap]. by rewrite <- app_assoc.
      * rewrite IH by lia. by rewrite (slice_snoc _ _ _ b) by (lia || done).
Qed.

(** The scanner's row values are the quote-stripped raw fields. *)
Lemma rowValues_spec :
  rowValues line lineStart quotes seps nCols =
  fill nCols (stripQuotes <$> specFields sep line).
Proof.
  pose proof (fieldLoop_spec (length line) 0 0 false []) as H.
  cbn [length app] in H. unfold fill at 1 in H. cbn [fmap list_fmap] in H.
  rewrite resize_nil, slice_empty, drop_0 in H.
  unfold rowValues. apply H; lia.
Qed.
End scanner.

Lemma extractLoop_spec (line : list byte) (sep : byte) (maxCol : Z) (n i start : nat)
    (inQuote : bool) (cols : list (list byte)) :
  sep ≠ QUOTE →
  (length line = i + n)%nat → (start ≤ i)%nat →
  Z.of_nat (length cols) < Z.max 1 (maxCol + 1) →
  extractLoop line sep maxCol i (drop i line) start inQuote cols =
  take (Z.to_nat (Z.max 1 (maxCol + 1)))
    (cols ++ (stripQuotes <$> specFieldsFrom sep (drop i line) inQuote (slice line start i))).
Proof.
  intros Hsep. revert i start inQuote cols.
  induction n as [|n IH]; intros i start inQuote cols Hlen Hstart Hcols.
  - assert (i = length line) as -> by lia.
    rewrite drop_all, slice_to_end. cbn [extractLoop specFieldsFrom fmap list_fmap].
    rewrite take_ge; [done|]. rewrite length_app. cbn. lia.
  - assert (Hlt : (i < length line)%nat) by lia.
    destruct (lookup_lt_is_Some_2 line i Hlt) as [b Hb].
    rewrite (drop_S _ _ _ Hb). cbn [extractLoop specFieldsFrom].
    destruct (decide (b = QUOTE)) as [Hbq|Hbq].
    + rewrite !(bool_decide_eq_true_2 (b = QUOTE)) by done.
      rewrite (bool_decide_eq_false_2 (b = sep)) by congruence. cbn [andb].
      rewrite IH by (lia || done). by rewrite (slice_snoc _ _ _ b) by (lia || done).
    + rewrite !(bool_decide_eq_false_2 (b = QUOTE)) by done.
      destruct (bool_decide (b = sep) && negb inQuote) eqn:Hsplit.
      * destruct (decide (maxCol <
            Z.of_nat (length (cols ++ [stripQuotes (slice line start i)])))) as [Hfull|Hfull];
          [rewrite bool_decide_eq_true_2 by done|rewrite bool_decide_eq_false_2 by done].
        -- rewrite length_app in Hfull. cbn [length] in Hfull.
           cbn [fmap list_fmap].
           rewrite (cons_middle _ cols (stripQuotes <$> _)), app_assoc.
           rewrite take_app_length'; [done|]. rewrite length_app. cbn [length]. lia.
        -- rewrite length_app in Hfull. cbn [length] in Hfull.
           rewrite IH by (rewrite ?length_app; cbn [length]; lia || done).
           rewrite slice_empty. cbn [fmap list_fmap]. by rewrite <- app_assoc.
      * rewrite IH by (lia || done). by rewrite (slice_snoc _ _ _ b) by (lia || done).
Qed.

(** [extractCols] returns the first [maxCol + 1] raw fields (at least
    one), quote-stripped. *)
Lemma extractCols_spec (line : list byte) (sep : byte) (maxCol : Z) :
  sep ≠ QUOTE →
  extractCols line sep maxCol =
  take (Z.to_nat (Z.max 1 (maxCol + 1))) (stripQuotes <$> specFields sep line).
Proof.
  intros Hsep. unfold extractCols.
  pose proof (extractLoop_spec line sep maxCol (length line) 0 0 false [] Hsep) as H.
  rewrite drop_0, slice_empty in H. apply H; cbn; lia.
Qed.

Lemma stripQuotes_quoted (inner : list byte) :
  stripQuotes ([QUOTE] ++ inner ++ [QUOTE]) = inner.
Proof.
  assert (Hlast : ([QUOTE] ++ inner ++ [QUOTE]) !! S (length inner) = Some QUOTE).
  { rewrite (lookup_app_r [QUOTE]) by (cbn; lia). cbn [length].
    replace (S (length inner) - 1)%nat with (length inner) by lia.
    by rewrite lookup_app_r, Nat.sub_diag by lia. }
  unfold stripQuotes. rewrite !length_app. cbn [length].
  replace (1 + (length inner + 1) - 1)%nat with (S (length inner)) by lia.
  rewrite Hlast.
  rewrite (bool_decide_eq_true_2 (2 ≤ _)%nat) by lia.
  rewrite !(bool_decide_eq_true_2 (_ = Some QUOTE)) by done.
  cbn [andb]. unfold slice. cbn [drop app].
  replace (S (length inner) - 1)%nat with (length inner) by lia.
  by rewrite drop_0, take_app_length.
Qed.

(** One final carriage return is cut off by the scanner and by [rowAt]
    alike. *)
Lemma TrimSuffix_CR (raw : list byte) :
  TrimSuffix raw [CR]
  = if bool_decide (0 < length raw)%nat
       && bool_decide (raw !! (length raw - 1)%nat = Some CR)
    then take (length raw - 1) raw else raw.
Proof.
  unfold TrimSuffix, HasSuffix. cbn [length].
  destruct (decide (0 < length raw)%nat) as [Hpos|Hpos]; cycle 1.
  { rewrite !(bool_decide_eq_false_2 (_ ≤ _)%nat), (bool_decide_eq_false_2 (_ < _)%nat) by lia.
    done. }
  rewrite (bool_decide_eq_true_2 (_ ≤ _)%nat), (bool_decide_eq_true_2 (_ < _)%nat) by lia.
  cbn [andb].
  destruct (lookup_lt_is_Some_2 raw (length raw - 1)%nat ltac:(lia)) as [b Hb].
  rewrite (drop_S _ _ _ Hb), drop_ge by lia. rewrite Hb.
  destruct (decide (b = CR)) as [->|Hne].
  - by rewrite !bool_decide_eq_true_2.
  - by rewrite !bool_decide_eq_false_2 by congruence.
Qed.

Lemma IndexByte_row (raw post : list byte) :
  NL ∉ raw → post = [] ∨ head post = Some NL →
  default (length (raw ++ post)) (IndexByte (raw ++ post) NL) = length raw.
Proof.
  intros Hraw Hpost. induction raw as [|x raw IH]; cbn [app IndexByte length].
  - destruct Hpost as [->|Hpost]; [done|]. destruct post as [|y post]; [done|].
    injection Hpost as ->. cbn [IndexByte]. by rewrite bool_decide_eq_true_2.
  - apply not_elem_of_cons in Hraw as [Hx Hraw]. specialize (IH Hraw).
    rewrite bool_decide_eq_false_2 by congruence.
    destruct (IndexByte (raw ++ post) NL) as [n|]; cbn in *; lia.
Qed.

(** The row that the engine reads at the offset of a record is the text
    that the scanner parsed, when the bytes of the row hold no newline and
    the end of the file or a newline follows them. *)
Lemma rowAt_lineBytes (csvData chunkData : list byte) (lineStart lineEnd : nat)
    (offset : Z) (post : list byte) :
  lineBytes chunkData lineStart lineEnd ≠ [] →
  0 <= offset →
  drop (Z.to_nat offset) csvData = slice chunkData lineStart lineEnd ++ post →
  NL ∉ slice chunkData lineStart lineEnd →
  post = [] ∨ head post = Some NL →
  rowAt csvData offset = Ok (lineBytes chunkData lineStart lineEnd).
Proof.
  unfold lineBytes. set (raw := slice chunkData lineStart lineEnd).
  intros Hne Hoff Hdrop Hraw Hpost.
  assert (Hlen : (Z.to_nat offset < length csvData)%nat).
  { destruct (decide (Z.to_nat offset < length csvData)%nat) as [|Hge]; [done|].
    rewrite drop_ge in Hdrop by lia. symmetry in Hdrop.
    apply app_eq_nil in Hdrop as [Hnil _]. rewrite Hnil in Hne. done. }
  unfold rowAt.
  destruct (Z.ltb_spec offset 0) as [|_]; [lia|].
  destruct (Z.ltb_spec (Z.of_nat (length csvData)) offset) as [|_]; [lia|].
  cbn [orb]. rewrite Hdrop, IndexByte_row by done.
  rewrite take_app_length. by rewrite TrimSuffix_CR.
Qed.

End FieldFacts.

(** ** Enclosing quotes are removed from field values *)

Module FieldClaim.
Import simd parser strings query BitmapFacts FieldFacts.

Lemma word_in_range (j n : nat) : (j < n)%nat → (j / 64 < (n + 63) / 64)%nat.
Proof.
  intros Hj. apply Nat.Div0.div_lt_upper_bound.
  pose proof (Nat.mod_upper_bound (n + 63) 64).
  pose proof (Nat.div_mod_eq (n + 63) 64). lia.
Qed.

(** A row's bytes are bytes of its chunk, from [lineStart] on. *)
Lemma lineBytes_lookup (chunkData : list byte) (lineStart lineEnd i : nat) (b : byte) :
  lineBytes chunkData lineStart lineEnd !! i = Some b →
  chunkData !! (lineStart + i)%nat = Some b.
Proof.
  unfold lineBytes, slice. intros H.
  assert (take (lineEnd - lineStart) (drop lineStart chunkData) !! i = Some b) as H'.
  { destruct (_ && _); [|done]. by apply lookup_take_Some in H as [? _]. }
  apply lookup_take_Some in H' as [H' _]. by rewrite lookup_drop in H'.
Qed.

Lemma foldl_max_ge (indices : list nat) (n : nat) :
  (n ≤ foldl (λ n idx, Nat.max n (S idx)) n indices)%nat.
Proof.
  revert n. induction indices as [|idx indices IH]; intros n; cbn [foldl]; [done|].
  etransitivity; [|apply IH]. lia.
Qed.

Lemma numCols_from_ge (indexDefs : list (list nat)) (n : nat) :
  (n ≤ foldl (λ n indices, foldl (λ n idx, Nat.max n (S idx)) n indices) n indexDefs)%nat.
Proof.
  revert n. induction indexDefs as [|d ds IH]; intros n; cbn [foldl]; [done|].
  etransitivity; [|apply IH]. apply foldl_max_ge.
Qed.

Lemma numCols_single (indexDefs : list (list nat)) (k col : nat) :
  indexDefs !! k = Some [col] → (col < numCols indexDefs)%nat.
Proof.
  unfold numCols. generalize 0%nat.
  revert k. induction indexDefs as [|d ds IH]; intros k n Hk; [done|].
  destruct k as [|k]; cbn [foldl].
  - injection Hk as ->. cbn [foldl].
    eapply Nat.lt_le_trans; [|apply numCols_from_ge]. lia.
  - by eapply IH.
Qed.

Lemma fill_lookup (nCols col : nat) (fields : list (list byte)) (x : list byte) :
  (col < nCols)%nat → fields !! col = Some x → fill nCols fields !! col = Some (Some x).
Proof.
  intros Hcol Hx. unfold fill.
  rewrite lookup_resize by (rewrite ?length_fmap; eauto using lookup_lt_Some).
  by rewrite list_lookup_fmap, Hx.
Qed.

(** A file whose only record holds a newline inside quotes (the first
    record of scenario S6), and a row with a quoted field. *)
Definition newline_in_quotes_csv : list byte :=
  bs "id,note" ++ [NL] ++
  bs "1," ++ [QUOTE] ++ bs "hello" ++ [NL] ++ bs "world" ++ [QUOTE] ++ [NL].

Definition quoted_dept_row : list byte := bs "1," ++ [QUOTE] ++ bs "Eng" ++ [QUOTE].

(** C10, as stated, fails. The second field of the record of
    [newline_in_quotes_csv] starts and ends with a quote, and the scanner's
    key for it is the inside of the quotes; but the engine reads the row of
    the record up to its first newline and splits that: the value it
    compares is the quote followed by hello. And the executor splits a
    row at every comma and removes no quote. *)
Lemma C10_quotes_are_kept :
  specFields COMMA (lineBytes newline_in_quotes_csv 8 23) !! 1%nat
    = Some ([QUOTE] ++ (bs "hello" ++ [NL] ++ bs "world") ++ [QUOTE]) ∧
  (λ row, (offset row, keys row)) <$>
    Scan (mkSIMDParser newline_in_quotes_csv COMMA 1) [[1%nat]]
    = [(8, [bs "hello" ++ [NL] ++ bs "world"])] ∧
  (row ← rowAt newline_in_quotes_csv 8; Ok (extractCols row COMMA 1))
    = Ok [bs "1"; [QUOTE] ++ bs "hello"] ∧
  executor.parseCSVLine quoted_dept_row = [bs "1"; [QUOTE] ++ bs "Eng" ++ [QUOTE]].
Proof. repeat split; by vm_compute. Qed.

(** C10, amended. A raw field (the bytes between two separators outside
    quotes) that starts and ends with a double quote yields its inside,
    without that pair of quotes: as the single-column index key that the
    scanner hands to the handler, and as the column value that
    [extractCols] returns for the text of the row. The engine applies
    [extractCols], with the comma, to the bytes of the CSV from the offset
    of the record to the first newline: it materialises the same value
    when the comma is the separator of the scan and the row holds no
    newline (inside quotes). With [inner] empty: a field of exactly two
    quote bytes yields the empty string. *)
Theorem C10_enclosing_quotes_removed (chunkData : list byte) (sep : byte)
    (lineStart lineEnd : nat) (indexDefs : list (list nat))
    (offset : Z) (workerID : nat) (lineNum : Z) (col : nat) (inner : list byte) :
  let line := lineBytes chunkData lineStart lineEnd in
  let quotesBitmap := (classify chunkData sep).1.1 in
  let sepsBitmap := (classify chunkData sep).1.2 in
  specFields sep line !! col = Some ([QUOTE] ++ inner ++ [QUOTE]) →
  (∀ k, indexDefs !! k = Some [col] →
     ∃ row, parseLineSimd line offset workerID indexDefs lineStart
              quotesBitmap sepsBitmap lineNum = [row]
            ∧ keys row !! k = Some inner) ∧
  (∀ maxCol, sep ≠ QUOTE → Z.of_nat col ≤ maxCol →
     extractCols line sep maxCol !! col = Some inner) ∧
  (∀ csvData post maxCol,
     sep = COMMA → 0 <= offset →
     drop (Z.to_nat offset) csvData = slice chunkData lineStart lineEnd ++ post →
     NL ∉ slice chunkData lineStart lineEnd → post = [] ∨ head post = Some NL →
     Z.of_nat col ≤ maxCol →
     ∃ row, rowAt csvData offset = Ok row ∧
            extractCols row COMMA maxCol !! col = Some inner).
Proof.
  intros line quotesBitmap sepsBitmap Hfield.
  assert (Hval : (stripQuotes <$> specFields sep line) !! col = Some inner).
  { rewrite list_lookup_fmap, Hfield. cbn [fmap option_fmap option_map].
    by rewrite (stripQuotes_quoted inner). }
  assert (Hne : length line ≠ 0%nat).
  { intros H0. apply nil_length_inv in H0. rewrite H0 in Hfield.
    destruct col; cbn in Hfield; [|done]. injection Hfield as Hfield.
    by destruct inner. }
  assert (Hcols : ∀ maxCol, sep ≠ QUOTE → Z.of_nat col ≤ maxCol →
            extractCols line sep maxCol !! col = Some inner).
  { intros maxCol Hsep Hcol. rewrite extractCols_spec by done.
    rewrite lookup_take_lt by lia. done. }
  split; [|split; [exact Hcols|]].
  - intros k Hk.
    destruct (classify_spec chunkData sep)
      as (quotes & seps & newlines & Hcl & Hlq & Hls & _ & Hq & Hs & _).
    subst quotesBitmap sepsBitmap. rewrite Hcl. cbn [fst snd].
    assert (Hin : ∀ i b, line !! i = Some b →
              chunkData !! (lineStart + i)%nat = Some b ∧
              ((lineStart + i) / 64 < (length chunkData + 63) / 64)%nat).
    { intros i b Hb. apply lineBytes_lookup in Hb. split; [done|].
      apply word_in_range. by eapply lookup_lt_Some. }
    unfold parseLineSimd. rewrite bool_decide_eq_false_2 by done.
    eexists. split; [done|]. cbn [keys].
    rewrite list_lookup_fmap, Hk. cbn [fmap option_fmap option_map keyOf].
    rewrite (rowValues_spec sep).
    + by rewrite (fill_lookup _ _ _ inner) by eauto using numCols_single.
    + intros i Hi. destruct (lookup_lt_is_Some_2 line i Hi) as [b Hb].
      rewrite Hlq. by apply (Hin i b).
    + intros i b Hb. destruct (Hin i b Hb) as [Hc Hr].
      rewrite Hq by (by rewrite Hlq). rewrite Hc. cbn.
      rewrite bool_decide_eq_true_2; [done|]. by eapply lookup_lt_Some.
    + intros i b Hb. destruct (Hin i b Hb) as [Hc Hr].
      rewrite Hs by (by rewrite Hls). rewrite Hc. cbn.
      rewrite bool_decide_eq_true_2; [done|]. by eapply lookup_lt_Some.
  - intros csvData post maxCol Hsep Hoff Hdrop Hraw Hpost Hcol.
    exists line. split.
    + apply (rowAt_lineBytes csvData chunkData lineStart lineEnd offset post);
        try done. intros Hnil. fold line in Hnil. by rewrite Hnil in Hne.
    + rewrite <- Hsep. apply Hcols; [by rewrite Hsep|done].
Qed.

(** A one-row chunk whose second field is two quote bytes: the value of
    the field is empty. *)
Definition empty_quoted_chunk : list byte := bs "1," ++ [QUOTE; QUOTE] ++ [NL].

Lemma C10_enclosing_quotes_removed_witness :
  (∃ row, parseLineSimd (lineBytes empty_quoted_chunk 0 4) 8 0 [[1%nat]] 0
            (classify empty_quoted_chunk COMMA).1.1
            (classify empty_quoted_chunk COMMA).1.2 2 = [row]
          ∧ keys row !! 0%nat = Some []) ∧
  extractCols (lineBytes empty_quoted_chunk 0 4) COMMA 1 !! 1%nat = Some [] ∧
  (∃ row, rowAt (bs "id,note" ++ [NL] ++ empty_quoted_chunk) 8 = Ok row ∧
          extractCols row COMMA 1 !! 1%nat = Some []).
Proof.
  destruct (C10_enclosing_quotes_removed empty_quoted_chunk COMMA 0 4 [[1%nat]]
              8 0%nat 2 1 [] eq_refl) as (Hscan & Hcols & Hengine).
  split; [|split].
  - apply (Hscan 0%nat). reflexivity.
  - apply Hcols; [discriminate|lia].
  - apply (Hengine (bs "id,note" ++ [NL] ++ empty_quoted_chunk) [NL] 1).
    + reflexivity.
    + lia.
    + reflexivity.
    + vm_compute. intros H. repeat (apply elem_of_cons in H as [H|H]; [discriminate|]).
      by apply elem_of_nil in H.
    + by right.
    + lia.
Defined.

End FieldClaim.

(** ** The planner: overrides, the sidecar file and the choice of index *)

Module PlannerClaims.
Import index parser strings query BlockFacts BloomFacts Reference.

(** The CSV of scenarios S1 and S2. *)
Definition sample_csv : list byte :=
  bs "id,name,dept" ++ [NL] ++
  bs "1,Alice,Eng" ++ [NL] ++
  bs "2,Bob,Sales" ++ [NL] ++
  bs "3,Carol,Eng" ++ [NL] ++
  bs "4,Dave,Eng" ++ [NL].

(** The build of S2: one composite index on dept and name, no bloom
    filter. *)
Definition build_config (workers : nat) : manager.IndexerConfig :=
  {| manager.InputFile := bs "data/people.csv";
     manager.colDefs := [[bs "dept"; bs "name"]];
     manager.Separator := COMMA;
     manager.Workers := workers;
     manager.MemoryMB := 64;
     manager.BloomFPRate := None |}.

Definition built_files (workers : nat) : gmap (list byte) (list byte) :=
  match manager.Run (build_config workers) sample_csv 4 with
  | Ok files => files
  | _ => ∅
  end.

Definition sample_env (workers : nat) (csv : list byte) (sc : Sidecar) : Env :=
  {| csvFile := Some csv; sidecar := sc; indexFiles := built_files workers;
     getHeaderMap := Ok (manager.headerMapOf [bs "id"; bs "name"; bs "dept"], []);
     numCPU := 4 |}.

Definition count_config : QueryConfig :=
  {| CsvPath := bs "data/people.csv"; IndexDir := bs "idx"; GroupBy := []; AggCol := [];
     AggFunc := []; CountOnly := true; Limit := 0; Offset := 0; Explain := false |}.

(** The condition of S2, for the two orders in which the JSON object can
    be iterated over. *)
Definition where_dept_name : Condition :=
  parseSimpleMap [(bs "dept", bs "Eng"); (bs "name", bs "Carol")].
Definition where_name_dept : Condition :=
  parseSimpleMap [(bs "name", bs "Carol"); (bs "dept", bs "Eng")].

(** What a query prints when it goes through an index. *)
Definition indexed_output (q : QueryEngine) (env : Env) (where_ : option Condition)
  : option (list byte * result (list OutLine)) :=
  match Run q env where_ with
  | CallStandardOutput br searchKey hasSearchKey startBlockIdx endBlockIdx where' =>
      Some (searchKey,
            runStandardOutput q env br searchKey hasSearchKey startBlockIdx
              endBlockIdx where')
  | _ => None
  end.

(** *** C7 *)

(** The override of S4: row 3 gets another department. *)
Definition sample_overrides : gmap (list byte) (gmap (list byte) (list byte)) :=
  {[ bs "3" := {[ bs "dept" := bs "Ops" ]} ]}.

(** The index was built before a fifth row was appended to the CSV. *)
Definition grown_csv : list byte := sample_csv ++ bs "5,Erin,Ops" ++ [NL].

Definition stale_env : Env := sample_env 1 grown_csv (Parsed sample_overrides).
Definition stale_engine : QueryEngine := NewQueryEngine count_config stale_env.

(** The executor with the same overrides as an engine. *)
Definition executor_of (q : QueryEngine) : executor.Executor :=
  {| executor.IndexDir := IndexDir (config q); executor.Updates := Updates q |}.

Definition override_env : Env := sample_env 1 sample_csv (Parsed sample_overrides).
Definition override_engine : QueryEngine := NewQueryEngine count_config override_env.

(** C7, as stated, fails: a count of all rows is answered by CountAll even
    when there are overrides, in both planners, and CountAll takes the count
    from the directory of an index file (4, from the index built earlier)
    rather than from the CSV (5 rows). *)
Lemma C7_count_all_reads_index_despite_overrides :
  hasOverrides (Updates stale_engine) = true ∧
  Run stale_engine stale_env None = CallCountAll ∧
  executor.ExecuteWithCondition (executor_of stale_engine) count_config
    (indexFiles stale_env) None = executor.CallCountAll ∧
  runCountAll stale_engine stale_env = Ok [OutCount 4] ∧
  runCountAllViaCsv stale_env = Ok [OutCount 5].
Proof. repeat split; by vm_compute. Qed.

(** C7, amended. With a non-empty override map every query that has a
    condition or a grouping is run as a full scan by the query engine, and
    every query other than a count of all rows by the executor, whatever
    index files exist. (A count of all rows, that is count_only with neither
    condition nor grouping, is run by CountAll.) *)
Theorem C7_overrides_force_full_scan `{Json} `{Crc32}
    (q : QueryEngine) (e : executor.Executor) (req : QueryConfig) (env : Env)
    (files : gmap (list byte) (list byte)) (where_ : option Condition) :
  hasOverrides (Updates q) = true →
  hasOverrides (executor.Updates e) = true →
  (CsvPath (config q) ≠ [] → where_ ≠ None ∨ GroupBy (config q) ≠ [] →
   Run q env where_ = CallFullScan where_) ∧
  (CsvPath req ≠ [] →
   ¬ (CountOnly req = true ∧ where_ = None ∧ GroupBy req = []) →
   executor.ExecuteWithCondition e req files where_ = executor.CallFullScan where_).
Proof.
  intros Hq He. split.
  - intros Hcsv Hquery. unfold Run.
    rewrite (bool_decide_eq_false_2 (CsvPath _ = [])) by done.
    rewrite Hq.
    destruct Hquery as [Hw|Hg].
    + rewrite (bool_decide_eq_false_2 (where_ = None)) by done.
      by rewrite !andb_false_r.
    + rewrite (bool_decide_eq_false_2 (GroupBy _ = [])) by done.
      by rewrite !andb_false_r.
  - intros Hcsv Hquery. unfold executor.ExecuteWithCondition.
    rewrite (bool_decide_eq_false_2 (CsvPath _ = [])) by done.
    rewrite He.
    destruct (CountOnly req) eqn:Hc; [|done].
    destruct (decide (where_ = None)) as [Hw|Hw].
    + rewrite (bool_decide_eq_true_2 (where_ = None)) by done.
      rewrite (bool_decide_eq_false_2 (GroupBy _ = [])); [done|].
      intros Hg. by apply Hquery.
    + by rewrite (bool_decide_eq_false_2 (where_ = None)) by done.
Qed.

Lemma C7_overrides_force_full_scan_witness :
  Run override_engine override_env (Some where_dept_name)
  = CallFullScan (Some where_dept_name) ∧
  executor.ExecuteWithCondition (executor_of override_engine) count_config
    (indexFiles override_env) (Some where_dept_name)
  = executor.CallFullScan (Some where_dept_name).
Proof.
  destruct (C7_overrides_force_full_scan override_engine (executor_of override_engine)
              count_config override_env (indexFiles override_env)
              (Some where_dept_name))
    as [Hrun Hexec]; [by vm_compute..|].
  split.
  - apply Hrun; [discriminate|by left].
  - apply Hexec; [discriminate|]. intros (_ & Hw & _). discriminate.
Defined.

(** *** C9 *)

(** The environment with the sidecar file removed. *)
Definition without_sidecar (env : Env) : Env :=
  {| csvFile := csvFile env; sidecar := Absent; indexFiles := indexFiles env;
     getHeaderMap := getHeaderMap env; numCPU := numCPU env |}.

Definition malformed_env : Env := sample_env 1 sample_csv Malformed.

(** C9, as stated, fails: with a malformed sidecar the query of S2 does not
    fail; it prints the count 1 through the index, as it does without the
    file. *)
Lemma C9_malformed_sidecar_query_succeeds :
  LoadUpdates (sidecar malformed_env) = Err ∧
  Updates (NewQueryEngine count_config malformed_env) = None ∧
  (snd <$> indexed_output (NewQueryEngine count_config malformed_env) malformed_env
             (Some where_dept_name))
  = Some (Ok [OutCount 1]).
Proof. repeat split; by vm_compute. Qed.

(** Two engines with the same configuration, of which neither has a row
    to override, on two environments with the same CSV and the same
    headers. *)
Section same_engine.
Context `{Lz4}.
Variables (q q' : QueryEngine) (env env' : Env).
Hypothesis Hconfig : config q = config q'.
Hypothesis Hcsv : csvFile env = csvFile env'.
Hypothesis Hheaders : getHeaderMap env = getHeaderMap env'.
Hypothesis Hnone : hasOverrides (Updates q) = false.
Hypothesis Hnone' : hasOverrides (Updates q') = false.

Lemma scanCols_same headers virtualDefaults maxCol lineNum line :
  scanCols q headers virtualDefaults maxCol lineNum line
  = scanCols q' headers virtualDefaults maxCol lineNum line.
Proof.
  assert (Hcols : ∀ e, hasOverrides (Updates e) = false →
            scanCols e headers virtualDefaults maxCol lineNum line
            = extractCols (TrimSpace line) COMMA maxCol ++ virtualDefaults).
  { intros e He. unfold scanCols, hasOverrides in *.
    destruct (Updates e) as [um|]; [|done].
    apply bool_decide_eq_false in He. apply dec_stable in He.
    by rewrite He, lookup_empty. }
  by rewrite !Hcols.
Qed.

Lemma fullScanLoop_same headers virtualDefaults where_ maxCol (fuel : nat) :
  ∀ rest lineNum currentOffset count skipped written,
  fullScanLoop q headers virtualDefaults where_ maxCol fuel rest lineNum currentOffset
    count skipped written
  = fullScanLoop q' headers virtualDefaults where_ maxCol fuel rest lineNum currentOffset
      count skipped written.
Proof.
  induction fuel as [|fuel IH]; intros rest lineNum currentOffset count skipped written;
    cbn [fullScanLoop]; [done|].
  destruct (ReadBytes rest) as [[line rest']|]; [|done].
  unfold scanPasses. rewrite scanCols_same, Hconfig.
  destruct (negb _); [apply IH|].
  destruct (_ <? _); [apply IH|].
  destruct (_ && _); [done|apply IH].
Qed.

Lemma runFullScan_same where_ : runFullScan q env where_ = runFullScan q' env' where_.
Proof.
  unfold runFullScan. rewrite Hcsv, Hheaders.
  destruct (csvFile env') as [data|]; [|done].
  destruct (getHeaderMap env') as [[headers virtualDefaults]| | |]; try done.
  cbn [mbind result_bind]. destruct (IndexByte data NL) as [n|]; [|done].
  by rewrite fullScanLoop_same, Hconfig.
Qed.

Lemma recordLoop_same headers virtualDefaults searchKey hasSearchKey where_ records :
  ∀ st,
  recordLoop q env headers virtualDefaults searchKey hasSearchKey where_ records st
  = recordLoop q' env' headers virtualDefaults searchKey hasSearchKey where_ records st.
Proof.
  induction records as [|rec records IH]; intros st; cbn [recordLoop]; [done|].
  destruct (hasSearchKey && _); [apply IH|].
  destruct (hasSearchKey && _); [done|].
  unfold rowPasses. rewrite Hconfig, Hcsv.
  destruct (if _ || _ then _ else _) as [passes| | |]; try done.
  cbn [mbind result_bind].
  destruct (negb passes); [apply IH|].
  destruct (_ <? _); [apply IH|].
  destruct (_ && _); [done|apply IH].
Qed.

Lemma blockLoop_same headers virtualDefaults br searchKey hasSearchKey where_ endBlockIdx
    (todo : nat) : ∀ i st,
  blockLoop q env headers virtualDefaults br searchKey hasSearchKey where_ endBlockIdx
    todo i st
  = blockLoop q' env' headers virtualDefaults br searchKey hasSearchKey where_ endBlockIdx
      todo i st.
Proof.
  induction todo as [|todo IH]; intros i st; cbn [blockLoop]; [done|].
  destruct (endBlockIdx <? i); [done|]. destruct (limitReached st); [done|].
  destruct (i <? 0); [done|].
  destruct (Blocks (Footer br) !! Z.to_nat i) as [blockMeta|]; [|done].
  destruct (hasSearchKey && _); [done|].
  destruct (ReadBlock br blockMeta) as [records| | |]; try done.
  cbn [mbind result_bind]. rewrite recordLoop_same.
  destruct (recordLoop q' _ _ _ _ _ _ _ _) as [st'| | |]; try done.
  cbn [mbind result_bind]. apply IH.
Qed.

Lemma runStandardOutput_same br searchKey hasSearchKey startBlockIdx endBlockIdx where_ :
  runStandardOutput q env br searchKey hasSearchKey startBlockIdx endBlockIdx where_
  = runStandardOutput q' env' br searchKey hasSearchKey startBlockIdx endBlockIdx where_.
Proof.
  unfold runStandardOutput. rewrite Hheaders.
  destruct (getHeaderMap env') as [[headers virtualDefaults]| | |]; try done.
  cbn [mbind result_bind]. by rewrite blockLoop_same, Hconfig.
Qed.

End same_engine.
(** C9, amended. A missing sidecar is benign: the engine gets an empty
    override map. A sidecar that is malformed or cannot be read makes
    [LoadUpdates] fail, but [NewQueryEngine] drops the error and the engine
    has no overrides: the query does not fail on that account. [Run] ends
    as it does when the file is missing (with the same method called on the
    same arguments), and the count of all rows, the full scan and the
    output through an index print what they print when the file is
    missing. *)
Theorem C9_sidecar_error_is_dropped `{Lz4} `{Json} `{Crc32}
    (cfg : QueryConfig) (env : Env) (where_ : option Condition) :
  sidecar env = Malformed ∨ sidecar env = Unreadable →
  LoadUpdates (sidecar (without_sidecar env)) = Ok {| Overrides := ∅ |} ∧
  LoadUpdates (sidecar env) = Err ∧
  Updates (NewQueryEngine cfg env) = None ∧
  Run (NewQueryEngine cfg env) env where_ =
    Run (NewQueryEngine cfg (without_sidecar env)) (without_sidecar env) where_ ∧
  runCountAll (NewQueryEngine cfg env) env =
    runCountAll (NewQueryEngine cfg (without_sidecar env)) (without_sidecar env) ∧
  (∀ where', runFullScan (NewQueryEngine cfg env) env where' =
     runFullScan (NewQueryEngine cfg (without_sidecar env)) (without_sidecar env) where') ∧
  (∀ br searchKey hasSearchKey startBlockIdx endBlockIdx where',
     runStandardOutput (NewQueryEngine cfg env) env br searchKey hasSearchKey
       startBlockIdx endBlockIdx where' =
     runStandardOutput (NewQueryEngine cfg (without_sidecar env)) (without_sidecar env)
       br searchKey hasSearchKey startBlockIdx endBlockIdx where').
Proof.
  intros Hsc. split; [done|].
  assert (Hload : LoadUpdates (sidecar env) = Err) by (by destruct Hsc as [-> | ->]).
  split; [done|].
  assert (Hup : Updates (NewQueryEngine cfg env) = None).
  { unfold NewQueryEngine. cbn [Updates]. rewrite Hload. by case_bool_decide. }
  split; [done|].
  assert (Hnone : hasOverrides (Updates (NewQueryEngine cfg env)) = false)
    by (by rewrite Hup).
  assert (Hnone' : hasOverrides (Updates (NewQueryEngine cfg (without_sidecar env))) = false).
  { cbn. case_bool_decide; [|done]. cbn. by rewrite bool_decide_eq_false_2 by (by intros []). }
  split; [|split; [done|split]].
  - unfold Run. rewrite Hnone, Hnone'. done.
  - intros where'. by apply runFullScan_same.
  - intros br searchKey hasSearchKey startBlockIdx endBlockIdx where'.
    by apply runStandardOutput_same.
Qed.

Lemma C9_sidecar_error_is_dropped_witness :
  LoadUpdates (sidecar (without_sidecar malformed_env)) = Ok {| Overrides := ∅ |} ∧
  LoadUpdates (sidecar malformed_env) = Err ∧
  Updates (NewQueryEngine count_config malformed_env) = None ∧
  Run (NewQueryEngine count_config malformed_env) malformed_env (Some where_dept_name) =
    Run (NewQueryEngine count_config (without_sidecar malformed_env))
      (without_sidecar malformed_env) (Some where_dept_name) ∧
  runCountAll (NewQueryEngine count_config malformed_env) malformed_env =
    runCountAll (NewQueryEngine count_config (without_sidecar malformed_env))
      (without_sidecar malformed_env) ∧
  (∀ where', runFullScan (NewQueryEngine count_config malformed_env) malformed_env where' =
     runFullScan (NewQueryEngine count_config (without_sidecar malformed_env))
       (without_sidecar malformed_env) where') ∧
  (∀ br searchKey hasSearchKey startBlockIdx endBlockIdx where',
     runStandardOutput (NewQueryEngine count_config malformed_env) malformed_env br
       searchKey hasSearchKey startBlockIdx endBlockIdx where' =
     runStandardOutput (NewQueryEngine count_config (without_sidecar malformed_env))
       (without_sidecar malformed_env) br searchKey hasSearchKey startBlockIdx
       endBlockIdx where').
Proof.
  apply (C9_sidecar_error_is_dropped count_config malformed_env). left. reflexivity.
Defined.

(** *** C8 *)

Definition key_by_column : list byte :=
  bs "[" ++ [QUOTE] ++ bs "Eng" ++ [QUOTE] ++ bs "," ++ [QUOTE] ++ bs "Carol" ++ [QUOTE]
  ++ bs "]".
Definition key_by_value : list byte :=
  bs "[" ++ [QUOTE] ++ bs "Carol" ++ [QUOTE] ++ bs "," ++ [QUOTE] ++ bs "Eng" ++ [QUOTE]
  ++ bs "]".

Definition plain_env : Env := sample_env 1 sample_csv Absent.
Definition plain_engine : QueryEngine := NewQueryEngine count_config plain_env.

(** C8, as stated, fails: the key with which the index is probed is not
    ["Carol","Eng"], and that key matches no record of the index. *)
Lemma C8_search_key_is_not_sorted_values :
  (fst <$> indexed_output plain_engine plain_env (Some where_dept_name))
  ≠ Some key_by_value ∧
  match indexFiles plain_env !! bs "people_dept_name.cidx" with
  | Some file =>
      match NewBlockReader file with
      | Ok br =>
          runStandardOutput plain_engine plain_env br key_by_value true 0 0 None
          = Ok [OutCount 0]
      | _ => False
      end
  | None => False
  end.
Proof. split; by vm_compute. Qed.

(** C8, amended. For the S1/S2 file with the composite index on dept and
    name, built with one to four workers, the query dept = Eng and
    name = Carol (its JSON object iterated in either order) goes through the
    index people_dept_name.cidx with the search key ["Eng","Carol"], the
    values in the alphabetical order of their column names, and prints the
    count 1. *)
Theorem C8_composite_key_in_column_order :
  Forall (λ workers,
    let env := sample_env workers sample_csv Absent in
    let q := NewQueryEngine count_config env in
    Forall (λ c,
      (fst <$> findBestIndex (CsvPath count_config) [] (indexFiles env) (Some c))
        = Some (bs "people_dept_name.cidx", key_by_column, true) ∧
      indexed_output q env (Some c) = Some (key_by_column, Ok [OutCount 1]))
    [where_dept_name; where_name_dept])
  [1; 2; 3; 4]%nat.
Proof. repeat constructor; by vm_compute. Qed.

End PlannerClaims.


(** ** Bitmap words: the loop over the set bits *)

Module WordFacts.
Import simd parser BitmapFacts.

(** A bitmap word is a [uint64]. *)
Definition word_ok (w : Z) : Prop :=
  0 ≤ w ∧ ∀ j, 64 ≤ j → Z.testbit w j = false.

(** The positions of the set bits of a word, lowest first. *)
Definition setBits (c : Z) : list nat :=
  filter (λ j, Z.testbit c (Z.of_nat j) = true) (seq 0 64).

Lemma ctz_spec (p : positive) :
  Z.testbit (Z.pos p) (Z.of_nat (ctz p)) = true ∧
  ∀ j, (j < ctz p)%nat → Z.testbit (Z.pos p) (Z.of_nat j) = false.
Proof.
  induction p as [p IH|p IH|]; cbn [ctz].
  - split; [|intros j Hj; lia]. rewrite Pos2Z.inj_xI. apply Z.testbit_odd_0.
  - destruct IH as [IH1 IH2]. rewrite Pos2Z.inj_xO. split.
    + rewrite Nat2Z.inj_succ. rewrite Z.testbit_even_succ by lia. done.
    + intros [|j] Hj.
      * apply Z.testbit_even_0.
      * rewrite Nat2Z.inj_succ, Z.testbit_even_succ by lia. apply IH2. lia.
  - split; [done|intros j Hj; lia].
Qed.

Lemma TrailingZeros64_spec (c : Z) :
  word_ok c → c ≠ 0 →
  (TrailingZeros64 c < 64)%nat ∧
  Z.testbit c (Z.of_nat (TrailingZeros64 c)) = true ∧
  ∀ j, (j < TrailingZeros64 c)%nat → Z.testbit c (Z.of_nat j) = false.
Proof.
  intros [Hnn Hhi] Hc. destruct c as [|p|p]; [done| |lia].
  cbn [TrailingZeros64]. destruct (ctz_spec p) as [H1 H2].
  split; [|done].
  destruct (decide (ctz p < 64)%nat); [done|].
  rewrite Hhi in H1 by lia. done.
Qed.

Lemma word_ok_0 : word_ok 0.
Proof. split; [done|]. intros. apply Z.bits_0. Qed.

Lemma word_ok_1 : word_ok 1.
Proof.
  split; [done|]. intros j Hj. apply (Z.bits_above_log2 1); [lia|].
  change (Z.log2 1) with 0. lia.
Qed.

Lemma word_ok_lor (a b : Z) : word_ok a → word_ok b → word_ok (Z.lor a b).
Proof.
  intros [Ha1 Ha2] [Hb1 Hb2]. split.
  - by apply Z.lor_nonneg.
  - intros j Hj. by rewrite Z.lor_spec, Ha2, Hb2.
Qed.

Lemma word_ok_bit (k : nat) : (k < 64)%nat → word_ok (Z.shiftl 1 (Z.of_nat k)).
Proof.
  intros Hk. split.
  - apply Z.shiftl_nonneg. lia.
  - intros j Hj. rewrite Z.shiftl_spec by lia.
    apply (Z.bits_above_log2 1); [lia|]. change (Z.log2 1) with 0. lia.
Qed.

Lemma word_ok_ldiff (a b : Z) : word_ok a → 0 ≤ b → word_ok (Z.ldiff a b).
Proof.
  intros [Ha1 Ha2] Hb. split.
  - apply Z.ldiff_nonneg. by left.
  - intros j Hj. by rewrite Z.ldiff_spec, Ha2.
Qed.

Lemma testbit_bit (k j : nat) :
  Z.testbit (Z.shiftl 1 (Z.of_nat k)) (Z.of_nat j) = bool_decide (j = k).
Proof.
  rewrite Z.shiftl_spec by lia.
  destruct (decide (j = k)) as [->|Hne].
  - rewrite Z.sub_diag, bool_decide_eq_true_2 by done. done.
  - rewrite bool_decide_eq_false_2 by done.
    destruct (decide (j < k)%nat).
    + apply Z.testbit_neg_r. lia.
    + apply (Z.bits_above_log2 1); [lia|]. change (Z.log2 1) with 0. lia.
Qed.

Lemma markBit_words (bitmap : list Z) (i : nat) :
  Forall word_ok bitmap → Forall word_ok (markBit bitmap i).
Proof.
  intros H. unfold markBit.
  destruct (decide (i / 64 < length bitmap)%nat) as [Hi|Hi].
  - apply Forall_insert; [done|]. apply word_ok_lor.
    + apply (Forall_lookup_total_1 _ _ _ H Hi).
    + apply word_ok_bit. apply Nat.mod_upper_bound. done.
  - rewrite list_insert_ge by lia. done.
Qed.

Lemma scanFrom_words (sep : byte) (input : list byte) (i : nat)
    (quotes seps newlines : list Z) :
  Forall word_ok quotes → Forall word_ok seps → Forall word_ok newlines →
  let '(q, s, n) := scanFrom input sep i quotes seps newlines in
  Forall word_ok q ∧ Forall word_ok s ∧ Forall word_ok n.
Proof.
  revert i quotes seps newlines.
  induction input as [|b input IH]; intros i quotes seps newlines Hq Hs Hn; [done|].
  cbn [scanFrom]. repeat case_bool_decide; apply IH; auto using markBit_words.
Qed.

Lemma classify_words (chunkData : list byte) (sep : byte) :
  let '(q, s, n) := classify chunkData sep in
  Forall word_ok q ∧ Forall word_ok s ∧ Forall word_ok n.
Proof.
  assert (Hz : ∀ n, Forall word_ok (replicate n 0)).
  { intros n. apply Forall_replicate. apply word_ok_0. }
  unfold classify, Scan, ScanWithSeparator.
  case_bool_decide; apply scanFrom_words; apply Hz.
Qed.

Lemma filter_none {A} (P : A → Prop) `{∀ x, Decision (P x)} (l : list A) :
  (∀ x, x ∈ l → ¬ P x) → filter P l = [].
Proof.
  induction l as [|x l IH]; intros Hl; [done|].
  rewrite filter_cons_False by (apply Hl; by left).
  apply IH. intros y Hy. apply Hl. by right.
Qed.

Lemma filter_agree {A} (P Q : A → Prop) `{∀ x, Decision (P x)} `{∀ x, Decision (Q x)}
    (l : list A) :
  (∀ x, x ∈ l → (P x ↔ Q x)) → filter P l = filter Q l.
Proof.
  induction l as [|x l IH]; intros Hl; [done|].
  assert (Hx : P x ↔ Q x) by (apply Hl; by left).
  assert (Hr : filter P l = filter Q l) by (apply IH; intros y Hy; apply Hl; by right).
  destruct (decide (P x)) as [HP|HP].
  - rewrite !filter_cons_True by tauto. by rewrite Hr.
  - rewrite !filter_cons_False by tauto. done.
Qed.

(** Folding over the elements that pass a test is folding over all, when
    the others change nothing. *)
Lemma foldl_filter_noop {A S} (f : S → A → S) (P : A → Prop) `{∀ x, Decision (P x)}
    (l : list A) (st : S) :
  (∀ st x, x ∈ l → ¬ P x → f st x = st) →
  foldl f st (filter P l) = foldl f st l.
Proof.
  revert st. induction l as [|x l IH]; intros st Hl; [done|].
  assert (Hr : ∀ st, foldl f st (filter P l) = foldl f st l).
  { intros st'. apply IH. intros st'' y Hy. apply Hl. by right. }
  destruct (decide (P x)) as [HP|HP].
  - rewrite filter_cons_True by done. cbn [foldl]. apply Hr.
  - rewrite filter_cons_False by done. cbn [foldl].
    rewrite (Hl st x) by (done || by left). apply Hr.
Qed.

Lemma setBits_0 : setBits 0 = [].
Proof.
  unfold setBits. apply filter_none. intros j _. by rewrite Z.bits_0.
Qed.

Lemma setBits_length (c : Z) : (length (setBits c) ≤ 64)%nat.
Proof.
  unfold setBits. etransitivity; [apply length_filter|]. by rewrite length_seq.
Qed.

Lemma elem_of_setBits (c : Z) (j : nat) :
  j ∈ setBits c ↔ (j < 64)%nat ∧ Z.testbit c (Z.of_nat j) = true.
Proof.
  unfold setBits. rewrite list_elem_of_filter, elem_of_seq. split; intros []; split; (done || lia).
Qed.

(** One iteration of a loop over the set bits: the lowest set bit is at
    [TrailingZeros64 c], and clearing it leaves the other set bits. *)
Lemma setBits_step (c : Z) :
  word_ok c → c ≠ 0 →
  setBits c =
  TrailingZeros64 c :: setBits (Z.ldiff c (Z.shiftl 1 (Z.of_nat (TrailingZeros64 c)))).
Proof.
  intros Hok Hc. destruct (TrailingZeros64_spec c Hok Hc) as (Hlt & Hset & Hlow).
  set (tz := TrailingZeros64 c) in *.
  assert (Hbit : ∀ j, Z.testbit (Z.ldiff c (Z.shiftl 1 (Z.of_nat tz))) (Z.of_nat j)
                      = Z.testbit c (Z.of_nat j) && negb (bool_decide (j = tz))).
  { intros j. by rewrite Z.ldiff_spec, testbit_bit. }
  unfold setBits.
  replace 64%nat with (tz + (1 + (63 - tz)))%nat by lia.
  rewrite !seq_app, !filter_app. cbn [seq].
  rewrite (filter_none _ (seq 0 tz)); cycle 1.
  { intros j [_ Hj]%elem_of_seq. rewrite Hlow by lia. done. }
  rewrite (filter_none _ (seq 0 tz)); cycle 1.
  { intros j [_ Hj]%elem_of_seq. rewrite Hbit, Hlow by lia. done. }
  rewrite Nat.add_0_l. rewrite filter_cons_True by done.
  rewrite (filter_cons_False _ tz); cycle 1.
  { rewrite Hbit, bool_decide_eq_true_2 by done. rewrite andb_false_r. done. }
  cbn [app]. f_equal. apply filter_agree.
  intros j [Hj _]%elem_of_seq. rewrite Hbit.
  rewrite bool_decide_eq_false_2 by lia. by rewrite andb_true_r.
Qed.

End WordFacts.

(** ** [processChunk] and [countChunkLines], byte by byte *)

Module ChunkFacts.
Import simd parser BitmapFacts WordFacts.

Lemma word_pos (w j : nat) :
  (j < 64)%nat → ((w * 64 + j) / 64 = w)%nat ∧ ((w * 64 + j) mod 64 = j)%nat.
Proof.
  intros Hj. split.
  - rewrite Nat.div_add_l by lia. rewrite Nat.div_small by lia. lia.
  - rewrite Nat.add_comm, Nat.Div0.mod_add. by apply Nat.mod_small.
Qed.

Lemma foldl_noop {A S} (f : S → A → S) (l : list A) (st : S) :
  (∀ st x, x ∈ l → f st x = st) → foldl f st l = st.
Proof.
  revert st. induction l as [|x l IH]; intros st Hl; [done|].
  cbn [foldl]. rewrite (Hl st x) by (by left). apply IH.
  intros st' y Hy. apply Hl. by right.
Qed.

Section chunk.
Variables (chunkData : list byte) (start workerID : nat) (indexDefs : list (list nat)).
Variables (sep : byte) (quotesBitmap sepsBitmap newlinesBitmap : list Z).
Hypothesis Hsep : sep ≠ NL.
Hypothesis Hlenq : length quotesBitmap = ((length chunkData + 63) / 64)%nat.
Hypothesis Hlenn : length newlinesBitmap = ((length chunkData + 63) / 64)%nat.
Hypothesis Hq : marks chunkData isQuoteByte (length chunkData) quotesBitmap.
Hypothesis Hn : marks chunkData (isNewlineByte sep) (length chunkData) newlinesBitmap.
Hypothesis Hwq : Forall word_ok quotesBitmap.
Hypothesis Hwn : Forall word_ok newlinesBitmap.

(** The two state changes of the main loop. *)
Definition toggled (st : chunkState) : chunkState :=
  {| lineStart := lineStart st; inQuote := negb (inQuote st);
     currentLine := currentLine st; emitted := emitted st |}.

Definition lineEnded (pos : nat) (st : chunkState) : chunkState :=
  let st1 := emitLine chunkData start workerID indexDefs quotesBitmap sepsBitmap pos st in
  {| lineStart := S pos; inQuote := inQuote st1;
     currentLine := currentLine st1; emitted := emitted st1 |}.

(** What the loop does for the byte at [pos]. *)
Definition posStep (st : chunkState) (pos : nat) : chunkState :=
  match chunkData !! pos with
  | None => st
  | Some b =>
      if bool_decide (b = QUOTE) then toggled st
      else if bool_decide (b = NL) && negb (inQuote st) then lineEnded pos st
      else st
  end.

(** What the loop does for the set bit [tz] of word [wordIdx]. *)
Definition bitStep (wordIdx : nat) (quoteMask newlineMask : Z) (st : chunkState)
    (tz : nat) : chunkState :=
  let bitMask := Z.shiftl 1 (Z.of_nat tz) in
  if negb (Z.land quoteMask bitMask =? 0) then toggled st
  else if negb (Z.land newlineMask bitMask =? 0) && negb (inQuote st)
       then lineEnded (wordIdx * 64 + tz) st
       else st.

Lemma bitLoop_setBits (wordIdx : nat) (quoteMask newlineMask : Z) (fuel : nat) :
  ∀ (combined : Z) (st : chunkState),
  word_ok combined → (length (setBits combined) ≤ fuel)%nat →
  (∀ j, j ∈ setBits combined → (wordIdx * 64 + j < length chunkData)%nat) →
  bitLoop fuel chunkData start workerID indexDefs quotesBitmap sepsBitmap
    wordIdx quoteMask newlineMask combined st
  = foldl (bitStep wordIdx quoteMask newlineMask) st (setBits combined).
Proof.
  induction fuel as [|fuel IH]; intros combined st Hok Hfuel Hrange.
  - destruct (setBits combined); [done|cbn in Hfuel; lia].
  - cbn [bitLoop]. destruct (combined =? 0) eqn:Hc.
    + apply Z.eqb_eq in Hc as ->. by rewrite setBits_0.
    + apply Z.eqb_neq in Hc. rewrite (setBits_step combined Hok Hc) in *.
      cbn [foldl length] in *.
      assert (Hin : (wordIdx * 64 + TrailingZeros64 combined < length chunkData)%nat)
        by (apply Hrange; by left).
      rewrite bool_decide_eq_false_2 by lia.
      assert (Hok' : word_ok (Z.ldiff combined
                        (Z.shiftl 1 (Z.of_nat (TrailingZeros64 combined))))).
      { apply word_ok_ldiff; [done|]. apply Z.shiftl_nonneg. lia. }
      unfold bitStep at 2. cbn zeta.
      destruct (negb (Z.land quoteMask _ =? 0)).
      * apply IH; [done|lia|]. intros j Hj. apply Hrange. by right.
      * destruct (negb (Z.land newlineMask _ =? 0) && negb (inQuote st)).
        -- apply IH; [done|lia|]. intros j Hj. apply Hrange. by right.
        -- apply IH; [done|lia|]. intros j Hj. apply Hrange. by right.
Qed.

(** The masks of a word say what the bytes of its 64 positions are. *)
Lemma mask_bits (wordIdx j : nat) :
  (wordIdx < (length chunkData + 63) / 64)%nat → (j < 64)%nat →
  negb (Z.land (quotesBitmap !!! wordIdx) (Z.shiftl 1 (Z.of_nat j)) =? 0)
  = from_option isQuoteByte false (chunkData !! (wordIdx * 64 + j)%nat) ∧
  negb (Z.land (newlinesBitmap !!! wordIdx) (Z.shiftl 1 (Z.of_nat j)) =? 0)
  = from_option (isNewlineByte sep) false (chunkData !! (wordIdx * 64 + j)%nat).
Proof.
  intros Hw Hj. destruct (word_pos wordIdx j Hj) as [Hdiv Hmod].
  pose proof (Hq (wordIdx * 64 + j)%nat) as Hq'.
  pose proof (Hn (wordIdx * 64 + j)%nat) as Hn'.
  unfold bitAt in Hq', Hn'. rewrite Hdiv, Hmod in Hq', Hn'.
  rewrite Hq', Hn' by lia.
  destruct (chunkData !! (wordIdx * 64 + j)%nat) as [b|] eqn:Hb; cbn.
  - apply lookup_lt_Some in Hb. by rewrite bool_decide_eq_true_2 by done.
  - by rewrite !andb_false_r.
Qed.

Lemma bitStep_posStep (wordIdx j : nat) (st : chunkState) :
  (wordIdx < (length chunkData + 63) / 64)%nat → (j < 64)%nat →
  bitStep wordIdx (quotesBitmap !!! wordIdx) (newlinesBitmap !!! wordIdx) st j
  = posStep st (wordIdx * 64 + j).
Proof.
  intros Hw Hj. destruct (mask_bits wordIdx j Hw Hj) as [Hmq Hmn].
  unfold bitStep, posStep. cbn zeta. rewrite Hmq, Hmn.
  destruct (chunkData !! (wordIdx * 64 + j)%nat) as [b|]; cbn; [|done].
  unfold isQuoteByte, isNewlineByte.
  destruct (decide (b = QUOTE)) as [Hbq|Hbq].
  - by rewrite !(bool_decide_eq_true_2 (b = QUOTE)) by done.
  - rewrite !(bool_decide_eq_false_2 (b = QUOTE)) by done. cbn [negb andb].
    destruct (decide (b = NL)) as [Hbn|Hbn].
    + rewrite (bool_decide_eq_false_2 (b = sep)) by congruence. done.
    + rewrite (bool_decide_eq_false_2 (b = NL)) by done. by rewrite andb_false_r.
Qed.

Lemma word_combined (wordIdx : nat) :
  (wordIdx < (length chunkData + 63) / 64)%nat →
  word_ok (Z.lor (quotesBitmap !!! wordIdx) (newlinesBitmap !!! wordIdx)).
Proof.
  intros Hw. apply word_ok_lor.
  - apply (Forall_lookup_total_1 _ _ _ Hwq). lia.
  - apply (Forall_lookup_total_1 _ _ _ Hwn). lia.
Qed.

(** The bits of the combined mask are the quotes and the newlines. *)
Lemma combined_bit (wordIdx j : nat) :
  (wordIdx < (length chunkData + 63) / 64)%nat → (j < 64)%nat →
  Z.testbit (Z.lor (quotesBitmap !!! wordIdx) (newlinesBitmap !!! wordIdx)) (Z.of_nat j)
  = from_option isQuoteByte false (chunkData !! (wordIdx * 64 + j)%nat)
    || from_option (isNewlineByte sep) false (chunkData !! (wordIdx * 64 + j)%nat).
Proof.
  intros Hw Hj. destruct (mask_bits wordIdx j Hw Hj) as [Hmq Hmn].
  rewrite Z.lor_spec, <- Hmq, <- Hmn. by rewrite !land_bit, !negb_involutive by lia.
Qed.

(** One word of the main loop handles its 64 byte positions. *)
Lemma word_spec (wordIdx : nat) (st : chunkState) :
  (wordIdx < (length chunkData + 63) / 64)%nat →
  bitLoop 64 chunkData start workerID indexDefs quotesBitmap sepsBitmap wordIdx
    (quotesBitmap !!! wordIdx) (newlinesBitmap !!! wordIdx)
    (Z.lor (quotesBitmap !!! wordIdx) (newlinesBitmap !!! wordIdx)) st
  = foldl posStep st (seq (wordIdx * 64) 64).
Proof.
  intros Hw.
  rewrite bitLoop_setBits; [|by apply word_combined|apply setBits_length|]; cycle 1.
  { intros j [Hj Hbit]%elem_of_setBits. rewrite combined_bit in Hbit by done.
    destruct (chunkData !! (wordIdx * 64 + j)%nat) eqn:Hb; [|done].
    by eapply lookup_lt_Some. }
  unfold setBits. rewrite foldl_filter_noop; cycle 1.
  { intros st' j [_ Hj]%elem_of_seq Hbit.
    rewrite combined_bit in Hbit by (done || lia).
    destruct (mask_bits wordIdx j Hw) as [Hmq Hmn]; [lia|].
    unfold bitStep. cbn zeta. rewrite Hmq, Hmn.
    destruct (from_option isQuoteByte _ _); [done|].
    destruct (from_option (isNewlineByte sep) _ _); done. }
  replace (seq (wordIdx * 64) 64) with ((λ j, wordIdx * 64 + j)%nat <$> seq 0 64)
    by (by rewrite fmap_add_seq, Nat.add_0_r).
  rewrite foldl_fmap. revert st.
  assert (Hall : Forall (λ j, j < 64)%nat (seq 0 64)).
  { apply Forall_forall. intros j [_ ?]%elem_of_seq. lia. }
  induction Hall as [|j l Hj _ IH]; intros st; [done|].
  cbn [foldl]. rewrite bitStep_posStep by done. apply IH.
Qed.

Lemma wordLoop_spec (todo : nat) :
  ∀ (wordIdx : nat) (st : chunkState),
  (wordIdx + todo ≤ (length chunkData + 63) / 64)%nat →
  wordLoop todo chunkData start workerID indexDefs quotesBitmap sepsBitmap
    newlinesBitmap wordIdx st
  = foldl posStep st (seq (wordIdx * 64) (todo * 64)).
Proof.
  induction todo as [|todo IH]; intros wordIdx st Hw; [done|].
  cbn [wordLoop]. cbn zeta.
  replace (S todo * 64)%nat with (64 + todo * 64)%nat by lia.
  rewrite seq_app, foldl_app.
  replace (wordIdx * 64 + 64)%nat with (S wordIdx * 64)%nat by lia.
  rewrite <- IH by lia. f_equal.
  rewrite <- word_spec by lia.
  destruct ((quotesBitmap !!! wordIdx =? 0) && (newlinesBitmap !!! wordIdx =? 0)
            && negb (inQuote st)) eqn:Hskip; [|done].
  apply andb_true_iff in Hskip as [Hskip _].
  apply andb_true_iff in Hskip as [->%Z.eqb_eq ->%Z.eqb_eq]. done.
Qed.

(** The main loop of [processChunk] is a pass over the bytes of the
    chunk. *)
Lemma mainLoop_bytes (st : chunkState) :
  wordLoop ((length chunkData + 63) / 64) chunkData start workerID indexDefs
    quotesBitmap sepsBitmap newlinesBitmap 0 st
  = foldl posStep st (seq 0 (length chunkData)).
Proof.
  rewrite wordLoop_spec by lia. cbn [Nat.mul].
  set (n := ((length chunkData + 63) / 64 * 64)%nat).
  assert (Hn' : (length chunkData ≤ n)%nat).
  { subst n. pose proof (Nat.div_mod_eq (length chunkData + 63) 64).
    pose proof (Nat.mod_upper_bound (length chunkData + 63) 64). lia. }
  replace n with (length chunkData + (n - length chunkData))%nat by lia.
  rewrite seq_app, foldl_app. apply foldl_noop.
  intros st' pos [Hpos _]%elem_of_seq. unfold posStep.
  rewrite lookup_ge_None_2 by lia. done.
Qed.

(** The same for the loop of [countChunkLines], whose state is the quote
    flag and the count. *)
Definition countPosStep (st : bool * Z) (pos : nat) : bool * Z :=
  match chunkData !! pos with
  | None => st
  | Some b =>
      if bool_decide (b = QUOTE) then (negb st.1, st.2)
      else if bool_decide (b = NL) && negb st.1 then (st.1, st.2 + 1)
      else st
  end.

Definition countBitStep (quoteMask newlineMask : Z) (st : bool * Z) (tz : nat)
  : bool * Z :=
  let bitMask := Z.shiftl 1 (Z.of_nat tz) in
  if negb (Z.land quoteMask bitMask =? 0) then (negb st.1, st.2)
  else if negb (Z.land newlineMask bitMask =? 0) && negb st.1 then (st.1, st.2 + 1)
  else st.

Lemma countBitLoop_setBits (quoteMask newlineMask : Z) (fuel : nat) :
  ∀ (combined : Z) (inQ : bool) (count : Z),
  word_ok combined → (length (setBits combined) ≤ fuel)%nat →
  countBitLoop fuel quoteMask newlineMask combined inQ count
  = foldl (countBitStep quoteMask newlineMask) (inQ, count) (setBits combined).
Proof.
  induction fuel as [|fuel IH]; intros combined inQ count Hok Hfuel.
  - destruct (setBits combined); [done|cbn in Hfuel; lia].
  - cbn [countBitLoop]. destruct (combined =? 0) eqn:Hc.
    + apply Z.eqb_eq in Hc as ->. by rewrite setBits_0.
    + apply Z.eqb_neq in Hc. rewrite (setBits_step combined Hok Hc) in *.
      cbn [foldl length] in *.
      assert (Hok' : word_ok (Z.ldiff combined
                        (Z.shiftl 1 (Z.of_nat (TrailingZeros64 combined))))).
      { apply word_ok_ldiff; [done|]. apply Z.shiftl_nonneg. lia. }
      unfold countBitStep at 2. cbn zeta. cbn [fst snd].
      destruct (negb (Z.land quoteMask _ =? 0)).
      * apply IH; [done|lia].
      * destruct (negb (Z.land newlineMask _ =? 0) && negb inQ); apply IH; (done || lia).
Qed.

Lemma countBitLoop_0 (fuel : nat) (quoteMask newlineMask : Z) (inQ : bool) (count : Z) :
  countBitLoop fuel quoteMask newlineMask 0 inQ count = (inQ, count).
Proof. by destruct fuel. Qed.

Lemma countBitStep_posStep (wordIdx j : nat) (st : bool * Z) :
  (wordIdx < (length chunkData + 63) / 64)%nat → (j < 64)%nat →
  countBitStep (quotesBitmap !!! wordIdx) (newlinesBitmap !!! wordIdx) st j
  = countPosStep st (wordIdx * 64 + j).
Proof.
  intros Hw Hj. destruct (mask_bits wordIdx j Hw Hj) as [Hmq Hmn].
  unfold countBitStep, countPosStep. cbn zeta. rewrite Hmq, Hmn.
  destruct (chunkData !! (wordIdx * 64 + j)%nat) as [b|]; cbn; [|done].
  unfold isQuoteByte, isNewlineByte.
  destruct (decide (b = QUOTE)) as [Hbq|Hbq].
  - by rewrite !(bool_decide_eq_true_2 (b = QUOTE)) by done.
  - rewrite !(bool_decide_eq_false_2 (b = QUOTE)) by done. cbn [negb andb].
    destruct (decide (b = NL)) as [Hbn|Hbn].
    + rewrite (bool_decide_eq_false_2 (b = sep)) by congruence. done.
    + rewrite (bool_decide_eq_false_2 (b = NL)) by done. by rewrite andb_false_r.
Qed.

Lemma countWord_spec (wordIdx : nat) (inQ : bool) (count : Z) :
  (wordIdx < (length chunkData + 63) / 64)%nat →
  countBitLoop 64 (quotesBitmap !!! wordIdx) (newlinesBitmap !!! wordIdx)
    (Z.lor (quotesBitmap !!! wordIdx) (newlinesBitmap !!! wordIdx)) inQ count
  = foldl countPosStep (inQ, count) (seq (wordIdx * 64) 64).
Proof.
  intros Hw.
  rewrite countBitLoop_setBits; [|by apply word_combined|apply setBits_length].
  unfold setBits. rewrite foldl_filter_noop; cycle 1.
  { intros st' j [_ Hj]%elem_of_seq Hbit.
    rewrite combined_bit in Hbit by (done || lia).
    destruct (mask_bits wordIdx j Hw) as [Hmq Hmn]; [lia|].
    unfold countBitStep. cbn zeta. rewrite Hmq, Hmn.
    destruct (from_option isQuoteByte _ _); [done|].
    destruct (from_option (isNewlineByte sep) _ _); done. }
  replace (seq (wordIdx * 64) 64) with ((λ j, wordIdx * 64 + j)%nat <$> seq 0 64)
    by (by rewrite fmap_add_seq, Nat.add_0_r).
  rewrite foldl_fmap. generalize (inQ, count).
  assert (Hall : Forall (λ j, j < 64)%nat (seq 0 64)).
  { apply Forall_forall. intros j [_ ?]%elem_of_seq. lia. }
  induction Hall as [|j l Hj _ IH]; intros st; [done|].
  cbn [foldl]. rewrite countBitStep_posStep by done. apply IH.
Qed.

Lemma countWordLoop_spec (todo : nat) :
  ∀ (wordIdx : nat) (inQ : bool) (count : Z),
  (wordIdx + todo ≤ (length chunkData + 63) / 64)%nat →
  countWordLoop todo quotesBitmap newlinesBitmap wordIdx inQ count
  = foldl countPosStep (inQ, count) (seq (wordIdx * 64) (todo * 64)).
Proof.
  induction todo as [|todo IH]; intros wordIdx inQ count Hw; [done|].
  cbn [countWordLoop]. cbn zeta.
  replace (S todo * 64)%nat with (64 + todo * 64)%nat by lia.
  rewrite seq_app, foldl_app.
  replace (wordIdx * 64 + 64)%nat with (S wordIdx * 64)%nat by lia.
  rewrite <- countWord_spec by lia.
  destruct ((quotesBitmap !!! wordIdx =? 0) && (newlinesBitmap !!! wordIdx =? 0)
            && negb inQ) eqn:Hskip.
  - apply andb_true_iff in Hskip as [Hskip _].
    apply andb_true_iff in Hskip as [->%Z.eqb_eq ->%Z.eqb_eq].
    change (Z.lor 0 0) with 0. rewrite countBitLoop_0. apply IH. lia.
  - destruct (countBitLoop 64 _ _ _ inQ count) as [inQ' count']. apply IH. lia.
Qed.

Lemma countLoop_bytes :
  countWordLoop ((length chunkData + 63) / 64) quotesBitmap newlinesBitmap 0 false 0
  = foldl countPosStep (false, 0) (seq 0 (length chunkData)).
Proof.
  rewrite countWordLoop_spec by lia. cbn [Nat.mul].
  set (n := ((length chunkData + 63) / 64 * 64)%nat).
  assert (Hn' : (length chunkData ≤ n)%nat).
  { subst n. pose proof (Nat.div_mod_eq (length chunkData + 63) 64).
    pose proof (Nat.mod_upper_bound (length chunkData + 63) 64). lia. }
  replace n with (length chunkData + (n - length chunkData))%nat by lia.
  rewrite seq_app, foldl_app. apply foldl_noop.
  intros st' pos [Hpos _]%elem_of_seq. unfold countPosStep.
  rewrite lookup_ge_None_2 by lia. done.
Qed.

End chunk.

End ChunkFacts.

(** ** Records of a chunk: a machine over its bytes *)

Module LineFacts.
Import simd parser BitmapFacts WordFacts ChunkFacts FieldFacts.

(** The state of a pass over the bytes of a chunk that cuts it into
    records, as the main loop of [processChunk] does. *)
Record lineState : Type := mkLineState {
  lpos : nat;                   (* bytes read *)
  lstart : nat;                 (* where the current line starts *)
  lcur : list byte;             (* the current line so far *)
  linQ : bool;                  (* inside quotes *)
  lspans : list (nat * nat);    (* start and end of the rows emitted *)
  lnls : nat;                   (* newlines met outside quotes *)
  lok : bool                    (* no newline inside quotes, no blank line *)
}.

(** A line that is a row: not empty once a final carriage return is
    dropped. *)
Definition nonblank (cur : list byte) : bool :=
  negb (bool_decide (cur = [])) && negb (bool_decide (cur = [CR])).

Definition lineStep (st : lineState) (b : byte) : lineState :=
  if bool_decide (b = QUOTE) then
    {| lpos := S (lpos st); lstart := lstart st; lcur := lcur st ++ [b];
       linQ := negb (linQ st); lspans := lspans st; lnls := lnls st; lok := lok st |}
  else if bool_decide (b = NL) && negb (linQ st) then
    {| lpos := S (lpos st); lstart := S (lpos st); lcur := [];
       linQ := linQ st;
       lspans := lspans st ++ (if nonblank (lcur st) then [(lstart st, lpos st)] else []);
       lnls := S (lnls st); lok := lok st && nonblank (lcur st) |}
  else
    {| lpos := S (lpos st); lstart := lstart st; lcur := lcur st ++ [b];
       linQ := linQ st; lspans := lspans st; lnls := lnls st;
       lok := lok st && negb (bool_decide (b = NL)) |}.

Definition lineInit : lineState :=
  {| lpos := 0; lstart := 0; lcur := []; linQ := false; lspans := []; lnls := 0;
     lok := true |}.

Definition lineRun (s : list byte) (st : lineState) : lineState := foldl lineStep st s.

(** The unterminated last line is a row too, unless it is blank or ends
    inside quotes. *)
Definition lastSpan (st : lineState) : list (nat * nat) :=
  if negb (bool_decide (lcur st = [])) && negb (linQ st) && nonblank (lcur st)
  then [(lstart st, lpos st)] else [].

(** The rows of a chunk: where each starts and ends. *)
Definition chunkSpans (chunk : list byte) : list (nat * nat) :=
  let st := lineRun chunk lineInit in lspans st ++ lastSpan st.

Lemma lineBytes_nonblank (chunkData : list byte) (s e : nat) :
  bool_decide (0 < length (lineBytes chunkData s e))%nat = nonblank (slice chunkData s e).
Proof.
  unfold lineBytes, nonblank. set (lb := slice chunkData s e).
  destruct (decide (lb = [])) as [->|Hne].
  { cbn. done. }
  rewrite (bool_decide_eq_false_2 (lb = [])) by done. cbn [negb andb].
  assert (0 < length lb)%nat by (destruct lb; [done|cbn; lia]).
  rewrite (bool_decide_eq_true_2 (0 < length lb)%nat) by done. cbn [andb].
  destruct (decide (lb !! (length lb - 1)%nat = Some CR)) as [Hcr|Hcr].
  - rewrite (bool_decide_eq_true_2 (_ = Some CR)) by done.
    rewrite length_take.
    destruct lb as [|x [|y lb]]; [done| |].
    + cbn in Hcr. injection Hcr as ->.
      rewrite (bool_decide_eq_true_2 ([CR] = [CR])) by done. cbn.
      apply bool_decide_eq_false_2. lia.
    + rewrite (bool_decide_eq_false_2 (_ = [CR])) by done. cbn [length negb].
      apply bool_decide_eq_true_2. lia.
  - rewrite (bool_decide_eq_false_2 (_ = Some CR)) by done.
    rewrite (bool_decide_eq_true_2 (0 < length lb)%nat) by done.
    rewrite (bool_decide_eq_false_2 (lb = [CR])); [done|].
    intros ->. by apply Hcr.
Qed.

Section simulation.
Variables (chunkData : list byte) (start wid : nat) (indexDefs : list (list nat)).
Variables (quotesBitmap sepsBitmap : list Z) (startLine : Z).

(** The handler call for the row at the span, the [k]-th of its chunk. *)
Definition rowOf (k : nat) (span : nat * nat) : Row :=
  {| workerID := wid;
     keys := keyOf (rowValues (lineBytes chunkData span.1 span.2) span.1
                      quotesBitmap sepsBitmap (numCols indexDefs)) <$> indexDefs;
     offset := Z.of_nat (start + span.1);
     line := startLine + Z.of_nat k |}.

Definition sim (cst : chunkState) (lst : lineState) : Prop :=
  lineStart cst = lstart lst ∧
  (lstart lst ≤ lpos lst)%nat ∧
  lcur lst = slice chunkData (lstart lst) (lpos lst) ∧
  inQuote cst = linQ lst ∧
  currentLine cst = startLine + Z.of_nat (length (lspans lst)) ∧
  emitted cst = imap rowOf (lspans lst).

Lemma emitLine_sim (cst : chunkState) (lst : lineState) (lineEnd : nat) :
  sim cst lst → lpos lst = lineEnd →
  let cst1 := emitLine chunkData start wid indexDefs quotesBitmap sepsBitmap
                lineEnd cst in
  let spans1 := lspans lst ++ (if nonblank (lcur lst) then [(lstart lst, lpos lst)] else []) in
  inQuote cst1 = linQ lst ∧
  currentLine cst1 = startLine + Z.of_nat (length spans1) ∧
  emitted cst1 = imap rowOf spans1.
Proof.
  intros (Hs & Hle & Hcur & Hin & Hline & Hem) Hpos. cbn zeta.
  unfold emitLine. rewrite Hs, <- Hpos.
  pose proof (lineBytes_nonblank chunkData (lstart lst) (lpos lst)) as Hnb.
  rewrite <- Hcur in Hnb. rewrite Hnb.
  destruct (nonblank (lcur lst)) eqn:Hblank.
  - cbn [inQuote currentLine emitted]. split; [done|].
    rewrite length_app. cbn [length]. split; [lia|].
    rewrite imap_app. cbn [imap]. rewrite Nat.add_0_r, Hem. f_equal.
    unfold parseLineSimd.
    rewrite bool_decide_eq_false_2
      by (apply bool_decide_eq_true_1 in Hnb; lia).
    unfold rowOf. cbn [fst snd]. by rewrite Hline.
  - by rewrite app_nil_r.
Qed.

Lemma sim_step (cst : chunkState) (lst : lineState) (b : byte) :
  sim cst lst → chunkData !! lpos lst = Some b →
  sim (posStep chunkData start wid indexDefs quotesBitmap sepsBitmap cst (lpos lst))
      (lineStep lst b).
Proof.
  intros Hsim Hb. pose proof Hsim as (Hs & Hle & Hcur & Hin & Hline & Hem).
  unfold posStep, lineStep. rewrite Hb, Hin.
  destruct (decide (b = QUOTE)) as [Hbq|Hbq].
  - rewrite !(bool_decide_eq_true_2 (b = QUOTE)) by done.
    unfold sim, toggled.
    cbn [lineStart inQuote currentLine emitted lpos lstart lcur linQ lspans].
    rewrite (slice_snoc _ _ _ b) by done. rewrite Hin, Hcur. repeat split; (done || lia).
  - rewrite !(bool_decide_eq_false_2 (b = QUOTE)) by done.
    destruct (bool_decide (b = NL) && negb (linQ lst)) eqn:Hnl.
    + destruct (emitLine_sim cst lst (lpos lst) Hsim eq_refl) as (H1 & H2 & H3).
      unfold sim, lineEnded. cbn [lineStart inQuote currentLine emitted lpos lstart lcur
        linQ lspans].
      rewrite slice_empty. repeat split; (done || lia).
    + unfold sim.
      cbn [lineStart inQuote currentLine emitted lpos lstart lcur linQ lspans].
      rewrite (slice_snoc _ _ _ b) by done. rewrite Hcur. repeat split; (done || lia).
Qed.

Lemma lineStep_pos (lst : lineState) (b : byte) : lpos (lineStep lst b) = S (lpos lst).
Proof. unfold lineStep. by repeat case_match. Qed.

Lemma sim_run (n : nat) :
  (n ≤ length chunkData)%nat →
  let lst := lineRun (take n chunkData) lineInit in
  lpos lst = n ∧
  sim (foldl (posStep chunkData start wid indexDefs quotesBitmap sepsBitmap)
         {| lineStart := 0; inQuote := false; currentLine := startLine; emitted := [] |}
         (seq 0 n)) lst.
Proof.
  induction n as [|n IH]; intros Hn; cbn zeta.
  - rewrite take_0. cbn [lineRun foldl lineInit lpos seq]. split; [done|].
    unfold sim, lineInit.
    cbn [lineStart inQuote currentLine emitted lpos lstart lcur linQ lspans imap length].
    rewrite slice_empty. repeat split; (done || lia).
  - destruct (lookup_lt_is_Some_2 chunkData n) as [b Hb]; [lia|].
    destruct IH as [Hpos Hsim]; [lia|].
    rewrite (take_S_r _ _ _ Hb), seq_S. unfold lineRun in *.
    rewrite !foldl_app. cbn [foldl]. rewrite lineStep_pos, Hpos. split; [done|].
    rewrite <- Hpos at 2. apply sim_step; [done|]. by rewrite Hpos.
Qed.

End simulation.

(** [processChunk] calls the handler once for every row of its chunk, in
    order, with the row's keys, its offset in the file and consecutive line
    numbers from [startLine]. *)
Lemma processChunk_spec (p : SIMDParser) (start end_ workerID : nat) (startLine : Z)
    (indexDefs : list (list nat)) :
  separator p ≠ NL → (start < length (data p))%nat → (start < end_)%nat →
  let chunk := slice (data p) start end_ in
  processChunk p start end_ workerID startLine indexDefs
  = imap (rowOf chunk start workerID indexDefs
            (classify chunk (separator p)).1.1 (classify chunk (separator p)).1.2
            startLine)
         (chunkSpans chunk).
Proof.
  intros Hsep Hstart Hend chunk. unfold processChunk.
  rewrite (bool_decide_eq_false_2 (length _ ≤ start)%nat) by lia.
  set (end' := if bool_decide (length (data p) < end_)%nat then length (data p) else end_).
  assert (Hchunk : slice (data p) start end' = chunk).
  { subst end' chunk. unfold slice. case_bool_decide; [|done].
    rewrite !take_ge; [done|rewrite length_drop; lia..]. }
  rewrite (bool_decide_eq_false_2 (end' ≤ start)%nat)
    by (subst end'; case_bool_decide; lia).
  rewrite Hchunk.
  destruct (classify_spec chunk (separator p))
    as (q & s & n & Hcl & Hlq & Hls & Hln & Hq & Hs & Hn).
  pose proof (classify_words chunk (separator p)) as Hw. rewrite Hcl in *.
  destruct Hw as (Hwq & _ & Hwn). cbn [fst snd].
  rewrite (mainLoop_bytes chunk start workerID indexDefs (separator p) q s n) by done.
  destruct (sim_run chunk start workerID indexDefs q s startLine (length chunk))
    as [Hpos Hsim]; [done|].
  rewrite firstn_all in Hpos, Hsim.
  set (cst := foldl _ _ _) in *. set (lst := lineRun chunk lineInit) in *.
  unfold chunkSpans. fold lst. unfold lastSpan.
  pose proof Hsim as (Hs' & Hle & Hcur & Hin & Hline & Hem).
  rewrite Hs', Hin.
  assert (Hne : bool_decide (lstart lst < length chunk)%nat
                = negb (bool_decide (lcur lst = []))).
  { rewrite Hcur, Hpos. unfold slice.
    destruct (decide (lstart lst < length chunk)%nat) as [Hlt|Hge].
    - rewrite bool_decide_eq_true_2 by done.
      rewrite bool_decide_eq_false_2; [done|].
      intros Hnil. apply (f_equal length) in Hnil.
      rewrite length_take, length_drop in Hnil. cbn in Hnil. lia.
    - rewrite bool_decide_eq_false_2 by done.
      rewrite bool_decide_eq_true_2; [done|].
      assert (lstart lst = length chunk) as -> by lia.
      by rewrite Nat.sub_diag. }
  rewrite Hne.
  destruct (negb (bool_decide (lcur lst = [])) && negb (linQ lst)) eqn:Hlast; cbn [andb].
  - destruct (emitLine_sim chunk start workerID indexDefs q s startLine cst lst
                (length chunk) Hsim Hpos) as (_ & _ & H3).
    rewrite H3, Hpos. done.
  - by rewrite app_nil_r.
Qed.

(** [countChunkLines] counts the newlines outside quotes, and the last
    line when it has no newline and ends outside quotes. *)
Lemma count_sim (chunkData : list byte) (n : nat) :
  (n ≤ length chunkData)%nat →
  let lst := lineRun (take n chunkData) lineInit in
  foldl (countPosStep chunkData) (false, 0) (seq 0 n) = (linQ lst, Z.of_nat (lnls lst)).
Proof.
  induction n as [|n IH]; intros Hn; cbn zeta.
  - by rewrite take_0.
  - destruct (lookup_lt_is_Some_2 chunkData n) as [b Hb]; [lia|].
    rewrite (take_S_r _ _ _ Hb), seq_S. unfold lineRun in *.
    rewrite !foldl_app. cbn [foldl Nat.add]. rewrite IH by lia.
    unfold countPosStep, lineStep. rewrite Hb. cbn [fst snd].
    destruct (bool_decide (b = QUOTE)); [done|].
    destruct (bool_decide (b = NL) && negb (linQ _)); cbn [linQ lnls]; [|done].
    f_equal. lia.
Qed.

Lemma countChunkLines_spec (p : SIMDParser) (start end_ : nat) :
  separator p ≠ NL → (start < length (data p))%nat → (start < end_)%nat →
  let chunk := slice (data p) start end_ in
  let lst := lineRun chunk lineInit in
  countChunkLines p start end_
  = Z.of_nat (lnls lst) +
    (if negb (bool_decide (chunk !! (length chunk - 1)%nat = Some NL)) && negb (linQ lst)
     then 1 else 0).
Proof.
  intros Hsep Hstart Hend chunk lst. unfold countChunkLines.
  rewrite (bool_decide_eq_false_2 (length _ ≤ start)%nat) by lia.
  rewrite (bool_decide_eq_false_2 (end_ ≤ start)%nat) by lia. cbn [orb].
  fold chunk.
  assert (Hlen : (0 < length chunk)%nat).
  { subst chunk. unfold slice. rewrite length_take, length_drop. lia. }
  rewrite (bool_decide_eq_false_2 (length chunk = 0)%nat) by lia.
  destruct (classify_spec chunk (separator p))
    as (q & s & n & Hcl & Hlq & Hls & Hln & Hq & Hs & Hn).
  pose proof (classify_words chunk (separator p)) as Hw. rewrite Hcl in *.
  destruct Hw as (Hwq & _ & Hwn).
  rewrite (countLoop_bytes chunk (separator p) q n) by done.
  rewrite count_sim by done. rewrite firstn_all. fold lst.
  destruct (negb _ && negb (linQ lst)); lia.
Qed.

(** Rows start inside their chunk, and there are no more newlines than
    bytes. *)
Definition bounded (st : lineState) : Prop :=
  (lstart st ≤ lpos st)%nat ∧ (lnls st ≤ lpos st)%nat ∧
  Forall (λ sp, sp.1 ≤ lpos st)%nat (lspans st).

Lemma step_bounds (st : lineState) (b : byte) : bounded st → bounded (lineStep st b).
Proof.
  intros (Hs & Hn & Hsp).
  assert (Hsp' : Forall (λ sp : nat * nat, sp.1 ≤ S (lpos st))%nat (lspans st)).
  { eapply Forall_impl; [exact Hsp|]. intros sp ?. cbn beta in *. lia. }
  unfold lineStep, bounded.
  destruct (bool_decide (b = QUOTE)); cbn [lpos lstart lnls lspans].
  { repeat split; (done || lia). }
  destruct (bool_decide (b = NL) && negb (linQ st)); cbn [lpos lstart lnls lspans].
  - repeat split; try lia. apply Forall_app. split; [done|].
    destruct (nonblank (lcur st)); repeat constructor. cbn. lia.
  - repeat split; (done || lia).
Qed.

Lemma run_bounds (s : list byte) :
  let r := lineRun s lineInit in lpos r = length s ∧ bounded r.
Proof.
  induction s as [|b s IH] using rev_ind; cbn zeta.
  - split; [done|]. repeat split; (done || constructor).
  - destruct IH as (Hp & Hb).
    unfold lineRun in *. rewrite foldl_app. cbn [foldl].
    rewrite lineStep_pos, Hp, length_app. cbn [length].
    split; [lia|]. by apply step_bounds.
Qed.

Lemma chunkSpans_bound (s : list byte) :
  Forall (λ sp, sp.1 ≤ length s)%nat (chunkSpans s).
Proof.
  destruct (run_bounds s) as (Hp & Hs & _ & Hsp). unfold chunkSpans, lastSpan.
  cbn zeta.
  rewrite Hp in *. apply Forall_app. split; [done|].
  case_match; repeat constructor. cbn. lia.
Qed.

End LineFacts.

(** ** The machine on plain input: rows are newlines *)

Module PlainFacts.
Import simd parser strings BitmapFacts WordFacts ChunkFacts FieldFacts LineFacts.

Lemma lineRun_app (a b : list byte) (st : lineState) :
  lineRun (a ++ b) st = lineRun b (lineRun a st).
Proof. apply foldl_app. Qed.

Lemma lineRun_snoc (a : list byte) (b : byte) (st : lineState) :
  lineRun (a ++ [b]) st = lineStep (lineRun a st) b.
Proof. by rewrite lineRun_app. Qed.

Lemma lineStep_ok (st : lineState) (b : byte) : lok (lineStep st b) = true → lok st = true.
Proof.
  unfold lineStep. repeat case_match; cbn [lok]; try done;
    by intros [? _]%andb_true_iff.
Qed.

Lemma lineRun_ok (s : list byte) (st : lineState) :
  lok (lineRun s st) = true → lok st = true.
Proof.
  revert st. induction s as [|b s IH]; intros st H; [done|].
  apply (lineStep_ok st b), IH. done.
Qed.

(** Between two records: nothing pending. *)
Definition clean (st : lineState) : Prop :=
  lcur st = [] ∧ linQ st = false ∧ lstart st = lpos st.

Lemma lineInit_clean : clean lineInit.
Proof. done. Qed.

(** After a newline on plain input the state is clean. *)
Lemma newline_clean (st : lineState) :
  lok (lineStep st NL) = true → clean (lineStep st NL).
Proof.
  unfold lineStep. rewrite (bool_decide_eq_false_2 (NL = QUOTE)) by done.
  rewrite (bool_decide_eq_true_2 (NL = NL)) by done. cbn [andb].
  destruct (linQ st) eqn:Hq; cbn [negb lok].
  - by rewrite andb_false_r.
  - intros _. by unfold clean.
Qed.

(** A run from a clean state is the run from the initial state, moved. *)
Definition shifted (st r r0 : lineState) : Prop :=
  lpos r = (lpos st + lpos r0)%nat ∧
  lstart r = (lpos st + lstart r0)%nat ∧
  lcur r = lcur r0 ∧
  linQ r = linQ r0 ∧
  lspans r = lspans st ++ ((λ sp, (lpos st + sp.1, lpos st + sp.2)%nat) <$> lspans r0) ∧
  lnls r = (lnls st + lnls r0)%nat ∧
  lok r = lok st && lok r0.

Lemma shifted_step (st r r0 : lineState) (b : byte) :
  shifted st r r0 → shifted st (lineStep r b) (lineStep r0 b).
Proof.
  intros (Hp & Hs & Hc & Hq & Hsp & Hn & Hok). unfold lineStep.
  rewrite Hq, Hc.
  destruct (bool_decide (b = QUOTE)).
  { unfold shifted. cbn [lpos lstart lcur linQ lspans lnls lok].
    rewrite Hp, Hs, Hsp, Hn, Hok. repeat split; (done || lia). }
  destruct (bool_decide (b = NL) && negb (linQ r0)).
  - unfold shifted. cbn [lpos lstart lcur linQ lspans lnls lok].
    rewrite Hp, Hs, Hsp, Hn, Hok. repeat split; try (done || lia).
    + rewrite fmap_app, app_assoc. f_equal. by destruct (nonblank (lcur r0)).
    + by rewrite andb_assoc.
  - unfold shifted. cbn [lpos lstart lcur linQ lspans lnls lok].
    rewrite Hp, Hs, Hsp, Hn, Hok. repeat split; try (done || lia).
    by rewrite andb_assoc.
Qed.

Lemma shifted_run (s : list byte) (st : lineState) :
  clean st → shifted st (lineRun s st) (lineRun s lineInit).
Proof.
  intros (Hc & Hq & Hs).
  induction s as [|b s IH] using rev_ind.
  - unfold shifted, lineRun, lineInit. cbn.
    rewrite Hc, Hq, Hs, app_nil_r, andb_true_r. repeat split; (done || lia).
  - rewrite !lineRun_snoc. by apply shifted_step.
Qed.

(** On plain input every newline ends a row. *)
Lemma plain_count (s : list byte) :
  let r := lineRun s lineInit in
  lok r = true →
  length (lspans r) = lnls r ∧ Z.of_nat (lnls r) = Count s NL ∧
  (lcur r = [] ↔ s = [] ∨ last s = Some NL).
Proof.
  induction s as [|b s IH] using rev_ind; cbn zeta.
  - intros _. cbn. repeat split; (done || by left).
  - rewrite lineRun_snoc. intros Hok.
    destruct (IH (lineStep_ok _ _ Hok)) as (Hsp & Hn & Hcur).
    unfold Count in *. rewrite filter_app, length_app, last_snoc.
    revert Hok. unfold lineStep.
    destruct (decide (b = QUOTE)) as [->|Hbq].
    { rewrite bool_decide_eq_true_2 by done. cbn [lok lspans lnls lcur]. intros _.
      rewrite filter_cons_False, filter_nil by done. cbn [length].
      split; [done|]. split; [lia|]. split.
      - intros H. by apply app_nil in H as [_ ?].
      - intros [H|H]; [by apply app_nil in H as [_ ?]|done]. }
    rewrite (bool_decide_eq_false_2 (b = QUOTE)) by done.
    destruct (decide (b = NL)) as [->|Hbn].
    + rewrite (bool_decide_eq_true_2 (NL = NL)) by done. cbn [andb].
      destruct (linQ (lineRun s lineInit)); cbn [negb lok lspans lnls lcur].
      { by rewrite andb_false_r. }
      intros [_ Hnb]%andb_true_iff. rewrite Hnb.
      rewrite length_app, filter_cons_True, filter_nil by done. cbn [length].
      split; [lia|]. split; [lia|]. split; [by right|done].
    + rewrite (bool_decide_eq_false_2 (b = NL)) by done. cbn [andb lok lspans lnls lcur].
      intros _. rewrite filter_cons_False, filter_nil by done. cbn [length].
      split; [done|]. split; [lia|]. split.
      * intros H. by apply app_nil in H as [_ ?].
      * intros [H|H]; [by apply app_nil in H as [_ ?]|]. congruence.
Qed.

(** Without newlines only the quote flag moves. *)
Lemma run_no_newline (s : list byte) (st : lineState) :
  NL ∉ s →
  linQ (lineRun s st) = xorb (linQ st) (Nat.odd (length (filter (λ b, b = QUOTE) s))).
Proof.
  revert st. induction s as [|b s IH]; intros st Hnl.
  - cbn. by rewrite xorb_false_r.
  - apply not_elem_of_cons in Hnl as [Hb Hnl].
    change (lineRun (b :: s) st) with (lineRun s (lineStep st b)).
    rewrite IH by done. unfold lineStep.
    destruct (decide (b = QUOTE)) as [->|Hbq].
    + rewrite bool_decide_eq_true_2 by done. cbn [linQ].
      rewrite filter_cons_True by done. cbn [length].
      rewrite Nat.odd_succ, <- Nat.negb_odd.
      by destruct (linQ st), (Nat.odd _).
    + rewrite (bool_decide_eq_false_2 (b = QUOTE)) by done.
      rewrite (bool_decide_eq_false_2 (b = NL)) by done. cbn [andb linQ].
      by rewrite filter_cons_False by done.
Qed.

End PlainFacts.

(** ** Chunk boundaries on plain input *)

Module BoundaryFacts.
Import simd parser strings BitmapFacts WordFacts ChunkFacts FieldFacts LineFacts PlainFacts.

Lemma IndexByte_Some (l : list byte) (c : byte) (n : nat) :
  IndexByte l c = Some n ↔ l !! n = Some c ∧ ∀ j, (j < n)%nat → l !! j ≠ Some c.
Proof.
  revert n. induction l as [|x l IH]; intros n; cbn [IndexByte].
  - split; [done|]. by intros [? _].
  - destruct (decide (x = c)) as [->|Hx].
    + rewrite bool_decide_eq_true_2 by done. split.
      * intros [= <-]. split; [done|]. intros j Hj. lia.
      * intros [Hn Hlow]. destruct n as [|n]; [done|].
        exfalso. apply (Hlow 0%nat); [lia|done].
    + rewrite bool_decide_eq_false_2 by done. rewrite fmap_Some. split.
      * intros (m & Hm & ->). apply IH in Hm as [Hm1 Hm2].
        split; [done|]. intros [|j] Hj; cbn; [congruence|]. apply Hm2. lia.
      * intros [Hn Hlow]. destruct n as [|n]; [cbn in Hn; congruence|].
        exists n. split; [|done]. apply IH. split; [done|].
        intros j Hj. apply (Hlow (S j)). lia.
Qed.

Lemma IndexByte_None (l : list byte) (c : byte) : IndexByte l c = None ↔ c ∉ l.
Proof.
  induction l as [|x l IH]; cbn [IndexByte].
  - split; [intros _; apply not_elem_of_nil|done].
  - rewrite not_elem_of_cons. destruct (decide (x = c)) as [->|Hx].
    + rewrite bool_decide_eq_true_2 by done. split; [done|]. by intros [? _].
    + rewrite bool_decide_eq_false_2 by done. rewrite fmap_None, IH.
      split; [by intros ?; split; [congruence|]|by intros [_ ?]].
Qed.

Lemma slice_split (l : list byte) (a b c : nat) :
  (a ≤ b ≤ c)%nat → slice l a c = slice l a b ++ slice l b c.
Proof.
  intros H. unfold slice.
  replace (c - a)%nat with ((b - a) + (c - b))%nat by lia.
  rewrite <- take_take_drop, drop_drop.
  by replace (a + (b - a))%nat with b by lia.
Qed.

Lemma odd_false_mod (n : nat) : Nat.odd n = false → (n mod 2 = 0)%nat.
Proof.
  destruct (Nat.Even_or_Odd n) as [[k ->]|[k ->]].
  - intros _. rewrite Nat.mul_comm. apply Nat.Div0.mod_mul.
  - rewrite Nat.add_comm, Nat.odd_add_mul_2. done.
Qed.

Lemma boundaryLoop_first (fuel : nat) (data : list byte) (currentNL : nat) :
  (0 < fuel)%nat →
  boundaryLoop fuel data currentNL =
  if bool_decide (length data ≤ currentNL + 1)%nat then length data
  else
    match IndexByte (drop (currentNL + 1) data) NL with
    | None => (currentNL + 1)%nat
    | Some nextNL =>
        if bool_decide
             (length (filter (λ b, b = QUOTE)
                        (slice data (currentNL + 1) (currentNL + 1 + nextNL))) mod 2 = 0)%nat
        then (currentNL + 1)%nat
        else boundaryLoop (fuel - 1) data (currentNL + 1 + nextNL)
    end.
Proof.
  intros Hf. destruct fuel; [lia|]. cbn [boundaryLoop].
  by replace (S fuel - 1)%nat with fuel by lia.
Qed.

(** The start of the record after the first newline at or after [hint]. *)
Definition nextStart (data : list byte) (hint : nat) : nat :=
  match IndexByte (drop hint data) NL with
  | Some n => S (hint + n)
  | None => length data
  end.

Lemma nextStart_spec (data : list byte) (hint : nat) :
  (hint < length data)%nat →
  (hint < nextStart data hint ≤ length data)%nat ∧
  (nextStart data hint = length data ∨
   data !! (nextStart data hint - 1)%nat = Some NL).
Proof.
  intros Hh. unfold nextStart.
  destruct (IndexByte (drop hint data) NL) as [n|] eqn:Hn.
  - apply IndexByte_Some in Hn as [Hn _]. rewrite lookup_drop in Hn.
    pose proof (lookup_lt_Some _ _ _ Hn). split; [lia|]. right.
    by replace (S (hint + n) - 1)%nat with (hint + n)%nat by lia.
  - split; [lia|by left].
Qed.

Lemma nextStart_mono (data : list byte) (h h' : nat) :
  (h ≤ h')%nat → (h' < length data)%nat → (nextStart data h ≤ nextStart data h')%nat.
Proof.
  intros Hle Hh'. pose proof (nextStart_spec data h' Hh') as [Hb _].
  unfold nextStart in *.
  destruct (IndexByte (drop h data) NL) as [n|] eqn:Hn.
  - apply IndexByte_Some in Hn as [Hn Hlow]. rewrite lookup_drop in Hn.
    destruct (decide (h' ≤ h + n)%nat) as [Hin|Hout]; [|lia].
    assert (IndexByte (drop h' data) NL = Some (h + n - h')%nat) as ->; [|lia].
    apply IndexByte_Some. split.
    + rewrite lookup_drop. by replace (h' + (h + n - h'))%nat with (h + n)%nat by lia.
    + intros j Hj. rewrite lookup_drop.
      specialize (Hlow (h' + j - h)%nat). rewrite lookup_drop in Hlow.
      replace (h + (h' + j - h))%nat with (h' + j)%nat in Hlow by lia.
      apply Hlow. lia.
  - apply IndexByte_None in Hn.
    assert (IndexByte (drop h' data) NL = None) as ->; [|done].
    apply IndexByte_None. intros Hin. apply Hn.
    replace h' with (h + (h' - h))%nat in Hin by lia.
    rewrite <- drop_drop in Hin. by eapply subseteq_drop.
Qed.

(** The input after the header is plain: no newline inside quotes, no
    blank line, and no quote left open at the end. *)
Definition plainEnd (st : lineState) : bool :=
  lok st && negb (linQ st) && (bool_decide (lcur st = []) || nonblank (lcur st)).

Definition plain (body : list byte) : bool := plainEnd (lineRun body lineInit).

Section plain_input.
Variables (data : list byte) (startIdx : nat).
Hypothesis Hheader : (0 < startIdx)%nat ∧ data !! (startIdx - 1)%nat = Some NL.
Hypothesis Hlt : (startIdx < length data)%nat.
Hypothesis Hplain : plain (drop startIdx data) = true.

(** The machine after the bytes from the header to [b]. *)
Definition upTo (b : nat) : lineState := lineRun (slice data startIdx b) lineInit.

(** A position where a record starts, or the end of the file. *)
Definition recordStart (b : nat) : Prop :=
  (startIdx ≤ b ≤ length data)%nat ∧
  (b = length data ∨ data !! (b - 1)%nat = Some NL).

Lemma whole_ok : lok (upTo (length data)) = true ∧ linQ (upTo (length data)) = false
  ∧ (lcur (upTo (length data)) = [] ∨ nonblank (lcur (upTo (length data))) = true).
Proof.
  unfold upTo. rewrite slice_to_end. unfold plain, plainEnd in Hplain.
  apply andb_true_iff in Hplain as [H12 H3]. apply andb_true_iff in H12 as [H1 H2].
  split; [done|]. split; [by destruct (linQ _)|].
  apply orb_true_iff in H3 as [H3|H3]; [left; by apply bool_decide_eq_true_1 in H3|by right].
Qed.

Lemma upTo_ok (b : nat) : (startIdx ≤ b ≤ length data)%nat → lok (upTo b) = true.
Proof.
  intros Hb. destruct whole_ok as [Hok _]. unfold upTo in *.
  rewrite (slice_split data startIdx b (length data)), lineRun_app in Hok by done.
  by eapply lineRun_ok.
Qed.

Lemma upTo_clean (b : nat) : recordStart b → (b < length data)%nat → clean (upTo b).
Proof.
  intros [Hb [->|Hnl]] Hlen; [lia|].
  destruct (decide (b = startIdx)) as [->|Hne].
  - unfold upTo. rewrite slice_empty. apply lineInit_clean.
  - pose proof (upTo_ok b Hb) as Hok. unfold upTo in *.
    replace b with (S (b - 1)) in Hok |- * by lia.
    rewrite (slice_snoc _ _ _ NL) in Hok |- * by (lia || done).
    rewrite lineRun_snoc in Hok |- *. by apply newline_clean.
Qed.

(** A record that ends with a newline has an even number of quotes. *)
Lemma record_quotes_even (e m : nat) :
  (startIdx ≤ S e)%nat → data !! e = Some NL →
  IndexByte (drop (S e) data) NL = Some m →
  (length (filter (λ b, b = QUOTE) (slice data (S e) (S e + m))) mod 2 = 0)%nat.
Proof.
  intros He Hnl [Hm Hlow]%IndexByte_Some. rewrite lookup_drop in Hm.
  pose proof (lookup_lt_Some _ _ _ Hm) as Hlen.
  assert (Hstart : recordStart (S e)).
  { split; [lia|]. right. by replace (S e - 1)%nat with e by lia. }
  pose proof (upTo_clean (S e) Hstart) as (_ & Hq & _); [lia|].
  assert (Hok : lok (upTo (S (S e + m))) = true) by (apply upTo_ok; lia).
  unfold upTo in Hok, Hq.
  rewrite (slice_snoc _ _ _ NL) in Hok by (lia || done).
  rewrite (slice_split data startIdx (S e) (S e + m)) in Hok by lia.
  rewrite lineRun_snoc, lineRun_app in Hok.
  set (L := slice data (S e) (S e + m)) in *.
  assert (HnoNL : NL ∉ L).
  { subst L. unfold slice. intros Hin.
    apply list_elem_of_lookup in Hin as [j Hj].
    apply lookup_take_Some in Hj as [Hj Hjm].
    apply (Hlow j); [lia|done]. }
  pose proof (run_no_newline L (lineRun (slice data startIdx (S e)) lineInit) HnoNL) as Hrun.
  rewrite Hq in Hrun. cbn [xorb] in Hrun.
  unfold lineStep in Hok.
  rewrite (bool_decide_eq_false_2 (NL = QUOTE)), (bool_decide_eq_true_2 (NL = NL)) in Hok
    by done.
  destruct (linQ (lineRun L _)) eqn:HinQ; cbn [andb negb lok] in Hok.
  { by rewrite andb_false_r in Hok. }
  by apply odd_false_mod.
Qed.

(** On plain input [findSafeRecordBoundary] stops at the first record
    start after the hint. *)
Lemma findSafe_nextStart (hint : nat) :
  (startIdx ≤ hint < length data)%nat →
  findSafeRecordBoundary data hint = nextStart data hint.
Proof.
  intros Hh. unfold findSafeRecordBoundary, nextStart.
  rewrite bool_decide_eq_false_2 by lia.
  destruct (IndexByte (drop hint data) NL) as [n|] eqn:Hn; [|done].
  pose proof Hn as [Hnl _]%IndexByte_Some. rewrite lookup_drop in Hnl.
  pose proof (lookup_lt_Some _ _ _ Hnl) as Hlen.
  rewrite boundaryLoop_first by lia.
  case_bool_decide as Hend; [lia|].
  replace (hint + n + 1)%nat with (S (hint + n)) by lia.
  destruct (IndexByte (drop (S (hint + n)) data) NL) as [m|] eqn:Hm; [|done].
  rewrite bool_decide_eq_true_2; [done|].
  apply record_quotes_even; (done || lia).
Qed.

Section workers.
Variables (sep : byte) (W : nat).
Hypothesis HW : (1 ≤ W)%nat.

Definition bnd (i : nat) : nat := boundary (mkSIMDParser data sep W) startIdx i.

Lemma bnd_0 : bnd 0 = startIdx.
Proof. done. Qed.

Lemma bnd_last (i : nat) : (W ≤ i)%nat → bnd i = length data.
Proof.
  intros Hi. unfold bnd, boundary. cbn [parser.data workers].
  rewrite bool_decide_eq_false_2 by lia. by rewrite bool_decide_eq_true_2.
Qed.

Lemma bnd_inner (i : nat) :
  (0 < i < W)%nat →
  let hint := (startIdx + i * ((length data - startIdx) / W))%nat in
  bnd i = if bool_decide (hint < length data)%nat then nextStart data hint
          else length data.
Proof.
  intros Hi. unfold bnd, boundary. cbn [parser.data workers].
  rewrite !bool_decide_eq_false_2 by lia. cbn zeta.
  case_bool_decide; [|done]. apply findSafe_nextStart. lia.
Qed.

Lemma bnd_start (i : nat) : recordStart (bnd i).
Proof.
  destruct (decide (i = 0)%nat) as [->|Hi0].
  { rewrite bnd_0. split; [lia|]. right. apply Hheader. }
  destruct (decide (W ≤ i)%nat) as [HiW|HiW].
  { rewrite bnd_last by done. split; [lia|by left]. }
  rewrite bnd_inner by lia. cbn zeta. case_bool_decide as Hh.
  - destruct (nextStart_spec data _ Hh) as [Hb Hs]. split; [lia|done].
  - split; [lia|by left].
Qed.

Lemma bnd_mono (i : nat) : (bnd i ≤ bnd (S i))%nat.
Proof.
  destruct (decide (i = 0)%nat) as [->|Hi0].
  { rewrite bnd_0. apply bnd_start. }
  destruct (decide (W ≤ S i)%nat) as [HiW|HiW].
  { rewrite (bnd_last (S i)) by done. apply bnd_start. }
  rewrite !bnd_inner by lia. cbn zeta.
  set (cs := ((length data - startIdx) / W)%nat).
  assert (Hcs : (S i * cs = cs + i * cs)%nat) by lia.
  destruct (decide (startIdx + S i * cs < length data)%nat) as [Hh'|Hh'].
  - rewrite !bool_decide_eq_true_2 by lia. apply nextStart_mono; lia.
  - rewrite (bool_decide_eq_false_2 (startIdx + S i * cs < _)%nat) by done.
    case_bool_decide as Hh; [|done].
    destruct (nextStart_spec data _ Hh) as [? _]. lia.
Qed.

(** Rows before position [b]: the newlines so far, and the last line at
    the end of the file when it has no newline. *)
Definition rowsBefore (b : nat) : nat :=
  (lnls (upTo b) +
   if bool_decide (b = length data) && negb (bool_decide (lcur (upTo (length data)) = []))
   then 1 else 0)%nat.

Lemma rowsBefore_start : rowsBefore startIdx = 0%nat.
Proof.
  unfold rowsBefore, upTo. rewrite slice_empty.
  by rewrite (bool_decide_eq_false_2 (startIdx = _)) by lia.
Qed.

(** What a chunk between two record starts contributes: as many rows, and
    as many counted lines, as lie between them. *)
Lemma chunk_rows (b b' : nat) :
  recordStart b → recordStart b' → (b < b')%nat →
  let chunk := slice data b b' in
  let r0 := lineRun chunk lineInit in
  (length (chunkSpans chunk) + rowsBefore b = rowsBefore b')%nat ∧
  (lnls r0 +
   (if negb (bool_decide (chunk !! (length chunk - 1)%nat = Some NL)) && negb (linQ r0)
    then 1 else 0) + rowsBefore b = rowsBefore b')%nat.
Proof.
  intros Hb Hb' Hlt'. cbn zeta.
  pose proof Hb' as [Hr' _].
  assert (Hclean : clean (upTo b)) by (apply upTo_clean; [done|lia]).
  set (chunk := slice data b b').
  assert (Hlen : length chunk = (b' - b)%nat).
  { subst chunk. unfold slice. rewrite length_take, length_drop. lia. }
  assert (Hup : upTo b' = lineRun chunk (upTo b)).
  { unfold upTo. rewrite (slice_split data startIdx b b') by (destruct Hb; lia).
    apply lineRun_app. }
  destruct (shifted_run chunk (upTo b) Hclean) as (_ & _ & Hc & Hq & _ & Hn & Hok).
  rewrite <- Hup in Hc, Hq, Hn, Hok.
  rewrite (upTo_ok b'), (upTo_ok b) in Hok by (done || by destruct Hb).
  symmetry in Hok. cbn [andb] in Hok.
  destruct (plain_count chunk Hok) as (Hsp & _ & Hcur).
  assert (Hlast : bool_decide (chunk !! (length chunk - 1)%nat = Some NL)
                  = bool_decide (lcur (upTo b') = [])).
  { apply bool_decide_ext. rewrite Hc, Hcur, last_lookup.
    replace (pred (length chunk)) with (length chunk - 1)%nat by lia.
    split; [by right|]. intros [Hnil|H]; [|done].
    rewrite Hnil in Hlen. cbn in Hlen. lia. }
  rewrite Hlast.
  unfold chunkSpans, lastSpan. fold chunk.
  rewrite length_app, Hsp, <- Hc, <- Hq.
  unfold rowsBefore. rewrite (bool_decide_eq_false_2 (b = length data)) by lia.
  cbn [andb]. rewrite Hn.
  destruct (decide (b' = length data)) as [->|Hne].
  - rewrite (bool_decide_eq_true_2 (length data = length data)) by done. cbn [andb].
    destruct whole_ok as (_ & HinQ & Hfin). rewrite HinQ. cbn [negb].
    destruct Hfin as [Hnil|Hnb].
    + rewrite Hnil. rewrite (bool_decide_eq_true_2 ([] = [])) by done. cbn. lia.
    + rewrite Hnb. destruct (bool_decide (lcur (upTo (length data)) = [])); cbn; lia.
  - rewrite (bool_decide_eq_false_2 (b' = length data)) by done. cbn [andb].
    destruct (upTo_clean b' Hb') as (Hnil & HinQ & _); [lia|].
    rewrite Hnil, HinQ. rewrite (bool_decide_eq_true_2 ([] = [])) by done. cbn. lia.
Qed.

Hypothesis Hsep : sep ≠ NL.
Variable indexDefs : list (list nat).

(** The handler calls of the workers before worker [k]. *)
Definition rowsUpTo (k : nat) : list Row :=
  mjoin (workerRows (mkSIMDParser data sep W) startIdx indexDefs <$> seq 0 k).

(** A row of the workers before [k]: its offset lies in the file, its line
    after the header's and within the rows so far. *)
Definition row_ok (k : nat) (r : Row) : Prop :=
  (workerID r < k)%nat ∧
  0 ≤ offset r ≤ Z.of_nat (length data) ∧
  2 ≤ line r < 2 + Z.of_nat (rowsBefore (bnd k)).

Lemma rowsUpTo_S (k : nat) :
  rowsUpTo (S k) =
  rowsUpTo k ++ workerRows (mkSIMDParser data sep W) startIdx indexDefs k.
Proof.
  unfold rowsUpTo. rewrite seq_S, fmap_app, join_app. cbn [fmap list_fmap Nat.add].
  f_equal. apply app_nil_r.
Qed.

Lemma startLineOf_S (k : nat) :
  startLineOf (mkSIMDParser data sep W) startIdx (S k) =
  startLineOf (mkSIMDParser data sep W) startIdx k
  + chunkLines (mkSIMDParser data sep W) startIdx k.
Proof. unfold startLineOf. by rewrite seq_S, foldl_app. Qed.

(** Up to every worker: the rows emitted are the rows before its boundary,
    and its first line number is 2 plus their number. *)
Lemma scan_prefix (k : nat) :
  length (rowsUpTo k) = rowsBefore (bnd k) ∧
  startLineOf (mkSIMDParser data sep W) startIdx k = 2 + Z.of_nat (rowsBefore (bnd k)) ∧
  Forall (row_ok k) (rowsUpTo k).
Proof.
  induction k as [|k (IHlen & IHline & IHrows)].
  - rewrite bnd_0, rowsBefore_start. repeat split; (done || constructor).
  - rewrite rowsUpTo_S, startLineOf_S, length_app, IHlen, IHline.
    unfold workerRows, chunkLines. fold (bnd k) (bnd (S k)). cbn zeta.
    pose proof (bnd_mono k) as Hmono.
    pose proof (bnd_start k) as Hs. pose proof (bnd_start (S k)) as Hs'.
    destruct (decide (bnd (S k) ≤ bnd k)%nat) as [Hle|Hlt'].
    + rewrite !bool_decide_eq_true_2 by done.
      assert (Heq : bnd (S k) = bnd k) by lia. rewrite Heq, app_nil_r.
      split; [cbn; lia|]. split; [lia|].
      eapply Forall_impl; [exact IHrows|].
      intros r (Hw & Ho & Hl). unfold row_ok. rewrite Heq. repeat split; lia.
    + rewrite !bool_decide_eq_false_2 by done.
      destruct (chunk_rows (bnd k) (bnd (S k))) as [Hrows Hlines]; [done|done|lia|].
      assert (Hin : (bnd k < length data)%nat) by (destruct Hs' as [? _]; lia).
      rewrite processChunk_spec by (done || lia).
      rewrite countChunkLines_spec by (done || lia).
      cbn [parser.data separator]. rewrite length_imap.
      split; [lia|]. split.
      { destruct (negb _ && negb _); lia. }
      apply Forall_app. split.
      * eapply Forall_impl; [exact IHrows|].
        intros r (Hw & Ho & Hl). unfold row_ok. repeat split; lia.
      * apply Forall_forall. intros r (j & sp & -> & Hsp)%elem_of_lookup_imap.
        pose proof (lookup_lt_Some _ _ _ Hsp) as Hj.
        pose proof (chunkSpans_bound (slice data (bnd k) (bnd (S k)))) as Hb.
        rewrite Forall_forall in Hb.
        specialize (Hb sp (list_elem_of_lookup_2 _ _ _ Hsp)).
        unfold slice in Hb. rewrite length_take, length_drop in Hb.
        unfold row_ok, rowOf. cbn [workerID offset line].
        destruct Hs' as [? _]. repeat split; lia.
Qed.

End workers.

End plain_input.

End BoundaryFacts.

(** ** Counting all rows: the index directory and the newline count *)

Module CountFacts.
Import index simd parser strings manager query.
Import BloomFacts IndexFileFacts SorterFacts FieldFacts WordFacts LineFacts PlainFacts BoundaryFacts.

Lemma Count_app (a b : list byte) (c : byte) : Count (a ++ b) c = Count a c + Count b c.
Proof. unfold Count. rewrite filter_app, length_app. lia. Qed.

Lemma Count_none (s : list byte) (c : byte) : c ∉ s → Count s c = 0.
Proof.
  intros Hc. unfold Count. rewrite filter_none; [done|].
  intros x Hx ->. done.
Qed.

(** The workers of [runCountAllViaCsv] before the last one count the
    newlines of a prefix of the file. *)
Lemma countChunk_prefix (data : list byte) (workers k : nat) :
  (k < workers)%nat →
  foldl (λ total i, total + countChunk data workers i) 0 (seq 0 k)
  = Count (take (k * (length data / workers)) data) NL.
Proof.
  induction k as [|k IH]; intros Hk; [done|].
  rewrite seq_S, foldl_app. cbn [foldl Nat.add]. rewrite IH by lia.
  unfold countChunk. rewrite bool_decide_eq_false_2 by lia. cbn zeta.
  set (cs := (length data / workers)%nat).
  replace (S k * cs)%nat with (k * cs + cs)%nat by lia.
  rewrite <- take_take_drop, Count_app. unfold slice.
  by replace (k * cs + cs - k * cs)%nat with cs by lia.
Qed.

(** Together they count every newline of the file once. *)
Lemma countChunk_total (data : list byte) (workers : nat) :
  (1 ≤ workers)%nat →
  foldl (λ total i, total + countChunk data workers i) 0 (seq 0 workers)
  = Count data NL.
Proof.
  intros Hw.
  assert (seq 0 workers = seq 0 (workers - 1) ++ [(workers - 1)%nat]) as ->.
  { replace workers with (S (workers - 1)) at 1 by lia. by rewrite seq_S. }
  rewrite foldl_app. cbn [foldl Nat.add]. rewrite countChunk_prefix by lia.
  unfold countChunk. rewrite bool_decide_eq_true_2 by done. cbn zeta.
  rewrite slice_to_end, <- Count_app. by rewrite take_drop.
Qed.

(** The count that [runCountAllViaCsv] prints. *)
Definition newlineCount (data : list byte) : Z :=
  let total := Count data NL in
  let total := if negb (bool_decide (data !! (length data - 1)%nat = Some NL))
               then total + 1 else total in
  if 0 <? total then total - 1 else total.

Lemma runCountAllViaCsv_spec (env : Env) (data : list byte) :
  csvFile env = Some data → (1 ≤ numCPU env)%nat →
  runCountAllViaCsv env = Ok [OutCount (newlineCount data)].
Proof.
  intros Hcsv Hcpu. unfold runCountAllViaCsv. rewrite Hcsv.
  case_bool_decide as Hlen.
  { apply nil_length_inv in Hlen. subst data. done. }
  set (workers := if bool_decide (16 < numCPU env)%nat then 16%nat else numCPU env).
  assert (Hw : (1 ≤ workers)%nat) by (subst workers; case_bool_decide; lia).
  rewrite (bool_decide_eq_false_2 (workers = 0)%nat) by lia.
  rewrite countChunk_total by done. done.
Qed.

(** The header line holds the first newline. *)
Lemma header_count (data : list byte) (nl : nat) :
  IndexByte data NL = Some nl → Count data NL = 1 + Count (drop (S nl) data) NL.
Proof.
  intros [Hnl Hlow]%IndexByte_Some.
  rewrite <- (take_drop (S nl) data) at 1. rewrite Count_app.
  rewrite (take_S_r _ _ NL) by done. rewrite Count_app, Count_none.
  - unfold Count at 1. cbn [filter]. rewrite filter_cons_True by done. done.
  - intros Hin. apply list_elem_of_lookup in Hin as [j Hj].
    apply lookup_take_Some in Hj as [Hj Hjn]. by apply (Hlow j).
Qed.

(** A CSV file is plain when, after the header line, no newline lies
    inside quotes, no line is blank and no quote is left open at the end. *)
Definition plainCsv (data : list byte) : bool :=
  match IndexByte data NL with
  | Some nl => plain (drop (S nl) data)
  | None => true
  end.

(** What the scan emits for a plain file. *)
Definition scanned (data : list byte) (W : nat) (rows : list Row) : Prop :=
  Z.of_nat (length rows) = newlineCount data ∧
  Forall (λ r, (workerID r < W)%nat ∧ 0 ≤ offset r ≤ Z.of_nat (length data)
               ∧ 2 ≤ line r < 2 + Z.of_nat (length data)) rows.

Lemma Scan_plain (data : list byte) (sep : byte) (W : nat) (indexDefs : list (list nat)) :
  plainCsv data = true → sep ≠ NL → (1 ≤ W)%nat →
  scanned data W (parser.Scan (mkSIMDParser data sep W) indexDefs).
Proof.
  intros Hplain Hsep HW. unfold plainCsv in Hplain. unfold parser.Scan, scanned.
  cbn [parser.data workers].
  destruct (IndexByte data NL) as [nl|] eqn:Hidx.
  2:{ split; [|constructor]. apply IndexByte_None in Hidx.
      unfold newlineCount. rewrite Count_none by done.
      destruct (decide (data = [])) as [->|Hne]; [done|].
      rewrite bool_decide_eq_false_2; [done|].
      intros Hl. apply Hidx. by eapply list_elem_of_lookup_2. }
  pose proof Hidx as [Hnl _]%IndexByte_Some.
  pose proof (lookup_lt_Some _ _ _ Hnl) as Hlen.
  unfold newlineCount. rewrite (header_count data nl Hidx).
  case_bool_decide as Hend.
  - split; [|constructor].
    assert (length data = S nl) as Hl by lia.
    rewrite drop_ge by lia. rewrite Hl.
    replace (S nl - 1)%nat with nl by lia.
    rewrite (bool_decide_eq_true_2 (data !! nl = Some NL)) by done. done.
  - assert (Hheader : (0 < S nl)%nat ∧ data !! (S nl - 1)%nat = Some NL).
    { split; [lia|]. by replace (S nl - 1)%nat with nl by lia. }
    assert (Hlt : (S nl < length data)%nat) by lia.
    destruct (scan_prefix data (S nl) Hheader Hlt Hplain sep W HW Hsep indexDefs W)
      as (Hrows & _ & Hok).
    rewrite bnd_last in Hrows by (done || lia).
    unfold rowsUpTo in Hrows, Hok.
    assert (Hmax : (rowsBefore data (S nl) (length data) ≤ length data)%nat).
    { unfold rowsBefore, upTo. rewrite slice_to_end.
      destruct (run_bounds (drop (S nl) data)) as (Hp & _ & Hn & _). cbn zeta in *.
      rewrite Hp, length_drop in Hn.
      destruct (_ && _); lia. }
    split.
    + rewrite Hrows. unfold rowsBefore, upTo. rewrite slice_to_end.
      rewrite (bool_decide_eq_true_2 (length data = length data)) by done. cbn [andb].
      unfold plain, plainEnd in Hplain.
      apply andb_true_iff in Hplain as [H12 _]. apply andb_true_iff in H12 as [Hlok _].
      destruct (plain_count (drop (S nl) data) Hlok) as (_ & Hcount & Hcur).
      cbn zeta in Hcount, Hcur. rewrite <- Hcount.
      assert (Hlast : bool_decide (data !! (length data - 1)%nat = Some NL)
                      = bool_decide (lcur (lineRun (drop (S nl) data) lineInit) = [])).
      { apply bool_decide_ext. rewrite Hcur, last_lookup, length_drop, lookup_drop.
        replace (S nl + pred (length data - S nl))%nat with (length data - 1)%nat by lia.
        split; [by right|]. intros [Hnil|H]; [|done].
        apply (f_equal length) in Hnil. rewrite length_drop in Hnil. cbn in Hnil. lia. }
      rewrite Hlast.
      destruct (bool_decide (lcur _ = [])); cbn [negb].
      * replace (0 <? 1 + Z.of_nat _) with true by (symmetry; apply Z.ltb_lt; lia). lia.
      * replace (0 <? 1 + Z.of_nat _ + 1) with true by (symmetry; apply Z.ltb_lt; lia). lia.
    + eapply Forall_impl; [exact Hok|].
      intros r (Hw & Ho & Hl). rewrite bnd_last in Hl by (done || lia).
      repeat split; lia.
Qed.

(** The records that the handler makes of the rows for index [i]. *)
Definition recordsOf (i : nat) (rows : list Row) : list IndexRecord :=
  (λ r, {| Key := copyKey (default [] (keys r !! i));
           types.Offset := offset r; Line := line r |}) <$> rows.

Lemma copyKey_length (key : list byte) : length (copyKey key) = KeySize.
Proof. unfold copyKey, KeySize. rewrite length_app, length_take, length_replicate. lia. Qed.

Lemma filter_split {A} (P Q R : A → Prop)
    `{∀ x, Decision (P x)} `{∀ x, Decision (Q x)} `{∀ x, Decision (R x)} (l : list A) :
  (∀ x, R x ↔ P x ∨ Q x) → (∀ x, P x → Q x → False) →
  filter P l ++ filter Q l ≡ₚ filter R l.
Proof.
  intros HR Hdis. induction l as [|x l IH]; [done|].
  rewrite !filter_cons.
  destruct (decide (P x)) as [HP|HP], (decide (Q x)) as [HQ|HQ],
    (decide (R x)) as [Hr|Hr];
    try (exfalso; by eauto); try (exfalso; apply Hr, HR; by eauto);
    try (exfalso; apply HR in Hr as [?|?]; by eauto).
  - cbn [app]. by constructor.
  - rewrite <- Permutation_middle. by constructor.
  - done.
Qed.

Lemma filter_all {A} (P : A → Prop) `{∀ x, Decision (P x)} (l : list A) :
  Forall P l → filter P l = l.
Proof.
  induction 1 as [|x l Hx _ IH]; [done|]. rewrite filter_cons_True by done. by f_equal.
Qed.

(** Batching by worker only reorders the records. *)
Lemma batches_perm {A} (f : list A → nat) (ls : list (list A)) :
  mjoin ((λ l, take (f l) l) <$> ls) ++ mjoin ((λ l, drop (f l) l) <$> ls) ≡ₚ mjoin ls.
Proof.
  induction ls as [|l ls IH]; [done|]. cbn [fmap list_fmap mjoin list_join].
  rewrite <- (take_drop (f l) l) at 5. rewrite <- IH, <- !app_assoc.
  apply Permutation_app_head. rewrite !app_assoc. apply Permutation_app_tail.
  apply Permutation_app_comm.
Qed.

Lemma workers_perm (rows : list Row) (W i k : nat) :
  mjoin (workerRecords rows W i <$> seq 0 k)
  ≡ₚ recordsOf i (filter (λ r, (workerID r < k)%nat ∧ (workerID r < W)%nat) rows).
Proof.
  induction k as [|k IH].
  - cbn. rewrite filter_none; [done|]. intros r _ [? _]. lia.
  - rewrite seq_S, fmap_app, join_app, IH. cbn [fmap list_fmap mjoin list_join Nat.add].
    rewrite app_nil_r. unfold workerRecords, recordsOf. rewrite <- fmap_app.
    apply fmap_Permutation. apply filter_split.
    + intros r. lia.
    + intros r. lia.
Qed.

Lemma arrivals_perm (rows : list Row) (W i : nat) :
  Forall (λ r, (workerID r < W)%nat) rows → arrivals rows W i ≡ₚ recordsOf i rows.
Proof.
  intros Hrows. unfold arrivals. cbn zeta.
  rewrite (batches_perm (λ recs, (length recs / batchSize * batchSize)%nat)).
  rewrite workers_perm. rewrite filter_all; [done|].
  eapply Forall_impl; [exact Hrows|]. intros r Hr. cbn beta in *. lia.
Qed.

(** The directory of an index file counts its records. *)
Lemma sumRecordCounts_blocks `{Lz4} (file : list byte) (blocks : list BlockMeta)
    (batches : list (list IndexRecord)) (total : Z) :
  Forall2 (block_stored file) blocks batches →
  0 <= total → total + Z.of_nat (length (concat batches)) < 2 ^ 63 →
  sumRecordCounts blocks total = Some (total + Z.of_nat (length (concat batches))).
Proof.
  intros Hb. revert total.
  induction Hb as [|meta b blocks batches (Hne & Hcount & _) _ IH];
    intros total Hpos Hsum; cbn [sumRecordCounts concat] in *.
  - f_equal. cbn. lia.
  - rewrite Hcount. rewrite length_app in Hsum.
    destruct b as [|first rest]; [done|].
    replace (Z.of_nat (length (first :: rest)) =? 0) with false
      by (symmetry; apply Z.eqb_neq; cbn [length]; lia).
    rewrite int64_small by (unfold is_int64; lia).
    rewrite IH, length_app by lia. f_equal. lia.
Qed.

(** The index file of the records [recs]: when there are none the file is
    empty and does not open as an index; otherwise its directory counts
    them. *)
Lemma index_counts `{Lz4} `{Json} `{Crc32} `{SortFunc} memoryLimit bloom0 recs :
  Forall wf_record recs → from_option wf_bloom True bloom0 →
  Z.of_nat (length recs) < 2 ^ 63 →
  ∃ distinct file bloom',
    Finalize (foldl SorterAdd (NewSorter memoryLimit bloom0) recs)
      = Ok (distinct, file, bloom') ∧
    (Z.of_nat (length file) < 2 ^ 63 →
     match NewBlockReader file with
     | Ok br => recs ≠ [] ∧
                sumRecordCounts (Blocks (Footer br)) 0 = Some (Z.of_nat (length recs))
     | Err => recs = []
     | _ => False
     end).
Proof.
  intros Hwf Hbloom Hmany. destruct (decide (recs = [])) as [->|Hne].
  { exists 0, [], bloom0. split; [done|]. intros _. done. }
  destruct (Finalize_ok memoryLimit bloom0 recs Hne Hwf Hbloom)
    as (distinct & bloom' & bw & out & Hfin & Hrepr & Hperm & _).
  exists distinct, (w (Close bw)), bloom'. split; [done|]. intros Hsize.
  destruct (Close_decode bw out Hrepr Hsize)
    as (br & batches & -> & _ & _ & Hconcat & _ & Hblocks).
  split; [done|].
  rewrite (sumRecordCounts_blocks _ _ _ _ Hblocks), Hconcat;
    rewrite ?Hconcat, ?(Permutation_length Hperm); [done|lia|lia].
Qed.

(** The index file that [tryCountFromIndex] opens: the first match of the
    pattern. *)
Definition countedIndex (q : QueryEngine) (env : Env) : option (list byte) :=
  let csvBase := Base (CsvPath (config q)) in
  let csvBase := TrimSuffix csvBase (Ext csvBase) in
  first ← head (Glob (indexFiles env) csvBase);
  indexFiles env !! first.

Lemma tryCountFromIndex_file `{Json} (q : QueryEngine) (env : Env) (file : list byte) :
  IndexDir (config q) ≠ [] → countedIndex q env = Some file →
  tryCountFromIndex q env =
  match NewBlockReader file with
  | Ok br => Ok (sumRecordCounts (Blocks (Footer br)) 0)
  | Err => Ok None
  | Panic => Panic
  | OutOfFuel => OutOfFuel
  end.
Proof.
  intros Hdir Hfile. unfold tryCountFromIndex, countedIndex in *.
  rewrite bool_decide_eq_false_2 by done. cbn zeta in *.
  destruct (Glob _ _) as [|first rest]; [done|]. cbn in Hfile. by rewrite Hfile.
Qed.

End CountFacts.

(** ** C6: the count of all rows, from the index and from the CSV *)

Module CountClaim.
Import index parser strings manager query Reference.
Import BlockFacts BloomFacts BoundaryFacts CountFacts.

(** Spec side: the newlines of [s] that lie inside quotes, every quote
    byte opening or closing a quoted field. *)
Fixpoint quotedNewlines (inQuote : bool) (s : list byte) : nat :=
  match s with
  | [] => 0
  | b :: s' =>
      if bool_decide (b = QUOTE) then quotedNewlines (negb inQuote) s'
      else if bool_decide (b = NL) && inQuote then S (quotedNewlines inQuote s')
      else quotedNewlines inQuote s'
  end.

(** A file with a blank line, and a file whose last line opens a quote
    that is never closed. *)
Definition blank_line_csv : list byte := bs "a" ++ [NL] ++ [NL] ++ bs "1" ++ [NL].
Definition open_quote_csv : list byte :=
  bs "a" ++ [NL] ++ bs "1" ++ [NL] ++ [QUOTE] ++ bs "x".

Definition column_a : IndexerConfig :=
  {| InputFile := bs "t.csv"; colDefs := [[bs "a"]]; Separator := COMMA;
     Workers := 1; MemoryMB := 64; BloomFPRate := None |}.

(** The CSV [csv] with the index that [IndexManager.Run] builds of it. *)
Definition indexed_env (csv : list byte) : Env :=
  {| csvFile := Some csv; sidecar := Absent;
     indexFiles := match manager.Run column_a csv 4 with
                   | Ok files => files
                   | _ => ∅
                   end;
     getHeaderMap := Ok (headerMapOf [bs "a"], []);
     numCPU := 4 |}.

Definition count_all : QueryConfig :=
  {| CsvPath := bs "t.csv"; IndexDir := bs "idx"; GroupBy := []; AggCol := [];
     AggFunc := []; CountOnly := true; Limit := 0; Offset := 0; Explain := false |}.

Definition count_engine (env : Env) : QueryEngine := NewQueryEngine count_all env.

(** C6, as stated, fails. Neither file has a newline inside quotes, yet
    the two counts differ: the scan skips the blank line, and drops the
    last line whose quote stays open, while the fallback counts both. *)
Lemma C6_blank_line_counts_differ :
  (quotedNewlines false blank_line_csv = 0%nat ∧
   tryCountFromIndex (count_engine (indexed_env blank_line_csv))
     (indexed_env blank_line_csv) = Ok (Some 1) ∧
   runCountAll (count_engine (indexed_env blank_line_csv))
     (indexed_env blank_line_csv) = Ok [OutCount 1] ∧
   runCountAllViaCsv (indexed_env blank_line_csv) = Ok [OutCount 2]) ∧
  (quotedNewlines false open_quote_csv = 0%nat ∧
   tryCountFromIndex (count_engine (indexed_env open_quote_csv))
     (indexed_env open_quote_csv) = Ok (Some 1) ∧
   runCountAll (count_engine (indexed_env open_quote_csv))
     (indexed_env open_quote_csv) = Ok [OutCount 1] ∧
   runCountAllViaCsv (indexed_env open_quote_csv) = Ok [OutCount 2]).
Proof. repeat split; by vm_compute. Qed.

(** Neither of the two files is plain. *)
Example blank_line_not_plain :
  plainCsv blank_line_csv = false ∧ plainCsv open_quote_csv = false.
Proof. split; by vm_compute. Qed.

(** C6, amended. Take a CSV file that is plain: after the header line no
    newline lies inside quotes, no line is blank (empty, or a lone carriage
    return) and no quote is left open at the end of the file. Scan it with
    any number of workers and a separator other than the newline, and let
    the records of one of its indexes reach the sorter in any order. Then the index
    file is written; and when the count of all rows finds this file in the
    index directory, the count it prints and the count that the fallback
    prints from the newlines of the CSV are both the number of records.
    With at least one record the count is the sum over the directory of the
    index file. (The CSV is supposed shorter than 2^62 bytes, the index file
    shorter than 2^63.) *)
Theorem C6_count_all_index_equals_newline_count
    {lz : Lz4} {js : Json} {crc : Crc32} {srt : SortFunc}
    (data : list byte) (sep : byte) (W : nat) (indexDefs : list (list nat)) (i : nat)
    (memoryLimit : Z) (bloom0 : option BloomFilter) (recs : list IndexRecord)
    (q : QueryEngine) (env : Env) :
  plainCsv data = true → sep ≠ NL → (1 ≤ W)%nat →
  Z.of_nat (length data) < 2 ^ 62 →
  (i < length indexDefs)%nat →
  from_option wf_bloom True bloom0 →
  recs ≡ₚ arrivals (parser.Scan (mkSIMDParser data sep W) indexDefs) W i →
  csvFile env = Some data → (1 ≤ numCPU env)%nat →
  ∃ distinct file bloom',
    Finalize (foldl SorterAdd (NewSorter memoryLimit bloom0) recs)
      = Ok (distinct, file, bloom') ∧
    (Z.of_nat (length file) < 2 ^ 63 →
     IndexDir (config q) ≠ [] → countedIndex q env = Some file →
     runCountAll q env = Ok [OutCount (Z.of_nat (length recs))] ∧
     runCountAllViaCsv env = Ok [OutCount (Z.of_nat (length recs))] ∧
     (recs ≠ [] → tryCountFromIndex q env = Ok (Some (Z.of_nat (length recs))))).
Proof.
  intros Hplain Hsep HW Hlen _ Hbloom Hperm Hcsv Hcpu.
  destruct (Scan_plain data sep W indexDefs Hplain Hsep HW) as [Hn Hrows].
  set (rows := parser.Scan (mkSIMDParser data sep W) indexDefs) in *.
  assert (Hperm' : recs ≡ₚ recordsOf i rows).
  { rewrite Hperm. apply arrivals_perm.
    eapply Forall_impl; [exact Hrows|]. by intros r (? & _). }
  assert (Hwf : Forall wf_record recs).
  { eapply Permutation_Forall; [symmetry; exact Hperm'|].
    unfold recordsOf. apply Forall_fmap.
    eapply Forall_impl; [exact Hrows|]. intros r (_ & Ho & Hl).
    split; [apply copyKey_length|]. unfold is_int64. cbn. lia. }
  assert (Hcnt : Z.of_nat (length recs) = newlineCount data).
  { rewrite (Permutation_length Hperm'). unfold recordsOf. by rewrite length_fmap. }
  assert (Hmany : Z.of_nat (length recs) < 2 ^ 63).
  { rewrite Hcnt. unfold newlineCount, Count.
    pose proof (length_filter (λ b, b = NL) data).
    repeat case_match; lia. }
  destruct (index_counts memoryLimit bloom0 recs Hwf Hbloom Hmany)
    as (distinct & file & bloom' & Hfin & Hidx).
  exists distinct, file, bloom'. split; [done|]. intros Hsize Hdir Hfile.
  specialize (Hidx Hsize).
  rewrite (runCountAllViaCsv_spec env data Hcsv Hcpu), <- Hcnt.
  unfold runCountAll. rewrite (tryCountFromIndex_file q env file Hdir Hfile).
  destruct (NewBlockReader file) as [br| | |]; [| |done|done].
  - destruct Hidx as [_ ->]. done.
  - cbn [mbind result_bind].
    by rewrite (runCountAllViaCsv_spec env data Hcsv Hcpu), <- Hcnt.
Qed.

(** Three rows, the last one without a newline, scanned by two workers. *)
Definition three_rows_csv : list byte :=
  bs "a,b" ++ [NL] ++ bs "1,x" ++ [NL] ++ bs "2,y" ++ [NL] ++ bs "3,z".

Definition three_rows_recs : list IndexRecord :=
  arrivals (parser.Scan (mkSIMDParser three_rows_csv COMMA 2) [[0%nat]]) 2 0.

Definition three_rows_index : list byte :=
  match Finalize (foldl SorterAdd (NewSorter (10 * 1024 * 1024) None) three_rows_recs) with
  | Ok (_, file, _) => file
  | _ => []
  end.

Definition three_rows_env : Env :=
  {| csvFile := Some three_rows_csv; sidecar := Absent;
     indexFiles := {[ bs "t_a.cidx" := three_rows_index ]};
     getHeaderMap := Ok (headerMapOf [bs "a"; bs "b"], []);
     numCPU := 4 |}.

Lemma C6_count_all_index_equals_newline_count_witness :
  tryCountFromIndex (count_engine three_rows_env) three_rows_env = Ok (Some 3) ∧
  runCountAll (count_engine three_rows_env) three_rows_env = Ok [OutCount 3] ∧
  runCountAllViaCsv three_rows_env = Ok [OutCount 3].
Proof.
  destruct (C6_count_all_index_equals_newline_count
              (lz := stored_lz4) (js := json_reference) (crc := crc32_reference)
              (srt := sort_reference)
              three_rows_csv COMMA 2 [[0%nat]] 0 (10 * 1024 * 1024) None three_rows_recs
              (count_engine three_rows_env) three_rows_env)
    as (distinct & file & bloom' & Hfin & Hcount).
  - reflexivity.
  - discriminate.
  - lia.
  - vm_compute. reflexivity.
  - cbn. lia.
  - exact I.
  - reflexivity.
  - reflexivity.
  - cbn. lia.
  - assert (Hfile : three_rows_index = file).
    { unfold three_rows_index. by rewrite Hfin. }
    destruct Hcount as (Hall & Hcsv & Hidx).
    + rewrite <- Hfile. vm_compute. reflexivity.
    + discriminate.
    + rewrite <- Hfile. vm_compute. reflexivity.
    + assert (Hne : three_rows_recs ≠ []) by (vm_compute; discriminate).
      assert (Hlen : Z.of_nat (length three_rows_recs) = 3) by (vm_compute; reflexivity).
      rewrite Hlen in Hall, Hcsv, Hidx. auto.
Defined.

End CountClaim.
(** * Part III: further properties of the code *)

(** ** The record codec in batches, and the layout of an index file *)

Module LayoutFacts.
Import index BlockFacts BloomFacts IndexFileFacts Reference.

Lemma decode_batch (recs : list IndexRecord) (rest : list byte) :
  Forall wf_record recs →
  (λ i, decodeRecord (take RecordSize (drop (i * RecordSize) (WriteBatchRecords recs ++ rest))))
    <$> seq 0 (length recs) = recs.
Proof.
  induction 1 as [|rec recs Hrec _ IH]; [done|].
  cbn [length seq fmap list_fmap]. f_equal.
  - change (0 * RecordSize)%nat with 0%nat. rewrite drop_0.
    rewrite WriteBatchRecords_cons, <- app_assoc.
    rewrite take_app_length' by (by rewrite encodeRecord_length).
    by apply decode_encodeRecord.
  - rewrite <- fmap_S_seq, <- list_fmap_compose. rewrite <- IH at 2.
    apply list_fmap_ext. intros _ i _. cbn [compose].
    rewrite WriteBatchRecords_cons, <- app_assoc.
    replace (S i * RecordSize)%nat with (RecordSize + i * RecordSize)%nat by lia.
    rewrite <- drop_drop. rewrite drop_app_length' by (by rewrite encodeRecord_length).
    done.
Qed.

(** X1. A batch written by [WriteBatchRecords] is read back by
    [ReadBatchRecords] with the same count: the same records, and the
    reader is left at the byte after the batch. With fewer bytes than the
    count asks for, the call fails and returns no record. *)
Theorem ReadBatchRecords_roundtrip (recs : list IndexRecord) (rest : list byte) :
  Forall wf_record recs → (Z.of_nat (length recs) + 1) * 80 < 2 ^ 63 →
  ReadBatchRecords (Stream (WriteBatchRecords recs ++ rest)) (Z.of_nat (length recs))
    = Ok (recs, Stream rest) ∧
  ReadBatchRecords (Stream (WriteBatchRecords recs)) (Z.of_nat (length recs) + 1) = Err.
Proof.
  intros Hwf Hsmall.
  pose proof (WriteBatchRecords_length recs Hwf) as Hlen. unfold RecordSize in Hlen.
  split.
  - unfold ReadBatchRecords. change (Z.of_nat RecordSize) with 80.
    rewrite int64_small by (unfold is_int64; lia).
    destruct (Z.ltb_spec (Z.of_nat (length recs) * 80) 0) as [|_]; [lia|].
    replace (Z.to_nat (Z.of_nat (length recs) * 80)) with (80 * length recs)%nat by lia.
    assert (Hbuf : (if bool_decide (80 * length recs = 0)%nat
                    then Some ([], Stream (WriteBatchRecords recs ++ rest))
                    else if decide (length (WriteBatchRecords recs ++ rest)
                                    < 80 * length recs)%nat then None
                         else Some (take (80 * length recs) (WriteBatchRecords recs ++ rest),
                                    Stream (drop (80 * length recs)
                                              (WriteBatchRecords recs ++ rest))))
                   = Some (WriteBatchRecords recs, Stream rest)).
    { case_bool_decide as Hz.
      - destruct recs; [done|]. cbn [length] in Hz. lia.
      - rewrite decide_False by (rewrite length_app; lia).
        rewrite take_app_length', drop_app_length' by lia. done. }
    rewrite Hbuf.
    destruct (Z.ltb_spec (Z.of_nat (length recs)) 0) as [|_]; [lia|].
    rewrite Z.eqb_refl. cbn [orb negb]. rewrite Nat2Z.id. do 2 f_equal.
    rewrite <- (decode_batch recs []) at 2 by done. by rewrite app_nil_r.
  - unfold ReadBatchRecords. change (Z.of_nat RecordSize) with 80.
    rewrite int64_small by (unfold is_int64; lia).
    destruct (Z.ltb_spec ((Z.of_nat (length recs) + 1) * 80) 0) as [|_]; [lia|].
    rewrite bool_decide_eq_false_2 by lia.
    rewrite decide_True by lia. done.
Qed.

Lemma ReadBatchRecords_roundtrip_witness :
  ReadBatchRecords
    (Stream (WriteBatchRecords [sample_record "Eng" 13 2; sample_record "Sales" 25 (-3)]
             ++ bs "tail")) 2
    = Ok ([sample_record "Eng" 13 2; sample_record "Sales" 25 (-3)], Stream (bs "tail")) ∧
  ReadBatchRecords
    (Stream (WriteBatchRecords [sample_record "Eng" 13 2; sample_record "Sales" 25 (-3)]))
    (2 + 1) = Err.
Proof.
  apply (ReadBatchRecords_roundtrip
           [sample_record "Eng" 13 2; sample_record "Sales" 25 (-3)] (bs "tail")).
  - repeat constructor; vm_compute; congruence.
  - vm_compute. reflexivity.
Defined.

(** [l] cut into consecutive groups of [n] elements; the last group may be
    shorter. *)
Fixpoint chunksFuel {A} (fuel n : nat) (l : list A) : list (list A) :=
  match fuel with
  | O => []
  | S fuel' =>
      match l with
      | [] => []
      | _ :: _ => take n l :: chunksFuel fuel' n (drop n l)
      end
  end.

Definition chunksOf {A} (n : nat) (l : list A) : list (list A) :=
  chunksFuel (length l) n l.

(** Group sizes: [n] for every group but the last, which has between 1 and
    [n] elements. *)
Fixpoint groupedLens (n : nat) (lens : list nat) : Prop :=
  match lens with
  | [] => True
  | x :: rest =>
      match rest with
      | [] => (0 < x ≤ n)%nat
      | _ :: _ => x = n ∧ groupedLens n rest
      end
  end.

Lemma groupedLens_app (n : nat) (full last : list nat) :
  (0 < n)%nat → Forall (λ x, x = n) full →
  (last = [] ∨ ∃ x, last = [x] ∧ (0 < x ≤ n)%nat) →
  groupedLens n (full ++ last).
Proof.
  intros Hn Hfull Hlast. induction Hfull as [|x full -> _ IH].
  - destruct Hlast as [->|(x & -> & Hx)]; [done|]. exact Hx.
  - cbn [app groupedLens]. destruct (full ++ last) as [|y rest] eqn:E; [lia|].
    split; [done|]. exact IH.
Qed.

Lemma groupedLens_pos (n : nat) (lens : list nat) :
  (0 < n)%nat → groupedLens n lens → Forall (λ x, (0 < x ≤ n)%nat) lens.
Proof.
  intros Hn. induction lens as [|x [|y rest] IH]; intros Hg; [constructor| |].
  - constructor; [exact Hg|constructor].
  - destruct Hg as [-> Hg]. constructor; [lia|by apply IH].
Qed.

Lemma chunks_unique {A} (n : nat) (batches : list (list A)) (fuel : nat) :
  (0 < n)%nat → groupedLens n (length <$> batches) →
  (length (concat batches) ≤ fuel)%nat →
  chunksFuel fuel n (concat batches) = batches.
Proof.
  intros Hn. revert fuel. induction batches as [|b batches IH]; intros fuel Hg Hfuel.
  { by destruct fuel. }
  pose proof (groupedLens_pos n _ Hn Hg) as Hpos.
  cbn [fmap list_fmap] in Hpos. apply Forall_cons in Hpos as [Hb _].
  cbn [concat] in *. rewrite length_app in Hfuel.
  destruct fuel as [|fuel]; [lia|]. cbn [chunksFuel].
  destruct (b ++ concat batches) as [|x l] eqn:E.
  { apply (f_equal length) in E. rewrite length_app in E. cbn [length] in E. lia. }
  rewrite <- E. clear E x l.
  destruct batches as [|b' batches].
  - cbn [concat]. rewrite app_nil_r.
    rewrite take_ge, drop_ge by lia. f_equal. by destruct fuel.
  - destruct Hg as [Hlen Hg].
    rewrite take_app_length', drop_app_length' by done.
    f_equal. apply IH; [exact Hg|lia].
Qed.

(** The block writer between two records: every block of the directory
    holds 820 records, fewer are waiting in the buffer, and [currentSize]
    is their size. *)
Definition layout_inv (bw : BlockWriter) : Prop :=
  Forall (λ m, RecordCount m = 820) (Blocks (sparseIndex bw)) ∧
  (length (buffer bw) < 820)%nat ∧
  currentSize bw = 80 * Z.of_nat (length (buffer bw)).

Lemma WriteRecord_layout `{Lz4} (bw : BlockWriter) (rec : IndexRecord) :
  layout_inv bw → wf_record rec → layout_inv (WriteRecord bw rec).
Proof.
  intros (Hblocks & Hbuf & Hsize) (Hkey & _). unfold WriteRecord.
  cbn [currentSize]. rewrite Hkey, Hsize. unfold BlockTargetSize, KeySize.
  destruct (Z.leb_spec (64 * 1024) (80 * Z.of_nat (length (buffer bw)) + Z.of_nat 64 + 16))
    as [Hfull|Hroom].
  - unfold FlushBlock. cbn [buffer].
    destruct (buffer bw ++ [rec]) as [|first rest] eqn:E.
    { by apply app_nil in E as [_ ?]. }
    rewrite <- E. split; [|split; [cbn; lia|done]].
    cbn [sparseIndex Blocks]. apply Forall_app. split; [done|].
    constructor; [|constructor]. cbn [RecordCount].
    rewrite length_app. cbn [length]. lia.
  - split; [done|]. cbn [buffer currentSize]. rewrite length_app. cbn [length].
    split; lia.
Qed.

Lemma writes_layout `{Lz4} (recs : list IndexRecord) : ∀ bw out,
  layout_inv bw → bw_repr bw out → Forall wf_record recs →
  layout_inv (foldl WriteRecord bw recs) ∧ bw_repr (foldl WriteRecord bw recs) (out ++ recs).
Proof.
  induction recs as [|rec recs IH]; intros bw out Hl Hr Hwf.
  - by rewrite app_nil_r.
  - apply Forall_cons in Hwf as [Hrec Hwf]. cbn [foldl].
    replace (out ++ rec :: recs) with ((out ++ [rec]) ++ recs) by (by rewrite <- app_assoc).
    apply IH; [by apply WriteRecord_layout|by apply WriteRecord_repr|done].
Qed.

(** X2. The layout of an index file. The records given to a block writer
    are stored in blocks of exactly 820 records, in the order in which they
    were written; only the last block may hold fewer. So the file decodes
    to the records cut into groups of 820 (reading the file back supposes
    that it is shorter than 2^63 bytes). *)
Theorem index_blocks_of_820 {lz : Lz4} {js : Json} (recs : list IndexRecord) :
  Forall wf_record recs →
  Z.of_nat (length (w (Close (foldl WriteRecord (NewBlockWriter []) recs)))) < 2 ^ 63 →
  decodeIndex (w (Close (foldl WriteRecord (NewBlockWriter []) recs)))
    = Ok (chunksOf 820 recs).
Proof.
  intros Hwf Hsize.
  destruct (writes_layout recs (NewBlockWriter []) []) as [(Hblocks & Hbuf & _) Hrepr];
    [split; [constructor|split; [cbn; lia|done]]|apply NewBlockWriter_repr|done|].
  cbn [app] in Hrepr. set (bw := foldl WriteRecord (NewBlockWriter []) recs) in *.
  destruct (Close_decode bw recs Hrepr Hsize)
    as (br & batches & Hnew & Hfooter & Hread & Hconcat & _ & Hok).
  unfold decodeIndex. rewrite Hnew. cbn [mbind result_bind]. rewrite Hread. f_equal.
  unfold chunksOf. rewrite <- Hconcat. symmetry. apply chunks_unique; [lia| |done].
  assert (Hlens : length <$> batches = (λ m, Z.to_nat (RecordCount m)) <$> Blocks (Footer br)).
  { clear -Hok. induction Hok as [|m b ms bs (_ & Hc & _) _ IH]; [done|].
    cbn [fmap list_fmap]. rewrite IH, Hc. f_equal. lia. }
  rewrite Hlens, Hfooter.
  replace ((λ m, Z.to_nat (RecordCount m)) <$> (jsonMeta <$> Blocks (sparseIndex (FlushBlock bw))))
    with ((λ m, Z.to_nat (RecordCount m)) <$> Blocks (sparseIndex (FlushBlock bw)))
    by (by rewrite <- list_fmap_compose).
  unfold FlushBlock.
  destruct (buffer bw) as [|first rest] eqn:Hb.
  - rewrite <- (app_nil_r (_ <$> _)). apply groupedLens_app; [lia| |by left].
    apply Forall_fmap. eapply Forall_impl; [exact Hblocks|].
    intros m Hm. cbn. rewrite Hm. done.
  - cbn [sparseIndex Blocks]. rewrite fmap_app. apply groupedLens_app; [lia| |].
    + apply Forall_fmap. eapply Forall_impl; [exact Hblocks|].
      intros m Hm. cbn. rewrite Hm. done.
    + right. eexists. split; [reflexivity|]. cbn [RecordCount].
      cbn [length] in *. lia.
Qed.

Lemma index_blocks_of_820_witness :
  decodeIndex
    (w (Close (foldl WriteRecord (NewBlockWriter [])
                 [sample_record "Eng" 13 2; sample_record "Sales" 25 (-3)])))
    = Ok (chunksOf 820 [sample_record "Eng" 13 2; sample_record "Sales" 25 (-3)]).
Proof.
  apply (index_blocks_of_820 (lz := stored_lz4) (js := json_reference)
           [sample_record "Eng" 13 2; sample_record "Sales" 25 (-3)]).
  - repeat constructor; vm_compute; congruence.
  - vm_compute. reflexivity.
Defined.

Lemma readFullAt_tail (file : list byte) :
  (8 ≤ length file)%nat →
  readFullAt file (Z.of_nat (length file) - 8) 8 = Ok (drop (length file - 8) file).
Proof.
  intros Hlen. unfold readFullAt.
  destruct (Z.ltb_spec (Z.of_nat (length file) - 8) 0) as [|_]; [lia|].
  cbn [Z.ltb Z.compare].
  replace (Z.to_nat (Z.of_nat (length file) - 8)) with (length file - 8)%nat by lia.
  rewrite take_ge by (rewrite length_drop; lia).
  rewrite decide_True by (rewrite length_drop; lia). done.
Qed.

(** X3. Opening a damaged index file. [NewBlockReader] returns an error
    for a file shorter than 8 bytes (the empty file among them) and for a
    file whose last 8 bytes announce a directory longer than what precedes
    them. When these 8 bytes are a number from -8 to -1, the second seek
    lands within the last 8 bytes of the file and succeeds, and the
    function does not return: it panics on [make([]byte, footerLen)]. (For
    a number below -8 the seek goes past the end of the file, and whether
    it succeeds depends on the file system.) *)
Theorem NewBlockReader_damaged {js : Json} (file : list byte) :
  let footerLen := int64 (Uint64 (drop (length file - 8) file)) in
  ((length file < 8)%nat → NewBlockReader file = Err) ∧
  ((8 ≤ length file)%nat → Z.of_nat (length file) - 8 < footerLen →
   NewBlockReader file = Err) ∧
  ((8 ≤ length file)%nat → - 8 <= footerLen < 0 → NewBlockReader file = Panic).
Proof.
  cbn zeta. split; [|split].
  - intros Hshort. unfold NewBlockReader, readFullAt.
    destruct (Z.ltb_spec (Z.of_nat (length file) - 8) 0) as [_|]; [done|lia].
  - intros Hlen Hbig. unfold NewBlockReader. rewrite readFullAt_tail by done.
    cbn [mbind result_bind]. unfold readFullAt.
    destruct (Z.ltb_spec (Z.of_nat (length file)
                - (8 + int64 (Uint64 (drop (length file - 8) file)))) 0) as [_|]; [done|lia].
  - intros Hlen Hneg. unfold NewBlockReader. rewrite readFullAt_tail by done.
    cbn [mbind result_bind]. unfold readFullAt.
    destruct (Z.ltb_spec (Z.of_nat (length file)
                - (8 + int64 (Uint64 (drop (length file - 8) file)))) 0) as [|_]; [lia|].
    destruct (Z.ltb_spec (int64 (Uint64 (drop (length file - 8) file))) 0) as [_|]; [done|lia].
Qed.

(** Three damaged files: four bytes, eight bytes that announce a directory
    of 255 bytes, and eight bytes that announce a length of -1. *)
Lemma NewBlockReader_damaged_witness :
  NewBlockReader (bs "CIDX") = Err ∧
  NewBlockReader (replicate 7 NUL ++ ["255"%byte]) = Err ∧
  NewBlockReader (replicate 8 "255"%byte) = Panic.
Proof.
  split; [|split].
  - destruct (NewBlockReader_damaged (js := json_reference) (bs "CIDX")) as (H & _ & _).
    apply H. cbn. lia.
  - destruct (NewBlockReader_damaged (js := json_reference)
                (replicate 7 NUL ++ ["255"%byte])) as (_ & H & _).
    apply H; [cbn; lia|vm_compute; reflexivity].
  - destruct (NewBlockReader_damaged (js := json_reference) (replicate 8 "255"%byte))
      as (_ & _ & H).
    apply H; [cbn; lia|vm_compute; split; congruence].
Defined.

End LayoutFacts.

(** ** More on the bloom filter *)

Module BloomMore.
Import index BloomFacts.

(** What [NewBloomFilter] returns: no bit set, no key counted, and at
    least one hash. *)
Lemma NewBloomFilter_fresh `{Float64Ops} n fpRate bf :
  NewBloomFilter n fpRate = Ok bf →
  1 <= hashCount bf ∧ count bf = 0 ∧ bits bf = replicate (length (bits bf)) NUL.
Proof.
  unfold NewBloomFilter.
  set (m := int64 (Z.quot (int64 ((if int64 (bloom_m _ fpRate) <? 1024 then 1024
                                   else int64 (bloom_m _ fpRate)) + 7)) 8 * 8)).
  set (k0 := int64 (bloom_k m _)).
  destruct (Z.ltb_spec (Z.quot m 8) 0); [discriminate|].
  intros [= <-]. cbn [bits hashCount count]. split; [|split; [done|]].
  - destruct (Z.ltb_spec k0 1); [done|]. destruct (Z.ltb_spec 10 k0); lia.
  - by rewrite length_replicate.
Qed.

Lemma bitIsZero_clear (bits : list byte) (pos : Z) :
  0 <= pos < 8 * Z.of_nat (length bits) → bits = replicate (length bits) NUL →
  bitIsZero bits pos = Ok true.
Proof.
  intros Hpos Hz. destruct (pos_split pos ltac:(lia)) as (Hq & Hr & Hq0 & Hr0).
  unfold bitIsZero. rewrite Hq, Hr.
  destruct (Z.ltb_spec (pos / 8) 0); [lia|].
  destruct (Z.ltb_spec (pos mod 8) 0); [lia|]. cbn [orb].
  assert (Hlt : (Z.to_nat (pos / 8) < length bits)%nat).
  { assert (pos / 8 < Z.of_nat (length bits)) by (apply Z.div_lt_upper_bound; lia).
    lia. }
  rewrite Hz, lookup_replicate_2 by done. done.
Qed.

(** X4. A filter that [NewBloomFilter] has just made contains nothing:
    [MightContain] answers false for every key. *)
Theorem fresh_filter_is_empty {crc : Crc32} {fl : Float64Ops}
    (n : Z) (fpRate : float64) (bf : BloomFilter) (key : list byte) :
  NewBloomFilter n fpRate = Ok bf → MightContain bf key = Ok false.
Proof.
  intros Hnew. pose proof (NewBloomFilter_wf _ _ _ Hnew) as Hwf.
  destruct (NewBloomFilter_fresh _ _ _ Hnew) as (Hk & _ & Hbits).
  destruct (bloomHashes_range key) as [H1 H2].
  unfold MightContain. destruct (bloomHashes key) as [h1 h2]. cbn [fst snd] in *.
  destruct (Z.to_nat (hashCount bf)) as [|todo] eqn:Htodo; [lia|].
  cbn [mightContainLoop].
  destruct (bloomPos_ok bf h1 h2 0 Hwf H1 H2 ltac:(lia)) as [-> Hrange].
  cbn [mbind result_bind].
  rewrite bitIsZero_clear; [done| |done].
  destruct Hwf as (_ & Hsz & _). lia.
Qed.

Lemma fresh_filter_is_empty_witness :
  ∃ bf, NewBloomFilter 100 tt = Ok bf ∧ MightContain bf (bs "Eng") = Ok false.
Proof.
  eexists. split; [vm_compute; reflexivity|].
  apply (fresh_filter_is_empty (crc := crc32_reference) (fl := sizing_reference) 100 tt).
  vm_compute. reflexivity.
Defined.

Lemma bitIsZero_false (bits : list byte) (pos : Z) :
  0 <= pos → bitIsZero bits pos = Ok false → bitSet bits pos.
Proof.
  intros Hpos. destruct (pos_split pos Hpos) as (Hq & Hr & Hq0 & Hr0).
  unfold bitIsZero. rewrite Hq, Hr.
  destruct (Z.ltb_spec (pos / 8) 0); [lia|].
  destruct (Z.ltb_spec (pos mod 8) 0); [lia|]. cbn [orb].
  destruct (bits !! Z.to_nat (pos / 8)) as [b|] eqn:Hb; [|done].
  rewrite shiftl_1_byte by lia. intros [= Hz]. apply Z.eqb_neq in Hz.
  exists b. split; [done|].
  destruct (Z.testbit (byte_to_Z b) (pos mod 8)) eqn:Hbit; [done|].
  exfalso. apply Hz. apply Z.bits_inj'. intros j Hj.
  rewrite Z.land_spec, Z.bits_0, Z.pow2_bits_eqb by lia.
  destruct (Z.eqb_spec (pos mod 8) j) as [<-|_]; [by rewrite Hbit|by rewrite andb_false_r].
Qed.

Lemma mightContainLoop_true bf h1 h2 todo i :
  wf_bloom bf → 0 <= h1 < 2 ^ 32 → 0 <= h2 < 2 ^ 32 →
  0 <= i → i + Z.of_nat todo <= 10 →
  mightContainLoop todo bf h1 h2 i = Ok true →
  ∀ j, i <= j < i + Z.of_nat todo → bitSet (bits bf) (probe bf h1 h2 j).
Proof.
  intros Hwf H1 H2. revert i.
  induction todo as [|todo IH]; intros i Hi Hle Hrun j Hj; [lia|].
  cbn [mightContainLoop] in Hrun.
  destruct (bloomPos_ok bf h1 h2 i Hwf H1 H2 ltac:(lia)) as [Hpos Hrange].
  rewrite Hpos in Hrun. cbn [mbind result_bind] in Hrun.
  destruct (bitIsZero (bits bf) (probe bf h1 h2 i)) as [[|]| | |] eqn:Hz;
    cbn [mbind result_bind] in Hrun; try discriminate.
  destruct (decide (j = i)) as [->|Hne].
  - apply bitIsZero_false; [lia|done].
  - apply (IH (i + 1)); [lia|lia|done|lia].
Qed.

(** A positive answer of [MightContain] means that every probed bit is
    set. *)
Lemma MightContain_true_holds `{Crc32} bf key :
  wf_bloom bf → MightContain bf key = Ok true → holds bf key.
Proof.
  intros Hwf. pose proof Hwf as (_ & _ & Hk & _).
  destruct (bloomHashes_range key) as [H1 H2].
  unfold MightContain, holds. destruct (bloomHashes key) as [h1 h2]. cbn [fst snd] in *.
  intros Hrun j Hj.
  apply (mightContainLoop_true bf h1 h2 (Z.to_nat (hashCount bf)) 0); try done; lia.
Qed.

(** X5. Adding keys never turns a positive answer into a negative one: a
    key for which [MightContain] is true stays so after any further keys
    have been added. *)
Theorem MightContain_stable {crc : Crc32} (bf : BloomFilter) (key : list byte)
    (more : list (list byte)) :
  wf_bloom bf → MightContain bf key = Ok true →
  ∃ bf', AddAll bf more = Ok bf' ∧ MightContain bf' key = Ok true.
Proof.
  intros Hwf Hin. apply MightContain_true_holds in Hin; [|done].
  destruct (AddAll_ok more bf Hwf) as (bf' & Hadd & Hwf' & Hmono & _).
  exists bf'. split; [done|]. apply MightContain_holds; auto.
Qed.

Definition eng_bloom : BloomFilter :=
  match Add sample_bloom (bs "Eng") with
  | Ok bf => bf
  | _ => sample_bloom
  end.

Lemma MightContain_stable_witness :
  ∃ bf', AddAll eng_bloom [bs "Sales"; bs "Ops"] = Ok bf' ∧
         MightContain bf' (bs "Eng") = Ok true.
Proof.
  apply (MightContain_stable (crc := crc32_reference) eng_bloom (bs "Eng")
           [bs "Sales"; bs "Ops"]).
  - vm_compute. repeat split; congruence.
  - vm_compute. reflexivity.
Defined.

(** X6. A bloom file is loaded whenever it has 24 bytes, whatever they
    are. When its size field is 0 and its hash count is positive, every
    lookup in the loaded filter panics (integer division by zero in
    [combined % bf.size]). *)
Theorem zero_size_bloom_panics {crc : Crc32} (data : list byte) (key : list byte) :
  (24 ≤ length data)%nat →
  int64 (Uint64 (take 8 data)) = 0 →
  1 <= int64 (Uint64 (take 8 (drop 8 data))) →
  ∃ bf, LoadBloomFilterMmap data = Ok bf ∧ MightContain bf key = Panic.
Proof.
  intros Hlen Hsize Hk. unfold LoadBloomFilterMmap, DeserializeBloom.
  rewrite decide_False by lia. eexists. split; [reflexivity|].
  unfold MightContain. destruct (bloomHashes key) as [h1 h2]. cbn [hashCount].
  destruct (Z.to_nat _) as [|todo] eqn:Htodo; [lia|].
  cbn [mightContainLoop]. unfold bloomPos. cbn [size]. rewrite Hsize. done.
Qed.

Lemma zero_size_bloom_panics_witness :
  ∃ bf, LoadBloomFilterMmap (replicate 15 NUL ++ ["001"%byte] ++ replicate 8 NUL) = Ok bf
        ∧ MightContain bf (bs "Eng") = Panic.
Proof.
  apply (zero_size_bloom_panics (crc := crc32_reference)
           (replicate 15 NUL ++ ["001"%byte] ++ replicate 8 NUL) (bs "Eng")).
  - cbn. lia.
  - vm_compute. reflexivity.
  - vm_compute. congruence.
Defined.

End BloomMore.

(** ** What a build leaves behind: distinct count, bloom filter, memory *)

Module BuildFacts.
Import index BlockFacts BloomFacts OrderFacts HeapFacts IndexFileFacts SorterFacts Reference.

(** The number of different keys among the records. *)
Definition distinctKeys (recs : list IndexRecord) : nat :=
  length (remove_dups (Key <$> recs)).

Lemma remove_dups_length_perm {A} `{EqDecision A} (l l' : list A) :
  l ≡ₚ l' → length (remove_dups l) = length (remove_dups l').
Proof.
  intros Hp. apply Permutation_length, NoDup_Permutation; try apply NoDup_remove_dups.
  intros x. rewrite !elem_of_remove_dups. by rewrite Hp.
Qed.

Lemma distinctKeys_perm (l l' : list IndexRecord) :
  l ≡ₚ l' → distinctKeys l = distinctKeys l'.
Proof. intros Hp. unfold distinctKeys. apply remove_dups_length_perm. by rewrite Hp. Qed.

Lemma distinctKeys_snoc (l : list IndexRecord) (x : IndexRecord) :
  distinctKeys (l ++ [x]) =
  if bool_decide (Key x ∈ Key <$> l) then distinctKeys l else S (distinctKeys l).
Proof.
  rewrite (distinctKeys_perm (l ++ [x]) (x :: l)) by (by rewrite Permutation_app_comm).
  unfold distinctKeys. cbn [fmap list_fmap remove_dups].
  destruct (decide_rel elem_of (Key x) (Key <$> l)) as [Hin|Hnin].
  - by rewrite bool_decide_eq_true_2.
  - by rewrite bool_decide_eq_false_2.
Qed.

Lemma blocks_unique `{Lz4} file metas b1 b2 :
  Forall2 (block_ok file) metas b1 → Forall2 (block_ok file) metas b2 → b1 = b2.
Proof.
  intros H1. revert b2. induction H1 as [|m b ms bs (_ & _ & Hr) _ IH]; intros b2 H2.
  - by inversion H2.
  - inversion H2 as [|m' b' ms' bs' (_ & _ & Hr') Hrest]; subst.
    f_equal; [|by apply IH].
    specialize (Hr [] (mkSparseIndex [])). specialize (Hr' [] (mkSparseIndex [])).
    congruence.
Qed.

(** The records a writer has received are determined by its state. *)
Lemma bw_repr_unique `{Lz4} bw o1 o2 : bw_repr bw o1 → bw_repr bw o2 → o1 = o2.
Proof.
  intros (_ & _ & b1 & -> & H1) (_ & _ & b2 & -> & H2).
  by rewrite (blocks_unique _ _ _ _ H1 H2).
Qed.

(** What the merge loop knows about the records [out] written so far;
    [b0] is the sorter's bloom filter before the merge. *)
Record merged_inv `{Crc32} (b0 : option BloomFilter) (st : mergeState)
    (out : list IndexRecord) : Prop := {
  mg_first : mFirstRecord st = bool_decide (out = []);
  mg_last : ∀ a, last out = Some a → mLastKey st = Key a;
  mg_count : mDistinctCount st = Z.of_nat (distinctKeys out);
  mg_some : is_Some (mBloom st) ↔ is_Some b0;
  mg_bloom : ∀ bf a, mBloom st = Some bf → a ∈ out → holds bf (trimRightNul (Key a))
}.

(** In a sorted list a key that differs from the last one is new. *)
Lemma new_key (out : list IndexRecord) (a x : IndexRecord) :
  sorted (out ++ [a]) → recLe a x → Key x ≠ Key a → Key x ∉ Key <$> (out ++ [a]).
Proof.
  intros Hs Hax Hne [b [Hkb Hb]]%list_elem_of_fmap.
  assert (Hba : bytesCompare (Key b) (Key a) <= 0).
  { apply elem_of_app in Hb as [Hb| ->%list_elem_of_singleton].
    - apply StronglySorted_app in Hs as (Hcross & _ & _).
      specialize (Hcross b a Hb ltac:(by left)).
      apply recordCmp_le in Hcross as [?|[-> _]]; [lia|by rewrite bytesCompare_refl].
    - by rewrite bytesCompare_refl. }
  apply recordCmp_le in Hax as [Hlt|[E _]]; [|congruence].
  rewrite <- Hkb in Hba. pose proof (bytesCompare_antisym (Key a) (Key x)). lia.
Qed.

Lemma mergeStep_merged `{Lz4} `{Crc32} all b0 st rests out st' rests' out' :
  merge_inv all st rests out → merged_inv b0 st out → mHeap st ≠ [] →
  mergeStep st = Ok st' → merge_inv all st' rests' out' → merged_inv b0 st' out'.
Proof.
  intros Hinv [Hfirst Hlast Hcount Hsome Hbloom] Hne Hstep Hinv'.
  unfold mergeStep in Hstep. destruct (Pop (mHeap st)) as [item h] eqn:HPop.
  destruct (Pop_correct _ _ _ (mi_heap _ _ _ _ Hinv) Hne HPop) as (Hph & _ & Hmin).
  assert (Hitem : item ∈ mHeap st) by (rewrite Hph; by left).
  assert (Hwfi : wf_record (record item)).
  { pose proof (mi_wf_heap _ _ _ _ Hinv) as Hwf. rewrite Forall_forall in Hwf. by apply Hwf. }
  assert (Hle : ∀ a, a ∈ out → recLe a (record item)).
  { intros a Ha. by apply (mi_out_le _ _ _ _ Hinv). }
  set (x := record item) in *.
  set (isNew := mFirstRecord st || negb (bool_decide (Key x = mLastKey st))) in *.
  assert (Hb : ∃ bloom',
    (if isNew then
       match mBloom st with
       | Some bf => bf' ← Add bf (trimRightNul (Key x)); Ok (Some bf')
       | None => Ok None
       end
     else Ok (mBloom st)) = Ok bloom' ∧
    (is_Some bloom' ↔ is_Some (mBloom st)) ∧
    ∀ bf', bloom' = Some bf' →
      (isNew = true → holds bf' (trimRightNul (Key x))) ∧
      ∃ bf, mBloom st = Some bf ∧ ∀ k, holds bf k → holds bf' k).
  { pose proof (mi_bloom _ _ _ _ Hinv) as Hwf.
    destruct isNew.
    - destruct (mBloom st) as [bf|] eqn:Hbf.
      + destruct (Add_ok bf (trimRightNul (Key x)) Hwf) as (bf' & -> & _ & Hh & Hmono).
        exists (Some bf'). split; [done|]. split; [by split; eauto|].
        intros ? [= <-]. split; [done|]. by exists bf.
      + exists None. split; [done|]. split; [done|]. by intros ? [=].
    - exists (mBloom st). split; [done|]. split; [done|].
      intros bf' Hbf'. split; [done|]. by exists bf'. }
  destruct Hb as (bloom' & Hbe & Hbs & Hbh). rewrite Hbe in Hstep.
  cbn [mbind result_bind] in Hstep.
  destruct (match ReadRecord (mReaders st !!! source item) with
            | ReadOk nextRec lr' =>
                (Push h {| record := nextRec; source := source item |},
                 <[source item:=lr']> (mReaders st))
            | _ => (h, mReaders st)
            end) as [h2 rd2].
  injection Hstep as <-.
  assert (out' = out ++ [x]) as ->.
  { apply (bw_repr_unique (WriteRecord (mWriter st) x)).
    - exact (mi_writer _ _ _ _ Hinv').
    - apply WriteRecord_repr; [exact (mi_writer _ _ _ _ Hinv)|done]. }
  pose proof (mi_out_sorted _ _ _ _ Hinv) as Hsorted.
  assert (Hold : isNew = false → ∃ o a, out = o ++ [a] ∧ Key x = Key a).
  { unfold isNew. intros Hn. apply orb_false_iff in Hn as [Hf Hk].
    rewrite Hfirst in Hf. apply bool_decide_eq_false_1 in Hf.
    destruct out as [|a o _] using rev_ind; [done|]. exists o, a. split; [done|].
    apply negb_false_iff, bool_decide_eq_true_1 in Hk. rewrite Hk.
    apply Hlast. by rewrite last_snoc. }
  constructor; cbn [mFirstRecord mLastKey mDistinctCount mBloom].
  - rewrite (bool_decide_eq_false_2 (out ++ [x] = [])) by (by destruct out).
    destruct isNew eqn:Hn; [done|].
    unfold isNew in Hn. by apply orb_false_iff in Hn as [? _].
  - intros a. rewrite last_snoc. intros [= <-].
    destruct isNew eqn:Hn; [done|].
    unfold isNew in Hn. apply orb_false_iff in Hn as [_ Hk].
    by apply negb_false_iff, bool_decide_eq_true_1 in Hk.
  - rewrite distinctKeys_snoc, Hcount.
    destruct isNew eqn:Hn.
    + rewrite bool_decide_eq_false_2; [lia|].
      destruct out as [|a o _] using rev_ind.
      { cbn. apply not_elem_of_nil. }
      apply new_key; [done|apply Hle; apply elem_of_app; right; by left|].
      unfold isNew in Hn. rewrite Hfirst in Hn.
      rewrite (bool_decide_eq_false_2 (o ++ [a] = [])) in Hn by (by destruct o).
      cbn [orb] in Hn. apply negb_true_iff, bool_decide_eq_false_1 in Hn.
      rewrite (Hlast a) in Hn by (by rewrite last_snoc). done.
    + destruct (Hold eq_refl) as (o & a & -> & Hk).
      rewrite bool_decide_eq_true_2; [done|].
      rewrite Hk. apply list_elem_of_fmap. exists a. split; [done|].
      apply elem_of_app. right. by left.
  - by rewrite Hbs.
  - intros bf' b -> Hin.
    destruct (Hbh bf' eq_refl) as (Hnew & bf & Hbf & Hmono).
    assert (Hout : ∀ c, c ∈ out → holds bf' (trimRightNul (Key c))).
    { intros c Hc. apply Hmono. by apply (Hbloom bf c). }
    apply elem_of_app in Hin as [Hin| ->%list_elem_of_singleton]; [by apply Hout|].
    destruct isNew eqn:Hn; [by apply Hnew|].
    destruct (Hold eq_refl) as (o & a & -> & ->).
    apply Hout. apply elem_of_app. right. by left.
Qed.

Lemma mergeLoop_merged `{Lz4} `{Crc32} all b0 fuel : ∀ st rests out st' rests' out',
  merge_inv all st rests out → merged_inv b0 st out →
  mergeLoop fuel st = Ok st' → merge_inv all st' rests' out' → merged_inv b0 st' out'.
Proof.
  induction fuel as [|fuel IH]; intros st rests out st' rests' out' Hinv Hex Hrun Hinv'.
  - cbn [mergeLoop] in Hrun. destruct (mHeap st) eqn:Hh; [|done].
    injection Hrun as <-.
    by rewrite (bw_repr_unique _ out' out (mi_writer _ _ _ _ Hinv') (mi_writer _ _ _ _ Hinv)).
  - cbn [mergeLoop] in Hrun. destruct (mHeap st) as [|it h] eqn:Hh.
    + injection Hrun as <-.
      by rewrite (bw_repr_unique _ out' out (mi_writer _ _ _ _ Hinv') (mi_writer _ _ _ _ Hinv)).
    + destruct (mergeStep_inv all st rests out Hinv) as (st1 & rests1 & out1 & Hs & Hinv1 & _).
      { by rewrite Hh. }
      rewrite Hs in Hrun. cbn [mbind result_bind] in Hrun.
      apply (IH st1 rests1 out1 st' rests' out'); try done.
      apply (mergeStep_merged all b0 st rests out st1 rests1 out1); try done.
      by rewrite Hh.
Qed.

Lemma kWayMerge_merged `{Lz4} `{Json} `{Crc32} s chunks all :
  chunkFiles s = chunk_file <$> chunks →
  Forall (λ c, c ≠ [] ∧ sorted c ∧ Forall wf_record c) chunks →
  concat chunks ≡ₚ all → from_option wf_bloom True (bloom s) →
  ∃ file bloom',
    kWayMerge s = Ok (Z.of_nat (distinctKeys all), file, bloom') ∧
    from_option wf_bloom True bloom' ∧
    (is_Some bloom' ↔ is_Some (bloom s)) ∧
    ∀ bf a, bloom' = Some bf → a ∈ all → holds bf (trimRightNul (Key a)).
Proof.
  intros Hfiles Hchunks Hperm Hbloom. unfold kWayMerge.
  assert (Hreaders : lz4_NewReader <$> chunkFiles s = reader_of <$> chunks).
  { rewrite Hfiles, <- list_fmap_compose. apply list_fmap_ext.
    intros i c _. apply lz4_NewReader_chunk. }
  rewrite Hreaders.
  replace (length (chunkFiles s)) with (length chunks)
    by (by rewrite Hfiles, length_fmap).
  destruct (initHeap_inv (length chunks) 0 chunks [])
    as (h & rests & -> & Hsr & Hwfr & Hwfh & Hheads & Hcover & Hp); try done.
  { eapply Forall_impl; [exact Hchunks|]. by intros c (_ & ? & _). }
  { eapply Forall_impl; [exact Hchunks|]. by intros c (_ & _ & ?). }
  { intros it Hit. by apply elem_of_nil in Hit. }
  { intros idx rest Hidx. lia. }
  destruct (heapify_correct h) as [Hhp Hhh].
  set (st0 := mkMergeState _ _ _ _ _ _ _ _).
  assert (Hinv : merge_inv all st0 rests []).
  { constructor; unfold st0; cbn [mReaders mHeap mWriter mBloom]; try done.
    - rewrite Forall_forall in Hwfh |- *. intros it Hit. apply Hwfh. by rewrite <- Hhp.
    - intros it Hit. apply Hheads. by rewrite <- Hhp.
    - intros i rest Hi Hne. destruct (Hcover i rest Hi Hne) as (it & Hit & Hs).
      exists it. by rewrite Hhp.
    - constructor.
    - intros a it Ha. by apply elem_of_nil in Ha.
    - cbn [app]. rewrite Hhp, Hp. cbn [fmap list_fmap app]. done.
    - apply NewBlockWriter_repr. }
  assert (Hex : merged_inv (bloom s) st0 []).
  { constructor; unfold st0; cbn [mFirstRecord mLastKey mDistinctCount mBloom]; try done.
    intros bf a _ Ha. by apply elem_of_nil in Ha. }
  destruct (mergeLoop_inv all
              (foldr (λ lr acc, (reader_fuel lr + acc)%nat) (length (heapify h))
                 (reader_of <$> rests)) st0 rests [] Hinv)
    as (st' & rests' & out' & Hrun & Hh' & Hinv').
  { unfold merge_left, st0. cbn [mHeap]. by apply merge_fuel_enough. }
  pose proof (mergeLoop_merged all (bloom s) _ st0 rests [] st' rests' out' Hinv Hex Hrun Hinv')
    as [_ _ Hcount Hsome Hheld].
  rewrite Hrun. cbn [mbind result_bind].
  destruct (merge_inv_done all st' rests' out' Hinv' Hh') as [Hpo _].
  rewrite Hcount, (distinctKeys_perm out' all Hpo).
  eexists _, (mBloom st'). split; [reflexivity|].
  split; [exact (mi_bloom _ _ _ _ Hinv')|]. split; [done|].
  intros bf a Hbf Ha. apply (Hheld bf a Hbf). by rewrite Hpo.
Qed.

Lemma Finalize_merged `{Lz4} `{Json} `{Crc32} `{SortFunc} memoryLimit bloom0 recs :
  Forall wf_record recs → from_option wf_bloom True bloom0 →
  ∃ file bloom',
    Finalize (foldl SorterAdd (NewSorter memoryLimit bloom0) recs)
      = Ok (Z.of_nat (distinctKeys recs), file, bloom') ∧
    from_option wf_bloom True bloom' ∧
    (is_Some bloom' ↔ is_Some bloom0) ∧
    ∀ bf a, bloom' = Some bf → a ∈ recs → holds bf (trimRightNul (Key a)).
Proof.
  intros Hwf Hbloom.
  destruct (foldl_SorterAdd_inv recs (NewSorter memoryLimit bloom0) []
              (NewSorter_inv _ _) Hwf) as [Hinv Hb].
  cbn [app] in Hinv.
  destruct (flushChunk_inv _ _ Hinv) as ((_ & chunks & Hfiles & Hchunks & Hperm) & Hbuf & Hb').
  rewrite Hbuf, app_nil_r in Hperm.
  unfold Finalize. rewrite Hfiles.
  destruct chunks as [|c chunks].
  - cbn [concat] in Hperm. apply Permutation_nil_l in Hperm. subst recs.
    cbn [fmap list_fmap]. exists [], bloom0. rewrite Hb', Hb. cbn [NewSorter bloom].
    split; [done|]. split; [done|]. split; [done|].
    intros bf a _ Ha. by apply elem_of_nil in Ha.
  - cbn [fmap list_fmap].
    destruct (kWayMerge_merged _ (c :: chunks) recs Hfiles Hchunks Hperm)
      as (file & bloom' & Hk & Hwfb & Hsome & Hheld).
    { rewrite Hb', Hb. done. }
    exists file, bloom'. split; [done|]. split; [done|].
    split; [by rewrite Hsome, Hb', Hb|done].
Qed.

(** X7. [Finalize] returns the number of different keys among the
    records given to the sorter, whatever their order, the memory limit
    and the number of spill chunks. *)
Theorem Finalize_counts_distinct_keys
    {lz : Lz4} {js : Json} {crc : Crc32} {srt : SortFunc}
    (memoryLimit : Z) (bloom0 : option BloomFilter) (recs : list IndexRecord) :
  Forall wf_record recs → from_option wf_bloom True bloom0 →
  ∃ file bloom',
    Finalize (foldl SorterAdd (NewSorter memoryLimit bloom0) recs)
      = Ok (Z.of_nat (distinctKeys recs), file, bloom').
Proof.
  intros Hwf Hbloom.
  destruct (Finalize_merged memoryLimit bloom0 recs Hwf Hbloom) as (file & bloom' & Hf & _).
  by exists file, bloom'.
Qed.

Definition three_keys : list IndexRecord :=
  [sample_record "Sales" 25 3; sample_record "Eng" 36 4; sample_record "Eng" 13 2;
   sample_record "Ops" 50 5; sample_record "Sales" 61 6].

Lemma Finalize_counts_distinct_keys_witness :
  ∃ file bloom',
    Finalize (foldl SorterAdd (NewSorter 0 None) three_keys) = Ok (3, file, bloom').
Proof.
  apply (Finalize_counts_distinct_keys (lz := stored_lz4) (js := json_reference)
           (crc := crc32_reference) (srt := sort_reference) 0 None three_keys).
  - repeat constructor; vm_compute; congruence.
  - exact I.
Defined.

(** X8. The bloom filter of a build has no false negatives: after
    [Finalize], [MightContain] is true for the key (without its padding)
    of every record that was given to the sorter. *)
Theorem build_bloom_has_every_key
    {lz : Lz4} {js : Json} {crc : Crc32} {srt : SortFunc}
    (memoryLimit : Z) (bf0 : BloomFilter) (recs : list IndexRecord) :
  Forall wf_record recs → wf_bloom bf0 →
  ∃ distinct file bf',
    Finalize (foldl SorterAdd (NewSorter memoryLimit (Some bf0)) recs)
      = Ok (distinct, file, Some bf') ∧
    ∀ rec, rec ∈ recs → MightContain bf' (trimRightNul (Key rec)) = Ok true.
Proof.
  intros Hwf Hbloom.
  destruct (Finalize_merged memoryLimit (Some bf0) recs Hwf Hbloom)
    as (file & bloom' & Hf & Hwfb & Hsome & Hheld).
  destruct bloom' as [bf'|]; [|by destruct Hsome as [_ [? ?]]].
  exists (Z.of_nat (distinctKeys recs)), file, bf'. split; [done|].
  intros rec Hrec. apply MightContain_holds; [done|]. by apply (Hheld bf' rec).
Qed.

Lemma build_bloom_has_every_key_witness :
  ∃ distinct file bf',
    Finalize (foldl SorterAdd (NewSorter 0 (Some sample_bloom)) three_keys)
      = Ok (distinct, file, Some bf') ∧
    ∀ rec, rec ∈ three_keys → MightContain bf' (trimRightNul (Key rec)) = Ok true.
Proof.
  apply (build_bloom_has_every_key (lz := stored_lz4) (js := json_reference)
           (crc := crc32_reference) (srt := sort_reference) 0 sample_bloom three_keys).
  - repeat constructor; vm_compute; congruence.
  - vm_compute. repeat split; congruence.
Defined.

Lemma SorterAdd_counts `{Lz4} `{SortFunc} (s : Sorter) (rec : IndexRecord) (n : Z) :
  0 < chunkSize s → 0 <= n →
  Z.of_nat (length (memBuffer s)) = n mod chunkSize s →
  Z.of_nat (length (chunkFiles s)) = n / chunkSize s →
  chunkSize (SorterAdd s rec) = chunkSize s ∧
  Z.of_nat (length (memBuffer (SorterAdd s rec))) = (n + 1) mod chunkSize s ∧
  Z.of_nat (length (chunkFiles (SorterAdd s rec))) = (n + 1) / chunkSize s.
Proof.
  intros Hc Hn Hmem Hfiles. set (c := chunkSize s) in *.
  pose proof (Z.mod_pos_bound n c Hc) as Hr. pose proof (Z.div_mod n c ltac:(lia)) as Hdm.
  unfold SorterAdd. cbn [chunkSize memBuffer]. fold c.
  rewrite length_app. cbn [length].
  destruct (Z.leb_spec c (Z.of_nat (length (memBuffer s) + 1))) as [Hfull|Hroom].
  - unfold flushChunk. cbn [memBuffer].
    destruct (memBuffer s ++ [rec]) as [|r0 buf] eqn:E.
    { by apply app_nil in E as [_ ?]. }
    cbn [chunkSize memBuffer chunkFiles length]. split; [done|].
    rewrite length_app. cbn [length].
    assert (Heq : n + 1 = c * (n / c + 1) + 0) by lia.
    split.
    + change (Z.of_nat 0) with 0. apply (Z.mod_unique (n + 1) c (n / c + 1) 0); lia.
    + rewrite Nat2Z.inj_add, Hfiles. change (Z.of_nat 1) with 1.
      apply (Z.div_unique (n + 1) c (n / c + 1) 0); lia.
  - cbn [chunkSize memBuffer chunkFiles]. split; [done|].
    rewrite length_app. cbn [length].
    assert (Heq : n + 1 = c * (n / c) + (n mod c + 1)) by lia.
    split.
    + rewrite Nat2Z.inj_add, Hmem. change (Z.of_nat 1) with 1.
      apply (Z.mod_unique (n + 1) c (n / c) (n mod c + 1)); lia.
    + rewrite Hfiles.
      apply (Z.div_unique (n + 1) c (n / c) (n mod c + 1)); lia.
Qed.

Lemma adds_counts `{Lz4} `{SortFunc} (recs : list IndexRecord) : ∀ (s : Sorter) (n : Z),
  0 < chunkSize s → 0 <= n →
  Z.of_nat (length (memBuffer s)) = n mod chunkSize s →
  Z.of_nat (length (chunkFiles s)) = n / chunkSize s →
  let s' := foldl SorterAdd s recs in
  chunkSize s' = chunkSize s ∧
  Z.of_nat (length (memBuffer s')) = (n + Z.of_nat (length recs)) mod chunkSize s ∧
  Z.of_nat (length (chunkFiles s')) = (n + Z.of_nat (length recs)) / chunkSize s.
Proof.
  induction recs as [|rec recs IH]; intros s n Hc Hn Hmem Hfiles; cbn zeta.
  - cbn [foldl length]. by rewrite Z.add_0_r.
  - cbn [foldl length].
    destruct (SorterAdd_counts s rec n Hc Hn Hmem Hfiles) as (Hc1 & Hmem1 & Hfiles1).
    destruct (IH (SorterAdd s rec) (n + 1)) as (Hc2 & Hmem2 & Hfiles2);
      rewrite ?Hc1; try done; try lia.
    rewrite Hc1 in *.
    replace (n + Z.of_nat (S (length recs))) with (n + 1 + Z.of_nat (length recs)) by lia.
    done.
Qed.

(** X9. The memory a sorter holds. With [c] the chunk size (a hundredth
    of the memory limit, at least 1000 records), after [n] records have
    been added the buffer in memory holds [n mod c] of them, fewer than
    [c], and [n / c] chunks have been spilled to disk. *)
Theorem sorter_memory_bound {lz : Lz4} {srt : SortFunc}
    (memoryLimit : Z) (bloom0 : option BloomFilter) (recs : list IndexRecord) :
  let s := foldl SorterAdd (NewSorter memoryLimit bloom0) recs in
  let c := Z.max 1000 (Z.quot memoryLimit 100) in
  chunkSize s = c ∧
  Z.of_nat (length (memBuffer s)) = Z.of_nat (length recs) mod c ∧
  Z.of_nat (length (memBuffer s)) < c ∧
  Z.of_nat (length (chunkFiles s)) = Z.of_nat (length recs) / c.
Proof.
  cbn zeta.
  assert (Hc : chunkSize (NewSorter memoryLimit bloom0) = Z.max 1000 (Z.quot memoryLimit 100)).
  { unfold NewSorter. cbn [chunkSize].
    destruct (Z.ltb_spec (Z.quot memoryLimit 100) 1000); lia. }
  destruct (adds_counts recs (NewSorter memoryLimit bloom0) 0) as (Hc' & Hmem & Hfiles);
    rewrite ?Hc; try done; try lia.
  rewrite Hc in *. cbn [Z.add] in *.
  split; [by rewrite Hc'|]. split; [done|]. split; [|done].
  rewrite Hmem. apply Z.mod_pos_bound. lia.
Qed.

(** [for len(h) > 0 { item := h.Pop(); ... }], without the refill of the
    merge: the items in the order in which they leave the heap. *)
Fixpoint popAll (fuel : nat) (h : manualHeap) : list mergeItem :=
  match fuel with
  | O => []
  | S fuel' =>
      match h with
      | [] => []
      | _ :: _ => let '(x, h') := Pop h in x :: popAll fuel' h'
      end
  end.

Lemma popAll_sorted (fuel : nat) : ∀ h,
  is_heap h → (length h ≤ fuel)%nat →
  popAll fuel h ≡ₚ h ∧ StronglySorted (λ a b, Less b a = false) (popAll fuel h).
Proof.
  induction fuel as [|fuel IH]; intros h Hheap Hlen.
  - destruct h; [|cbn in Hlen; lia]. split; [done|constructor].
  - cbn [popAll]. destruct h as [|x0 t] eqn:Eh; [split; [done|constructor]|].
    rewrite <- Eh in *. destruct (Pop h) as [x h'] eqn:HPop.
    destruct (Pop_correct h x h' Hheap ltac:(by rewrite Eh) HPop) as (Hperm & Hheap' & Hmin).
    assert (Hl : length h = S (length h')) by (by rewrite Hperm).
    destruct (IH h' Hheap' ltac:(lia)) as [Hp Hs].
    split; [by rewrite Hp, Hperm|].
    constructor; [done|]. rewrite Forall_forall. intros y Hy.
    apply Less_false, Hmin. rewrite Hperm. right. by rewrite <- Hp.
Qed.

(** X10. The heap of the merge is a priority queue: after the heap has
    been built from any items by the [down] loop of [kWayMerge], popping
    until it is empty gives back the same items, each one not [Less] than
    any item popped before it. *)
Theorem heap_pops_in_order (h : manualHeap) :
  popAll (length h) (heapify h) ≡ₚ h ∧
  StronglySorted (λ a b, Less b a = false) (popAll (length h) (heapify h)).
Proof.
  destruct (heapify_correct h) as [Hperm Hheap].
  destruct (popAll_sorted (length h) (heapify h) Hheap) as [Hp Hs].
  { by rewrite Hperm. }
  split; [by rewrite Hp|done].
Qed.

End BuildFacts.

(** ** Looking keys up in an index *)

Module LookupFacts.
Import index manager BlockFacts OrderFacts IndexFileFacts.

(** *** Keys as stored and as searched *)

Lemma trimmedLen_spec (key : list byte) (n : nat) :
  (trimmedLen key n ≤ n)%nat ∧
  (trimmedLen key n = 0%nat ∨ key !!! (trimmedLen key n - 1)%nat ≠ NUL) ∧
  ∀ j, (trimmedLen key n ≤ j < n)%nat → key !!! j = NUL.
Proof.
  induction n as [|n (IH1 & IH2 & IH3)]; cbn [trimmedLen].
  - split; [done|]. split; [by left|]. intros j Hj. lia.
  - case_bool_decide as Hn.
    + split; [lia|]. split; [done|]. intros j Hj.
      destruct (decide (j = n)) as [->|]; [done|]. apply IH3. lia.
    + split; [done|]. split; [right; by replace (S n - 1)%nat with n by lia|].
      intros j Hj. lia.
Qed.

(** X11. Which keys can be found again. A key is stored in 64 bytes:
    cut after 64 bytes, or padded with zero bytes. The comparison of a
    lookup removes the padding, so the stored form of a key compares equal
    to the key itself exactly when the key has at most 64 bytes and does
    not end with a zero byte. *)
Theorem stored_key_matches (key : list byte) :
  compareRecordKey (copyKey key) key = 0 ↔
  (length key ≤ 64)%nat ∧ last key ≠ Some NUL.
Proof.
  unfold compareRecordKey.
  destruct (trimmedLen_spec (copyKey key) 64) as (Hle & Hlast & Hpad).
  set (m := trimmedLen (copyKey key) 64) in *.
  assert (Hlen : length (copyKey key) = 64%nat).
  { unfold copyKey. rewrite length_app, length_take, length_replicate. lia. }
  split.
  - intros Hcmp. apply bytesCompare_eq in Hcmp.
    assert (Hm : length key = m).
    { rewrite <- Hcmp at 1. rewrite length_take. lia. }
    split; [lia|]. intros Hnul.
    rewrite last_lookup in Hnul.
    destruct Hlast as [H0|Hne].
    + rewrite H0 in Hm. by destruct key.
    + apply Hne. rewrite <- Hm.
      apply list_lookup_total_correct.
      rewrite <- Hnul. replace (pred (length key)) with (length key - 1)%nat by lia.
      assert (0 < length key)%nat by (destruct key; [done|cbn; lia]).
      transitivity (take m (copyKey key) !! (length key - 1)%nat);
        [symmetry; apply lookup_take_lt; lia|by rewrite Hcmp].
  - intros [Hshort Hnul].
    assert (Hcopy : copyKey key = key ++ replicate (64 - length key) NUL).
    { unfold copyKey. by rewrite take_ge by lia. }
    assert (Hm : m = length key).
    { destruct (decide (m = length key)) as [|Hne]; [done|]. exfalso.
      destruct (decide (m < length key)%nat) as [Hlt|Hge].
      - apply Hnul. rewrite last_lookup.
        replace (pred (length key)) with (length key - 1)%nat by lia.
        specialize (Hpad (length key - 1)%nat ltac:(lia)).
        rewrite Hcopy, lookup_total_app_l in Hpad by lia.
        rewrite <- Hpad. apply list_lookup_lookup_total_lt. lia.
      - destruct Hlast as [H0|Hne']; [lia|]. apply Hne'.
        rewrite Hcopy, lookup_total_app_r by lia.
        apply list_lookup_total_correct, lookup_replicate_2. lia. }
    rewrite Hm, Hcopy, take_app_length. apply bytesCompare_refl.
Qed.

(** *** The binary search over the directory *)

(** The start keys of the directory are in order. *)
Definition dirSorted (blocks : list BlockMeta) : Prop :=
  StronglySorted (λ a b, strLe (StartKey a) (StartKey b) = true) blocks.

(** In a sorted directory the blocks whose start key has a property that
    smaller keys inherit are the first ones. *)
Lemma sorted_prefix (P : list byte → bool) (blocks : list BlockMeta) :
  dirSorted blocks →
  (∀ a b, strLe a b = true → P b = true → P a = true) →
  ∀ i, (i < length blocks)%nat →
    P (StartKey (blocks !!! i)) = true ↔
    (i < length (filter (λ b, P (StartKey b) = true) blocks))%nat.
Proof.
  intros Hs Hdown. induction Hs as [|b bl _ IH Hall]; intros i Hi; [cbn in Hi; lia|].
  rewrite filter_cons. destruct (decide (P (StartKey b) = true)) as [Hb|Hb].
  - destruct i as [|j]; cbn [length lookup_total list_lookup_total].
    + split; [lia|done].
    + rewrite IH by (cbn in Hi; lia). lia.
  - assert (Hnone : filter (λ b0, P (StartKey b0) = true) bl = []).
    { apply WordFacts.filter_none. intros x Hx Hpx. apply Hb.
      rewrite Forall_forall in Hall. by apply (Hdown _ (StartKey x)); [apply Hall|]. }
    rewrite Hnone. cbn [length].
    destruct i as [|j]; cbn [lookup_total list_lookup_total].
    + split; [done|lia].
    + split; [|lia]. intros Hp. exfalso. apply Hb.
      assert (Hj : (j < length bl)%nat) by (cbn in Hi; lia).
      rewrite Forall_forall in Hall.
      apply (Hdown _ (StartKey (bl !!! j))); [|done].
      apply Hall, list_elem_of_lookup_2 with j, list_lookup_lookup_total_lt, Hj.
Qed.

Lemma searchLoop_spec (blocks : list BlockMeta) (key : list byte) (nLe : nat) :
  (nLe ≤ length blocks)%nat →
  (∀ i, (i < length blocks)%nat →
     strLe (StartKey (blocks !!! i)) key = true ↔ (i < nLe)%nat) →
  ∀ fuel left right result,
    0 <= left → right < Z.of_nat (length blocks) →
    left <= Z.of_nat nLe → Z.of_nat nLe - 1 <= right →
    result = left - 1 → right - left + 1 <= Z.of_nat fuel →
    searchLoop fuel blocks key left right result = Z.of_nat nLe - 1.
Proof.
  intros HnLe Hpre. induction fuel as [|fuel IH];
    intros left right result Hl Hr Hlo Hhi Hres Hfuel; cbn [searchLoop].
  - lia.
  - destruct (Z.leb_spec left right) as [Hle|Hgt]; [|lia].
    rewrite Z.quot_div_nonneg by lia.
    set (mid := (left + right) / 2).
    assert (Hmid : left <= mid <= right).
    { unfold mid. split; [apply Z.div_le_lower_bound|apply Z.div_le_upper_bound]; lia. }
    specialize (Hpre (Z.to_nat mid) ltac:(lia)).
    destruct (strLe (StartKey (blocks !!! Z.to_nat mid)) key) eqn:Hm.
    + assert (Z.to_nat mid < nLe)%nat by (by apply Hpre). apply IH; lia.
    + assert (¬ (Z.to_nat mid < nLe)%nat) by (intros Hc; apply Hpre in Hc; congruence).
      apply IH; lia.
Qed.

Lemma backUp_spec (blocks : list BlockMeta) (key : list byte) (lo : nat) : ∀ hi,
  (lo ≤ hi)%nat →
  (∀ j, (lo ≤ j < hi)%nat → StartKey (blocks !!! j) = key) →
  (lo = 0%nat ∨ StartKey (blocks !!! (lo - 1)%nat) ≠ key) →
  backUp blocks key hi = lo.
Proof.
  induction hi as [|hi IH]; intros Hle Hrun Hstop; cbn [backUp]; [lia|].
  destruct (decide (lo = S hi)) as [->|Hne].
  - destruct Hstop as [|Hstop]; [done|].
    replace (S hi - 1)%nat with hi in Hstop by lia.
    by rewrite bool_decide_eq_false_2.
  - rewrite bool_decide_eq_true_2 by (apply Hrun; lia).
    apply IH; [lia| |done]. intros j Hj. apply Hrun. lia.
Qed.

Lemma strLe_lt_trans (a b c : list byte) :
  strLe a b = true → bytesCompare b c < 0 → bytesCompare a c < 0.
Proof.
  unfold strLe. intros Hab%Z.leb_le Hbc.
  pose proof (bytesCompare_trans a b c Hab ltac:(lia)) as Hac.
  destruct (Z.eq_dec (bytesCompare a c) 0) as [E|E]; [|lia].
  apply bytesCompare_eq in E. subst c.
  pose proof (bytesCompare_antisym a b). lia.
Qed.

(** X12. What [findStartBlock] returns on a directory whose start keys
    are in order: the first block whose start key is the searched key when
    there is one, and otherwise the last block whose start key is smaller
    (-1 when there is none). *)
Theorem findStartBlock_sorted (blocks : list BlockMeta) (key : list byte) :
  dirSorted blocks →
  let smaller :=
    length (filter (λ b, (bytesCompare (StartKey b) key <? 0) = true) blocks) in
  findStartBlockIn blocks key =
  if bool_decide (key ∈ StartKey <$> blocks) then Z.of_nat smaller
  else Z.of_nat smaller - 1.
Proof.
  intros Hs. cbn zeta.
  set (nLess := length (filter (λ b, (bytesCompare (StartKey b) key <? 0) = true) blocks)).
  set (nLe := length (filter (λ b, strLe (StartKey b) key = true) blocks)).
  assert (HLe : ∀ i, (i < length blocks)%nat →
            strLe (StartKey (blocks !!! i)) key = true ↔ (i < nLe)%nat).
  { apply (sorted_prefix (λ k, strLe k key)); [done|].
    unfold strLe. intros a b Hab%Z.leb_le Hb%Z.leb_le.
    apply Z.leb_le. by eapply bytesCompare_trans. }
  assert (HLess : ∀ i, (i < length blocks)%nat →
            bytesCompare (StartKey (blocks !!! i)) key < 0 ↔ (i < nLess)%nat).
  { intros i Hi. rewrite <- Z.ltb_lt.
    apply (sorted_prefix (λ k, bytesCompare k key <? 0)); [done| |done].
    intros a b Hab Hb%Z.ltb_lt. apply Z.ltb_lt. by eapply strLe_lt_trans. }
  assert (HnLe : (nLe ≤ length blocks)%nat) by apply length_filter.
  assert (HnLess : (nLess ≤ length blocks)%nat) by apply length_filter.
  assert (Hmem : key ∈ StartKey <$> blocks ↔
                 ∃ i, (i < length blocks)%nat ∧ StartKey (blocks !!! i) = key).
  { rewrite list_elem_of_fmap. split.
    - intros (b & -> & [i Hi]%list_elem_of_lookup). exists i.
      split; [by eapply lookup_lt_Some|]. by rewrite (list_lookup_total_correct _ _ _ Hi).
    - intros (i & Hi & <-). exists (blocks !!! i). split; [done|].
      apply list_elem_of_lookup_2 with i. by apply list_lookup_lookup_total_lt. }
  assert (Hcmp : ∀ i, (i < length blocks)%nat → StartKey (blocks !!! i) = key →
                 (nLess ≤ i < nLe)%nat).
  { intros i Hi Hk. split.
    - destruct (decide (i < nLess)%nat) as [Hc|]; [|lia].
      apply HLess in Hc; [|done]. rewrite Hk, bytesCompare_refl in Hc. lia.
    - apply HLe; [done|]. unfold strLe. by rewrite Hk, bytesCompare_refl. }
  unfold findStartBlockIn.
  rewrite (searchLoop_spec blocks key nLe HnLe HLe) by lia.
  destruct (decide (nLe = 0)%nat) as [Hz|Hpos].
  { rewrite Hz. change (Z.of_nat 0 - 1 =? -1) with true. cbn iota.
    rewrite (bool_decide_eq_false_2 (key ∈ StartKey <$> blocks)).
    - assert (nLess = 0)%nat; [|lia].
      destruct (decide (nLess = 0)%nat) as [|Hn]; [done|]. exfalso.
      assert (H0 : (0 < nLess)%nat) by lia.
      apply HLess in H0; [|lia].
      assert (strLe (StartKey (blocks !!! 0%nat)) key = true)
        by (unfold strLe; apply Z.leb_le; lia).
      apply HLe in H; lia.
    - rewrite Hmem. intros (i & Hi & Hk). apply Hcmp in Hk; [lia|done]. }
  destruct (Z.eqb_spec (Z.of_nat nLe - 1) (-1)) as [|_]; [lia|].
  replace (Z.to_nat (Z.of_nat nLe - 1)) with (nLe - 1)%nat by lia.
  assert (Hlast : strLe (StartKey (blocks !!! (nLe - 1)%nat)) key = true)
    by (apply HLe; lia).
  case_bool_decide as Htarget.
  - rewrite (bool_decide_eq_true_2 (key ∈ StartKey <$> blocks))
      by (apply Hmem; exists (nLe - 1)%nat; split; [lia|done]).
    f_equal. apply backUp_spec.
    + apply Hcmp in Htarget; lia.
    + intros j Hj.
      assert (Hj1 : strLe (StartKey (blocks !!! j)) key = true) by (apply HLe; lia).
      assert (Hj2 : ¬ bytesCompare (StartKey (blocks !!! j)) key < 0).
      { intros Hc. apply HLess in Hc; lia. }
      unfold strLe in Hj1. apply Z.leb_le in Hj1. apply bytesCompare_eq. lia.
    + destruct (decide (nLess = 0)%nat) as [|Hn]; [by left|]. right.
      intros Hk. apply Hcmp in Hk; lia.
  - assert (Hlt : bytesCompare (StartKey (blocks !!! (nLe - 1)%nat)) key < 0).
    { unfold strLe in Hlast. apply Z.leb_le in Hlast.
      destruct (Z.eq_dec (bytesCompare (StartKey (blocks !!! (nLe - 1)%nat)) key) 0)
        as [E|]; [|lia].
      by apply bytesCompare_eq in E. }
    apply HLess in Hlt; [|lia].
    assert (nLess = nLe).
    { destruct (decide (nLess ≤ nLe)%nat) as [|Hgt]; [lia|]. exfalso.
      assert (Hc : (nLe < nLess)%nat) by lia.
      apply HLess in Hc; [|lia].
      assert (strLe (StartKey (blocks !!! nLe)) key = true)
        by (unfold strLe; apply Z.leb_le; lia).
      apply HLe in H; lia. }
    rewrite (bool_decide_eq_false_2 (key ∈ StartKey <$> blocks)); [lia|].
    rewrite Hmem. intros (i & Hi & Hk). apply Hcmp in Hk; [lia|done].
Qed.

Definition sample_directory : list BlockMeta :=
  [mkBlockMeta (bs "Eng") 4 100 820 false; mkBlockMeta (bs "Ops") 104 100 820 false;
   mkBlockMeta (bs "Ops") 204 100 820 true; mkBlockMeta (bs "Sales") 304 50 3 true].

Lemma findStartBlock_sorted_witness :
  findStartBlockIn sample_directory (bs "Ops") = 1 ∧
  findStartBlockIn sample_directory (bs "Pat") = 2 ∧
  findStartBlockIn sample_directory (bs "Ann") = -1.
Proof.
  assert (Hs : dirSorted sample_directory) by (repeat constructor).
  split; [|split].
  - exact (findStartBlock_sorted sample_directory (bs "Ops") Hs).
  - exact (findStartBlock_sorted sample_directory (bs "Pat") Hs).
  - exact (findStartBlock_sorted sample_directory (bs "Ann") Hs).
Defined.

End LookupFacts.

(** ** Iterating over an index *)

Module IteratorFacts.
Import index BlockFacts BloomFacts OrderFacts IndexFileFacts SorterFacts Reference.

(** *** The key comparison of a lookup *)

Lemma trimRightNul_snoc (l : list byte) (x : byte) :
  trimRightNul (l ++ [x]) = if decide (x = NUL) then trimRightNul l else l ++ [x].
Proof.
  induction l as [|a l IH]; cbn [app trimRightNul].
  - by destruct (decide (x = NUL)).
  - rewrite IH. destruct (decide (x = NUL)); [done|].
    by destruct l.
Qed.

Lemma trimmedLen_app (key more : list byte) (n : nat) :
  (n ≤ length key)%nat → trimmedLen (key ++ more) n = trimmedLen key n.
Proof.
  induction n as [|n IH]; intros Hn; cbn [trimmedLen]; [done|].
  rewrite lookup_total_app_l by lia. rewrite IH by lia. done.
Qed.

Lemma trimmed_take (key : list byte) :
  take (trimmedLen key (length key)) key = trimRightNul key.
Proof.
  induction key as [|x key IH] using rev_ind; [done|].
  rewrite length_app, Nat.add_1_r. cbn [trimmedLen].
  rewrite lookup_total_app_r, Nat.sub_diag by lia. cbn [lookup_total list_lookup_total].
  rewrite trimRightNul_snoc. case_bool_decide as Hx.
  - rewrite decide_True by done. rewrite trimmedLen_app by lia.
    rewrite take_app_le; [done|]. apply LookupFacts.trimmedLen_spec.
  - rewrite decide_False by done. rewrite <- (Nat.add_1_r (length key)).
    change 1%nat with (length [x]). by rewrite <- length_app, take_ge.
Qed.

(** The key of a record, without its padding. *)
Definition trimmedKey (rec : IndexRecord) : list byte := trimRightNul (Key rec).

Lemma compareRecordKey_trimmed (rec : IndexRecord) (key : list byte) :
  length (Key rec) = KeySize →
  compareRecordKey (Key rec) key = bytesCompare (trimmedKey rec) key.
Proof.
  intros Hlen. unfold compareRecordKey, trimmedKey.
  change 64%nat with KeySize. by rewrite <- Hlen, trimmed_take.
Qed.

Lemma recLe_trimmed (a b : IndexRecord) :
  recLe a b → bytesCompare (trimmedKey a) (trimmedKey b) <= 0.
Proof.
  intros Hle. apply trimRightNul_mono.
  apply recordCmp_le in Hle as [?|[-> _]]; [lia|]. by rewrite bytesCompare_refl.
Qed.

Lemma readBlocks_each `{Lz4} (br : BlockReader) (metas : list BlockMeta)
    (batches : list (list IndexRecord)) :
  readBlocks br metas = Ok batches →
  Forall2 (λ m b, ReadBlock br m = Ok b) metas batches.
Proof.
  revert batches. induction metas as [|m metas IH]; intros batches; cbn [readBlocks].
  - intros [= <-]. constructor.
  - destruct (ReadBlock br m) as [b| | |] eqn:Hb; try discriminate.
    cbn [mbind result_bind].
    destruct (readBlocks br metas) as [bs| | |]; try discriminate.
    cbn [mbind result_bind]. intros [= <-]. constructor; [done|by apply IH].
Qed.

(** *** The loop of [Next] *)

Section iterator.
Context `{Lz4}.
Variable ix : DiskIndex.
Variable batches : list (list IndexRecord).
Variable mode : bool.
Variable key : list byte.

(** The records that an iterator hands out: all of them when it scans,
    those whose key compares equal to the search key otherwise. *)
Definition kept (rec : IndexRecord) : Prop :=
  mode = true ∨ compareRecordKey (Key rec) key = 0.

#[local] Instance kept_dec rec : Decision (kept rec).
Proof. unfold kept. apply _. Defined.

Hypothesis Hread :
  Forall2 (λ m b, ReadBlock (reader ix) m = Ok b) (Blocks (Footer (reader ix))) batches.
Hypothesis Hsorted :
  mode = false →
  StronglySorted (λ a b, bytesCompare (trimmedKey a) (trimmedKey b) <= 0) (concat batches).
Hypothesis Hkeys :
  mode = false → Forall (λ rec, length (Key rec) = KeySize) (concat batches).
Hypothesis Hstart :
  mode = false →
  Forall2 (λ m b, ∃ first rest, b = first :: rest ∧ StartKey m = trimmedKey first)
    (Blocks (Footer (reader ix))) batches.

(** The records that the iterator has not looked at yet. *)
Definition pending (it : diskIterator) : list IndexRecord :=
  drop (recordIndex it) (records it) ++ concat (drop (currentBlock it) batches).

Definition it_ok (it : diskIterator) : Prop :=
  idx it = ix ∧ scanMode it = mode ∧ searchKey it = key ∧
  totalBlocks it = length (Blocks (Footer (reader ix))) ∧
  err it = false ∧ itDone it = false ∧
  ∃ pre, concat batches = pre ++ pending it.

Definition steps (it : diskIterator) : nat :=
  (length (pending it) + (length batches - currentBlock it))%nat.

(** In a search, no record after one with a greater key is kept. *)
Lemma none_kept_after (pre rest : list IndexRecord) (first : IndexRecord) :
  mode = false → concat batches = pre ++ first :: rest →
  0 < bytesCompare (trimmedKey first) key →
  filter kept (first :: rest) = [].
Proof.
  intros Hmode Hcat Hgt.
  pose proof (Hsorted Hmode) as Hs. pose proof (Hkeys Hmode) as Hk.
  rewrite Hcat in Hs, Hk.
  apply StronglySorted_app_1_r in Hs. apply Forall_app in Hk as [_ Hk].
  apply StronglySorted_inv in Hs as [_ Hall].
  apply WordFacts.filter_none. intros rec Hin [Hm|Hcmp]; [congruence|].
  rewrite Forall_forall in Hk. rewrite compareRecordKey_trimmed in Hcmp by by apply Hk.
  apply bytesCompare_eq in Hcmp.
  apply elem_of_cons in Hin as [->|Hin]; [rewrite Hcmp, bytesCompare_refl in Hgt; lia|].
  rewrite Forall_forall in Hall. specialize (Hall rec Hin).
  rewrite Hcmp in Hall. pose proof (bytesCompare_antisym (trimmedKey first) key). lia.
Qed.

Lemma nextLoop_spec (fuel : nat) : ∀ it,
  it_ok it → (steps it < fuel)%nat →
  ∃ more it', nextLoop fuel it = Ok (more, it') ∧
    if (more : bool)
    then it_ok it' ∧
         filter kept (pending it) = currentRecord it' :: filter kept (pending it') ∧
         (steps it' < steps it)%nat
    else filter kept (pending it) = [] ∧ err it' = false.
Proof.
  induction fuel as [|fuel IH]; intros it Hok Hfuel; [lia|].
  pose proof Hok as (Hix & Hmode & Hkey & Htotal & Herr & Hdone & pre & Hpre).
  pose proof (Forall2_length _ _ _ Hread) as Hlen.
  cbn [nextLoop].
  match goal with |- context [mbind _ ?l] => set (load := l) end.
  assert (Hload :
    (load = Ok None ∧ filter kept (pending it) = []) ∨
    ∃ it1, load = Ok (Some it1) ∧ it_ok it1 ∧ pending it1 = pending it ∧
           (steps it1 ≤ steps it)%nat ∧
           (records it1 !! recordIndex it1 = None → steps it1 < steps it)%nat).
  { subst load. case_bool_decide as Hrec.
    2:{ right. exists it. split; [done|]. split; [done|]. split; [done|].
        split; [done|]. intros Hnone. apply lookup_ge_None in Hnone. lia. }
    assert (Hpend : pending it = concat (drop (currentBlock it) batches)).
    { unfold pending. by rewrite drop_ge by done. }
    case_bool_decide as Hblk.
    { left. split; [done|]. rewrite Hpend, drop_ge by lia. done. }
    rewrite Hix.
    destruct (lookup_lt_is_Some_2 (Blocks (Footer (reader ix))) (currentBlock it))
      as [meta Hmeta]; [lia|].
    rewrite Hmeta.
    destruct (lookup_lt_is_Some_2 batches (currentBlock it)) as [b Hb]; [lia|].
    pose proof (Forall2_lookup_lr _ _ _ _ _ _ Hread Hmeta Hb) as Hrd.
    cbn beta in Hrd.
    assert (Hdrop : drop (currentBlock it) batches = b :: drop (S (currentBlock it)) batches)
      by (by apply drop_S).
    destruct (negb (scanMode it) && strGt (StartKey meta) (searchKey it)) eqn:Hstop.
    { left. split; [done|].
      apply andb_true_iff in Hstop as [Hm Hgt]. apply negb_true_iff in Hm.
      rewrite Hmode in Hm. rewrite Hkey in Hgt.
      pose proof (Forall2_lookup_lr _ _ _ _ _ _ (Hstart Hm) Hmeta Hb)
        as (first & rest & -> & Hsk).
      rewrite Hpend, Hdrop in *. cbn [concat app] in *.
      apply (none_kept_after pre); [done|done|].
      rewrite <- Hsk. unfold strGt in Hgt. by apply Z.ltb_lt in Hgt. }
    rewrite Hrd. right. eexists. split; [reflexivity|].
    match goal with |- it_ok ?x ∧ _ => set (it1 := x) end.
    assert (Hp1 : pending it1 = pending it).
    { rewrite Hpend, Hdrop. unfold pending. subst it1. cbn. by rewrite drop_0. }
    split; [|split; [done|split]].
    - unfold it_ok. rewrite Hp1. subst it1. cbn. repeat (split; [done|]). by exists pre.
    - unfold steps. rewrite Hp1. subst it1. cbn [currentBlock]. lia.
    - intros _. unfold steps. rewrite Hp1. subst it1. cbn [currentBlock]. lia. }
  destruct Hload as [[-> Hnone]|(it1 & -> & Hok1 & Hp1 & Hs1 & Hs1')].
  { cbn [mbind result_bind]. exists false, (setDone it). split; [done|].
    split; [done|]. done. }
  cbn [mbind result_bind].
  pose proof Hok1 as (Hix1 & Hmode1 & Hkey1 & Htotal1 & Herr1 & Hdone1 & pre1 & Hpre1).
  rewrite Herr1.
  destruct (records it1 !! recordIndex it1) as [rec|] eqn:Hrec.
  2:{ destruct (IH it1 Hok1 ltac:(specialize (Hs1' eq_refl); lia))
        as (more & it' & Hnext & Hres).
      exists more, it'. split; [done|]. rewrite <- Hp1.
      destruct more; [|done]. destruct Hres as (? & ? & ?).
      split; [done|]. split; [done|]. specialize (Hs1' eq_refl). lia. }
  set (it2 := {| idx := idx it1; searchKey := searchKey it1; scanMode := scanMode it1;
                 currentBlock := currentBlock it1; records := records it1;
                 recordIndex := S (recordIndex it1); totalBlocks := totalBlocks it1;
                 currentRecord := currentRecord it1; err := false; itDone := false |}).
  assert (Hp2 : pending it1 = rec :: pending it2).
  { unfold pending. cbn. by rewrite (drop_S _ _ _ Hrec). }
  assert (Hok2 : ∀ cur, it_ok {| idx := idx it2; searchKey := searchKey it2;
                                 scanMode := scanMode it2;
                                 currentBlock := currentBlock it2; records := records it2;
                                 recordIndex := recordIndex it2;
                                 totalBlocks := totalBlocks it2;
                                 currentRecord := cur; err := false; itDone := false |}).
  { intros cur. unfold it_ok. cbn. repeat (split; [done|]).
    exists (pre1 ++ [rec]). rewrite <- app_assoc. cbn [app].
    rewrite Hpre1, Hp2. done. }
  assert (Hyield : kept rec →
    ∃ more it',
      Ok (true, {| idx := idx it2; searchKey := searchKey it2; scanMode := scanMode it2;
                   currentBlock := currentBlock it2; records := records it2;
                   recordIndex := recordIndex it2; totalBlocks := totalBlocks it2;
                   currentRecord := rec; err := false; itDone := false |})
        = Ok (more, it') ∧
      if (more : bool)
      then it_ok it' ∧
           filter kept (pending it) = currentRecord it' :: filter kept (pending it') ∧
           (steps it' < steps it)%nat
      else filter kept (pending it) = [] ∧ err it' = false).
  { intros Hkept. eexists true, _. split; [reflexivity|].
    split; [apply Hok2|]. split.
    - rewrite <- Hp1, Hp2. rewrite filter_cons_True by done. done.
    - assert (steps it1 = S (steps it2)).
      { unfold steps. rewrite Hp2. cbn. lia. }
      unfold steps in *. unfold pending in *. cbn in *. lia. }
  change (scanMode it2) with (scanMode it1).
  destruct (scanMode it1) eqn:Es.
  { apply Hyield. left. congruence. }
  assert (Emode : mode = false) by congruence.
  change (searchKey it2) with (searchKey it1) in Hyield |- *.
  rewrite Hkey1 in Hyield |- *.
  assert (Hrk : length (Key rec) = KeySize).
  { pose proof (Hkeys Emode) as Hk. rewrite Hpre1, Hp2 in Hk.
    apply Forall_app in Hk as [_ Hk]. by apply Forall_cons in Hk as [? _]. }
  destruct (Z.ltb_spec (compareRecordKey (Key rec) key) 0) as [Hlt|Hge].
  { assert (Hok2' : it_ok it2) by apply (Hok2 (currentRecord it1)).
    assert (Hst : steps it1 = S (steps it2)).
    { unfold steps. rewrite Hp2. cbn. lia. }
    destruct (IH it2 Hok2' ltac:(lia)) as (more & it' & Hnext & Hres).
    exists more, it'. split; [done|].
    assert (Hskip : filter kept (pending it) = filter kept (pending it2)).
    { rewrite <- Hp1, Hp2. rewrite filter_cons_False; [done|].
      intros [?|Hc]; [congruence|]. lia. }
    rewrite Hskip. destruct more; [|done]. destruct Hres as (? & ? & ?).
    split; [done|]. split; [done|]. lia. }
  destruct (Z.eqb_spec (compareRecordKey (Key rec) key) 0) as [Heq|Hne].
  { apply Hyield. by right. }
  exists false, (setDone it2). split; [done|]. split; [|done].
  rewrite <- Hp1, Hp2. apply (none_kept_after pre1); [done|by rewrite Hpre1, Hp2|].
  rewrite <- compareRecordKey_trimmed by done. lia.
Qed.

(** The loop [for iter.Next() { ... iter.Record() ... }] hands out the
    kept ones of the pending records, in their order. *)
Lemma iterate_spec (fuel : nat) : ∀ it acc,
  it_ok it → (steps it < fuel)%nat →
  iterate fuel it acc = Ok (acc ++ filter kept (pending it)).
Proof.
  induction fuel as [|fuel IH]; intros it acc Hok Hfuel; [lia|].
  cbn [iterate]. unfold Next.
  pose proof Hok as (_ & _ & _ & _ & -> & -> & _). cbn [orb].
  destruct (nextLoop_spec (S fuel) it Hok Hfuel) as (more & it' & -> & Hres).
  cbn [mbind result_bind]. destruct more.
  - destruct Hres as (Hok' & -> & Hlt).
    rewrite IH by (done || lia). unfold Record_. by rewrite <- app_assoc.
  - destruct Hres as [-> ->]. by rewrite app_nil_r.
Qed.

End iterator.

(** What a caller gets from a lookup: the records of the iterator that
    [Search] returns. *)
Definition lookupAll `{Lz4} `{Crc32} (fuel : nat) (ix : DiskIndex) (key : list byte)
  : result (list IndexRecord) :=
  iter ← Search ix key;
  match iter with
  | EmptyIterator => Ok []
  | DiskIterator it => iterate fuel it []
  end.

(** What a caller gets from a scan. *)
Definition scanAll `{Lz4} (fuel : nat) (ix : DiskIndex) : result (list IndexRecord) :=
  match Scan ix with
  | EmptyIterator => Ok []
  | DiskIterator it => iterate fuel it []
  end.

(** X13. A scan returns the whole index: when every block of the file can
    be read, the iterator of [Scan] hands out every record of every block,
    in the order of the file, and then stops without an error. Blocks
    without records are passed over. *)
Theorem Scan_yields_everything {lz : Lz4} {js : Json} (file : list byte)
    (bloomFile : option (list byte)) (batches : list (list IndexRecord)) (fuel : nat) :
  decodeIndex file = Ok batches →
  (length (concat batches) + length batches < fuel)%nat →
  ∃ ix, OpenDiskIndex file bloomFile = Ok ix ∧ scanAll fuel ix = Ok (concat batches).
Proof.
  intros Hdec Hfuel. unfold decodeIndex in Hdec. unfold OpenDiskIndex.
  destruct (NewBlockReader file) as [br| | |]; try discriminate.
  cbn [mbind result_bind] in *. eexists. split; [reflexivity|].
  apply readBlocks_each in Hdec.
  match goal with |- scanAll _ ?x = _ => set (ix := x) end.
  unfold scanAll, Scan.
  rewrite (iterate_spec ix batches true []).
  - unfold pending. cbn. rewrite drop_0. f_equal.
    apply CountFacts.filter_all, Forall_forall. intros rec _. by left.
  - exact Hdec.
  - discriminate.
  - discriminate.
  - discriminate.
  - unfold it_ok, pending. cbn. repeat (split; [done|]). by exists [].
  - unfold steps, pending. cbn. rewrite drop_0. lia.
Qed.

Lemma Scan_yields_everything_witness :
  ∃ ix,
    OpenDiskIndex
      (w (Close (foldl WriteRecord (NewBlockWriter [])
                   [sample_record "Eng" 13 2; sample_record "Sales" 25 3]))) None = Ok ix ∧
    scanAll 4 ix = Ok (concat [[sample_record "Eng" 13 2; sample_record "Sales" 25 3]]).
Proof.
  apply (Scan_yields_everything (lz := stored_lz4) (js := json_reference)
           (w (Close (foldl WriteRecord (NewBlockWriter [])
                        [sample_record "Eng" 13 2; sample_record "Sales" 25 3])))
           None [[sample_record "Eng" 13 2; sample_record "Sales" 25 3]] 4).
  - vm_compute. reflexivity.
  - cbn. lia.
Defined.

Lemma sorted_trimmed (recs : list IndexRecord) :
  StronglySorted recLe recs →
  StronglySorted (λ a b, bytesCompare (trimmedKey a) (trimmedKey b) <= 0) recs.
Proof.
  induction 1 as [|a l _ IH Hall]; constructor; [done|].
  eapply Forall_impl; [exact Hall|]. intros b. apply recLe_trimmed.
Qed.

(** X14. What a lookup returns. In the index file written from records in
    the order of the index, their keys valid UTF-8 (so that the start keys
    of the directory are read back as they were written), a search without
    a bloom filter returns the records whose key compares equal to the
    searched key among those of the start block and of the blocks after
    it, in the order of the file; when [findStartBlock] finds no block, it
    returns none. Matching records in an earlier block are not returned. *)
Theorem Search_from_start_block {lz : Lz4} {js : Json} {crc : Crc32}
    (recs : list IndexRecord) :
  Forall wf_record recs → StronglySorted recLe recs →
  Forall (λ rec, utf8.Valid (trimRightNul (Key rec)) = true) recs →
  Z.of_nat (length (w (Close (foldl WriteRecord (NewBlockWriter []) recs)))) < 2 ^ 63 →
  ∃ ix batches,
    OpenDiskIndex (w (Close (foldl WriteRecord (NewBlockWriter []) recs))) None = Ok ix ∧
    decodeIndex (w (Close (foldl WriteRecord (NewBlockWriter []) recs))) = Ok batches ∧
    concat batches = recs ∧
    ∀ key fuel, (length recs + length batches < fuel)%nat →
      lookupAll fuel ix key =
      Ok (if findStartBlock ix key =? -1 then []
          else filter (λ rec, compareRecordKey (Key rec) key = 0)
                 (concat (drop (Z.to_nat (findStartBlock ix key)) batches))).
Proof.
  intros Hwf Hsorted Hvalid Hsize.
  destruct (LayoutFacts.writes_layout recs (NewBlockWriter []) []) as [_ Hrepr];
    [split; [constructor|split; [cbn; lia|done]]|apply NewBlockWriter_repr|done|].
  cbn [app] in Hrepr. set (bw := foldl WriteRecord (NewBlockWriter []) recs) in *.
  destruct (Close_decode_valid bw recs Hrepr Hsize Hvalid)
    as (br & batches & Hnew & Hfooter & Hread & Hconcat & Hok).
  exists {| reader := br; idxBloom := None |}, batches.
  split; [unfold OpenDiskIndex; by rewrite Hnew|].
  split; [unfold decodeIndex; rewrite Hnew; exact Hread|].
  split; [done|]. intros key fuel Hfuel.
  unfold lookupAll, Search. cbn [idxBloom mbind result_bind negb].
  set (ix := {| reader := br; idxBloom := None |}).
  destruct (Z.eqb_spec (findStartBlock ix key) (-1)) as [|Hstart]; [done|].
  set (s := Z.to_nat (findStartBlock ix key)).
  assert (Hsplit : concat batches = concat (take s batches) ++ concat (drop s batches)).
  { by rewrite <- concat_app, take_drop. }
  cbn [mbind result_bind]. rewrite (iterate_spec ix batches false key).
  - unfold pending. cbn [recordIndex records currentBlock app drop]. f_equal.
    apply WordFacts.filter_agree. intros rec _. unfold kept. split; [|by right].
    by intros [?|?].
  - apply readBlocks_each. exact Hread.
  - intros _. rewrite Hconcat. by apply sorted_trimmed.
  - intros _. rewrite Hconcat. eapply Forall_impl; [exact Hwf|]. by intros rec [? _].
  - intros _. eapply Forall2_impl; [exact Hok|].
    intros m b ((first & rest & -> & Hk) & _). by exists first, rest.
  - unfold it_ok, pending. cbn. repeat (split; [done|]).
    exists (concat (take s batches)). exact Hsplit.
  - unfold steps, pending. cbn [recordIndex records currentBlock app drop].
    apply (f_equal length) in Hsplit. rewrite length_app, Hconcat in Hsplit. lia.
Qed.

Definition sample_sorted_records : list IndexRecord :=
  [sample_record "Eng" 13 2; sample_record "Ops" 25 3; sample_record "Ops" 40 4].

Lemma Search_from_start_block_witness :
  ∃ ix batches,
    OpenDiskIndex (w (Close (foldl WriteRecord (NewBlockWriter []) sample_sorted_records)))
      None = Ok ix ∧
    decodeIndex (w (Close (foldl WriteRecord (NewBlockWriter []) sample_sorted_records)))
      = Ok batches ∧
    concat batches = sample_sorted_records ∧
    ∀ key fuel, (length sample_sorted_records + length batches < fuel)%nat →
      lookupAll fuel ix key =
      Ok (if findStartBlock ix key =? -1 then []
          else filter (λ rec, compareRecordKey (Key rec) key = 0)
                 (concat (drop (Z.to_nat (findStartBlock ix key)) batches))).
Proof.
  apply (Search_from_start_block (lz := stored_lz4) (js := json_reference)
           (crc := crc32_reference) sample_sorted_records).
  - repeat constructor; vm_compute; congruence.
  - repeat constructor; vm_compute; congruence.
  - repeat constructor.
  - vm_compute. reflexivity.
Defined.

End IteratorFacts.

(** ** Counting rows: the engine, the executor and the daemon *)

Module CountMore.
Import index parser strings query BlockFacts BloomFacts Reference CountFacts.

(** The sum of the record counts of a directory. *)
Definition directoryTotal (blocks : list BlockMeta) : Z :=
  foldr (λ block total, RecordCount block + total) 0 blocks.

(** The directory of the index file has no count below 1 and its total
    is an [int64]; also true when there is no index file or
    [NewBlockReader] returns an error for it. A file on which
    [NewBlockReader] panics is left out. *)
Definition plainDirectory `{Json} (file : option (list byte)) : bool :=
  match file with
  | Some f =>
      match NewBlockReader f with
      | Ok br =>
          forallb (λ block, 0 <? RecordCount block) (Blocks (Footer br))
          && (directoryTotal (Blocks (Footer br)) <? 2 ^ 63)
      | Err => true
      | _ => false
      end
  | None => true
  end.

Lemma counts_of_directory (blocks : list BlockMeta) : ∀ total,
  forallb (λ block, 0 <? RecordCount block) blocks = true →
  0 <= total → total + directoryTotal blocks < 2 ^ 63 →
  sumRecordCounts blocks total = Some (total + directoryTotal blocks) ∧
  foldl (λ total block, int64 (total + RecordCount block)) total blocks
    = total + directoryTotal blocks.
Proof.
  induction blocks as [|b blocks IH]; intros total Hpos Htotal Hsum;
    cbn [sumRecordCounts foldl directoryTotal foldr forallb] in *.
  - rewrite Z.add_0_r. done.
  - apply andb_true_iff in Hpos as [Hb Hpos]. apply Z.ltb_lt in Hb.
    fold (directoryTotal blocks) in *.
    assert (Hrest : 0 <= directoryTotal blocks).
    { clear -Hpos. induction blocks as [|b' blocks IH]; cbn [directoryTotal foldr]; [lia|].
      cbn [forallb] in Hpos. apply andb_true_iff in Hpos as [Hb' Hpos].
      apply Z.ltb_lt in Hb'. specialize (IH Hpos). unfold directoryTotal in IH. lia. }
    destruct (Z.eqb_spec (RecordCount b) 0) as [|_]; [lia|].
    rewrite int64_small by (unfold is_int64; lia).
    destruct (IH (total + RecordCount b) Hpos ltac:(lia) ltac:(lia)) as [-> ->].
    split; [f_equal|]; lia.
Qed.

(** X15. The two implementations of the count of all rows agree. Take an
    index directory whose name holds no pattern character and a CSV base
    name without pattern character or separator (so that the pattern given
    to [filepath.Glob] matches the names with the prefix and the suffix),
    and suppose that [NewBlockReader] does not panic on the first index
    file found and that the directory of this file, if it opens, has only
    positive counts, with a total that is an [int64]. Then the executor,
    which takes the total of [ApproximateCount], and the engine, which adds
    the counts itself and gives up at a block without records, end alike:
    both print the total of the directory when the index file opens, and
    both count the lines of the CSV in the same way when no index file is
    found or [NewBlockReader] returns an error. *)
Theorem count_all_same_in_executor {js : Json} (q : QueryEngine)
    (e : executor.Executor) (env : Env) :
  executor.IndexDir e = IndexDir (config q) →
  hasMeta (IndexDir (config q)) = false →
  literalName (TrimSuffix (Base (CsvPath (config q))) (Ext (Base (CsvPath (config q)))))
    = true →
  plainDirectory (countedIndex q env) = true →
  executor.runCountAll e (config q) env = query.runCountAll q env ∧
  query.runCountAll q env =
    match (if bool_decide (IndexDir (config q) = []) then None else countedIndex q env) with
    | Some f =>
        match NewBlockReader f with
        | Ok br => Ok [OutCount (directoryTotal (Blocks (Footer br)))]
        | _ => runCountAllViaCsv env
        end
    | None => runCountAllViaCsv env
    end.
Proof.
  intros Hdir _ _ Hplain.
  unfold executor.runCountAll, runCountAll, executor.tryCountFromIndex, tryCountFromIndex.
  unfold countedIndex in *. rewrite Hdir.
  case_bool_decide; [done|]. cbn zeta in *.
  destruct (Glob _ _) as [|first rest]; [done|]. cbn [head mbind option_bind] in *.
  destruct (indexFiles env !! first) as [f|]; [|done].
  cbn [plainDirectory] in Hplain. unfold OpenDiskIndex.
  destruct (NewBlockReader f) as [br| | |]; try done.
  cbn [mbind result_bind]. apply andb_true_iff in Hplain as [Hpos Hsum].
  apply Z.ltb_lt in Hsum.
  destruct (counts_of_directory (Blocks (Footer br)) 0 Hpos ltac:(lia) ltac:(lia))
    as [-> Happrox].
  unfold ApproximateCount. cbn [reader]. by rewrite Happrox.
Qed.

Definition counted_records : list IndexRecord :=
  [sample_record "1" 4 2; sample_record "2" 8 3; sample_record "3" 12 4].

Definition counted_env : Env :=
  {| csvFile := Some (bs "a,b" ++ [NL] ++ bs "1,x" ++ [NL] ++ bs "2,y" ++ [NL] ++ bs "3,z");
     sidecar := Absent;
     indexFiles :=
       {[ bs "t_a.cidx" := w (Close (foldl WriteRecord (NewBlockWriter []) counted_records)) ]};
     getHeaderMap := Ok (∅, []);
     numCPU := 4 |}.

Definition counted_query : QueryEngine :=
  {| config := {| CsvPath := bs "t.csv"; IndexDir := bs "idx"; GroupBy := []; AggCol := [];
                  AggFunc := []; CountOnly := true; Limit := 0; Offset := 0;
                  Explain := false |};
     Updates := None |}.

Lemma count_all_same_in_executor_witness :
  executor.runCountAll {| executor.IndexDir := bs "idx"; executor.Updates := None |}
    (config counted_query) counted_env = Ok [OutCount 3] ∧
  query.runCountAll counted_query counted_env = Ok [OutCount 3].
Proof.
  assert (H2 : query.runCountAll counted_query counted_env = Ok [OutCount 3])
    by (vm_compute; reflexivity).
  split; [|exact H2]. rewrite <- H2.
  apply (count_all_same_in_executor (js := json_reference)).
  - reflexivity.
  - reflexivity.
  - vm_compute. reflexivity.
  - vm_compute. reflexivity.
Defined.

(** X16. The row count of the daemon. After [loadCSV] the daemon reports
    the number of newlines less one, which is never negative. The count
    that the engine takes from the CSV adds one for a last line without a
    newline: the two agree exactly on the files that end with a newline,
    and the daemon is one row short on the others. *)
Theorem daemon_count_vs_engine (d d' : server.UDSDaemon) (data : list byte) (env : Env) :
  server.loadCSV d (Some data) = Ok d' →
  csvFile env = Some data → (1 ≤ numCPU env)%nat →
  0 <= server.countRows d' ∧
  runCountAllViaCsv env =
    Ok [OutCount (server.countRows d' +
                  (if bool_decide (data !! (length data - 1)%nat = Some NL) then 0 else 1))].
Proof.
  intros Hload Hcsv Hcpu. unfold server.loadCSV in Hload.
  destruct (IndexByte data NL) as [nl|] eqn:Hnl; [|discriminate].
  injection Hload as <-. unfold server.countRows. cbn [server.csvData].
  pose proof (header_count data nl Hnl) as Hcount.
  assert (Hrest : 0 <= Count (drop (S nl) data) NL) by (unfold Count; lia).
  split; [lia|].
  rewrite (runCountAllViaCsv_spec env data Hcsv Hcpu). unfold newlineCount.
  case_bool_decide; cbn [negb].
  - destruct (Z.ltb_spec 0 (Count data NL)); [|lia]. by rewrite Z.add_0_r.
  - destruct (Z.ltb_spec 0 (Count data NL + 1)); [|lia]. do 3 f_equal. lia.
Qed.

Lemma daemon_count_vs_engine_witness :
  ∃ d', server.loadCSV server.NewUDSDaemon (csvFile counted_env) = Ok d' ∧
        server.countRows d' = 2 ∧
        runCountAllViaCsv counted_env = Ok [OutCount 3].
Proof.
  eexists. split; [vm_compute; reflexivity|]. split; [vm_compute; reflexivity|].
  destruct (daemon_count_vs_engine server.NewUDSDaemon
              (match server.loadCSV server.NewUDSDaemon (csvFile counted_env) with
               | Ok d' => d' | _ => server.NewUDSDaemon end)
              (bs "a,b" ++ [NL] ++ bs "1,x" ++ [NL] ++ bs "2,y" ++ [NL] ++ bs "3,z")
              counted_env) as [_ Hc].
  - vm_compute. reflexivity.
  - reflexivity.
  - cbn. lia.
  - rewrite Hc. vm_compute. reflexivity.
Defined.

End CountMore.

(** ** The WHERE clause, the planner and the output *)

Module QueryMore.
Import index parser strings query BlockFacts BloomFacts Reference.

(** *** Conditions that an index answers *)

(** An equality condition carries a value. *)
Definition eqHasValue (c : Condition) : Prop :=
  Operator c = OpEq → is_Some (Value c).

(** The condition and its children, as far as [ExtractIndexConditions]
    looks at them. *)
Definition valued (c : Condition) : Prop := Forall eqHasValue (c :: Children c).

Lemma Operator_resolve (c : Condition) : Operator (resolveTargets c) = Operator c.
Proof. by destruct c. Qed.

Lemma Column_resolve (c : Condition) : Column (resolveTargets c) = Column c.
Proof. by destruct c. Qed.

Lemma Value_resolve (c : Condition) : Value (resolveTargets c) = Value c.
Proof. by destruct c. Qed.

Lemma Evaluate_eq (c : Condition) (row : gmap (list byte) (list byte)) :
  Operator c = OpEq → eqHasValue c → Evaluate (resolveTargets c) row = true →
  row !! Column c = Some (sprintv (Value c)).
Proof.
  destruct c as [op col v children target]. cbn [Operator Column Value].
  intros -> Hv. destruct (Hv eq_refl) as [s Hs]. cbn [Value] in Hs. subst v.
  cbn [resolveTargets Evaluate sprintv].
  change (bool_decide (OpEq = bs "AND")) with false.
  change (bool_decide (OpEq = bs "OR")) with false.
  change (bool_decide (OpEq = OpIsNull)) with false.
  change (bool_decide (OpEq = OpIsNotNull)) with false.
  change (bool_decide (OpEq = OpEq)) with true. cbn iota.
  destruct (row !! col) as [val|]; [|done].
  intros Heq. apply bool_decide_eq_true_1 in Heq. by subst.
Qed.

Lemma fold_conditions_hold (row : gmap (list byte) (list byte))
    (children : list Condition) : ∀ res : gmap (list byte) (list byte),
  map_Forall (λ col v, row !! col = Some v) res →
  Forall eqHasValue children →
  forallb (λ child, Evaluate child row) (resolveTargets <$> children) = true →
  map_Forall (λ col v, row !! col = Some v)
    (foldl (λ res child,
              if bool_decide (Operator child = OpEq)
              then <[Column child := sprintv (Value child)]> res
              else res) res (resolveTargets <$> children)).
Proof.
  induction children as [|ch children IH]; intros res Hres Hval Hall; [done|].
  apply Forall_cons in Hval as [Hch Hval].
  cbn [fmap list_fmap forallb foldl] in *.
  apply andb_true_iff in Hall as [Hev Hall].
  apply IH; [|done|done].
  rewrite Operator_resolve, Column_resolve, Value_resolve.
  case_bool_decide as Hop; [|done].
  apply map_Forall_insert_2; [|done]. by apply Evaluate_eq.
Qed.

(** X17. The conditions taken for the index lookup follow from the WHERE
    clause. A row that satisfies a parsed condition has, in every column
    that [ExtractIndexConditions] names, the value given there; so the
    rows left out by searching the index for these values do not satisfy
    the condition. (An equality without a value is left aside: it is
    looked up as the text of [nil] but compared with the empty string.) *)
Theorem index_conditions_hold (c : Condition) (row : gmap (list byte) (list byte)) :
  valued c → Evaluate (resolveTargets c) row = true →
  map_Forall (λ col v, row !! col = Some v) (ExtractIndexConditions (resolveTargets c)).
Proof.
  intros Hval Hev. unfold valued in Hval. apply Forall_cons in Hval as [Hc Hch].
  unfold ExtractIndexConditions.
  rewrite Operator_resolve, Column_resolve, Value_resolve.
  case_bool_decide as Hand.
  - destruct c as [op col v children target]. cbn [Operator Children] in *. subst op.
    cbn [resolveTargets Children]. cbn [resolveTargets Evaluate] in Hev.
    change (bool_decide (bs "AND" = bs "AND")) with true in Hev. cbn iota in Hev.
    apply fold_conditions_hold; [apply map_Forall_empty|done|done].
  - case_bool_decide as Heq; [|apply map_Forall_empty].
    apply map_Forall_singleton. by apply Evaluate_eq.
Qed.

Definition where_dept_salary : Condition :=
  mkCondition (bs "AND") [] None
    [mkCondition OpEq (bs "dept") (Some (bs "Eng")) [] [];
     mkCondition OpGt (bs "salary") (Some (bs "5")) [] []] [].

Lemma index_conditions_hold_witness :
  map_Forall (λ col v, ({[ bs "dept" := bs "Eng"; bs "salary" := bs "7" ]}
                          : gmap (list byte) (list byte)) !! col = Some v)
    (ExtractIndexConditions (resolveTargets where_dept_salary)).
Proof.
  apply (index_conditions_hold where_dept_salary).
  - repeat constructor; intros Hop; try discriminate Hop; by eexists.
  - vm_compute. reflexivity.
Defined.

(** *** The planner drops a covered WHERE clause *)

Lemma sortedKeys_elem (conds : gmap (list byte) (list byte)) (k : list byte) :
  k ∈ elements (dom conds) → k ∈ sortedKeys conds.
Proof.
  intros Hk. unfold sortedKeys, sortStrings. by rewrite merge_sort_Permutation.
Qed.

Lemma dropCovered_all (plan : Plan) (c : Condition) :
  covered_columns plan = Some (sortedKeys (ExtractIndexConditions c)) →
  sortedKeys (ExtractIndexConditions c) ≠ [] →
  dropCovered plan (Some c) = None.
Proof.
  intros Hcov Hne. unfold dropCovered. rewrite Hcov.
  destruct (sortedKeys (ExtractIndexConditions c)) as [|x l] eqn:Hcols; [done|].
  rewrite <- Hcols.
  assert (Hall : forallb (λ k, existsb (λ c0, EqualFold c0 k)
                                 (sortedKeys (ExtractIndexConditions c)))
                   (elements (dom (ExtractIndexConditions c))) = true).
  { apply forallb_forall. intros k Hk. apply existsb_exists. exists k. split.
    - apply list_elem_of_In, sortedKeys_elem, list_elem_of_In, Hk.
    - unfold EqualFold. by apply bool_decide_eq_true_2. }
  by rewrite Hall.
Qed.

Lemma findBestIndex_full (csvPath groupBy : list byte)
    (files : gmap (list byte) (list byte)) (c : Condition) :
  sortedKeys (ExtractIndexConditions c) ≠ [] →
  is_Some (files !! (csvNameOf csvPath ++ bs "_" ++
                     Join (sortedKeys (ExtractIndexConditions c)) (bs "_") ++ bs ".cidx")) →
  findBestIndex csvPath groupBy files (Some c) =
  Some (csvNameOf csvPath ++ bs "_" ++
          Join (sortedKeys (ExtractIndexConditions c)) (bs "_") ++ bs ".cidx",
        searchKeyOf (ExtractIndexConditions c) (sortedKeys (ExtractIndexConditions c)),
        true,
        {| strategy := bs "Index Scan";
           planIndex := Join (sortedKeys (ExtractIndexConditions c)) (bs "_");
           covered_columns := Some (sortedKeys (ExtractIndexConditions c)) |}).
Proof.
  intros Hne Hfile. unfold findBestIndex. cbn zeta.
  destruct (length (sortedKeys (ExtractIndexConditions c))) as [|n] eqn:Hlen.
  { by apply nil_length_inv in Hlen. }
  cbn [prefixLoop]. rewrite <- Hlen, firstn_all.
  by rewrite bool_decide_eq_true_2 by done.
Qed.

(** X18. With an index on all the columns of its equality conditions, the
    rest of a WHERE clause is not looked at. When no row overrides are
    loaded and the index directory holds the index of exactly the columns
    that [ExtractIndexConditions] finds, [Run] drops the condition: two
    WHERE clauses with the same equality conditions end in the same way,
    whatever comparisons, LIKE patterns or OR branches they hold
    besides. *)
Theorem covered_where_is_dropped {js : Json} {crc : Crc32} (q : QueryEngine) (env : Env)
    (c c' : Condition) :
  hasOverrides (Updates q) = false →
  ExtractIndexConditions c = ExtractIndexConditions c' →
  sortedKeys (ExtractIndexConditions c) ≠ [] →
  is_Some (indexFiles env !!
             (csvNameOf (CsvPath (config q)) ++ bs "_" ++
              Join (sortedKeys (ExtractIndexConditions c)) (bs "_") ++ bs ".cidx")) →
  Run q env (Some c) = Run q env (Some c').
Proof.
  intros Hover Heq Hne Hfile. unfold Run. cbn zeta. rewrite Hover.
  rewrite !(bool_decide_eq_false_2 (Some _ = None)) by done.
  rewrite (findBestIndex_full _ _ _ c Hne Hfile).
  rewrite Heq in Hne, Hfile.
  rewrite (findBestIndex_full _ _ _ c' Hne Hfile).
  rewrite (dropCovered_all _ c') by done.
  rewrite <- Heq in *.
  rewrite (dropCovered_all _ c) by done.
  done.
Qed.

Definition where_dept_only : Condition :=
  mkCondition (bs "AND") [] None
    [mkCondition OpEq (bs "dept") (Some (bs "Eng")) [] []] [].

Definition dept_env : Env :=
  {| csvFile := Some (bs "dept,salary" ++ [NL] ++ bs "Eng,3" ++ [NL] ++ bs "Eng,7" ++ [NL]);
     sidecar := Absent;
     indexFiles :=
       {[ bs "t_dept.cidx" :=
            w (Close (foldl WriteRecord (NewBlockWriter [])
                        [sample_record "Eng" 12 2; sample_record "Eng" 18 3])) ]};
     getHeaderMap := Ok ({[ bs "dept" := 0%nat; bs "salary" := 1%nat ]}, []);
     numCPU := 1 |}.

Definition dept_query (limit : Z) : QueryEngine :=
  {| config := {| CsvPath := bs "t.csv"; IndexDir := bs "idx"; GroupBy := []; AggCol := [];
                  AggFunc := []; CountOnly := false; Limit := limit; Offset := 0;
                  Explain := false |};
     Updates := None |}.

Lemma covered_where_is_dropped_witness :
  Run (dept_query 0) dept_env (Some (resolveTargets where_dept_salary)) =
  Run (dept_query 0) dept_env (Some (resolveTargets where_dept_only)).
Proof.
  apply (covered_where_is_dropped (js := json_reference) (crc := crc32_reference)).
  - reflexivity.
  - reflexivity.
  - vm_compute. discriminate.
  - vm_compute. by eexists.
Defined.

(** *** The limit of the output *)

(** What the output loop keeps: the rows written are the rows counted
    (none when only the count is asked for), and with a limit the count
    stays below it until the loop is told to stop. *)
Definition out_inv (q : QueryEngine) (st : outState) : Prop :=
  0 <= count st ∧
  Z.of_nat (length (written st)) = (if CountOnly (config q) then 0 else count st) ∧
  (0 < Limit (config q) →
   count st <= Limit (config q) ∧ (limitReached st = false → count st < Limit (config q))).

Lemma recordLoop_inv (q : QueryEngine) (env : Env) (headers : gmap (list byte) nat)
    (virtualDefaults : list (list byte)) (searchKey : list byte) (hasSearchKey : bool)
    (where_ : option Condition) (records : list IndexRecord) : ∀ st st',
  out_inv q st → limitReached st = false →
  recordLoop q env headers virtualDefaults searchKey hasSearchKey where_ records st
    = Ok st' →
  out_inv q st'.
Proof.
  induction records as [|rec records IH]; intros st st' Hinv Hlim; cbn [recordLoop].
  { by intros [= <-]. }
  destruct Hinv as (Hcount & Hlen & Hlimit).
  destruct (hasSearchKey && (compareRecordKey (Key rec) searchKey <? 0)).
  { by apply IH. }
  destruct (hasSearchKey && (0 <? compareRecordKey (Key rec) searchKey)).
  { intros [= <-]. split; [done|]. split; [done|]. cbn. intros Hl.
    split; [by apply Hlimit|done]. }
  destruct (rowPasses q env headers virtualDefaults where_ rec) as [passes| | |];
    cbn [mbind result_bind]; try discriminate.
  destruct passes; cbn [negb]; [|by apply IH].
  destruct (Z.ltb_spec (skipped st) (Offset (config q))).
  { by apply IH. }
  cbn [count skipped limitReached written].
  destruct ((0 <? Limit (config q)) && (Limit (config q) <=? count st + 1)) eqn:Hfull.
  - intros [= <-]. apply andb_true_iff in Hfull as [Hpos Hle].
    apply Z.ltb_lt in Hpos. apply Z.leb_le in Hle.
    destruct (Hlimit Hpos) as [_ Hlt]. specialize (Hlt Hlim).
    split; [cbn; lia|]. split; [|cbn; intros _; split; [lia|done]].
    cbn. rewrite length_app. destruct (CountOnly (config q)); cbn [length]; lia.
  - apply IH; [|done]. split; [cbn; lia|]. split.
    + cbn. rewrite length_app. destruct (CountOnly (config q)); cbn [length]; lia.
    + cbn. intros Hpos. apply andb_false_iff in Hfull as [Hf|Hf].
      * apply Z.ltb_ge in Hf. lia.
      * apply Z.leb_gt in Hf. lia.
Qed.

Lemma blockLoop_inv `{Lz4} (q : QueryEngine) (env : Env) (headers : gmap (list byte) nat)
    (virtualDefaults : list (list byte)) (br : BlockReader) (searchKey : list byte)
    (hasSearchKey : bool) (where_ : option Condition) (endBlockIdx : Z) (todo : nat) :
  ∀ i st st',
  out_inv q st →
  blockLoop q env headers virtualDefaults br searchKey hasSearchKey where_ endBlockIdx
    todo i st = Ok st' →
  out_inv q st'.
Proof.
  induction todo as [|todo IH]; intros i st st' Hinv; cbn [blockLoop].
  { by intros [= <-]. }
  destruct (endBlockIdx <? i); [by intros [= <-]|].
  destruct (limitReached st) eqn:Hlim; [by intros [= <-]|].
  destruct (i <? 0); [discriminate|].
  destruct (Blocks (Footer br) !! Z.to_nat i) as [blockMeta|]; [|discriminate].
  destruct (hasSearchKey && strGt (StartKey blockMeta) searchKey); [by intros [= <-]|].
  destruct (ReadBlock br blockMeta) as [records| | |]; cbn [mbind result_bind];
    try discriminate.
  destruct (recordLoop q env headers virtualDefaults searchKey hasSearchKey where_
              records st) as [st1| | |] eqn:Hrec; cbn [mbind result_bind]; try discriminate.
  apply IH. by apply (recordLoop_inv _ _ _ _ _ _ _ _ _ _ Hinv Hlim Hrec).
Qed.

(** X19. The limit of a query through the index. With a positive limit,
    [runStandardOutput] never writes more rows than the limit, and the
    count that it prints when only the count is asked for is never above
    it. *)
Theorem output_respects_limit {lz : Lz4} (q : QueryEngine) (env : Env) (br : BlockReader)
    (searchKey : list byte) (hasSearchKey : bool) (startBlockIdx endBlockIdx : Z)
    (where_ : option Condition) (out : list OutLine) :
  0 < Limit (config q) →
  runStandardOutput q env br searchKey hasSearchKey startBlockIdx endBlockIdx where_
    = Ok out →
  if CountOnly (config q)
  then ∃ n, out = [OutCount n] ∧ 0 <= n <= Limit (config q)
  else Z.of_nat (length out) <= Limit (config q).
Proof.
  intros Hpos. unfold runStandardOutput.
  destruct (getHeaderMap env) as [[headers virtualDefaults]| | |];
    cbn [mbind result_bind]; try discriminate.
  destruct (blockLoop _ _ _ _ _ _ _ _ _ _ _ _) as [st| | |] eqn:Hloop;
    cbn [mbind result_bind]; try discriminate.
  intros [= <-].
  apply blockLoop_inv in Hloop as (Hcount & Hlen & Hlimit).
  2:{ split; [done|]. split; [by destruct (CountOnly (config q))|]. cbn. lia. }
  destruct (Hlimit Hpos) as [Hle _].
  destruct (CountOnly (config q)).
  - destruct (written st); [|cbn [length] in Hlen; lia].
    eexists. split; [reflexivity|lia].
  - rewrite app_nil_r. lia.
Qed.

Definition dept_reader : BlockReader :=
  match NewBlockReader (w (Close (foldl WriteRecord (NewBlockWriter [])
                                    [sample_record "Eng" 12 2; sample_record "Eng" 18 3]))) with
  | Ok br => br
  | _ => {| r := []; Footer := {| Blocks := [] |} |}
  end.

Lemma output_respects_limit_witness :
  ∃ out,
    runStandardOutput (dept_query 1) dept_env dept_reader (bs "Eng") true 0 0 None = Ok out ∧
    Z.of_nat (length out) <= 1.
Proof.
  eexists. split; [vm_compute; reflexivity|].
  apply (output_respects_limit (lz := stored_lz4) (dept_query 1) dept_env dept_reader
           (bs "Eng") true 0 0 None).
  - reflexivity.
  - vm_compute. reflexivity.
Defined.

End QueryMore.

(** ** The scanner: bitmaps, chunk boundaries and header names *)

Module ParserMore.
Import simd parser strings manager query BitmapFacts FieldFacts BoundaryFacts.

(** X20. The bitmaps of a chunk. For every byte of the chunk, its bit in
    the quote bitmap tells whether it is a quote, its bit in the separator
    bitmap whether it is the separator (and no quote), and its bit in the
    newline bitmap whether it is a newline (and neither a quote nor the
    separator: with the newline as separator, no newline is marked). *)
Theorem bitmaps_mark_bytes (chunkData : list byte) (sep : byte) (j : nat) (b : byte) :
  chunkData !! j = Some b →
  bitAt (classify chunkData sep).1.1 j = bool_decide (b = QUOTE) ∧
  bitAt (classify chunkData sep).1.2 j
    = negb (bool_decide (b = QUOTE)) && bool_decide (b = sep) ∧
  bitAt (classify chunkData sep).2 j
    = negb (bool_decide (b = QUOTE)) && negb (bool_decide (b = sep))
      && bool_decide (b = NL).
Proof.
  intros Hj. pose proof (lookup_lt_Some _ _ _ Hj) as Hlt.
  destruct (classify_spec chunkData sep)
    as (quotes & seps & newlines & -> & Hlq & Hls & Hln & Hq & Hs & Hn).
  cbn [fst snd].
  assert (Hword : (j / 64 < (length chunkData + 63) / 64)%nat).
  { apply Nat.Div0.div_lt_upper_bound.
    pose proof (Nat.div_mod_eq (length chunkData + 63) 64).
    pose proof (Nat.mod_upper_bound (length chunkData + 63) 64 ltac:(lia)). lia. }
  rewrite (Hq j), (Hs j), (Hn j) by (rewrite ?Hlq, ?Hls, ?Hln; exact Hword).
  rewrite Hj, bool_decide_eq_true_2 by done. done.
Qed.

Lemma bitmaps_mark_bytes_witness :
  bitAt (classify (bs "a,b" ++ [NL]) COMMA).1.1 1 = bool_decide (COMMA = QUOTE) ∧
  bitAt (classify (bs "a,b" ++ [NL]) COMMA).1.2 1
    = negb (bool_decide (COMMA = QUOTE)) && bool_decide (COMMA = COMMA) ∧
  bitAt (classify (bs "a,b" ++ [NL]) COMMA).2 1
    = negb (bool_decide (COMMA = QUOTE)) && negb (bool_decide (COMMA = COMMA))
      && bool_decide (COMMA = NL).
Proof.
  apply (bitmaps_mark_bytes (bs "a,b" ++ [NL]) COMMA 1 COMMA). reflexivity.
Defined.

Lemma boundaryLoop_after_newline (data : list byte) (fuel : nat) : ∀ currentNL,
  data !! currentNL = Some NL →
  (boundaryLoop fuel data currentNL ≤ length data)%nat ∧
  (boundaryLoop fuel data currentNL = length data ∨
   (currentNL < boundaryLoop fuel data currentNL)%nat ∧
   data !! (boundaryLoop fuel data currentNL - 1)%nat = Some NL).
Proof.
  induction fuel as [|fuel IH]; intros currentNL Hnl; cbn [boundaryLoop].
  { split; [done|by left]. }
  case_bool_decide as Hend; [split; [done|by left]|].
  assert (Hhere : (currentNL + 1 ≤ length data)%nat ∧
                  ((currentNL + 1)%nat = length data ∨
                   (currentNL < currentNL + 1)%nat ∧
                   data !! (currentNL + 1 - 1)%nat = Some NL)).
  { split; [lia|]. right. split; [lia|].
    by replace (currentNL + 1 - 1)%nat with currentNL by lia. }
  destruct (IndexByte (drop (currentNL + 1) data) NL) as [nextNL|] eqn:Hnext; [|done].
  case_bool_decide; [done|].
  apply IndexByte_Some in Hnext as [Hnext _]. rewrite lookup_drop in Hnext.
  destruct (IH _ Hnext) as [Hle [Heq|[Hlt Hat]]].
  - split; [done|by left].
  - split; [done|]. right. split; [lia|done].
Qed.

(** X21. Where a chunk may start. [findSafeRecordBoundary] returns the end
    of the data, or a position after the hint that follows a newline: no
    chunk begins in the middle of a line. *)
Theorem boundary_after_newline (data : list byte) (hint : nat) :
  (findSafeRecordBoundary data hint ≤ length data)%nat ∧
  (findSafeRecordBoundary data hint = length data ∨
   (hint < findSafeRecordBoundary data hint)%nat ∧
   data !! (findSafeRecordBoundary data hint - 1)%nat = Some NL).
Proof.
  unfold findSafeRecordBoundary.
  case_bool_decide; [split; [done|by left]|].
  destruct (IndexByte (drop hint data) NL) as [nextNL|] eqn:Hnext;
    [|split; [done|by left]].
  apply IndexByte_Some in Hnext as [Hnext _]. rewrite lookup_drop in Hnext.
  destruct (boundaryLoop_after_newline data (length data) _ Hnext)
    as [Hle [Heq|[Hlt Hat]]].
  - split; [done|by left].
  - split; [done|]. right. split; [lia|done].
Qed.

Lemma headerMapOf_snoc (headers : list (list byte)) (h : list byte) :
  headerMapOf (headers ++ [h]) = <[ToLower h := length headers]> (headerMapOf headers).
Proof.
  unfold headerMapOf. rewrite imap_app, foldl_app. cbn [imap foldl fst snd].
  by rewrite Nat.add_0_r.
Qed.

(** X22. Looking a column up by name, for header names and a name within
    ASCII (where trimming and case folding are those of the ASCII white
    space and letters). The name is trimmed and compared without regard to
    case; when several header names agree with it, the last one is the
    column found, and when none does the lookup fails. *)
Theorem GetColumnIndex_finds_last (headers : list (list byte)) (name : list byte) :
  Forall (λ h, isASCII h = true) headers → isASCII name = true →
  match GetColumnIndex (headerMapOf headers) name with
  | Some i =>
      (∃ h, headers !! i = Some h ∧ ToLower h = ToLower (TrimSpace name)) ∧
      ∀ j h, headers !! j = Some h → ToLower h = ToLower (TrimSpace name) → (j ≤ i)%nat
  | None => ∀ h, h ∈ headers → ToLower h ≠ ToLower (TrimSpace name)
  end.
Proof.
  intros _ _.
  unfold GetColumnIndex. set (key := ToLower (TrimSpace name)).
  induction headers as [|x headers IH] using rev_ind.
  { unfold headerMapOf. cbn. rewrite lookup_empty. intros h Hh. by apply elem_of_nil in Hh. }
  rewrite headerMapOf_snoc.
  destruct (decide (ToLower x = key)) as [Hx|Hx].
  - rewrite Hx, lookup_insert_eq. split.
    + exists x. split; [|done]. by rewrite lookup_app_r, Nat.sub_diag by lia.
    + intros j h Hj _. apply lookup_lt_Some in Hj.
      rewrite length_app in Hj. cbn [length] in Hj. lia.
  - rewrite lookup_insert_ne by done.
    destruct (headerMapOf headers !! key) as [i|].
    + destruct IH as [(h & Hh & Hkey) Hlast]. split.
      * exists h. split; [|done]. apply lookup_app_l_Some, Hh.
      * intros j h' Hj Hk. apply lookup_app_Some in Hj as [Hj|[Hlen Hj]].
        -- by apply (Hlast j h').
        -- apply list_lookup_singleton_Some in Hj as [_ <-]. done.
    + intros h Hh. apply elem_of_app in Hh as [Hh|Hh]; [by apply IH|].
      apply list_elem_of_singleton in Hh. by subst.
Qed.

(** Three header names of which two agree with the name looked up: the
    column found is the last of them. *)
Lemma GetColumnIndex_finds_last_witness :
  GetColumnIndex (headerMapOf [bs "Id"; bs "name"; bs "ID"]) (bs " id ") = Some 2%nat ∧
  match GetColumnIndex (headerMapOf [bs "Id"; bs "name"; bs "ID"]) (bs " id ") with
  | Some i =>
      (∃ h, [bs "Id"; bs "name"; bs "ID"] !! i = Some h
            ∧ ToLower h = ToLower (TrimSpace (bs " id "))) ∧
      ∀ j h, [bs "Id"; bs "name"; bs "ID"] !! j = Some h →
             ToLower h = ToLower (TrimSpace (bs " id ")) → (j ≤ i)%nat
  | None => ∀ h, h ∈ [bs "Id"; bs "name"; bs "ID"] →
                 ToLower h ≠ ToLower (TrimSpace (bs " id "))
  end.
Proof.
  split; [vm_compute; reflexivity|].
  apply (GetColumnIndex_finds_last [bs "Id"; bs "name"; bs "ID"] (bs " id ")).
  - repeat constructor.
  - reflexivity.
Defined.




End ParserMore.

(** ** The full scan *)

Module FullScanFacts.
Import parser strings query BoundaryFacts.

(** The lines that the loop of [runFullScan] reads from [rest], each with
    the offset at which it starts and its line number. *)
Fixpoint scanLines (fuel : nat) (rest : list byte) (lineNum currentOffset : Z)
  : list (Z * Z * list byte) :=
  match fuel with
  | O => []
  | S fuel' =>
      match ReadBytes rest with
      | None => []
      | Some (line, rest') =>
          (currentOffset, lineNum + 1, line)
            :: scanLines fuel' rest' (lineNum + 1) (currentOffset + Z.of_nat (length line))
      end
  end.

(** The lines of the file after the header line, which ends at [n]. *)
Definition dataLines (data : list byte) (n : nat) : list (Z * Z * list byte) :=
  scanLines (S (length data)) (drop (S n) data) 1 (Z.of_nat (S n)).

(** What is written for the rows shown. *)
Definition outRows (q : QueryEngine) (shown : list (Z * Z * list byte)) : list OutLine :=
  if CountOnly (config q) then [] else (λ row, OutRow row.1.1 row.1.2) <$> shown.

(** OFFSET and LIMIT, after [skipped] rows have been skipped and [count]
    rows shown. *)
Definition window (q : QueryEngine) (count skipped : Z) (matched : list (Z * Z * list byte))
  : list (Z * Z * list byte) :=
  let rest := drop (Z.to_nat (Offset (config q) - skipped)) matched in
  if 0 <? Limit (config q) then take (Z.to_nat (Limit (config q) - count)) rest else rest.

Lemma ReadBytes_shorter (rest line rest' : list byte) :
  ReadBytes rest = Some (line, rest') →
  rest = line ++ rest' ∧ line ≠ [] ∧
  (IndexByte line NL = Some (length line - 1)%nat ∨ IndexByte line NL = None ∧ rest' = []).
Proof.
  unfold ReadBytes. case_bool_decide as Hne; [done|].
  destruct (IndexByte rest NL) as [n|] eqn:Hn.
  - intros [= <- <-]. rewrite take_drop. split; [done|].
    apply IndexByte_Some in Hn as [Hn Hlow].
    pose proof (lookup_lt_Some _ _ _ Hn) as Hlt.
    split; [intros Ht; apply (f_equal length) in Ht; rewrite length_take in Ht;
            cbn [length] in Ht; lia|].
    left. apply IndexByte_Some. rewrite length_take.
    replace (S n `min` length rest - 1)%nat with n by lia. split.
    + by rewrite lookup_take_lt by lia.
    + intros j Hj. rewrite lookup_take_lt by lia. by apply Hlow.
  - intros [= <- <-]. rewrite app_nil_r. split; [done|]. split; [done|]. by right.
Qed.

Lemma outRows_app (q : QueryEngine) (a b : list (Z * Z * list byte)) :
  outRows q (a ++ b) = outRows q a ++ outRows q b.
Proof. unfold outRows. destruct (CountOnly (config q)); [done|]. by rewrite fmap_app. Qed.

(** The line passes the WHERE clause. *)
Definition passing (q : QueryEngine) (headers : gmap (list byte) nat)
    (virtualDefaults : list (list byte)) (where_ : option Condition) (maxCol : Z)
    (row : Z * Z * list byte) : Prop :=
  scanPasses q headers virtualDefaults where_ maxCol row.1.2 row.2 = true.

#[export] Instance passing_dec q headers virtualDefaults where_ maxCol row :
  Decision (passing q headers virtualDefaults where_ maxCol row).
Proof. unfold passing. apply _. Defined.

Section loop.
Variables (q : QueryEngine) (headers : gmap (list byte) nat).
Variables (virtualDefaults : list (list byte)) (where_ : option Condition) (maxCol : Z).

Lemma fullScanLoop_spec (fuel : nat) : ∀ rest lineNum currentOffset count skipped written,
  (length rest < fuel)%nat → 0 <= skipped → 0 <= count →
  (0 < Limit (config q) → count < Limit (config q)) →
  fullScanLoop q headers virtualDefaults where_ maxCol fuel rest lineNum currentOffset
    count skipped written =
  let shown := window q count skipped
                 (filter (passing q headers virtualDefaults where_ maxCol) (scanLines fuel rest lineNum currentOffset)) in
  Ok (count + Z.of_nat (length shown), written ++ outRows q shown).
Proof.
  induction fuel as [|fuel IH];
    intros rest lineNum currentOffset count skipped written Hfuel Hsk Hcount Hlimit;
    [lia|].
  cbn [fullScanLoop scanLines].
  destruct (ReadBytes rest) as [[line rest']|] eqn:Hread.
  2:{ cbn zeta. unfold window. rewrite filter_nil, drop_nil, take_nil.
      destruct (0 <? Limit (config q)); cbn [length outRows]; unfold outRows;
        destruct (CountOnly (config q)); cbn; by rewrite Z.add_0_r, app_nil_r. }
  destruct (ReadBytes_shorter _ _ _ Hread) as (Hsplit & Hline & _).
  assert (Hshort : (length rest' < fuel)%nat).
  { rewrite Hsplit, length_app in Hfuel. destruct line; [done|]. cbn [length] in Hfuel. lia. }
  set (row := (currentOffset, lineNum + 1, line)).
  set (rows := scanLines fuel rest' (lineNum + 1) (currentOffset + Z.of_nat (length line))).
  destruct (scanPasses q headers virtualDefaults where_ maxCol (lineNum + 1) line) eqn:Hpass;
    cbn [negb].
  2:{ rewrite IH by done. cbn zeta. fold rows.
      rewrite (filter_cons_False (passing q headers virtualDefaults where_ maxCol) row); [done|]. unfold passing, row. cbn [fst snd].
      by rewrite Hpass. }
  rewrite (filter_cons_True (passing q headers virtualDefaults where_ maxCol) row) by done.
  destruct (Z.ltb_spec skipped (Offset (config q))) as [Hskip|Hshow].
  { rewrite IH by (done || lia). cbn zeta. fold rows. unfold window.
    replace (Z.to_nat (Offset (config q) - skipped))
      with (S (Z.to_nat (Offset (config q) - (skipped + 1)))) by lia.
    done. }
  assert (Hwin : window q count skipped (row :: filter (passing q headers virtualDefaults where_ maxCol) rows)
                 = row :: (if (0 <? Limit (config q)) && (Limit (config q) <=? count + 1)
                           then [] else window q (count + 1) skipped (filter (passing q headers virtualDefaults where_ maxCol) rows))).
  { unfold window.
    replace (Z.to_nat (Offset (config q) - skipped)) with 0%nat by lia.
    rewrite !drop_0.
    destruct (Z.ltb_spec 0 (Limit (config q))) as [Hpos|Hnone]; cbn [andb]; [|done].
    specialize (Hlimit Hpos).
    replace (Z.to_nat (Limit (config q) - count))
      with (S (Z.to_nat (Limit (config q) - (count + 1)))) by lia.
    cbn [take]. f_equal.
    destruct (Z.leb_spec (Limit (config q)) (count + 1)); [|done].
    replace (Z.to_nat (Limit (config q) - (count + 1))) with 0%nat by lia.
    by rewrite take_0. }
  cbn zeta. fold rows. rewrite Hwin.
  assert (Hrow : outRows q [row]
                 = (if CountOnly (config q) then [] else [OutRow currentOffset (lineNum + 1)])).
  { unfold outRows. by destruct (CountOnly (config q)). }
  destruct ((0 <? Limit (config q)) && (Limit (config q) <=? count + 1)) eqn:Hfull.
  - rewrite <- Hrow. cbn [length]. do 2 f_equal.
  - rewrite IH; [|done|lia|lia|].
    + cbn zeta. fold rows.
      change (row :: window q (count + 1) skipped (filter (passing q headers virtualDefaults where_ maxCol) rows))
        with ([row] ++ window q (count + 1) skipped (filter (passing q headers virtualDefaults where_ maxCol) rows)).
      rewrite outRows_app, Hrow, length_app, app_assoc. cbn [length]. do 2 f_equal. lia.
    + intros Hpos. apply andb_false_iff in Hfull as [Hf|Hf].
      * apply Z.ltb_ge in Hf. lia.
      * apply Z.leb_gt in Hf. lia.
Qed.

End loop.

(** The values of a condition are within ASCII. *)
Fixpoint asciiCondition (c : Condition) : bool :=
  match c with
  | mkCondition _ _ _ children target =>
      isASCII target && forallb asciiCondition children
  end.

(** A scan with a condition whose input is within ASCII, where trimming a
    line and folding the case of a value are as the model has them: the
    file, the header names, the default values, the values of the
    condition and those of the overrides. The header map is one that
    [getHeaderMap] builds: the names in lower case, each at a position of
    its own. Nothing is asked of a scan without a condition, which compares
    no value. *)
Definition asciiScan (q : QueryEngine) (data : list byte) (headers : gmap (list byte) nat)
    (virtualDefaults : list (list byte)) (where_ : option Condition) : bool :=
  match where_ with
  | None => true
  | Some c =>
      isASCII data
      && forallb (λ kv, isASCII kv.1 && bool_decide (ToLower kv.1 = kv.1))
           (map_to_list headers)
      && bool_decide (NoDup (snd <$> map_to_list headers))
      && forallb isASCII virtualDefaults
      && asciiCondition c
      && match Updates q with
         | Some um =>
             forallb (λ row, forallb (λ kv, isASCII kv.2) (map_to_list row.2))
               (map_to_list (Overrides um))
         | None => true
         end
  end.

(** X24. What a full scan prints, for a scan without a condition or with
    input within ASCII ([asciiScan]). The rows shown are the lines after
    the header that pass the WHERE clause (all lines without one), less the
    first Offset of them, and only the first Limit of the others when the
    limit is positive: the offset and line number of each, or their number
    with CountOnly. *)
Theorem runFullScan_window (q : QueryEngine) (env : Env) (where_ : option Condition)
    (data : list byte) (headers : gmap (list byte) nat)
    (virtualDefaults : list (list byte)) (n : nat) :
  csvFile env = Some data → getHeaderMap env = Ok (headers, virtualDefaults) →
  IndexByte data NL = Some n →
  asciiScan q data headers virtualDefaults where_ = true →
  let maxCol :=
    map_fold (λ _ v maxCol, if maxCol <? Z.of_nat v then Z.of_nat v else maxCol) 0 headers in
  let matched :=
    filter (passing q headers virtualDefaults where_ maxCol) (dataLines data n) in
  let shown :=
    if 0 <? Limit (config q)
    then take (Z.to_nat (Limit (config q))) (drop (Z.to_nat (Offset (config q))) matched)
    else drop (Z.to_nat (Offset (config q))) matched in
  runFullScan q env where_ =
  Ok (if CountOnly (config q) then [OutCount (Z.of_nat (length shown))]
      else (λ row, OutRow row.1.1 row.1.2) <$> shown).
Proof.
  intros Hcsv Hheaders Hnl _. cbn zeta. unfold runFullScan.
  rewrite Hcsv, Hheaders. cbn [mbind result_bind]. rewrite Hnl.
  rewrite fullScanLoop_spec; [|rewrite length_drop; lia|done|done|lia].
  cbn zeta. cbn [mbind result_bind]. fold (dataLines data n).
  unfold window. rewrite !Z.sub_0_r.
  unfold outRows. destruct (CountOnly (config q)); [done|]. by rewrite app_nil_r.
Qed.

Definition scanned_env : Env :=
  {| csvFile := Some (bs "dept,salary" ++ [NL] ++ bs "Eng,3" ++ [NL] ++ bs "Ops,5" ++ [NL]
                      ++ bs "Eng,7");
     sidecar := Absent;
     indexFiles := ∅;
     getHeaderMap := Ok ({[ bs "dept" := 0%nat; bs "salary" := 1%nat ]}, []);
     numCPU := 1 |}.

Definition scanned_query : QueryEngine :=
  {| config := {| CsvPath := bs "t.csv"; IndexDir := bs "idx"; GroupBy := []; AggCol := [];
                  AggFunc := []; CountOnly := false; Limit := 1; Offset := 1;
                  Explain := false |};
     Updates := None |}.

Definition where_eng : Condition :=
  resolveTargets (mkCondition OpEq (bs "dept") (Some (bs "Eng")) [] []).

Lemma runFullScan_window_witness :
  runFullScan scanned_query scanned_env (Some where_eng) = Ok [OutRow 24 4].
Proof.
  rewrite (runFullScan_window scanned_query scanned_env (Some where_eng)
             (bs "dept,salary" ++ [NL] ++ bs "Eng,3" ++ [NL] ++ bs "Ops,5" ++ [NL]
              ++ bs "Eng,7")
             {[ bs "dept" := 0%nat; bs "salary" := 1%nat ]} [] 11).
  - vm_compute. reflexivity.
  - reflexivity.
  - reflexivity.
  - reflexivity.
  - vm_compute. reflexivity.
Defined.

Lemma join_lines (x : list byte) (l : list (list byte)) : mjoin (x :: l) = x ++ mjoin l.
Proof. done. Qed.

Lemma scanLines_spec (fuel : nat) : ∀ rest lineNum currentOffset,
  (length rest < fuel)%nat →
  let rows := scanLines fuel rest lineNum currentOffset in
  mjoin ((λ row, row.2) <$> rows) = rest ∧
  ∀ k off num line, rows !! k = Some (off, num, line) →
    num = lineNum + 1 + Z.of_nat k ∧
    off = currentOffset + Z.of_nat (length (mjoin ((λ row, row.2) <$> take k rows))) ∧
    line ≠ [] ∧
    (IndexByte line NL = Some (length line - 1)%nat ∨
     IndexByte line NL = None ∧ S k = length rows).
Proof.
  induction fuel as [|fuel IH]; intros rest lineNum currentOffset Hfuel; [lia|].
  cbn [scanLines]. destruct (ReadBytes rest) as [[line rest']|] eqn:Hread.
  2:{ cbn zeta. unfold ReadBytes in Hread. case_bool_decide as Hnil.
      - subst rest. split; [done|]. intros k off num line Hk. done.
      - by destruct (IndexByte rest NL). }
  destruct (ReadBytes_shorter _ _ _ Hread) as (Hsplit & Hline & Hnl).
  assert (Hshort : (length rest' < fuel)%nat).
  { rewrite Hsplit, length_app in Hfuel. destruct line; [done|]. cbn [length] in Hfuel. lia. }
  destruct (IH rest' (lineNum + 1) (currentOffset + Z.of_nat (length line)) Hshort)
    as [Hjoin Hrows].
  cbn zeta in *.
  set (rows := scanLines fuel rest' (lineNum + 1) (currentOffset + Z.of_nat (length line)))
    in *.
  split.
  - rewrite fmap_cons, join_lines, Hjoin. done.
  - intros [|k] off num line' Hk.
    + injection Hk as <- <- <-. rewrite take_0, fmap_nil.
      split; [lia|]. split; [cbn; lia|]. split; [done|].
      destruct Hnl as [Hnl|[Hnl Hrest]]; [by left|]. right. split; [done|].
      subst rest'. destruct fuel; [cbn in Hshort; lia|]. done.
    + cbn [lookup list_lookup] in Hk. destruct (Hrows k off num line' Hk)
        as (Hnum & Hoff & Hne & Hend).
      rewrite firstn_cons, fmap_cons, join_lines, length_app. cbn [snd length].
      split; [lia|]. split; [lia|]. split; [done|].
      destruct Hend as [?|[? ?]]; [by left|right]. split; [done|]. lia.
Qed.

(** X25. The positions of a full scan. The lines that a full scan reads
    after the header are the rest of the file cut after every newline: put
    together they give the file back, the k-th of them has line number
    k + 2 and starts at the offset where the lines before it end, none is
    empty, and each ends with its only newline, but for a last line
    without one. *)
Theorem full_scan_positions (data : list byte) (n : nat) :
  IndexByte data NL = Some n →
  take (S n) data ++ mjoin ((λ row, row.2) <$> dataLines data n) = data ∧
  ∀ k off num line, dataLines data n !! k = Some (off, num, line) →
    num = Z.of_nat k + 2 ∧
    off = Z.of_nat (S n + length (mjoin ((λ row, row.2) <$> take k (dataLines data n)))) ∧
    line ≠ [] ∧
    (IndexByte line NL = Some (length line - 1)%nat ∨
     IndexByte line NL = None ∧ S k = length (dataLines data n)).
Proof.
  intros Hnl. unfold dataLines.
  destruct (scanLines_spec (S (length data)) (drop (S n) data) 1 (Z.of_nat (S n)))
    as [Hjoin Hrows]; [rewrite length_drop; lia|].
  cbn zeta in *. split.
  - by rewrite Hjoin, take_drop.
  - intros k off num line Hk. destruct (Hrows k off num line Hk) as (Hnum & Hoff & Hrest).
    split; [lia|]. split; [lia|done].
Qed.

Lemma full_scan_positions_witness :
  dataLines (bs "a,b" ++ [NL] ++ bs "1,x" ++ [NL] ++ bs "2,y") 3
  = [(4, 2, bs "1,x" ++ [NL]); (8, 3, bs "2,y")] ∧
  take 4 (bs "a,b" ++ [NL] ++ bs "1,x" ++ [NL] ++ bs "2,y")
    ++ mjoin ((λ row, row.2)
                <$> dataLines (bs "a,b" ++ [NL] ++ bs "1,x" ++ [NL] ++ bs "2,y") 3)
  = bs "a,b" ++ [NL] ++ bs "1,x" ++ [NL] ++ bs "2,y".
Proof.
  split; [vm_compute; reflexivity|].
  apply (full_scan_positions (bs "a,b" ++ [NL] ++ bs "1,x" ++ [NL] ++ bs "2,y") 3).
  reflexivity.
Defined.

End FullScanFacts.
